(** * OpenDrop game engine: a shallow embedding of the board engine, the
    dispense controller and the Tetris piece state machine.

    Sources embedded: [gameUtils.ts] (Vec, distance, Reservoir,
    dispenseSequence, reverseNibble), [Game.ts] (class Game) and
    [Tetris/Tetromino.ts], [Tetris/Tetris.ts].

    Numbers.  The engine only ever computes with integers, so a JavaScript
    number is a [Z]; this is exact for the integers a double holds together
    with their neighbours (below 2^53), and the statements that depend on it
    say which cells they are about.  The bit operators [&], [|], [<<], [>>] act on the 32-bit
    signed reading of their operands; that reading is written out in
    [toInt32].  A store into a [Uint8Array] keeps the value modulo 256. *)

From Stdlib Require Import ZArith List Bool Lia.
From Equations Require Import Equations.
Import ListNotations.
Local Open Scope Z_scope.

(** ** JavaScript integer operators *)

Definition toInt32 (z : Z) : Z := (z + 2 ^ 31) mod 2 ^ 32 - 2 ^ 31.

Definition js_and (a b : Z) : Z := Z.land (toInt32 a) (toInt32 b).
Definition js_or (a b : Z) : Z := Z.lor (toInt32 a) (toInt32 b).
Definition js_shl (a n : Z) : Z := toInt32 (Z.shiftl (toInt32 a) (n mod 32)).
Definition js_shr (a n : Z) : Z := Z.shiftr (toInt32 a) (n mod 32).

(** [packet[i] = v] on a [Uint8Array]. *)
Definition toUint8 (v : Z) : Z := v mod 256.

(** ** gameUtils.ts *)

Record Vec : Type := mkVec { vx : Z; vy : Z }.

Definition vecAdd (a b : Vec) : Vec := mkVec (vx a + vx b) (vy a + vy b).
Definition vecSub (a b : Vec) : Vec := mkVec (vx a - vx b) (vy a - vy b).

Definition vec_eqb (a b : Vec) : bool := (vx a =? vx b) && (vy a =? vy b).

Inductive Reservoir : Type := TL | BL | TR | BR.

Definition Reservoir_eqb (a b : Reservoir) : bool :=
  match a, b with
  | TL, TL | BL, BL | TR, TR | BR, BR => true
  | _, _ => false
  end.

Definition dispenseSequence : list Z :=
  [ 8 (* 0b1000 *); 12 (* 0b1100 *); 7 (* 0b0111 *); 1 (* 0b0001 *);
    12 (* 0b1100 *); 10 (* 0b1010 *); 10 (* 0b1010 *) ].

Definition reverseNibble (nibble : Z) : Z :=
  js_or (js_or (js_or (js_shl (js_and nibble 1) 3)
                      (js_shl (js_and nibble 2) 1))
               (js_shr (js_and nibble 4) 1))
        (js_shr (js_and nibble 8) 3).

Definition dispenseDropFrame : nat := 3.

(** [distance] is [Math.sqrt] of a sum of two integer squares.  The value is
    kept symbolically as the square root of its radicand; [Infinity] is the
    initial [closestDistance] of [fillTick].  The square root is strictly
    increasing, so [<] on two such values is [<] on the radicands.

    This is what the code computes as long as the doubles are exact enough:
    the squares and their sum must be integers a double holds (below 2^53),
    and two different radicands must have different rounded square roots,
    which holds while the radicands stay below about 2^51.  For cells with
    coordinates of magnitude up to 2^20 ([smallCell] below) the radicands are
    below 2^43 and two square roots differ by more than 2^-23, against a
    rounding error below 2^-32.  Past that range [Math.sqrt] can return the
    same double for two radicands, and [Dist_ltb] no longer is the code's
    comparison: the statements about [distance] are made for small cells. *)
Inductive Dist : Type :=
| Sqrt (radicand : Z)
| Infinity.

Definition Dist_ltb (a b : Dist) : bool :=
  match a, b with
  | Sqrt r, Sqrt s => r <? s
  | Sqrt _, Infinity => true
  | Infinity, _ => false
  end.

Definition distance (a b : Vec) : Dist :=
  Sqrt ((vx a - vx b) ^ 2 + (vy a - vy b) ^ 2).

(** ** JavaScript arrays of booleans

    A matrix is an array of rows.  Reading a row that does not exist gives
    [undefined], and indexing [undefined] throws: [None].  Reading a cell
    that does not exist in an existing row gives [undefined], which every
    reader treats as false.  Writing past the end of an existing row extends
    the row (the holes read as false); writing at a negative index creates a
    property that is not an element and is left out of the model. *)

Definition Row : Type := list bool.
Definition Matrix : Type := list Row.

Definition getRow (m : Matrix) (r : Z) : option Row :=
  if r <? 0 then None else nth_error m (Z.to_nat r).

Definition rowGet (row : Row) (c : Z) : bool :=
  if c <? 0 then false else nth (Z.to_nat c) row false.

Definition getCell (m : Matrix) (r c : Z) : option bool :=
  match getRow m r with
  | Some row => Some (rowGet row c)
  | None => None
  end.

Fixpoint setNth {A : Type} (d : A) (n : nat) (v : A) (l : list A) : list A :=
  match n, l with
  | O, [] => [v]
  | O, _ :: t => v :: t
  | S k, [] => d :: setNth d k v []
  | S k, h :: t => h :: setNth d k v t
  end.

Definition rowSet (row : Row) (c : Z) (v : bool) : Row :=
  if c <? 0 then row else setNth false (Z.to_nat c) v row.

Fixpoint replaceNth {A : Type} (n : nat) (v : A) (l : list A) : list A :=
  match n, l with
  | _, [] => []
  | O, _ :: t => v :: t
  | S k, h :: t => h :: replaceNth k v t
  end.

(** [m[r][c] = v] *)
Definition setCell (m : Matrix) (r c : Z) (v : bool) : option Matrix :=
  match getRow m r with
  | Some row => Some (replaceNth (Z.to_nat r) (rowSet row c v) m)
  | None => None
  end.

Definition newMatrix (rows cols : Z) : Matrix :=
  repeat (repeat false (Z.to_nat cols)) (Z.to_nat rows).

(** ** Game.ts: the board engine *)

Definition size : Vec := mkVec 16 8.
Definition gameSize : Vec := mkVec (vx size - 2) (vy size).

Record Game : Type := mkGame {
  electrodes : Matrix;
  needFilling : list Vec;
  currentlyMoving : option Vec;
  availableReservoirs : list Reservoir;
  specialElectrodesLeft : Z;
  specialElectrodesRight : Z;
  lastFrame : Z;
  movementDelay : Z;
  cleanupDelay : Z
}.

Definition newGame : Game :=
  mkGame (newMatrix (vy gameSize) (vx gameSize)) [] None [TL; BL; TR; BR]
         0 0 0 400 75.

Definition set_electrodes (m : Matrix) (g : Game) : Game :=
  mkGame m (needFilling g) (currentlyMoving g) (availableReservoirs g)
         (specialElectrodesLeft g) (specialElectrodesRight g)
         (lastFrame g) (movementDelay g) (cleanupDelay g).

Definition set_needFilling (q : list Vec) (g : Game) : Game :=
  mkGame (electrodes g) q (currentlyMoving g) (availableReservoirs g)
         (specialElectrodesLeft g) (specialElectrodesRight g)
         (lastFrame g) (movementDelay g) (cleanupDelay g).

Definition set_currentlyMoving (c : option Vec) (g : Game) : Game :=
  mkGame (electrodes g) (needFilling g) c (availableReservoirs g)
         (specialElectrodesLeft g) (specialElectrodesRight g)
         (lastFrame g) (movementDelay g) (cleanupDelay g).

Definition set_availableReservoirs (a : list Reservoir) (g : Game) : Game :=
  mkGame (electrodes g) (needFilling g) (currentlyMoving g) a
         (specialElectrodesLeft g) (specialElectrodesRight g)
         (lastFrame g) (movementDelay g) (cleanupDelay g).

Definition set_specialElectrodesLeft (b : Z) (g : Game) : Game :=
  mkGame (electrodes g) (needFilling g) (currentlyMoving g)
         (availableReservoirs g) b (specialElectrodesRight g)
         (lastFrame g) (movementDelay g) (cleanupDelay g).

Definition set_specialElectrodesRight (b : Z) (g : Game) : Game :=
  mkGame (electrodes g) (needFilling g) (currentlyMoving g)
         (availableReservoirs g) (specialElectrodesLeft g) b
         (lastFrame g) (movementDelay g) (cleanupDelay g).

Definition getDispenseLocation (reservoir : Reservoir) : Vec :=
  match reservoir with
  | TL => mkVec 0 1
  | BL => mkVec 0 (vy gameSize - 2)
  | TR => mkVec (vx gameSize - 2) 1
  | BR => mkVec (vx gameSize - 2) (vy gameSize - 2)
  end.

Definition updateReservoirState (reservoirId : Reservoir) (nibble : Z)
    (g : Game) : Game :=
  match reservoirId with
  | TL => set_specialElectrodesLeft
            (js_or (js_and (specialElectrodesLeft g) 240) (js_and nibble 15)) g
  | BL => set_specialElectrodesLeft
            (js_or (js_and (specialElectrodesLeft g) 15) (js_shl nibble 4)) g
  | TR => set_specialElectrodesRight
            (js_or (js_and (specialElectrodesRight g) 240) (js_and nibble 15)) g
  | BR => set_specialElectrodesRight
            (js_or (js_and (specialElectrodesRight g) 15) (js_shl nibble 4)) g
  end.

(** ** Loops and effects

    A [for] loop over [0 .. n-1] is a fold over [range n]; a loop body that
    may throw is folded with [foldM]. *)

Definition range (n : Z) : list Z := map Z.of_nat (seq 0 (Z.to_nat n)).

Fixpoint foldM {A S : Type} (f : S -> A -> option S) (l : list A) (s : S)
    : option S :=
  match l with
  | [] => Some s
  | a :: t => match f s a with
              | Some s' => foldM f t s'
              | None => None
              end
  end.

(** What the engine hands to the outside while it runs: a frame built by
    [transmit] (the sink registered in [onTransmit] receives exactly these),
    and a timed wait. *)
Inductive Event : Type :=
| Transmit (packet : list Z)
| Delay (ms : Z).

(** A method of [Game]: reads and mutates the object, may throw, and leaves a
    trace of events. *)
Definition Eff (A : Type) : Type := Game -> option (A * Game * list Event).

Definition ret {A : Type} (a : A) : Eff A := fun g => Some (a, g, []).

Definition bind {A B : Type} (m : Eff A) (k : A -> Eff B) : Eff B :=
  fun g =>
    match m g with
    | None => None
    | Some (a, g1, ev1) =>
        match k a g1 with
        | None => None
        | Some (b, g2, ev2) => Some (b, g2, ev1 ++ ev2)
        end
    end.

Declare Scope eff_scope.
Delimit Scope eff_scope with eff.
Notation "x <- m ;; k" := (bind m (fun x => k))
  (at level 61, m at next level, right associativity) : eff_scope.
Notation "m ;;; k" := (bind m (fun _ => k))
  (at level 61, right associativity) : eff_scope.

Definition getState : Eff Game := fun g => Some (g, g, []).
Definition modify (f : Game -> Game) : Eff unit := fun g => Some (tt, f g, []).
Definition emit (e : Event) : Eff unit := fun g => Some (tt, g, [e]).

Fixpoint forEach {A : Type} (body : A -> Eff unit) (l : list A) : Eff unit :=
  match l with
  | [] => ret tt
  | a :: t => bind (body a) (fun _ => forEach body t)
  end.

Fixpoint indexed_from {A : Type} (i : nat) (l : list A) : list (nat * A) :=
  match l with
  | [] => []
  | a :: t => (i, a) :: indexed_from (S i) t
  end.

(** [this.electrodes[r][c] = v] *)
Definition writeElectrode (r c : Z) (v : bool) : Eff unit :=
  fun g =>
    match setCell (electrodes g) r c v with
    | Some m => Some (tt, set_electrodes m g, [])
    | None => None
    end.

(** *** transmit *)

(** [packet[i] = v]: a typed array does not grow, and has no element at a
    negative index. *)
Definition storeU8 (packet : list Z) (i : Z) (v : Z) : list Z :=
  if i <? 0 then packet else replaceNth (Z.to_nat i) (toUint8 v) packet.

Definition columnByte (m : Matrix) (x : Z) : option Z :=
  foldM (fun colByte y =>
           match getCell m y x with
           | None => None
           | Some true => Some (js_or colByte (js_shl 1 y))
           | Some false => Some colByte
           end)
        (range (vy gameSize)) 0.

Definition buildPacket (g : Game) : option (list Z) :=
  let packet := repeat 0 32 in
  let packet := storeU8 packet 0 (specialElectrodesLeft g) in
  match foldM (fun packet x =>
                 match columnByte (electrodes g) x with
                 | Some colByte => Some (storeU8 packet (x + 1) colByte)
                 | None => None
                 end)
              (range (vx gameSize)) packet with
  | None => None
  | Some packet =>
      let packet := storeU8 packet 15 (specialElectrodesRight g) in
      let packet := storeU8 packet 16 0 in
      let packet := storeU8 packet 17 0 in
      Some (fold_left (fun packet i => storeU8 packet i 0)
                      (map (fun i => 18 + i) (range 14)) packet)
  end.

Definition transmit : Eff unit :=
  fun g =>
    match buildPacket g with
    | Some packet => Some (tt, g, [Transmit packet])
    | None => None
    end.

Definition delay (ms : Z) : Eff unit := emit (Delay ms).

(** *** dispense *)

Definition isBottom (reservoir : Reservoir) : bool :=
  Reservoir_eqb reservoir BL || Reservoir_eqb reservoir BR.

Definition dispenseStep (reservoir : Reservoir) (dropLocation : Vec)
    (step : nat * Z) : Eff unit :=
  (let i := fst step in
   let nibble := snd step in
   let nibble := if isBottom reservoir then reverseNibble nibble else nibble in
   modify (updateReservoirState reservoir nibble) ;;;
   (if Nat.eqb i dispenseDropFrame
    then writeElectrode (vy dropLocation) (vx dropLocation) true
    else ret tt) ;;;
   transmit ;;;
   g <- getState ;;
   delay (movementDelay g))%eff.

Definition dispense (reservoir : Reservoir) : Eff Vec :=
  (let dropLocation := getDispenseLocation reservoir in
   modify (updateReservoirState reservoir 0) ;;;
   transmit ;;;
   g <- getState ;;
   delay (cleanupDelay g) ;;;
   forEach (dispenseStep reservoir dropLocation)
           (indexed_from 0 dispenseSequence) ;;;
   let defaultNibble := 8 in
   let defaultNibble :=
     if isBottom reservoir then reverseNibble defaultNibble else defaultNibble in
   modify (updateReservoirState reservoir defaultNibble) ;;;
   transmit ;;;
   g <- getState ;;
   delay (cleanupDelay g) ;;;
   ret dropLocation)%eff.

Definition clear : Eff unit :=
  (modify (set_electrodes (newMatrix (vy gameSize) (vx gameSize))) ;;;
   modify (set_specialElectrodesLeft 0) ;;;
   modify (set_specialElectrodesRight 0) ;;;
   transmit)%eff.

(** *** findPath *)

Definition manhattan (a b : Vec) : Z :=
  Z.abs (vx a - vx b) + Z.abs (vy a - vy b).

(** The [while] condition, and one turn of the loop body.  The code steps
    doubles: [current.x += 1] is exact for integers below 2^53 and is absorbed
    from there on, where the loop of the code no longer ends.  The recursion
    below is on integers and always ends; it is the loop of the code for
    coordinates inside the exact range, and the statements about [findPath]
    are made for small cells ([smallCell] below). *)
Definition notArrived (current end_ : Vec) : bool :=
  negb (vx current =? vx end_) || negb (vy current =? vy end_).

Definition advance (current end_ : Vec) : Vec :=
  if negb (vx current =? vx end_)
  then mkVec (vx current + (if vx current <? vx end_ then 1 else -1))
             (vy current)
  else if negb (vy current =? vy end_)
  then mkVec (vx current)
             (vy current + (if vy current <? vy end_ then 1 else -1))
  else current.

Definition inspect {A : Type} (a : A) : {b : A | a = b} := exist _ a eq_refl.

Equations? findPath_loop (current end_ : Vec) (path : list Vec) : list Vec
  by wf (Z.to_nat (manhattan current end_)) lt :=
  findPath_loop current end_ path with inspect (notArrived current end_) := {
    | exist _ true _ =>
        findPath_loop (advance current end_) end_
                      (path ++ [advance current end_]);
    | exist _ false _ => path }.
Proof.
  unfold notArrived in e. unfold advance, manhattan.
  destruct current as [cx cy], end_ as [ex ey]; simpl in *.
  destruct (cx =? ex) eqn:Hx; simpl in *.
  - destruct (cy =? ey) eqn:Hy; simpl in *; [discriminate|].
    apply Z.eqb_neq in Hy. destruct (cy <? ey) eqn:Hlt;
      [apply Z.ltb_lt in Hlt | apply Z.ltb_ge in Hlt]; lia.
  - apply Z.eqb_neq in Hx. destruct (cx <? ex) eqn:Hlt;
      [apply Z.ltb_lt in Hlt | apply Z.ltb_ge in Hlt]; lia.
Qed.

Definition findPath (start end_ : Vec) : list Vec :=
  findPath_loop (mkVec (vx start) (vy start)) end_ [].

(** *** fillTick *)

(** The [for ... of this.availableReservoirs] loop: the pair is
    [(closestReservoir, closestDistance)]. *)
Definition closestStep (electrodeToFill : Vec)
    (acc : option Reservoir * Dist) (reservoir : Reservoir)
    : option Reservoir * Dist :=
  let reservoirLocation := getDispenseLocation reservoir in
  let dist := distance electrodeToFill reservoirLocation in
  if Dist_ltb dist (snd acc) then (Some reservoir, dist) else acc.

Definition findClosest (electrodeToFill : Vec) (available : list Reservoir)
    : option Reservoir * Dist :=
  fold_left (closestStep electrodeToFill) available (None, Infinity).

Definition fillTick : Eff unit :=
  (g <- getState ;;
   match needFilling g with
   | [] => ret tt
   | electrodeToFill :: _ =>
       match currentlyMoving g with
       | None =>
           match fst (findClosest electrodeToFill (availableReservoirs g)) with
           | None => ret tt
           | Some closestReservoir =>
               loc <- dispense closestReservoir ;;
               modify (set_currentlyMoving (Some loc))
           end
       | Some moving =>
           match findPath moving electrodeToFill with
           | [] => ret tt
           | nextStep :: _ =>
               writeElectrode (vy nextStep) (vx nextStep) true ;;;
               writeElectrode (vy moving) (vx moving) false ;;;
               modify (set_currentlyMoving (Some nextStep)) ;;;
               if (vx nextStep =? vx electrodeToFill)
                  && (vy nextStep =? vy electrodeToFill)
               then
                 modify (fun g => set_needFilling (tl (needFilling g)) g) ;;;
                 modify (set_currentlyMoving None)
               else ret tt
           end
       end
   end)%eff.

(** [Game.render]: overlay the droplet in transit. *)
Definition Game_render : Eff unit :=
  (g <- getState ;;
   match currentlyMoving g with
   | Some c => writeElectrode (vy c) (vx c) true
   | None => ret tt
   end)%eff.

(** ** Tetromino.ts *)

Inductive TetrominoType : Type :=
| HORIZONTAL
| LEFT_CORNER
| RIGHT_CORNER
| SQUARE
| STEP_UP_LEFT
| STEP_UP_RIGHT
| PYRAMID.

(** A shape is an array of rows of cells, [shape[y][x]]. *)
Definition Shape : Type := list (list bool).

Definition tetrominoShapes (type : TetrominoType) : Shape :=
  match type with
  | HORIZONTAL =>
      [ [false; false; false; false];
        [true; true; true; true];
        [false; false; false; false];
        [false; false; false; false] ]
  | LEFT_CORNER =>
      [ [true; false; false];
        [true; true; true];
        [false; false; false] ]
  | RIGHT_CORNER =>
      [ [false; false; true];
        [true; true; true];
        [false; false; false] ]
  | SQUARE =>
      [ [false; true; true; false];
        [false; true; true; false];
        [false; false; false; false] ]
  | STEP_UP_LEFT =>
      [ [true; true; false];
        [false; true; true];
        [false; false; false] ]
  | STEP_UP_RIGHT =>
      [ [false; true; true];
        [true; true; false];
        [false; false; false] ]
  | PYRAMID =>
      [ [false; true; false];
        [true; true; true];
        [false; false; false] ]
  end.

(** [shape[y][x]], for [y] below [shape.length]; a cell missing from its row
    is [undefined] and reads as false. *)
Definition shapeCell (shape : Shape) (y x : nat) : bool :=
  nth x (nth y shape []) false.

Record Tetromino : Type := mkTetromino {
  tsize : Vec;
  shape : Shape;
  pos : Vec;
  type : TetrominoType
}.

Definition centerPos : Vec := mkVec 1 1.

Definition newTetromino (type : TetrominoType) (pos : Vec) : Tetromino :=
  let shape := tetrominoShapes type in
  mkTetromino (mkVec (Z.of_nat (length (nth 0 shape [])))
                     (Z.of_nat (length shape)))
              shape pos type.

Definition set_shape (s : Shape) (t : Tetromino) : Tetromino :=
  mkTetromino (tsize t) s (pos t) (type t).

Definition set_pos (p : Vec) (t : Tetromino) : Tetromino :=
  mkTetromino (tsize t) (shape t) p (type t).

(** [Tetromino.render(electrodes)]: the guarded write of one cell, and the
    two nested loops ([x] outside, [y] inside). *)
Definition renderCell (t : Tetromino) (electrodes : Matrix) (x y : Z)
    : Matrix :=
  if shapeCell (shape t) (Z.to_nat y) (Z.to_nat x) then
    let targetY := vy (pos t) + y in
    let targetX := vx (pos t) + x in
    if (targetY >=? 0) && (targetY <? Z.of_nat (length electrodes)) then
      match getRow electrodes targetY with
      | Some row =>
          if (targetX >=? 0) && (targetX <? Z.of_nat (length row)) then
            match setCell electrodes targetY targetX true with
            | Some m => m
            | None => electrodes
            end
          else electrodes
      | None => electrodes
      end
    else electrodes
  else electrodes.

Definition Tetromino_render (t : Tetromino) (electrodes : Matrix) : Matrix :=
  fold_left (fun m x => fold_left (fun m y => renderCell t m x y)
                                  (range (vy (tsize t))) m)
            (range (vx (tsize t))) electrodes.

(** [Tetromino.rotate(shape, direction)] *)
Definition rotate (shape : Shape) (direction : Z) : Shape :=
  let size := length shape in
  map (fun y =>
         map (fun x =>
                if direction =? 1
                then shapeCell shape (size - 1 - x) y
                else shapeCell shape x (size - 1 - y))
             (seq 0 size))
      (seq 0 size).

(** ** Tetris.ts *)

Inductive Dir : Type := LEFT | RIGHT | DOWN.

Definition Directions (d : Dir) : Vec :=
  match d with
  | LEFT => mkVec (-1) 0
  | RIGHT => mkVec 1 0
  | DOWN => mkVec 0 1
  end.

Inductive RotationState : Type :=
| NotRotating
| Starting
| Coalesce
| Ending.

Definition RotationState_eqb (a b : RotationState) : bool :=
  match a, b with
  | NotRotating, NotRotating | Starting, Starting
  | Coalesce, Coalesce | Ending, Ending => true
  | _, _ => false
  end.

(** The game object: the fields of [Game] it inherits, and its own. *)
Record Tetris : Type := mkTetris {
  base : Game;
  gameElectrodes : Matrix;
  currentBlocks : Matrix;
  droppingTetro : Tetromino;
  finished : bool;
  moving : Dir;
  aboutRotate : bool;
  rotationState : RotationState;
  newShape : Shape
}.

(** [Math.ceil(gameSize.y / 2 - 2)], with [gameSize.y] even. *)
Definition tetroSpawnPosition : Vec := mkVec (vy gameSize / 2 - 2) 1.
Definition topLevel : Z := 3.

Definition set_base (g : Game) (t : Tetris) : Tetris :=
  mkTetris g (gameElectrodes t) (currentBlocks t) (droppingTetro t)
           (finished t) (moving t) (aboutRotate t) (rotationState t)
           (newShape t).

Definition set_gameElectrodes (m : Matrix) (t : Tetris) : Tetris :=
  mkTetris (base t) m (currentBlocks t) (droppingTetro t)
           (finished t) (moving t) (aboutRotate t) (rotationState t)
           (newShape t).

Definition set_currentBlocks (m : Matrix) (t : Tetris) : Tetris :=
  mkTetris (base t) (gameElectrodes t) m (droppingTetro t)
           (finished t) (moving t) (aboutRotate t) (rotationState t)
           (newShape t).

Definition set_droppingTetro (p : Tetromino) (t : Tetris) : Tetris :=
  mkTetris (base t) (gameElectrodes t) (currentBlocks t) p
           (finished t) (moving t) (aboutRotate t) (rotationState t)
           (newShape t).

Definition set_finished (b : bool) (t : Tetris) : Tetris :=
  mkTetris (base t) (gameElectrodes t) (currentBlocks t) (droppingTetro t)
           b (moving t) (aboutRotate t) (rotationState t) (newShape t).

Definition set_moving (d : Dir) (t : Tetris) : Tetris :=
  mkTetris (base t) (gameElectrodes t) (currentBlocks t) (droppingTetro t)
           (finished t) d (aboutRotate t) (rotationState t) (newShape t).

Definition set_aboutRotate (b : bool) (t : Tetris) : Tetris :=
  mkTetris (base t) (gameElectrodes t) (currentBlocks t) (droppingTetro t)
           (finished t) (moving t) b (rotationState t) (newShape t).

Definition set_rotationState (r : RotationState) (t : Tetris) : Tetris :=
  mkTetris (base t) (gameElectrodes t) (currentBlocks t) (droppingTetro t)
           (finished t) (moving t) (aboutRotate t) r (newShape t).

Definition set_newShape (s : Shape) (t : Tetris) : Tetris :=
  mkTetris (base t) (gameElectrodes t) (currentBlocks t) (droppingTetro t)
           (finished t) (moving t) (aboutRotate t) (rotationState t) s.

(** The occupied cells of a shape, as [(x, y)] offsets, in the order of the
    loops [for y ... for x ...] that skip the empty cells. *)
Definition occupiedCells (shape : Shape) : list Vec :=
  flat_map (fun yr =>
              flat_map (fun xc =>
                          if (snd xc : bool)
                          then [mkVec (Z.of_nat (fst xc)) (Z.of_nat (fst yr))]
                          else [])
                       (indexed_from 0 (snd yr)))
           (indexed_from 0 shape).

(** [isValidMove]: the scan returns at the first offending cell; reading a
    row of [currentBlocks] that does not exist throws. *)
Fixpoint isValidMove_scan (blocks : Matrix) (pos : Vec) (cells : list Vec)
    : option bool :=
  match cells with
  | [] => Some true
  | c :: rest =>
      let targetX := vx pos + vx c in
      let targetY := vy pos + vy c in
      if (targetX <? 0) || (targetX >=? vy gameSize)
         || (targetY <? 0) || (targetY >=? vx gameSize)
      then Some false
      else match getCell blocks targetY targetX with
           | None => None
           | Some true => Some false
           | Some false => isValidMove_scan blocks pos rest
           end
  end.

Definition isValidMove (t : Tetris) (pos : Vec) (shape : Shape)
    : option bool :=
  isValidMove_scan (currentBlocks t) pos (occupiedCells shape).

Fixpoint hasLanded_scan (blocks : Matrix) (pos : Vec) (cells : list Vec)
    : option bool :=
  match cells with
  | [] => Some false
  | c :: rest =>
      let targetX := vx pos + vx c in
      let targetY := vy pos + vy c in
      let belowY := targetY + 1 in
      if belowY >=? vx gameSize then Some true
      else match getCell blocks belowY targetX with
           | None => None
           | Some true => Some true
           | Some false => hasLanded_scan blocks pos rest
           end
  end.

Definition hasLanded (t : Tetris) (pos : Vec) (shape : Shape) : option bool :=
  hasLanded_scan (currentBlocks t) pos (occupiedCells shape).

(** [move] is an [async] function called without [await]: its body runs at
    once, and a throw inside it rejects a promise nobody looks at, so the
    caller goes on with the object as the throw left it. *)
Definition move (direction : Dir) (t : Tetris) : Tetris :=
  let moveVector := Directions direction in
  let newPos := vecAdd (pos (droppingTetro t)) moveVector in
  match isValidMove t newPos (shape (droppingTetro t)) with
  | None => t
  | Some valid =>
      let t := if valid
               then set_droppingTetro (set_pos newPos (droppingTetro t)) t
               else t in
      set_moving DOWN t
  end.

Definition testRotations (dir : Z) (t : Tetris) : option (bool * Tetris) :=
  let newShape := rotate (shape (droppingTetro t)) dir in
  match isValidMove t (pos (droppingTetro t)) newShape with
  | None => None
  | Some true => Some (true, set_rotationState Starting (set_newShape newShape t))
  | Some false => Some (false, t)
  end.

Definition applyRotation (t : Tetris) : Tetris :=
  match rotationState t with
  | NotRotating => t
  | Starting => set_rotationState Coalesce t
  | Coalesce =>
      set_rotationState Ending
        (set_droppingTetro (set_shape (newShape t) (droppingTetro t)) t)
  | Ending => set_rotationState NotRotating t
  end.

Definition resetRotationState (t : Tetris) : Tetris :=
  set_rotationState NotRotating t.

Definition finalizeTetromino (t : Tetris) : option Tetris :=
  match foldM (fun blocks c =>
                 let targetX := vx (pos (droppingTetro t)) + vx c in
                 let targetY := vy (pos (droppingTetro t)) + vy c in
                 setCell blocks targetY targetX true)
              (occupiedCells (shape (droppingTetro t)))
              (currentBlocks t) with
  | Some blocks => Some (set_currentBlocks blocks t)
  | None => None
  end.

Definition tetrisCoordToGameCoord (coord : Vec) : Vec :=
  mkVec (vy coord) (vy gameSize - 1 - vx coord).

Definition isSome {A : Type} (o : option A) : bool :=
  match o with Some _ => true | None => false end.

Fixpoint catSomes {A : Type} (l : list (option A)) : list A :=
  match l with
  | [] => []
  | Some a :: t => a :: catSomes t
  | None :: t => catSomes t
  end.

Definition primeDroppingTetro (t : Tetris) : Tetris :=
  let p := droppingTetro t in
  let shapeInWorldCoords :=
    catSomes
      (concat
         (filter (existsb isSome)
            (map (fun yr =>
                    map (fun xc =>
                           if (snd xc : bool) then
                             let tetrisCoords :=
                               mkVec (vx (pos p) + Z.of_nat (fst xc))
                                     (vy (pos p) + Z.of_nat (fst yr)) in
                             Some (tetrisCoordToGameCoord tetrisCoords)
                           else None)
                        (indexed_from 0 (snd yr)))
                 (indexed_from 0 (shape p))))) in
  set_base (set_needFilling (needFilling (base t) ++ shapeInWorldCoords)
                            (base t)) t.

(** [Tetromino.randomTetromino]: the draw of [Math.random] is the argument
    [next]. *)
Definition randomTetromino (next : TetrominoType) (pos : Vec) : Tetromino :=
  newTetromino next pos.

(** [tick], in the two halves of its body: the rotation request with the
    move or the rotation step, then the landing test and what follows it. *)
Definition tickMotion (t : Tetris) : option Tetris :=
  match (if aboutRotate t
         then match testRotations 1 t with
              | Some (_, t1) => Some (set_aboutRotate false t1)
              | None => None
              end
         else Some t) with
  | None => None
  | Some t =>
      Some (if RotationState_eqb (rotationState t) NotRotating
            then move (moving t) t
            else applyRotation t)
  end.

Definition tickLanding (next : TetrominoType) (t : Tetris) : option Tetris :=
  match hasLanded t (pos (droppingTetro t)) (shape (droppingTetro t)) with
  | None => None
  | Some false => Some t
  | Some true =>
      let t := resetRotationState t in
      match finalizeTetromino t with
      | None => None
      | Some t =>
          match getRow (currentBlocks t) topLevel with
          | None => None
          | Some row =>
              let t := if existsb (fun cell => cell) row
                       then set_finished true t else t in
              Some (if negb (finished t)
                    then primeDroppingTetro
                           (set_droppingTetro
                              (randomTetromino next tetroSpawnPosition) t)
                    else t)
          end
      end
  end.

Definition tick (next : TetrominoType) (t : Tetris) : option Tetris :=
  if finished t then Some t
  else match tickMotion t with
       | None => None
       | Some t => tickLanding next t
       end.

Definition setMovement (direction : Dir) (t : Tetris) : Tetris :=
  if finished t then t else set_moving direction t.

(** The key handler of the page sets the flag directly. *)
Definition requestRotate (t : Tetris) : Tetris := set_aboutRotate true t.

Definition clearGameElectrodes (t : Tetris) : Tetris :=
  set_gameElectrodes (newMatrix (vx gameSize) (vy gameSize)) t.

Definition transposeElectrodes (t : Tetris) : option Matrix :=
  foldM (fun transposed x =>
           foldM (fun transposed y =>
                    match getCell (gameElectrodes t) x y with
                    | None => None
                    | Some v => setCell transposed (vy gameSize - 1 - y) x v
                    end)
                 (range (vy gameSize)) transposed)
        (range (vx gameSize))
        (newMatrix (vy gameSize) (vx gameSize)).

(** Run a method of the inherited engine on the game object. *)
Definition onBase {A : Type} (m : Eff A) (t : Tetris)
    : option (A * Tetris * list Event) :=
  match m (base t) with
  | Some (a, g, ev) => Some (a, set_base g t, ev)
  | None => None
  end.

(** [render], step by step: the static blocks, then the piece. *)
Definition renderBlocks (t : Tetris) : option Matrix :=
  foldM (fun ge x =>
           foldM (fun ge y =>
                    match getCell (currentBlocks t) x y with
                    | None => None
                    | Some true => setCell ge x y true
                    | Some false => Some ge
                    end)
                 (range (vy gameSize)) ge)
        (range (vx gameSize))
        (gameElectrodes t).

Definition inNeedFilling (t : Tetris) (gameCoords : Vec) : bool :=
  existsb (fun coord => (vx coord =? vx gameCoords)
                        && (vy coord =? vy gameCoords))
          (needFilling (base t)).

Definition renderPiece (t : Tetris) : option Matrix :=
  let p := droppingTetro t in
  if 0 <? Z.of_nat (length (needFilling (base t))) then
    foldM (fun ge c =>
             let tetrisCoords :=
               mkVec (vx (pos p) + vx c) (vy (pos p) + vy c) in
             let gameCoords := tetrisCoordToGameCoord tetrisCoords in
             if negb (inNeedFilling t gameCoords)
             then setCell ge (vy tetrisCoords) (vx tetrisCoords) true
             else Some ge)
          (occupiedCells (shape p))
          (gameElectrodes t)
  else
    if negb (RotationState_eqb (rotationState t) NotRotating) then
      match rotationState t with
      | Coalesce =>
          let centerPos := vecAdd (pos p) centerPos in
          setCell (gameElectrodes t) (vy centerPos) (vx centerPos) true
      | _ => Some (Tetromino_render p (gameElectrodes t))
      end
    else Some (Tetromino_render p (gameElectrodes t)).

Definition render (t : Tetris) : option Tetris :=
  let t := clearGameElectrodes t in
  match renderBlocks t with
  | None => None
  | Some ge =>
      let t := set_gameElectrodes ge t in
      match renderPiece t with
      | None => None
      | Some ge =>
          let t := set_gameElectrodes ge t in
          match transposeElectrodes t with
          | None => None
          | Some m =>
              let t := set_base (set_electrodes m (base t)) t in
              match onBase Game_render t with
              | Some (_, t, _) => Some t
              | None => None
              end
          end
      end
  end.

(** [new Tetris()]: the field initialisers; [first] is the random draw. *)
Definition newTetris (first : TetrominoType) : Tetris :=
  mkTetris newGame
           (newMatrix (vx gameSize) (vy gameSize))
           (newMatrix (vx gameSize) (vy gameSize))
           (randomTetromino first tetroSpawnPosition)
           false DOWN false NotRotating [].

Definition init (t : Tetris) : option (Tetris * list Event) :=
  match onBase clear t with
  | None => None
  | Some (_, t, ev) =>
      let g := base t in
      let g := set_specialElectrodesLeft 24 g in
      let g := set_specialElectrodesRight 24 g in
      let g := set_availableReservoirs [TL; BL] g in
      Some (primeDroppingTetro (set_base g t), ev)
  end.

Definition set_lastFrame (f : Z) (g : Game) : Game :=
  mkGame (electrodes g) (needFilling g) (currentlyMoving g)
         (availableReservoirs g) (specialElectrodesLeft g)
         (specialElectrodesRight g) f (movementDelay g) (cleanupDelay g).

(** [update]: [current] is the reading of [Date.now()], [next] the random
    draw a spawn in this frame would use. *)
Definition update (current : Z) (next : TetrominoType) (t : Tetris)
    : option (Tetris * list Event) :=
  let delta := current - lastFrame (base t) in
  let newTick := movementDelay (base t) <? delta in
  let t := if newTick then set_base (set_lastFrame current (base t)) t
           else t in
  match (if newTick then
           if 0 <? Z.of_nat (length (needFilling (base t)))
           then match onBase fillTick t with
                | Some (_, t, ev) => Some (t, ev)
                | None => None
                end
           else match tick next t with
                | Some t => Some (t, [])
                | None => None
                end
         else Some (t, [])) with
  | None => None
  | Some (t, ev1) =>
      match render t with
      | None => None
      | Some t =>
          match onBase transmit t with
          | Some (_, t, ev2) => Some (t, ev1 ++ ev2)
          | None => None
          end
      end
  end.

Definition set_movementDelay (d : Z) (g : Game) : Game :=
  mkGame (electrodes g) (needFilling g) (currentlyMoving g)
         (availableReservoirs g) (specialElectrodesLeft g)
         (specialElectrodesRight g) (lastFrame g) d (cleanupDelay g).

(** The page (Game.svelte) builds the game, sets its speed, calls [init] and
    then [update] once per animation frame; the key handlers call
    [setMovement] and set [aboutRotate].  A key handler that runs while
    [dispense] waits touches fields [dispense] does not use, so it is taken
    as running between two calls of [update]. *)
Inductive reachable : Tetris -> Prop :=
| reach_init (first : TetrominoType) (speed : Z) (t : Tetris)
             (ev : list Event) :
    init (set_base (set_movementDelay speed newGame) (newTetris first))
    = Some (t, ev) ->
    reachable t
| reach_update (current : Z) (next : TetrominoType) (t t' : Tetris)
               (ev : list Event) :
    reachable t ->
    update current next t = Some (t', ev) ->
    reachable t'
| reach_setMovement (direction : Dir) (t : Tetris) :
    reachable t -> reachable (setMovement direction t)
| reach_requestRotate (t : Tetris) :
    reachable t -> reachable (requestRotate t).

(** [frames n clock next t]: [n] calls of [update] in a row, the clock one
    second further at each, every spawn drawing [next]. *)
Fixpoint frames (n : nat) (clock : Z) (next : TetrominoType) (t : Tetris)
    : option Tetris :=
  match n with
  | O => Some t
  | S k => match update clock next t with
           | Some (t', _) => frames k (clock + 1000) next t'
           | None => None
           end
  end.

(** The game as the page starts it: speed 300, first piece [first], [init]
    run. *)
Definition started (first : TetrominoType) : option Tetris :=
  match init (set_base (set_movementDelay 300 newGame) (newTetris first)) with
  | Some (t, _) => Some t
  | None => None
  end.

(** ** Vocabulary of the statements *)

(** The two halves of a special-electrode byte: bits 0-3 and bits 4-7. *)
Definition lowNibble (b : Z) : Z := b mod 16.
Definition highNibble (b : Z) : Z := (b / 16) mod 16.

Definition isByte (b : Z) : Prop := 0 <= b <= 255.

(** The half-byte a reservoir drives, the other half of the same byte, and
    the byte of the opposite side. *)
Definition reservoirNibble (r : Reservoir) (g : Game) : Z :=
  match r with
  | TL => lowNibble (specialElectrodesLeft g)
  | BL => highNibble (specialElectrodesLeft g)
  | TR => lowNibble (specialElectrodesRight g)
  | BR => highNibble (specialElectrodesRight g)
  end.

Definition otherNibble (r : Reservoir) (g : Game) : Z :=
  match r with
  | TL => highNibble (specialElectrodesLeft g)
  | BL => lowNibble (specialElectrodesLeft g)
  | TR => highNibble (specialElectrodesRight g)
  | BR => lowNibble (specialElectrodesRight g)
  end.

Definition ownByte (r : Reservoir) (g : Game) : Z :=
  match r with
  | TL | BL => specialElectrodesLeft g
  | TR | BR => specialElectrodesRight g
  end.

Definition oppositeByte (r : Reservoir) (g : Game) : Z :=
  match r with
  | TL | BL => specialElectrodesRight g
  | TR | BR => specialElectrodesLeft g
  end.

(** A shape is square when every row is as long as the shape has rows. *)
Definition isSquare (s : Shape) : Prop :=
  Forall (fun row => length row = length s) s.

(** [stepwise P prev path]: [P] holds of every step of the walk that starts
    at [prev] and visits the cells of [path] in order. *)
Fixpoint stepwise (P : Vec -> Vec -> Prop) (prev : Vec) (path : list Vec)
    : Prop :=
  match path with
  | [] => True
  | c :: rest => P prev c /\ stepwise P c rest
  end.

(** Byte [i] of a frame, and whether the electrode at row [y] of column [x]
    of a matrix is active. *)
Definition packetByte (packet : list Z) (i : Z) : Z :=
  nth (Z.to_nat i) packet 0.

Definition electrodeActive (m : Matrix) (y x : Z) : bool :=
  match getCell m y x with
  | Some b => b
  | None => false
  end.

(** The engine state the encoder expects: both special-electrode bytes are
    bytes and the electrode matrix has its rows. *)
Definition engineState (g : Game) : Prop :=
  isByte (specialElectrodesLeft g)
  /\ isByte (specialElectrodesRight g)
  /\ length (electrodes g) = Z.to_nat (vy gameSize).

(** What a frame shows of a reservoir's half-byte and of a cell of the main
    grid. *)
Definition frameNibble (r : Reservoir) (packet : list Z) : Z :=
  match r with
  | TL => lowNibble (packetByte packet 0)
  | BL => highNibble (packetByte packet 0)
  | TR => lowNibble (packetByte packet 15)
  | BR => highNibble (packetByte packet 15)
  end.

Definition frameCell (cell : Vec) (packet : list Z) : bool :=
  Z.testbit (packetByte packet (vx cell + 1)) (vy cell).

(** The nibble [dispense] writes for a step value: reversed on the bottom
    side. *)
Definition oriented (r : Reservoir) (nibble : Z) : Z :=
  if isBottom r then reverseNibble nibble else nibble.

(** The events of the seven waveform steps: a frame, then one movement
    interval. *)
Definition stepEvents (ms : Z) (frames : list (list Z)) : list Event :=
  flat_map (fun p => [Transmit p; Delay ms]) frames.

(** [activate cell m]: the matrix after [m[cell.y][cell.x] = true]. *)
Definition activate (cell : Vec) (m : Matrix) : Matrix :=
  match setCell m (vy cell) (vx cell) true with
  | Some m' => m'
  | None => m
  end.

(** What a write to a reservoir's half-byte and to the electrode matrix
    leaves alone. *)
Definition keptBy (r : Reservoir) (g g' : Game) : Prop :=
  otherNibble r g' = otherNibble r g
  /\ oppositeByte r g' = oppositeByte r g
  /\ needFilling g' = needFilling g
  /\ currentlyMoving g' = currentlyMoving g
  /\ availableReservoirs g' = availableReservoirs g
  /\ lastFrame g' = lastFrame g
  /\ movementDelay g' = movementDelay g
  /\ cleanupDelay g' = cleanupDelay g.

(** Whether the drop cell has been activated by the time of step [i0 + k],
    for a run of steps that starts at index [i0]. *)
Definition dropped (i0 k : nat) : bool :=
  (i0 <=? dispenseDropFrame)%nat && (dispenseDropFrame <=? i0 + k)%nat.

(** Cells the code computes with exactly: integer coordinates of magnitude
    at most 2^20, far inside the range where a double holds every integer
    and the rounded square roots of different radicands differ.  The cells
    of the board are small. *)
Definition smallInt (z : Z) : Prop := Z.abs z <= 2 ^ 20.

Definition smallCell (c : Vec) : Prop := smallInt (vx c) /\ smallInt (vy c).

(** The square of the straight-line distance between two cells; [distance]
    is its square root. *)
Definition sqDistance (a b : Vec) : Z :=
  (vx a - vx b) ^ 2 + (vy a - vy b) ^ 2.

(** Squared distance from a cell to the drop cell of a reservoir. *)
Definition reach (target : Vec) (r : Reservoir) : Z :=
  sqDistance target (getDispenseLocation r).

(** The playable grid of the Tetris game, in its own orientation: its width
    is [gameSize.y] (8 columns) and its height [gameSize.x] (14 rows). *)
Definition playWidth : Z := vy gameSize.
Definition playHeight : Z := vx gameSize.

Definition inPlayfield (x y : Z) : Prop :=
  0 <= x < playWidth /\ 0 <= y < playHeight.

(** Every occupied cell of [shape], placed at [pos], lies in the playable
    grid. *)
Definition inBounds (pos : Vec) (shape : Shape) : Prop :=
  forall x y : nat,
    shapeCell shape y x = true ->
    inPlayfield (vx pos + Z.of_nat x) (vy pos + Z.of_nat y).

(** The grid cell [(row, col)] is one of the occupied cells of [shape] placed
    at [pos]. *)
Definition covers (pos : Vec) (shape : Shape) (row col : Z) : Prop :=
  exists x y : nat,
    shapeCell shape y x = true
    /\ row = vy pos + Z.of_nat y
    /\ col = vx pos + Z.of_nat x.

(** A grid of exactly [rows] rows of [cols] cells each. *)
Definition hasDims (m : Matrix) (rows cols : Z) : Prop :=
  Z.of_nat (length m) = rows
  /\ Forall (fun row => Z.of_nat (length row) = cols) m.

(** The shapes a piece can have: the seven of the catalog and what clockwise
    turns make of them. *)
Definition allTypes : list TetrominoType :=
  [HORIZONTAL; LEFT_CORNER; RIGHT_CORNER; SQUARE; STEP_UP_LEFT;
   STEP_UP_RIGHT; PYRAMID].

Definition turns (s : Shape) : list Shape :=
  [s; rotate s 1; rotate (rotate s 1) 1; rotate (rotate (rotate s 1) 1) 1;
   rotate (rotate (rotate (rotate s 1) 1) 1) 1].

Definition allShapes : list Shape :=
  flat_map (fun ty => turns (tetrominoShapes ty)) allTypes.

(** A cell of the electrode matrix of the engine (14 columns, 8 rows). *)
Definition inGame (c : Vec) : Prop :=
  0 <= vx c < vx gameSize /\ 0 <= vy c < vy gameSize.

(** What holds of the piece and the board between two calls. *)
Definition pieceInv (t : Tetris) : Prop :=
  hasDims (currentBlocks t) playHeight playWidth
  /\ In (shape (droppingTetro t)) allShapes
  /\ inBounds (pos (droppingTetro t)) (shape (droppingTetro t))
  /\ rotationState t <> Starting
  /\ (rotationState t = Coalesce ->
      newShape t = rotate (shape (droppingTetro t)) 1
      /\ inBounds (pos (droppingTetro t)) (newShape t)).

(** What holds of the inherited engine between two calls. *)
Definition engineInv (g : Game) : Prop :=
  length (electrodes g) = 8%nat
  /\ Forall inGame (needFilling g)
  /\ (forall c, currentlyMoving g = Some c -> inGame c).

Definition gameInv (t : Tetris) : Prop :=
  pieceInv t
  /\ engineInv (base t)
  /\ hasDims (gameElectrodes t) playHeight playWidth.

(** Both special-electrode values are bytes. *)
Definition bytesInv (g : Game) : Prop :=
  isByte (specialElectrodesLeft g) /\ isByte (specialElectrodesRight g).

(** Two engine states with the same special-electrode values. *)
Definition sameBytes (g g' : Game) : Prop :=
  specialElectrodesLeft g' = specialElectrodesLeft g
  /\ specialElectrodesRight g' = specialElectrodesRight g.

(** ** Proof steps that recur *)

(** Replace the occupied cells of a concrete shape by their list, and take a
    [Forall] over such a list apart. *)
Ltac cells_of H :=
  match type of H with
  | Forall _ (occupiedCells ?s) =>
      let l := eval vm_compute in (occupiedCells s) in
      change (occupiedCells s) with l in H
  end.

Ltac split_cells H :=
  repeat match type of H with
         | Forall _ (_ :: _) =>
             let Hh := fresh "Hcell" in
             let Ht := fresh "Hrest" in
             apply Forall_cons_iff in H; destruct H as [Hh Ht];
             cbn [vx vy] in Hh; rename Ht into H
         end.

(** Take the invariant of the piece apart, conjunct by conjunct. *)
Ltac split_pieceInv :=
  unfold pieceInv; split; [| split; [| split; [| split]]].


(** ** The rest of Tetromino.ts *)

(** [isValidPosition(shape, pos, electrodes)]: like [isValidMove], with the
    bounds read off the board it is given.  [electrodes[0].length] is read
    only once [boardX < 0] has failed, and throws on a board without rows. *)
Fixpoint isValidPosition_scan (electrodes : Matrix) (pos : Vec)
    (cells : list Vec) : option bool :=
  match cells with
  | [] => Some true
  | c :: rest =>
      let boardX := vx pos + vx c in
      let boardY := vy pos + vy c in
      if boardX <? 0 then Some false
      else match getRow electrodes 0 with
           | None => None
           | Some row0 =>
               if (boardX >=? Z.of_nat (length row0))
                  || (boardY <? 0)
                  || (boardY >=? Z.of_nat (length electrodes))
               then Some false
               else match getCell electrodes boardY boardX with
                    | None => None
                    | Some true => Some false
                    | Some false => isValidPosition_scan electrodes pos rest
                    end
           end
  end.

Definition isValidPosition (shape : Shape) (pos : Vec) (electrodes : Matrix)
    : option bool :=
  isValidPosition_scan electrodes pos (occupiedCells shape).

(** ** More vocabulary *)

(** [shape] placed at [pos] lies in the playable grid and on no occupied cell
    of [blocks]. *)
Definition fits (blocks : Matrix) (pos : Vec) (shape : Shape) : Prop :=
  forall x y : nat,
    shapeCell shape y x = true ->
    inPlayfield (vx pos + Z.of_nat x) (vy pos + Z.of_nat y)
    /\ electrodeActive blocks (vy pos + Z.of_nat y) (vx pos + Z.of_nat x)
       = false.

(** A cell lies between two cells, coordinate by coordinate. *)
Definition between (a b q : Vec) : Prop :=
  Z.min (vx a) (vx b) <= vx q <= Z.max (vx a) (vx b)
  /\ Z.min (vy a) (vy b) <= vy q <= Z.max (vy a) (vy b).

(** [n] clockwise turns. *)
Fixpoint rotateTimes (n : nat) (s : Shape) : Shape :=
  match n with
  | O => s
  | S k => rotate (rotateTimes k s) 1
  end.

(** Two game objects with the same piece, static grid, flags and rotation
    fields: all that [tick] reads and writes besides the fill queue. *)
Definition sameCore (t t' : Tetris) : Prop :=
  droppingTetro t' = droppingTetro t
  /\ currentBlocks t' = currentBlocks t
  /\ finished t' = finished t
  /\ moving t' = moving t
  /\ aboutRotate t' = aboutRotate t
  /\ rotationState t' = rotationState t
  /\ newShape t' = newShape t.

(** Two engine states with the same fill queue, droplet in transit,
    reservoir list, special bytes and delays: all but the electrode matrix and
    the time of the last tick. *)
Definition sameEngine (g g' : Game) : Prop :=
  needFilling g' = needFilling g
  /\ currentlyMoving g' = currentlyMoving g
  /\ availableReservoirs g' = availableReservoirs g
  /\ specialElectrodesLeft g' = specialElectrodesLeft g
  /\ specialElectrodesRight g' = specialElectrodesRight g
  /\ movementDelay g' = movementDelay g
  /\ cleanupDelay g' = cleanupDelay g.

(** Whether [update] accepts a tick at clock reading [current]. *)
Definition elapsed (current : Z) (t : Tetris) : bool :=
  movementDelay (base t) <? current - lastFrame (base t).

(** [n] fill ticks in a row, as [update] runs them on [n] accepted ticks
    while cells wait in the queue; the events of all of them, in order. *)
Fixpoint fillTicks (n : nat) (g : Game) : option (Game * list Event) :=
  match n with
  | O => Some (g, [])
  | S k =>
      match fillTick g with
      | Some (_, g1, ev1) =>
          match fillTicks k g1 with
          | Some (g2, ev2) => Some (g2, ev1 ++ ev2)
          | None => None
          end
      | None => None
      end
  end.

(** What holds of the fill queue of the Tetris game between two calls: the
    cells that wait lie off column 0 of the electrode matrix, where the two
    drop cells of the left side are, and a droplet in transit has a cell to
    go to that it has not reached. *)
Definition fillInv (g : Game) : Prop :=
  Forall (fun q => 1 <= vx q) (needFilling g)
  /\ availableReservoirs g = [TL; BL]
  /\ forall c, currentlyMoving g = Some c ->
       exists target rest, needFilling g = target :: rest /\ c <> target.

(** The steps the fill still has to make, counted generously: for the cell
    at the head of the queue the distance the droplet has to go, or 21 when
    the droplet has yet to be dispensed (one tick for the dispense, at most
    13 + 7 moves from a drop cell), and 22 for every cell behind it. *)
Definition fillWork (g : Game) : Z :=
  match needFilling g with
  | [] => 0
  | target :: rest =>
      22 * Z.of_nat (length rest)
      + match currentlyMoving g with
        | Some c => manhattan c target
        | None => 21
        end
  end.

(** The cell of the electrode matrix for the cell [c] of a piece at [p]. *)
Definition queuedCell (p : Vec) (c : Vec) : Vec :=
  tetrisCoordToGameCoord (mkVec (vx p + vx c) (vy p + vy c)).

(** Row [y] of a shape holds an occupied cell, and: the rows of a shape that
    hold one follow one another. *)
Definition usedRow (s : Shape) (y : nat) : bool :=
  existsb (fun cell => cell) (nth y s []).

Definition rowsContiguous (s : Shape) : bool :=
  let ys := seq 0 (length s) in
  forallb (fun y1 =>
    forallb (fun y2 =>
      forallb (fun y =>
        implb (usedRow s y1 && usedRow s y2
               && (y1 <=? y)%nat && (y <=? y2)%nat)
              (usedRow s y)) ys) ys) ys.

(** No block in the rows down to the top level. *)
Definition clearTop (blocks : Matrix) : Prop :=
  forall r c, r <= topLevel -> electrodeActive blocks r c = false.

(** [shape] placed at [pos] lies on no block. *)
Definition apart (blocks : Matrix) (pos : Vec) (shape : Shape) : Prop :=
  forall r c, covers pos shape r c -> electrodeActive blocks r c = false.

(** What holds of the piece and the blocks while the game is on, and of the
    blocks once it is over. *)
Definition playInv (t : Tetris) : Prop :=
  (finished t = true ->
   exists c, electrodeActive (currentBlocks t) topLevel c = true)
  /\ (finished t = false ->
      clearTop (currentBlocks t)
      /\ apart (currentBlocks t) (pos (droppingTetro t))
               (shape (droppingTetro t))
      /\ (rotationState t = Coalesce ->
          apart (currentBlocks t) (pos (droppingTetro t)) (newShape t))).

(** The size a piece carries fits its shape: [size.y] is the number of rows
    of the shape, so that [shape[y]] exists for every [y] the loops of
    [Tetromino.render] visit, and no occupied cell lies at or past column
    [size.x].  The constructor sets the size from the catalog shape; a
    rotation replaces the shape and keeps the size. *)
Definition sizeFits (p : Tetromino) : Prop :=
  vy (tsize p) = Z.of_nat (length (shape p))
  /\ Z.of_nat (length (shape p)) <= vx (tsize p)
  /\ forall x y : nat,
       shapeCell (shape p) y x = true -> Z.of_nat x < vx (tsize p).

(** What [Tetris.render] draws of the dropping piece at the cell
    [(row, col)] of the game matrix: while cells wait in the fill queue, the
    cells of the piece that are no longer in the queue; during the coalesce
    step of a rotation, the one cell at the centre; otherwise the piece. *)
Definition pieceShown (t : Tetris) (row col : Z) : Prop :=
  let p := droppingTetro t in
  match needFilling (base t) with
  | _ :: _ =>
      covers (pos p) (shape p) row col
      /\ inNeedFilling t (tetrisCoordToGameCoord (mkVec col row)) = false
  | [] =>
      match rotationState t with
      | Coalesce =>
          row = vy (pos p) + vy centerPos /\ col = vx (pos p) + vx centerPos
      | _ => covers (pos p) (shape p) row col
      end
  end.

(** ** Game.svelte: the key handler *)

From Stdlib Require String.

Module Keys.
Import String.

(** [handleKeyPress(event)], by the name of the key: the arrows and [a], [d]
    set the direction, [r] sets the rotation flag of the game object
    directly, every other key does nothing. *)
Definition handleKeyPress (key : string) (t : Tetris) : Tetris :=
  if String.eqb key "ArrowLeft"%string || String.eqb key "a"%string
  then setMovement LEFT t
  else if String.eqb key "ArrowRight"%string || String.eqb key "d"%string
  then setMovement RIGHT t
  else if String.eqb key "r"%string
  then requestRotate t
  else t.

(** The name of the rotation key, for the statements. *)
Definition rotateKey : string := "r"%string.

End Keys.

(** While the game is on, the dropping piece has not landed. *)
Definition afloat (t : Tetris) : Prop :=
  finished t = false ->
  hasLanded t (pos (droppingTetro t)) (shape (droppingTetro t)) = Some false.

(** * Properties *)

(** ** Integer operators on small values *)

Lemma toInt32_small (z : Z) : - 2 ^ 31 <= z < 2 ^ 31 -> toInt32 z = z.
Proof.
  intros H. unfold toInt32.
  rewrite Z.mod_small by lia. lia.
Qed.

Lemma toInt32_mod256 (z : Z) : toInt32 z mod 256 = z mod 256.
Proof.
  unfold toInt32.
  change (2 ^ 32) with (256 * 16777216). change (2 ^ 31) with (256 * 8388608).
  generalize (256 * 8388608 - 0). intros _.
  pose proof (Z.mod_pos_bound (z + 256 * 8388608) (256 * 16777216)).
  Z.div_mod_to_equations. lia.
Qed.

Lemma js_and_15 (x : Z) : js_and x 15 = x mod 16.
Proof.
  unfold js_and. rewrite (toInt32_small 15) by lia.
  change 15 with (Z.ones 4). rewrite Z.land_ones by lia.
  change (2 ^ 4) with 16.
  pose proof (toInt32_mod256 x). Z.div_mod_to_equations. lia.
Qed.

Lemma land_240 (y : Z) : Z.land y 240 = 16 * ((y / 16) mod 16).
Proof.
  apply Z.bits_inj'. intros n Hn.
  rewrite Z.land_spec.
  change 16 with (2 ^ 4) at 1. rewrite Z.mul_comm.
  change 240 with (Z.shiftl (Z.ones 4) 4).
  destruct (Z.ltb_spec n 4) as [Hlt | Hge].
  - rewrite Z.mul_pow2_bits_low by lia.
    rewrite Z.shiftl_spec_low by lia. apply andb_false_r.
  - rewrite Z.mul_pow2_bits by lia.
    rewrite Z.shiftl_spec by lia.
    change 16 with (2 ^ 4).
    rewrite Z.testbit_ones_nonneg by lia.
    destruct (Z.ltb_spec (n - 4) 4) as [Hlo | Hhi].
    + rewrite Z.mod_pow2_bits_low by lia.
      rewrite Z.div_pow2_bits by lia.
      replace (n - 4 + 4) with n by lia. apply andb_true_r.
    + rewrite Z.mod_pow2_bits_high by lia. apply andb_false_r.
Qed.

Lemma js_and_240 (x : Z) : js_and x 240 = 16 * ((x / 16) mod 16).
Proof.
  unfold js_and. rewrite (toInt32_small 240) by lia.
  rewrite land_240.
  pose proof (toInt32_mod256 x). Z.div_mod_to_equations. lia.
Qed.

Lemma lor_high_low (a b : Z) :
  0 <= b < 16 -> Z.lor (16 * a) b = 16 * a + b.
Proof.
  intros Hb.
  assert (Hd : Z.land (16 * a) b = 0).
  { apply Z.bits_inj'. intros n Hn.
    rewrite Z.land_spec, Z.bits_0.
    change 16 with (2 ^ 4). rewrite Z.mul_comm.
    destruct (Z.ltb_spec n 4) as [Hlt | Hge].
    - rewrite Z.mul_pow2_bits_low by lia. reflexivity.
    - rewrite (Z.bits_above_log2 b n); [apply andb_false_r | lia |].
      destruct (Z.eq_dec b 0) as [-> | Hnz]; [simpl; lia |].
      apply Z.log2_lt_pow2; [lia |].
      apply Z.lt_le_trans with (2 ^ 4); [simpl; lia |].
      apply Z.pow_le_mono_r; lia. }
  rewrite <- Z.lxor_lor by exact Hd.
  symmetry. apply Z.add_nocarry_lxor. exact Hd.
Qed.

Lemma js_or_high_low (a b : Z) :
  0 <= a < 16 -> 0 <= b < 16 -> js_or (16 * a) b = 16 * a + b.
Proof.
  intros Ha Hb. unfold js_or.
  rewrite !toInt32_small by lia. apply lor_high_low. exact Hb.
Qed.

Lemma js_or_low_high (a b : Z) :
  0 <= a < 16 -> 0 <= b < 16 -> js_or b (16 * a) = 16 * a + b.
Proof.
  intros Ha Hb. unfold js_or.
  rewrite !toInt32_small by lia. rewrite Z.lor_comm.
  apply lor_high_low. exact Hb.
Qed.

Lemma js_shl_4 (n : Z) : 0 <= n < 2 ^ 27 -> js_shl n 4 = 16 * n.
Proof.
  intros H. unfold js_shl.
  change (4 mod 32) with 4.
  assert (H27 : 2 ^ 27 = 134217728) by reflexivity.
  assert (H31 : 2 ^ 31 = 2147483648) by reflexivity.
  rewrite (toInt32_small n) by lia.
  rewrite Z.shiftl_mul_pow2 by lia. change (2 ^ 4) with 16.
  rewrite toInt32_small by lia. lia.
Qed.

(** ** updateReservoirState *)

Lemma updateReservoirState_frame (r : Reservoir) (nibble : Z) (g : Game) :
  let g' := updateReservoirState r nibble g in
  oppositeByte r g' = oppositeByte r g
  /\ electrodes g' = electrodes g
  /\ needFilling g' = needFilling g
  /\ currentlyMoving g' = currentlyMoving g
  /\ availableReservoirs g' = availableReservoirs g
  /\ lastFrame g' = lastFrame g
  /\ movementDelay g' = movementDelay g
  /\ cleanupDelay g' = cleanupDelay g.
Proof. destruct r; simpl; repeat split; reflexivity. Qed.

(** The top-side writes mask their argument: whatever the argument and the
    old byte, the new byte is a byte and its low half is the argument's four
    low bits. *)
Lemma updateReservoirState_top_masks (r : Reservoir) (nibble : Z) (g : Game) :
  r = TL \/ r = TR ->
  let g' := updateReservoirState r nibble g in
  isByte (ownByte r g')
  /\ reservoirNibble r g' = nibble mod 16
  /\ otherNibble r g' = otherNibble r g.
Proof.
  intros [-> | ->]; simpl; unfold isByte, lowNibble, highNibble;
    rewrite js_and_240, js_and_15;
    (rewrite js_or_high_low by (split; apply Z.mod_pos_bound; lia
                                || (apply Z.mod_pos_bound; lia)));
    repeat split; Z.div_mod_to_equations; lia.
Qed.

(** The bottom-side writes shift their argument without masking it; they
    stay within a byte when the argument is a nibble. *)
Lemma updateReservoirState_bottom_nibble (r : Reservoir) (nibble : Z)
    (g : Game) :
  r = BL \/ r = BR ->
  0 <= nibble <= 15 ->
  let g' := updateReservoirState r nibble g in
  isByte (ownByte r g')
  /\ reservoirNibble r g' = nibble
  /\ otherNibble r g' = otherNibble r g.
Proof.
  intros [-> | ->] Hn; simpl; unfold isByte, lowNibble, highNibble;
    rewrite js_and_15, js_shl_4 by (change (2 ^ 27) with 134217728; lia);
    (rewrite js_or_low_high by (split; try lia; apply Z.mod_pos_bound; lia));
    repeat split; Z.div_mod_to_equations; lia.
Qed.

(** C10: for a nibble value in 0..15, [updateReservoirState] changes only the
    half-byte of its reservoir: that half becomes the nibble, the other half
    of the same special-electrode byte is preserved, the byte of the opposite
    side is unchanged, and so are the electrode matrix, the fill queue and
    every other field of the engine. *)
Theorem C10_updateReservoirState_only_own_nibble
    (r : Reservoir) (nibble : Z) (g : Game) :
  0 <= nibble <= 15 ->
  let g' := updateReservoirState r nibble g in
  reservoirNibble r g' = nibble
  /\ otherNibble r g' = otherNibble r g
  /\ oppositeByte r g' = oppositeByte r g
  /\ electrodes g' = electrodes g
  /\ needFilling g' = needFilling g
  /\ currentlyMoving g' = currentlyMoving g
  /\ availableReservoirs g' = availableReservoirs g.
Proof.
  intros Hn g'. subst g'.
  pose proof (updateReservoirState_frame r nibble g) as Hf.
  cbv zeta in Hf.
  destruct Hf as (Ho & He & Hq & Hm & Ha & _).
  assert (Hown : reservoirNibble r (updateReservoirState r nibble g) = nibble
                 /\ otherNibble r (updateReservoirState r nibble g)
                    = otherNibble r g).
  { pose proof (updateReservoirState_top_masks r nibble g) as Ht.
    pose proof (updateReservoirState_bottom_nibble r nibble g) as Hb.
    cbv zeta in Ht, Hb.
    destruct r.
    - destruct Ht as (_ & H1 & H2); [now left |].
      split; [rewrite H1; apply Z.mod_small; lia | exact H2].
    - destruct Hb as (_ & H1 & H2); [now left | exact Hn |]. now split.
    - destruct Ht as (_ & H1 & H2); [now right |].
      split; [rewrite H1; apply Z.mod_small; lia | exact H2].
    - destruct Hb as (_ & H1 & H2); [now right | exact Hn |]. now split. }
  destruct Hown as [H1 H2]. repeat split; assumption.
Qed.

Lemma C10_witness :
  0 <= 5 <= 15
  /\ reservoirNibble BL (updateReservoirState BL 5
                           (set_specialElectrodesLeft 24 newGame)) = 5
  /\ otherNibble BL (updateReservoirState BL 5
                       (set_specialElectrodesLeft 24 newGame)) = 8.
Proof.
  split; [lia |].
  pose proof (C10_updateReservoirState_only_own_nibble BL 5
                (set_specialElectrodesLeft 24 newGame)) as H.
  destruct H as (H1 & H2 & _); [lia |].
  split; [exact H1 | rewrite H2; reflexivity].
Defined.

(** C4: the bottom-left write does not mask.  With the bytes as [init] leaves
    them, [updateReservoirState(Reservoir.BL, 16)] stores 264 in the left
    special byte, which is no byte; the top-left write of the same argument
    stores a byte. *)
Theorem C4_updateReservoirState_bottom_unmasked :
  let g := set_specialElectrodesRight 24
             (set_specialElectrodesLeft 24 newGame) in
  specialElectrodesLeft (updateReservoirState BL 16 g) = 264
  /\ ~ isByte (specialElectrodesLeft (updateReservoirState BL 16 g))
  /\ specialElectrodesLeft (updateReservoirState TL 16 g) = 16
  /\ isByte (specialElectrodesLeft (updateReservoirState TL 16 g)).
Proof.
  cbv zeta.
  assert (H1 : specialElectrodesLeft
                 (updateReservoirState BL 16
                    (set_specialElectrodesRight 24
                       (set_specialElectrodesLeft 24 newGame))) = 264)
    by (vm_compute; reflexivity).
  assert (H2 : specialElectrodesLeft
                 (updateReservoirState TL 16
                    (set_specialElectrodesRight 24
                       (set_specialElectrodesLeft 24 newGame))) = 16)
    by (vm_compute; reflexivity).
  rewrite H1, H2. unfold isByte. repeat split; lia.
Qed.

(** ** Tetromino.rotate *)

Lemma nth_map_seq {A : Type} (f : nat -> A) (n i : nat) (d : A) :
  (i < n)%nat -> nth i (map f (seq 0 n)) d = f i.
Proof.
  intros Hi.
  rewrite (nth_indep _ d (f 0%nat)) by (rewrite length_map, length_seq; lia).
  rewrite map_nth, seq_nth by lia. reflexivity.
Qed.

Lemma rotate_length (s : Shape) (d : Z) : length (rotate s d) = length s.
Proof. unfold rotate. rewrite length_map, length_seq. reflexivity. Qed.

Lemma rotate_row_length (s : Shape) (d : Z) (y : nat) :
  (y < length s)%nat -> length (nth y (rotate s d) []) = length s.
Proof.
  intros Hy. unfold rotate. rewrite nth_map_seq by exact Hy.
  rewrite length_map, length_seq. reflexivity.
Qed.

Lemma rotate_isSquare (s : Shape) (d : Z) : isSquare (rotate s d).
Proof.
  unfold isSquare. rewrite rotate_length. unfold rotate.
  apply Forall_forall. intros row Hin.
  apply in_map_iff in Hin. destruct Hin as (y & <- & _).
  rewrite length_map, length_seq. reflexivity.
Qed.

Lemma rotate_cell (s : Shape) (d : Z) (y x : nat) :
  (y < length s)%nat -> (x < length s)%nat ->
  shapeCell (rotate s d) y x =
  if d =? 1 then shapeCell s (length s - 1 - x) y
  else shapeCell s x (length s - 1 - y).
Proof.
  intros Hy Hx. unfold shapeCell at 1. unfold rotate.
  rewrite nth_map_seq by exact Hy. rewrite nth_map_seq by exact Hx.
  reflexivity.
Qed.

Lemma shape_ext (s s' : Shape) :
  length s = length s' ->
  (forall y, (y < length s)%nat ->
             length (nth y s []) = length (nth y s' [])) ->
  (forall y x, (y < length s)%nat -> (x < length (nth y s []))%nat ->
               shapeCell s y x = shapeCell s' y x) ->
  s = s'.
Proof.
  intros Hlen Hrows Hcells.
  apply (nth_ext s s' [] []); [exact Hlen |].
  intros y Hy.
  apply (nth_ext _ _ false false); [apply Hrows; exact Hy |].
  intros x Hx. apply Hcells; assumption.
Qed.

Lemma isSquare_row (s : Shape) (y : nat) :
  isSquare s -> (y < length s)%nat -> length (nth y s []) = length s.
Proof.
  intros Hsq Hy. unfold isSquare in Hsq.
  rewrite Forall_forall in Hsq. apply Hsq. apply nth_In. exact Hy.
Qed.

(** C9: on a square shape, a clockwise turn followed by a counter-clockwise
    turn gives the shape back; the clockwise turn puts [old[N-1-x][y]] at
    [new[y][x]] and the counter-clockwise turn puts [old[x][N-1-y]] there. *)
Theorem C9_rotate_clockwise_then_counter (s : Shape) :
  isSquare s ->
  rotate (rotate s 1) (-1) = s
  /\ (forall y x, (y < length s)%nat -> (x < length s)%nat ->
        shapeCell (rotate s 1) y x = shapeCell s (length s - 1 - x) y)
  /\ (forall y x, (y < length s)%nat -> (x < length s)%nat ->
        shapeCell (rotate s (-1)) y x = shapeCell s x (length s - 1 - y)).
Proof.
  intros Hsq. split; [| split].
  - apply shape_ext.
    + rewrite !rotate_length. reflexivity.
    + intros y Hy. rewrite !rotate_length in Hy.
      rewrite rotate_row_length by (rewrite rotate_length; exact Hy).
      rewrite rotate_length. symmetry. apply isSquare_row; assumption.
    + intros y x Hy Hx. rewrite !rotate_length in Hy.
      rewrite rotate_row_length in Hx by (rewrite rotate_length; exact Hy).
      rewrite rotate_length in Hx.
      rewrite rotate_cell by (rewrite rotate_length; assumption).
      change (-1 =? 1) with false. cbv iota. rewrite rotate_length.
      rewrite rotate_cell by lia.
      change (1 =? 1) with true. cbv iota.
      replace (length s - 1 - (length s - 1 - y))%nat with y by lia.
      reflexivity.
  - intros y x Hy Hx. rewrite rotate_cell by assumption. reflexivity.
  - intros y x Hy Hx. rewrite rotate_cell by assumption. reflexivity.
Qed.

Lemma C9_witness :
  isSquare (tetrominoShapes PYRAMID)
  /\ rotate (rotate (tetrominoShapes PYRAMID) 1) (-1)
     = tetrominoShapes PYRAMID.
Proof.
  assert (Hsq : isSquare (tetrominoShapes PYRAMID))
    by (repeat constructor).
  split; [exact Hsq |].
  exact (proj1 (C9_rotate_clockwise_then_counter _ Hsq)).
Defined.

(** The square piece of the catalog is 3 rows of 4 cells, not a square
    matrix: [rotate] reads its first 3 columns only and the round trip loses
    the fourth. *)
Lemma rotate_round_trip_catalog_square :
  ~ isSquare (tetrominoShapes SQUARE)
  /\ rotate (rotate (tetrominoShapes SQUARE) 1) (-1)
     = [ [false; true; true]; [false; true; true]; [false; false; false] ]
  /\ rotate (rotate (tetrominoShapes SQUARE) 1) (-1)
     <> tetrominoShapes SQUARE.
Proof.
  split; [| split].
  - intros H. inversion H as [| ? ? Hrow _]. discriminate Hrow.
  - reflexivity.
  - discriminate.
Qed.

(** ** findPath *)

Lemma findPath_loop_body (c e : Vec) (p : list Vec) :
  findPath_loop c e p =
  if notArrived c e
  then findPath_loop (advance c e) e (p ++ [advance c e])
  else p.
Proof.
  rewrite findPath_loop_equation_1.
  assert (R : forall b, notArrived c e = b ->
                        (if notArrived c e
                         then findPath_loop (advance c e) e (p ++ [advance c e])
                         else p)
                        = if b
                          then findPath_loop (advance c e) e
                                 (p ++ [advance c e])
                          else p) by (intros b <-; reflexivity).
  destruct (inspect (notArrived c e)) as [b Hb].
  rewrite (R b Hb). destruct b; reflexivity.
Qed.

Lemma notArrived_false (c e : Vec) : notArrived c e = false <-> c = e.
Proof.
  unfold notArrived. destruct c as [cx cy], e as [ex ey]; simpl. split.
  - intros H. apply orb_false_iff in H. destruct H as [Hx Hy].
    apply negb_false_iff in Hx, Hy. apply Z.eqb_eq in Hx, Hy. congruence.
  - intros H. injection H as -> ->. rewrite !Z.eqb_refl. reflexivity.
Qed.

Lemma advance_horizontal (c e : Vec) :
  vx c <> vx e ->
  vy (advance c e) = vy c
  /\ Z.abs (vx (advance c e) - vx c) = 1
  /\ Z.abs (vx (advance c e) - vx e) = Z.abs (vx c - vx e) - 1.
Proof.
  intros Hx. unfold advance.
  destruct (Z.eqb_spec (vx c) (vx e)) as [Heq | _]; [contradiction |].
  simpl. destruct (Z.ltb_spec (vx c) (vx e)); simpl; lia.
Qed.

Lemma advance_vertical (c e : Vec) :
  vx c = vx e -> vy c <> vy e ->
  vx (advance c e) = vx c
  /\ Z.abs (vy (advance c e) - vy c) = 1
  /\ Z.abs (vy (advance c e) - vy e) = Z.abs (vy c - vy e) - 1.
Proof.
  intros Hx Hy. unfold advance.
  destruct (Z.eqb_spec (vx c) (vx e)) as [_ | Hne]; [| contradiction].
  destruct (Z.eqb_spec (vy c) (vy e)) as [Heq | _]; [contradiction |].
  simpl. destruct (Z.ltb_spec (vy c) (vy e)); simpl; lia.
Qed.

Lemma notArrived_true (c e : Vec) :
  notArrived c e = true ->
  vx c <> vx e \/ (vx c = vx e /\ vy c <> vy e).
Proof.
  unfold notArrived. intros H.
  destruct (Z.eqb_spec (vx c) (vx e)) as [Hx | Hx]; [| now left].
  destruct (Z.eqb_spec (vy c) (vy e)) as [Hy | Hy]; [discriminate |].
  right. split; assumption.
Qed.

Lemma advance_closer (c e : Vec) :
  notArrived c e = true ->
  manhattan (advance c e) e = manhattan c e - 1
  /\ manhattan c (advance c e) = 1.
Proof.
  intros H. unfold manhattan.
  destruct (notArrived_true c e H) as [Hx | [Hx Hy]].
  - destruct (advance_horizontal c e Hx) as (H1 & H2 & H3). lia.
  - destruct (advance_vertical c e Hx Hy) as (H1 & H2 & H3). lia.
Qed.

Lemma findPath_loop_acc (c e : Vec) (p : list Vec) :
  findPath_loop c e p = p ++ findPath_loop c e [].
Proof.
  remember (Z.to_nat (manhattan c e)) as n eqn:Hn.
  revert c p Hn. induction n as [n IH] using lt_wf_ind. intros c p Hn.
  rewrite (findPath_loop_body c e p), (findPath_loop_body c e []).
  destruct (notArrived c e) eqn:Hna; [| now rewrite app_nil_r].
  destruct (advance_closer c e Hna) as [Hd _].
  assert (Hlt : (Z.to_nat (manhattan (advance c e) e) < n)%nat).
  { unfold manhattan in *. lia. }
  rewrite (IH _ Hlt (advance c e) (p ++ [advance c e]) eq_refl).
  rewrite (IH _ Hlt (advance c e) ([] ++ [advance c e]) eq_refl).
  rewrite <- !app_assoc. reflexivity.
Qed.

Lemma findPath_loop_step (c e : Vec) :
  notArrived c e = true ->
  findPath_loop c e [] = advance c e :: findPath_loop (advance c e) e [].
Proof.
  intros H. rewrite findPath_loop_body, H.
  rewrite findPath_loop_acc. reflexivity.
Qed.

Lemma findPath_loop_done (c e : Vec) :
  notArrived c e = false -> findPath_loop c e [] = [].
Proof. intros H. rewrite findPath_loop_body, H. reflexivity. Qed.

(** Induction along the turns of the loop. *)
Lemma findPath_loop_ind (e : Vec) (P : Vec -> list Vec -> Prop) :
  (forall c, notArrived c e = false -> P c []) ->
  (forall c, notArrived c e = true ->
             P (advance c e) (findPath_loop (advance c e) e []) ->
             P c (advance c e :: findPath_loop (advance c e) e [])) ->
  forall c, P c (findPath_loop c e []).
Proof.
  intros Hdone Hstep c.
  remember (Z.to_nat (manhattan c e)) as n eqn:Hn.
  revert c Hn. induction n as [n IH] using lt_wf_ind. intros c Hn.
  destruct (notArrived c e) eqn:Hna.
  - rewrite findPath_loop_step by exact Hna.
    apply Hstep; [exact Hna |].
    destruct (advance_closer c e Hna) as [Hd _].
    apply (IH (Z.to_nat (manhattan (advance c e) e))); [| reflexivity].
    unfold manhattan in *. lia.
  - rewrite findPath_loop_done by exact Hna. apply Hdone. exact Hna.
Qed.

Lemma findPath_length (e c : Vec) :
  Z.of_nat (length (findPath_loop c e [])) = manhattan c e.
Proof.
  apply (findPath_loop_ind e
           (fun c path => Z.of_nat (length path) = manhattan c e)).
  - intros c0 H. apply notArrived_false in H. subst c0.
    unfold manhattan. simpl. lia.
  - intros c0 H IH. destruct (advance_closer c0 e H) as [Hd _].
    simpl length. lia.
Qed.

Lemma findPath_cells_closer (e c : Vec) :
  forall q, In q (findPath_loop c e []) -> manhattan q e < manhattan c e.
Proof.
  apply (findPath_loop_ind e
           (fun c path => forall q, In q path ->
                                    manhattan q e < manhattan c e)).
  - intros c0 _ q [].
  - intros c0 H IH q [<- | Hin];
      destruct (advance_closer c0 e H) as [Hd _]; [lia |].
    specialize (IH q Hin). lia.
Qed.

Lemma findPath_unit_steps (e c : Vec) :
  stepwise (fun p q => manhattan p q = 1) c (findPath_loop c e []).
Proof.
  apply (findPath_loop_ind e
           (fun c path => stepwise (fun p q => manhattan p q = 1) c path)).
  - intros c0 _. exact I.
  - intros c0 H IH. destruct (advance_closer c0 e H) as [_ H1].
    split; assumption.
Qed.

Lemma findPath_decreasing (e c : Vec) :
  stepwise (fun p q => manhattan q e < manhattan p e) c
           (findPath_loop c e []).
Proof.
  apply (findPath_loop_ind e
           (fun c path =>
              stepwise (fun p q => manhattan q e < manhattan p e) c path)).
  - intros c0 _. exact I.
  - intros c0 H IH. destruct (advance_closer c0 e H) as [Hd _].
    split; [lia | exact IH].
Qed.

Lemma findPath_NoDup (e c : Vec) : NoDup (findPath_loop c e []).
Proof.
  apply (findPath_loop_ind e (fun _ path => NoDup path)).
  - intros c0 _. constructor.
  - intros c0 H IH. constructor; [| exact IH].
    intros Hin. apply findPath_cells_closer in Hin. lia.
Qed.

Lemma findPath_horizontal_first (e c : Vec) :
  exists h v,
    findPath_loop c e [] = h ++ v
    /\ Z.of_nat (length h) = Z.abs (vx c - vx e)
    /\ Z.of_nat (length v) = Z.abs (vy c - vy e)
    /\ (forall q, In q h -> vy q = vy c)
    /\ (forall q, In q v -> vx q = vx e).
Proof.
  apply (findPath_loop_ind e
           (fun c path =>
              exists h v,
                path = h ++ v
                /\ Z.of_nat (length h) = Z.abs (vx c - vx e)
                /\ Z.of_nat (length v) = Z.abs (vy c - vy e)
                /\ (forall q, In q h -> vy q = vy c)
                /\ (forall q, In q v -> vx q = vx e))).
  - intros c0 H. apply notArrived_false in H. subst c0.
    exists [], []. simpl. repeat split; try lia; intros q [].
  - intros c0 H (h & v & Heq & Hh & Hv & Hrow & Hcol).
    destruct (notArrived_true c0 e H) as [Hx | [Hx Hy]].
    + destruct (advance_horizontal c0 e Hx) as (H1 & H2 & H3).
      exists (advance c0 e :: h), v. rewrite Heq.
      repeat split.
      * simpl length. lia.
      * lia.
      * intros q [<- | Hin]; [exact H1 |].
        rewrite (Hrow q Hin). exact H1.
      * exact Hcol.
    + destruct (advance_vertical c0 e Hx Hy) as (H1 & H2 & H3).
      assert (Hnil : h = []).
      { destruct h; [reflexivity | simpl length in Hh; lia]. }
      subst h. exists [], (advance c0 e :: v). rewrite Heq.
      repeat split.
      * simpl. lia.
      * simpl length. lia.
      * intros q [].
      * intros q [<- | Hin]; [lia | apply Hcol; exact Hin].
Qed.

(** C3: for small cells [a] and [b] (integer coordinates of magnitude at most
    2^20, where the code's arithmetic on doubles is exact),
    [findPath(a, b)] leaves the start cell out, moves one cell per step,
    makes all its horizontal steps (a first part of the path, on the start
    row, as long as the horizontal distance) before its vertical steps (the
    rest, on the end column, as long as the vertical distance), has
    [|a.x-b.x| + |a.y-b.y|] cells, gets strictly closer to [b] at every step,
    never repeats a cell, and is empty exactly when [a] is [b]. *)
Theorem C3_findPath_manhattan (a b : Vec) :
  smallCell a -> smallCell b ->
  let path := findPath a b in
  ~ In a path
  /\ stepwise (fun p q => Z.abs (vx q - vx p) + Z.abs (vy q - vy p) = 1)
              a path
  /\ (exists h v,
        path = h ++ v
        /\ Z.of_nat (length h) = Z.abs (vx a - vx b)
        /\ Z.of_nat (length v) = Z.abs (vy a - vy b)
        /\ (forall q, In q h -> vy q = vy a)
        /\ (forall q, In q v -> vx q = vx b))
  /\ Z.of_nat (length path) = Z.abs (vx a - vx b) + Z.abs (vy a - vy b)
  /\ stepwise (fun p q => manhattan q b < manhattan p b) a path
  /\ NoDup path
  /\ (path = [] <-> a = b).
Proof.
  intros _ _. unfold findPath. destruct a as [ax ay]. cbn [vx vy].
  set (a := mkVec ax ay). cbv zeta.
  repeat split.
  - intros Hin. apply findPath_cells_closer in Hin. lia.
  - pose proof (findPath_unit_steps b a) as H.
    assert (Hmono : forall l c,
               stepwise (fun p q => manhattan p q = 1) c l ->
               stepwise (fun p q => Z.abs (vx q - vx p)
                                    + Z.abs (vy q - vy p) = 1) c l).
    { induction l as [| q l IHl]; intros c Hs; [exact I |].
      destruct Hs as [H1 H2]. split; [| apply IHl; exact H2].
      unfold manhattan in H1. lia. }
    apply Hmono. exact H.
  - exact (findPath_horizontal_first b a).
  - apply (findPath_length b a).
  - apply findPath_decreasing.
  - apply findPath_NoDup.
  - intros Hnil. pose proof (findPath_length b a) as Hlen.
    rewrite Hnil in Hlen. simpl in Hlen.
    apply notArrived_false. unfold notArrived.
    unfold manhattan in Hlen.
    destruct (Z.eqb_spec (vx a) (vx b)); [| lia].
    destruct (Z.eqb_spec (vy a) (vy b)); [reflexivity | lia].
  - intros Heq. apply findPath_loop_done. apply notArrived_false. exact Heq.
Qed.

Lemma C3_witness :
  smallCell (mkVec 0 1) /\ smallCell (mkVec 2 3)
  /\ Z.of_nat (length (findPath (mkVec 0 1) (mkVec 2 3))) = 4.
Proof.
  assert (Ha : smallCell (mkVec 0 1))
    by (split; vm_compute; discriminate).
  assert (Hb : smallCell (mkVec 2 3))
    by (split; vm_compute; discriminate).
  split; [exact Ha |]. split; [exact Hb |].
  destruct (C3_findPath_manhattan (mkVec 0 1) (mkVec 2 3) Ha Hb)
    as (_ & _ & _ & Hlen & _).
  exact Hlen.
Defined.


(** ** transmit *)

Lemma replaceNth_length {A : Type} (n : nat) (v : A) (l : list A) :
  length (replaceNth n v l) = length l.
Proof.
  revert n. induction l as [| h t IH]; intros [| n]; simpl; auto.
Qed.

Lemma nth_replaceNth_same {A : Type} (n : nat) (v d : A) (l : list A) :
  (n < length l)%nat -> nth n (replaceNth n v l) d = v.
Proof.
  revert n. induction l as [| h t IH]; intros [| n] H; simpl in *;
    try lia; auto. apply IH. lia.
Qed.

Lemma nth_replaceNth_other {A : Type} (n m : nat) (v d : A) (l : list A) :
  n <> m -> nth m (replaceNth n v l) d = nth m l d.
Proof.
  revert n m. induction l as [| h t IH]; intros [| n] [| m] H; simpl;
    try reflexivity; try contradiction. apply IH. congruence.
Qed.

Lemma nth_error_replaceNth_same {A : Type} (n : nat) (v : A) (l : list A) :
  (n < length l)%nat -> nth_error (replaceNth n v l) n = Some v.
Proof.
  revert n. induction l as [| h t IH]; intros [| n] H; simpl in *;
    try lia; auto. apply IH. lia.
Qed.

Lemma nth_error_replaceNth_other {A : Type} (n m : nat) (v : A)
    (l : list A) :
  n <> m -> nth_error (replaceNth n v l) m = nth_error l m.
Proof.
  revert n m. induction l as [| h t IH]; intros [| n] [| m] H; simpl;
    try reflexivity; try contradiction. apply IH. congruence.
Qed.

Lemma storeU8_length (p : list Z) (i v : Z) :
  length (storeU8 p i v) = length p.
Proof.
  unfold storeU8. destruct (i <? 0); [reflexivity | apply replaceNth_length].
Qed.

Lemma storeU8_same (p : list Z) (i v : Z) :
  0 <= i < Z.of_nat (length p) ->
  packetByte (storeU8 p i v) i = toUint8 v.
Proof.
  intros H. unfold packetByte, storeU8.
  destruct (Z.ltb_spec i 0); [lia |]. apply nth_replaceNth_same. lia.
Qed.

Lemma storeU8_other (p : list Z) (i j v : Z) :
  0 <= i -> 0 <= j -> i <> j ->
  packetByte (storeU8 p i v) j = packetByte p j.
Proof.
  intros Hi Hj Hne. unfold packetByte, storeU8.
  destruct (Z.ltb_spec i 0); [lia |]. apply nth_replaceNth_other. lia.
Qed.

Lemma storeU8_zero_keeps_zero (p : list Z) (i j : Z) :
  0 <= i -> 0 <= j ->
  packetByte p j = 0 -> packetByte (storeU8 p i 0) j = 0.
Proof.
  intros Hi Hj Hz.
  destruct (Z.eq_dec i j) as [<- | Hne];
    [| rewrite storeU8_other by assumption; exact Hz].
  unfold packetByte, storeU8 in *.
  destruct (Z.ltb_spec i 0); [lia |].
  destruct (Nat.lt_ge_cases (Z.to_nat i) (length p)) as [Hlt | Hge].
  - rewrite nth_replaceNth_same by exact Hlt. reflexivity.
  - rewrite nth_overflow; [reflexivity |].
    rewrite replaceNth_length. exact Hge.
Qed.

Lemma getRow_Some (m : Matrix) (r : Z) :
  0 <= r < Z.of_nat (length m) -> exists row, getRow m r = Some row.
Proof.
  intros H. unfold getRow.
  destruct (Z.ltb_spec r 0); [lia |].
  destruct (nth_error m (Z.to_nat r)) eqn:E; [eauto |].
  apply nth_error_None in E. lia.
Qed.

Lemma getCell_Some (m : Matrix) (r c : Z) :
  0 <= r < Z.of_nat (length m) ->
  getCell m r c = Some (electrodeActive m r c).
Proof.
  intros H. unfold electrodeActive, getCell.
  destruct (getRow_Some m r H) as [row ->]. reflexivity.
Qed.

Lemma js_shl_one (y : Z) : 0 <= y < 31 -> js_shl 1 y = 2 ^ y.
Proof.
  intros H. unfold js_shl.
  rewrite (toInt32_small 1) by lia.
  rewrite (Z.mod_small y 32) by lia.
  rewrite Z.shiftl_1_l.
  apply toInt32_small.
  assert (0 < 2 ^ y) by (apply Z.pow_pos_nonneg; lia).
  assert (2 ^ y < 2 ^ 31) by (apply Z.pow_lt_mono_r; lia).
  lia.
Qed.

Lemma small_bits_off (a k i : Z) :
  0 <= a < 2 ^ k -> k <= i -> Z.testbit a i = false.
Proof.
  intros Ha Hi.
  destruct (Z.ltb_spec k 0) as [Hneg | Hk].
  { rewrite Z.pow_neg_r in Ha by lia. lia. }
  rewrite <- (Z.mod_small a (2 ^ k)) by exact Ha.
  apply Z.mod_pow2_bits_high. lia.
Qed.

Lemma lor_fresh_bit (a k : Z) :
  0 <= k -> 0 <= a < 2 ^ k ->
  Z.lor a (2 ^ k) = a + 2 ^ k.
Proof.
  intros Hk Ha.
  assert (Hd : Z.land a (2 ^ k) = 0).
  { apply Z.bits_inj'. intros n Hn.
    rewrite Z.land_spec, Z.bits_0, Z.pow2_bits_eqb by lia.
    destruct (Z.eqb_spec k n) as [<- | Hne]; [| apply andb_false_r].
    rewrite (small_bits_off a k k) by (try assumption; lia). reflexivity. }
  rewrite <- Z.lxor_lor by exact Hd.
  symmetry. apply Z.add_nocarry_lxor. exact Hd.
Qed.

(** The inner loop of [transmit], from row [k] on: the rows visited get their
    bit, the bits already gathered stay. *)
Lemma columnByte_rows (m : Matrix) (x : Z) (n k : nat) (acc : Z) :
  (k + n <= 8)%nat -> (8 <= length m)%nat ->
  0 <= acc < 2 ^ Z.of_nat k ->
  exists b,
    foldM (fun colByte y =>
             match getCell m y x with
             | None => None
             | Some true => Some (js_or colByte (js_shl 1 y))
             | Some false => Some colByte
             end)
          (map Z.of_nat (seq k n)) acc = Some b
    /\ 0 <= b < 2 ^ Z.of_nat (k + n)
    /\ forall y, 0 <= y ->
         Z.testbit b y =
         if (Z.of_nat k <=? y) && (y <? Z.of_nat (k + n))
         then electrodeActive m y x
         else Z.testbit acc y.
Proof.
  revert k acc. induction n as [| n IH]; intros k acc Hkn Hm Hacc.
  - exists acc. simpl. rewrite Nat.add_0_r. split; [reflexivity |].
    split; [exact Hacc |]. intros y Hy.
    destruct (Z.leb_spec (Z.of_nat k) y); destruct (Z.ltb_spec y (Z.of_nat k));
      simpl; try reflexivity; lia.
  - simpl seq. simpl map. simpl foldM.
    rewrite getCell_Some by lia.
    assert (Hpow : 2 ^ Z.of_nat (S k) = 2 * 2 ^ Z.of_nat k).
    { rewrite Nat2Z.inj_succ. apply Z.pow_succ_r. lia. }
    assert (Hpos : 0 < 2 ^ Z.of_nat k) by (apply Z.pow_pos_nonneg; lia).
    set (bit := electrodeActive m (Z.of_nat k) x).
    set (acc' := if bit then js_or acc (js_shl 1 (Z.of_nat k)) else acc).
    assert (Hacc' : acc' = if bit then acc + 2 ^ Z.of_nat k else acc).
    { unfold acc'. destruct bit; [| reflexivity].
      rewrite js_shl_one by lia. unfold js_or.
      assert (2 ^ Z.of_nat k <= 2 ^ 8) by (apply Z.pow_le_mono_r; lia).
      change (2 ^ 8) with 256 in *.
      rewrite !toInt32_small by lia.
      apply lor_fresh_bit; lia. }
    assert (Hbits : forall y, 0 <= y ->
               Z.testbit acc' y =
               if y =? Z.of_nat k then bit else Z.testbit acc y).
    { intros y Hy. rewrite Hacc'. destruct bit.
      - rewrite <- lor_fresh_bit by lia.
        rewrite Z.lor_spec, Z.pow2_bits_eqb by lia.
        rewrite (Z.eqb_sym (Z.of_nat k) y).
        destruct (Z.eqb_spec y (Z.of_nat k)) as [-> | _];
          [apply orb_true_r | apply orb_false_r].
      - destruct (Z.eqb_spec y (Z.of_nat k)) as [-> | _]; [| reflexivity].
        apply (small_bits_off acc (Z.of_nat k)); [exact Hacc | lia]. }
    destruct (IH (S k) acc') as (b & Hb & Hrange & Hspec);
      [lia | exact Hm | rewrite Hacc', Hpow; destruct bit; lia |].
    exists b. split.
    { replace (match (if bit then Some true else Some false) with
               | Some true => Some (js_or acc (js_shl 1 (Z.of_nat k)))
               | Some false => Some acc
               | None => None
               end) with (Some acc') by (unfold acc'; destruct bit; reflexivity).
      destruct bit; exact Hb. }
    split; [replace (k + S n)%nat with (S k + n)%nat by lia; exact Hrange |].
    intros y Hy. rewrite (Hspec y Hy), (Hbits y Hy).
    replace (k + S n)%nat with (S k + n)%nat by lia.
    destruct (Z.leb_spec (Z.of_nat (S k)) y);
      destruct (Z.leb_spec (Z.of_nat k) y);
      destruct (Z.ltb_spec y (Z.of_nat (S k + n)));
      destruct (Z.eqb_spec y (Z.of_nat k));
      simpl; try reflexivity; try lia.
    subst y. reflexivity.
Qed.

Lemma columnByte_spec (m : Matrix) (x : Z) :
  (8 <= length m)%nat ->
  exists b,
    columnByte m x = Some b
    /\ 0 <= b < 256
    /\ forall y, 0 <= y ->
         Z.testbit b y = (y <? 8) && electrodeActive m y x.
Proof.
  intros Hm.
  destruct (columnByte_rows m x 8 0 0) as (b & Hb & Hrange & Hbits);
    [lia | exact Hm | simpl; lia |].
  exists b. split; [exact Hb |]. split; [exact Hrange |].
  intros y Hy. rewrite (Hbits y Hy).
  change (Z.of_nat 0) with 0. change (Z.of_nat (0 + 8)) with 8.
  destruct (Z.leb_spec 0 y); [| lia].
  destruct (Z.ltb_spec y 8); simpl; [reflexivity |].
  apply Z.bits_0.
Qed.

(** The outer loop of [transmit], from column [k] on. *)
Lemma packet_columns (m : Matrix) (n k : nat) (p : list Z) :
  (k + n <= 14)%nat -> (8 <= length m)%nat -> length p = 32%nat ->
  exists p',
    foldM (fun packet x =>
             match columnByte m x with
             | Some colByte => Some (storeU8 packet (x + 1) colByte)
             | None => None
             end)
          (map Z.of_nat (seq k n)) p = Some p'
    /\ length p' = 32%nat
    /\ (forall i, 0 <= i -> ~ (Z.of_nat k + 1 <= i < Z.of_nat (k + n) + 1) ->
          packetByte p' i = packetByte p i)
    /\ (forall x, Z.of_nat k <= x < Z.of_nat (k + n) ->
          forall y, 0 <= y ->
            Z.testbit (packetByte p' (x + 1)) y
            = (y <? 8) && electrodeActive m y x).
Proof.
  revert k p. induction n as [| n IH]; intros k p Hkn Hm Hp.
  - exists p. simpl. repeat split; try assumption; try reflexivity.
    intros x Hx. lia.
  - simpl seq. simpl map. simpl foldM.
    destruct (columnByte_spec m (Z.of_nat k) Hm) as (b & -> & Hb & Hbits).
    destruct (IH (S k) (storeU8 p (Z.of_nat k + 1) b)) as
      (p' & Hp' & Hlen & Hout & Hin);
      [lia | exact Hm | rewrite storeU8_length; exact Hp |].
    exists p'. split; [exact Hp' |]. split; [exact Hlen |]. split.
    + intros i Hi Hni. rewrite Hout by lia.
      apply storeU8_other; lia.
    + intros x Hx y Hy.
      destruct (Z.eq_dec x (Z.of_nat k)) as [-> | Hne].
      * rewrite Hout by lia.
        rewrite storeU8_same by (rewrite Hp; lia).
        unfold toUint8. rewrite Z.mod_small by lia.
        apply Hbits. exact Hy.
      * apply Hin; lia.
Qed.

Lemma zero_stores (idxs : list Z) (p : list Z) :
  Forall (fun i => 0 <= i) idxs ->
  length (fold_left (fun packet i => storeU8 packet i 0) idxs p) = length p
  /\ (forall j, 0 <= j -> ~ In j idxs ->
        packetByte (fold_left (fun packet i => storeU8 packet i 0) idxs p) j
        = packetByte p j)
  /\ (forall j, 0 <= j -> packetByte p j = 0 ->
        packetByte (fold_left (fun packet i => storeU8 packet i 0) idxs p) j
        = 0).
Proof.
  revert p. induction idxs as [| i idxs IH]; intros p Hpos.
  - simpl. repeat split; auto.
  - inversion Hpos as [| ? ? Hi Hrest]; subst. simpl fold_left.
    destruct (IH (storeU8 p i 0) Hrest) as (Hlen & Hother & Hzero).
    split; [rewrite Hlen; apply storeU8_length |]. split.
    + intros j Hj Hnin. rewrite Hother; [| exact Hj | intros H; apply Hnin; now right].
      apply storeU8_other; [exact Hi | exact Hj |].
      intros ->. apply Hnin. now left.
    + intros j Hj Hz. apply Hzero; [exact Hj |].
      apply storeU8_zero_keeps_zero; assumption.
Qed.

Lemma packetByte_zeros (n : nat) (i : Z) : packetByte (repeat 0 n) i = 0.
Proof.
  unfold packetByte.
  destruct (Nat.lt_ge_cases (Z.to_nat i) n) as [Hlt | Hge].
  - apply nth_repeat_lt. exact Hlt.
  - apply nth_overflow. rewrite repeat_length. exact Hge.
Qed.

(** What [transmit] builds, whatever the special bytes hold. *)
Lemma buildPacket_spec (g : Game) :
  (8 <= length (electrodes g))%nat ->
  exists packet,
    buildPacket g = Some packet
    /\ length packet = 32%nat
    /\ packetByte packet 0 = toUint8 (specialElectrodesLeft g)
    /\ packetByte packet 15 = toUint8 (specialElectrodesRight g)
    /\ (forall x, 0 <= x < 14 -> forall y, 0 <= y ->
          Z.testbit (packetByte packet (x + 1)) y
          = (y <? 8) && electrodeActive (electrodes g) y x)
    /\ (forall i, 16 <= i < 32 -> packetByte packet i = 0).
Proof.
  intros Hm. unfold buildPacket.
  set (p0 := storeU8 (repeat 0 32) 0 (specialElectrodesLeft g)).
  assert (Hp0 : length p0 = 32%nat)
    by (unfold p0; rewrite storeU8_length; apply repeat_length).
  destruct (packet_columns (electrodes g) 14 0 p0) as
    (p1 & Hp1 & Hlen1 & Hout & Hin); [lia | exact Hm | exact Hp0 |].
  change (range (vx gameSize)) with (map Z.of_nat (seq 0 14)).
  rewrite Hp1.
  set (p2 := storeU8 (storeU8 (storeU8 p1 15 (specialElectrodesRight g)) 16 0)
                     17 0).
  assert (Hidx : Forall (fun i => 0 <= i) (map (fun i => 18 + i) (range 14))).
  { apply Forall_forall. intros i Hi. apply in_map_iff in Hi.
    destruct Hi as (j & <- & Hj). unfold range in Hj.
    apply in_map_iff in Hj. destruct Hj as (k & <- & _). lia. }
  assert (Hge18 : forall j, In j (map (fun i => 18 + i) (range 14)) ->
                            18 <= j).
  { intros j Hj. apply in_map_iff in Hj. destruct Hj as (i & <- & Hi).
    unfold range in Hi. apply in_map_iff in Hi.
    destruct Hi as (k & <- & _). lia. }
  destruct (zero_stores _ p2 Hidx) as (Hlen3 & Hother & Hzero).
  eexists. split; [reflexivity |].
  fold p2.
  assert (Hp2 : length p2 = 32%nat)
    by (unfold p2; rewrite !storeU8_length; exact Hlen1).
  split; [rewrite Hlen3; exact Hp2 |].
  assert (Hlow : forall j, 0 <= j < 15 -> packetByte p2 j = packetByte p1 j).
  { intros j Hj. unfold p2. rewrite !storeU8_other by lia. reflexivity. }
  split; [| split; [| split]].
  - rewrite Hother; [| lia | intros H; apply Hge18 in H; lia].
    rewrite Hlow by lia. rewrite Hout by lia.
    unfold p0. apply storeU8_same. rewrite repeat_length. lia.
  - rewrite Hother; [| lia | intros H; apply Hge18 in H; lia].
    unfold p2. rewrite !storeU8_other by lia.
    apply storeU8_same. rewrite Hlen1. lia.
  - intros x Hx y Hy.
    rewrite Hother; [| lia | intros H; apply Hge18 in H; lia].
    rewrite Hlow by lia. apply Hin; [simpl; lia | exact Hy].
  - intros i Hi. apply Hzero; [lia |].
    unfold p2.
    destruct (Z.eq_dec i 17) as [-> | H17];
      [rewrite storeU8_same
         by (rewrite !storeU8_length, Hlen1; lia); reflexivity |].
    rewrite storeU8_other by lia.
    destruct (Z.eq_dec i 16) as [-> | H16];
      [rewrite storeU8_same
         by (rewrite !storeU8_length, Hlen1; lia); reflexivity |].
    rewrite !storeU8_other by lia.
    rewrite Hout by lia.
    unfold p0. rewrite storeU8_other by lia. apply packetByte_zeros.
Qed.

(** C1: in every engine state [transmit] builds one frame of 32 bytes, hands
    it over and leaves the state as it was; byte 0 is the left special byte,
    byte 15 the right one, byte [x+1] for an interior column [x] of 0..13 has
    bit [y] set exactly when row [y] of that column is active (no bit from 8
    up is set), and bytes 16 to 31 are zero. *)
Theorem C1_transmit_frame (g : Game) :
  engineState g ->
  exists packet,
    transmit g = Some (tt, g, [Transmit packet])
    /\ length packet = 32%nat
    /\ packetByte packet 0 = specialElectrodesLeft g
    /\ packetByte packet 15 = specialElectrodesRight g
    /\ (forall x, 0 <= x < 14 -> forall y, 0 <= y ->
          Z.testbit (packetByte packet (x + 1)) y
          = (y <? 8) && electrodeActive (electrodes g) y x)
    /\ (forall i, 16 <= i < 32 -> packetByte packet i = 0).
Proof.
  intros (Hl & Hr & Hrows).
  destruct (buildPacket_spec g) as (packet & Hp & Hlen & H0 & H15 & Hcol & Hz).
  { rewrite Hrows. simpl. lia. }
  exists packet. unfold transmit. rewrite Hp.
  unfold isByte, toUint8 in *.
  rewrite Z.mod_small in H0, H15 by lia.
  repeat split; assumption.
Qed.

Lemma C1_witness :
  engineState (set_specialElectrodesLeft 24 newGame)
  /\ exists packet,
       transmit (set_specialElectrodesLeft 24 newGame)
       = Some (tt, set_specialElectrodesLeft 24 newGame, [Transmit packet])
       /\ packetByte packet 0 = 24.
Proof.
  assert (Hs : engineState (set_specialElectrodesLeft 24 newGame)).
  { unfold engineState, isByte. simpl. repeat split; lia. }
  split; [exact Hs |].
  destruct (C1_transmit_frame _ Hs) as (packet & Ht & _ & H0 & _).
  exists packet. split; [exact Ht | exact H0].
Defined.

(** ** dispense *)

(** A property of every nibble value is checked on the sixteen of them. *)
Lemma nibble_cases (P : Z -> Prop) :
  (forall k : nat, (k < 16)%nat -> P (Z.of_nat k)) ->
  forall n, 0 <= n <= 15 -> P n.
Proof.
  intros H n Hn. rewrite <- (Z2Nat.id n) by lia. apply H. lia.
Qed.

Lemma reverseNibble_bits (n : Z) :
  0 <= n <= 15 ->
  0 <= reverseNibble n <= 15
  /\ forall i, 0 <= i <= 3 ->
       Z.testbit (reverseNibble n) i = Z.testbit n (3 - i).
Proof.
  revert n. apply nibble_cases. intros k Hk.
  do 16 (destruct k as [| k];
         [split; [vm_compute; split; discriminate |];
          intros i Hi;
          assert (Hi' : 0 <= i <= 15) by lia;
          revert i Hi' Hi;
          apply (nibble_cases
                   (fun i => 0 <= i <= 3 ->
                             Z.testbit _ i = Z.testbit _ (3 - i)));
          intros j Hj;
          do 4 (destruct j as [| j]; [intros _; vm_compute; reflexivity |]);
          intros Hi; lia |]).
  lia.
Qed.

Lemma reverseNibble_involutive (n : Z) :
  0 <= n <= 15 -> reverseNibble (reverseNibble n) = n.
Proof.
  revert n. apply nibble_cases. intros k Hk.
  do 16 (destruct k as [| k]; [vm_compute; reflexivity |]).
  lia.
Qed.

Lemma oriented_nibble (r : Reservoir) (n : Z) :
  0 <= n <= 15 -> 0 <= oriented r n <= 15.
Proof.
  intros Hn. unfold oriented. destruct (isBottom r); [| exact Hn].
  apply reverseNibble_bits. exact Hn.
Qed.

(** One write of a nibble, as the frames will show it. *)
Lemma updateReservoirState_nibble (r : Reservoir) (n : Z) (g : Game) :
  0 <= n <= 15 ->
  isByte (ownByte r (updateReservoirState r n g))
  /\ reservoirNibble r (updateReservoirState r n g) = n
  /\ otherNibble r (updateReservoirState r n g) = otherNibble r g.
Proof.
  intros Hn.
  pose proof (updateReservoirState_top_masks r n g) as Ht.
  pose proof (updateReservoirState_bottom_nibble r n g) as Hb.
  cbv zeta in Ht, Hb.
  destruct r.
  - destruct Ht as (H0 & H1 & H2); [now left |].
    rewrite Z.mod_small in H1 by lia.
    split; [exact H0 | split; assumption].
  - destruct Hb as (H0 & H1 & H2); [now left | exact Hn |].
    split; [exact H0 | split; assumption].
  - destruct Ht as (H0 & H1 & H2); [now right |].
    rewrite Z.mod_small in H1 by lia.
    split; [exact H0 | split; assumption].
  - destruct Hb as (H0 & H1 & H2); [now right | exact Hn |].
    split; [exact H0 | split; assumption].
Qed.

Lemma dispenseLocation_inside (r : Reservoir) :
  0 <= vx (getDispenseLocation r) < 14
  /\ 0 <= vy (getDispenseLocation r) < 8.
Proof. destruct r; simpl; lia. Qed.

(** A frame shows the half-byte of the reservoir and the drop cell. *)
Lemma transmit_shows (r : Reservoir) (g : Game) :
  length (electrodes g) = 8%nat ->
  isByte (ownByte r g) ->
  exists p,
    transmit g = Some (tt, g, [Transmit p])
    /\ length p = 32%nat
    /\ frameNibble r p = reservoirNibble r g
    /\ frameCell (getDispenseLocation r) p
       = electrodeActive (electrodes g) (vy (getDispenseLocation r))
                         (vx (getDispenseLocation r)).
Proof.
  intros Hrows Hbyte.
  destruct (buildPacket_spec g) as (p & Hp & Hlen & H0 & H15 & Hcol & _);
    [lia |].
  exists p. unfold transmit. rewrite Hp.
  split; [reflexivity |]. split; [exact Hlen |].
  destruct (dispenseLocation_inside r) as [Hx Hy].
  split.
  - unfold isByte, toUint8 in *.
    destruct r; simpl in *; rewrite ?H0, ?H15;
      rewrite Z.mod_small by lia; reflexivity.
  - unfold frameCell. rewrite Hcol by lia.
    destruct (Z.ltb_spec (vy (getDispenseLocation r)) 8); [reflexivity | lia].
Qed.

Lemma rowSet_get_same (row : Row) (c : Z) (v : bool) :
  0 <= c -> rowGet (rowSet row c v) c = v.
Proof.
  intros Hc. unfold rowGet, rowSet.
  destruct (Z.ltb_spec c 0); [lia |].
  generalize (Z.to_nat c). clear. intros n. revert row.
  induction n as [| n IH]; intros [| h t]; simpl; auto.
Qed.

Lemma setCell_inside (m : Matrix) (r c : Z) (v : bool) :
  0 <= r < Z.of_nat (length m) -> 0 <= c ->
  exists m',
    setCell m r c v = Some m'
    /\ length m' = length m
    /\ electrodeActive m' r c = v.
Proof.
  intros Hr Hc. unfold setCell.
  destruct (getRow_Some m r Hr) as [row Hrow]. rewrite Hrow.
  eexists. split; [reflexivity |].
  split; [apply replaceNth_length |].
  unfold electrodeActive, getCell, getRow.
  destruct (Z.ltb_spec r 0); [lia |].
  rewrite nth_error_replaceNth_same by lia.
  apply rowSet_get_same. exact Hc.
Qed.

Lemma bind_Some {A B : Type} (m : Eff A) (k : A -> Eff B) (g g1 g2 : Game)
    (a : A) (b : B) (ev1 ev2 : list Event) :
  m g = Some (a, g1, ev1) ->
  k a g1 = Some (b, g2, ev2) ->
  bind m k g = Some (b, g2, ev1 ++ ev2).
Proof. intros H1 H2. unfold bind. rewrite H1, H2. reflexivity. Qed.

Lemma keptBy_refl (r : Reservoir) (g : Game) : keptBy r g g.
Proof. unfold keptBy. repeat split; reflexivity. Qed.

Lemma keptBy_trans (r : Reservoir) (g1 g2 g3 : Game) :
  keptBy r g1 g2 -> keptBy r g2 g3 -> keptBy r g1 g3.
Proof.
  unfold keptBy. intros H1 H2.
  destruct H1 as (A1 & A2 & A3 & A4 & A5 & A6 & A7 & A8).
  destruct H2 as (B1 & B2 & B3 & B4 & B5 & B6 & B7 & B8).
  repeat split; congruence.
Qed.

Lemma keptBy_update (r : Reservoir) (n : Z) (g : Game) :
  0 <= n <= 15 -> keptBy r g (updateReservoirState r n g).
Proof.
  intros Hn. destruct (updateReservoirState_nibble r n g Hn) as (_ & _ & Ho).
  pose proof (updateReservoirState_frame r n g) as Hf. cbv zeta in Hf.
  destruct Hf as (F1 & F2 & F3 & F4 & F5 & F6 & F7 & F8).
  unfold keptBy. repeat split; assumption.
Qed.

Lemma keptBy_set_electrodes (r : Reservoir) (m : Matrix) (g : Game) :
  keptBy r g (set_electrodes m g).
Proof. unfold keptBy. destruct r; simpl; repeat split; reflexivity. Qed.

Lemma activate_inside (cell : Vec) (m : Matrix) :
  0 <= vy cell < Z.of_nat (length m) -> 0 <= vx cell ->
  setCell m (vy cell) (vx cell) true = Some (activate cell m)
  /\ length (activate cell m) = length m
  /\ electrodeActive (activate cell m) (vy cell) (vx cell) = true.
Proof.
  intros Hy Hx. unfold activate.
  destruct (setCell_inside m (vy cell) (vx cell) true Hy Hx)
    as (m' & -> & Hlen & Hact).
  repeat split; assumption.
Qed.

(** One step of the waveform. *)
Lemma dispenseStep_spec (r : Reservoir) (i : nat) (n : Z) (g : Game) :
  length (electrodes g) = 8%nat ->
  0 <= n <= 15 ->
  let loc := getDispenseLocation r in
  exists g' p,
    dispenseStep r loc (i, n) g
    = Some (tt, g', [Transmit p; Delay (movementDelay g)])
    /\ electrodes g'
       = (if Nat.eqb i dispenseDropFrame then activate loc (electrodes g)
          else electrodes g)
    /\ length (electrodes g') = 8%nat
    /\ frameNibble r p = oriented r n
    /\ frameCell loc p
       = electrodeActive (electrodes g') (vy loc) (vx loc)
    /\ reservoirNibble r g' = oriented r n
    /\ isByte (ownByte r g')
    /\ keptBy r g g'.
Proof.
  intros Hrows Hn loc.
  pose proof (oriented_nibble r n Hn) as Hon.
  destruct (updateReservoirState_nibble r (oriented r n) g Hon)
    as (Hbyte & Hnib & _).
  pose proof (keptBy_update r (oriented r n) g Hon) as Hkept.
  pose proof (updateReservoirState_frame r (oriented r n) g) as Hf.
  cbv zeta in Hf. destruct Hf as (_ & Hel & _).
  set (g1 := updateReservoirState r (oriented r n) g) in *.
  destruct (dispenseLocation_inside r) as [Hx Hy]. fold loc in Hx, Hy.
  set (g2 := if Nat.eqb i dispenseDropFrame
             then set_electrodes (activate loc (electrodes g1)) g1 else g1).
  assert (Hw : (if Nat.eqb i dispenseDropFrame
                then writeElectrode (vy loc) (vx loc) true
                else ret tt) g1 = Some (tt, g2, [])).
  { unfold g2. destruct (Nat.eqb i dispenseDropFrame); [| reflexivity].
    unfold writeElectrode.
    destruct (activate_inside loc (electrodes g1)) as (-> & _);
      [rewrite Hel, Hrows; lia | lia |]. reflexivity. }
  assert (Hel2 : electrodes g2
                 = if Nat.eqb i dispenseDropFrame
                   then activate loc (electrodes g) else electrodes g).
  { unfold g2. destruct (Nat.eqb i dispenseDropFrame); simpl;
      rewrite ?Hel; reflexivity. }
  assert (Hrows2 : length (electrodes g2) = 8%nat).
  { rewrite Hel2. destruct (Nat.eqb i dispenseDropFrame); [| exact Hrows].
    destruct (activate_inside loc (electrodes g)) as (_ & -> & _);
      [rewrite Hrows; lia | lia | exact Hrows]. }
  assert (Hsame : ownByte r g2 = ownByte r g1
                  /\ reservoirNibble r g2 = reservoirNibble r g1
                  /\ movementDelay g2 = movementDelay g1
                  /\ keptBy r g1 g2).
  { unfold g2. destruct (Nat.eqb i dispenseDropFrame).
    - split; [destruct r; reflexivity |].
      split; [destruct r; reflexivity |].
      split; [reflexivity | apply keptBy_set_electrodes].
    - split; [reflexivity |]. split; [reflexivity |].
      split; [reflexivity | apply keptBy_refl]. }
  destruct Hsame as (Hown2 & Hnib2 & Hmd2 & Hkept2).
  destruct (transmit_shows r g2 Hrows2) as (p & Hp & _ & Hfn & Hfc);
    [rewrite Hown2; exact Hbyte |].
  exists g2, p.
  split.
  { unfold dispenseStep. cbn [fst snd]. fold (oriented r n).
    eapply (bind_Some _ _ g g1 g2 tt tt [] _); [reflexivity |].
    eapply (bind_Some _ _ g1 g2 g2 tt tt [] _); [exact Hw |].
    eapply (bind_Some _ _ g2 g2 g2 tt tt [Transmit p] _); [exact Hp |].
    eapply (bind_Some _ _ g2 g2 g2 g2 tt [] _); [reflexivity |].
    unfold delay, emit. rewrite Hmd2.
    destruct Hkept as (_ & _ & _ & _ & _ & _ & -> & _). reflexivity. }
  split; [exact Hel2 |]. split; [exact Hrows2 |].
  split; [rewrite Hfn, Hnib2; exact Hnib |].
  split; [exact Hfc |].
  split; [rewrite Hnib2; exact Hnib |].
  split; [rewrite Hown2; exact Hbyte |].
  apply (keptBy_trans r g g1 g2); assumption.
Qed.

Lemma dropped_first (i0 : nat) :
  dropped i0 0 = Nat.eqb i0 dispenseDropFrame.
Proof.
  unfold dropped, dispenseDropFrame. rewrite Nat.add_0_r.
  destruct (Nat.eqb_spec i0 3); destruct (Nat.leb_spec i0 3);
    destruct (Nat.leb_spec 3 i0); simpl; try reflexivity; lia.
Qed.

Lemma dropped_next (i0 k : nat) :
  dropped i0 (S k) = Nat.eqb i0 dispenseDropFrame || dropped (S i0) k.
Proof.
  unfold dropped, dispenseDropFrame.
  destruct (Nat.eqb_spec i0 3); destruct (Nat.leb_spec i0 3);
    destruct (Nat.leb_spec (S i0) 3);
    destruct (Nat.leb_spec 3 (i0 + S k));
    destruct (Nat.leb_spec 3 (S i0 + k)); simpl; try reflexivity; lia.
Qed.

Lemma dropped_run (i0 len : nat) :
  dropped i0 (S len - 1)
  = Nat.eqb i0 dispenseDropFrame
    || dropped (S i0) (len - 1) && negb (Nat.eqb len 0).
Proof.
  unfold dropped, dispenseDropFrame.
  destruct (Nat.eqb_spec i0 3); destruct (Nat.leb_spec i0 3);
    destruct (Nat.leb_spec (S i0) 3);
    destruct (Nat.leb_spec 3 (i0 + (S len - 1)));
    destruct (Nat.leb_spec 3 (S i0 + (len - 1)));
    destruct (Nat.eqb_spec len 0); simpl; try reflexivity; lia.
Qed.

Lemma dropped_after (i0 k : nat) :
  Nat.eqb i0 dispenseDropFrame = true -> dropped (S i0) k = false.
Proof.
  unfold dropped, dispenseDropFrame. intros H. apply Nat.eqb_eq in H.
  subst i0. reflexivity.
Qed.

(** The loop over the waveform, from step index [i0] on. *)
Lemma waveform_spec (r : Reservoir) (l : list Z) :
  forall (i0 : nat) (g : Game),
  length (electrodes g) = 8%nat ->
  Forall (fun n => 0 <= n <= 15) l ->
  let loc := getDispenseLocation r in
  exists g' frames,
    forEach (dispenseStep r loc) (indexed_from i0 l) g
    = Some (tt, g', stepEvents (movementDelay g) frames)
    /\ map (frameNibble r) frames = map (oriented r) l
    /\ (forall k, (k < length l)%nat ->
          frameCell loc (nth k frames [])
          = dropped i0 k
            || electrodeActive (electrodes g) (vy loc) (vx loc))
    /\ electrodes g'
       = (if dropped i0 (length l - 1) && negb (Nat.eqb (length l) 0)
          then activate loc (electrodes g) else electrodes g)
    /\ length (electrodes g') = 8%nat
    /\ keptBy r g g'.
Proof.
  induction l as [| n l IH]; intros i0 g Hrows Hl loc.
  - exists g, []. simpl. rewrite andb_false_r.
    repeat split; try reflexivity; try assumption;
      try (intros k Hk; simpl in Hk; lia); try apply keptBy_refl.
  - inversion Hl as [| ? ? Hn Hrest]; subst.
    destruct (dispenseStep_spec r i0 n g Hrows Hn)
      as (g1 & p & Hstep & Hel1 & Hrows1 & Hfn & Hfc & _ & _ & Hkept1).
    fold loc in Hstep, Hel1, Hfc.
    destruct (IH (S i0) g1 Hrows1 Hrest)
      as (g' & frames & Hloop & Hnibs & Hcells & Hel' & Hrows' & Hkept').
    fold loc in Hloop, Hcells, Hel'.
    assert (Hmd : movementDelay g1 = movementDelay g)
      by (destruct Hkept1 as (_ & _ & _ & _ & _ & _ & H & _); exact H).
    destruct (dispenseLocation_inside r) as [Hx Hy]. fold loc in Hx, Hy.
    assert (Hact : electrodeActive (activate loc (electrodes g))
                                   (vy loc) (vx loc) = true).
    { apply activate_inside; [rewrite Hrows; lia | lia]. }
    exists g', (p :: frames). split.
    { simpl indexed_from. simpl forEach.
      eapply (bind_Some _ _ g g1 g' tt tt _ _); [exact Hstep |].
      rewrite Hloop, Hmd. reflexivity. }
    split; [simpl; rewrite Hfn, Hnibs; reflexivity |].
    split.
    { intros [| k] Hk; simpl nth.
      - rewrite Hfc, Hel1, dropped_first.
        destruct (Nat.eqb i0 dispenseDropFrame); [exact Hact | reflexivity].
      - simpl in Hk. rewrite Hcells by lia. rewrite Hel1, dropped_next.
        destruct (Nat.eqb i0 dispenseDropFrame) eqn:E.
        + rewrite Hact, orb_true_r. reflexivity.
        + reflexivity. }
    split.
    { rewrite Hel', Hel1.
      change (length (n :: l)) with (S (length l)).
      rewrite dropped_run. cbn [Nat.eqb negb]. rewrite andb_true_r.
      destruct (Nat.eqb i0 dispenseDropFrame) eqn:E.
      - rewrite (dropped_after i0 _ E). reflexivity.
      - reflexivity. }
    split; [exact Hrows' |].
    apply (keptBy_trans r g g1 g'); assumption.
Qed.

Lemma dispenseSequence_nibbles : Forall (fun n => 0 <= n <= 15) dispenseSequence.
Proof. unfold dispenseSequence. repeat constructor; lia. Qed.

(** The whole run of [dispense], as its frames show it. *)
Lemma dispense_spec (r : Reservoir) (g : Game) :
  length (electrodes g) = Z.to_nat (vy gameSize) ->
  let loc := getDispenseLocation r in
  exists g' first frames last,
    dispense r g
    = Some (loc, g',
            [Transmit first; Delay (cleanupDelay g)]
            ++ stepEvents (movementDelay g) frames
            ++ [Transmit last; Delay (cleanupDelay g)])
    /\ map (frameNibble r) (first :: frames ++ [last])
       = 0 :: map (oriented r) dispenseSequence ++ [oriented r 8]
    /\ (isBottom r = false ->
          map (oriented r) dispenseSequence = [8; 12; 7; 1; 12; 10; 10]
          /\ oriented r 8 = 8)
    /\ (isBottom r = true ->
          map (oriented r) dispenseSequence = [1; 3; 14; 8; 3; 5; 5]
          /\ oriented r 8 = 1
          /\ forall n i, 0 <= n <= 15 -> 0 <= i <= 3 ->
               Z.testbit (oriented r n) i = Z.testbit n (3 - i))
    /\ frameCell loc first
       = electrodeActive (electrodes g) (vy loc) (vx loc)
    /\ (forall k, (k < 7)%nat ->
          frameCell loc (nth k frames [])
          = (3 <=? k)%nat
            || electrodeActive (electrodes g) (vy loc) (vx loc))
    /\ frameCell loc last = true
    /\ electrodes g' = activate loc (electrodes g)
    /\ reservoirNibble r g' = oriented r 8
    /\ isByte (ownByte r g')
    /\ keptBy r g g'.
Proof.
  intros Hrows loc. change (Z.to_nat (vy gameSize)) with 8%nat in Hrows.
  (* the reservoir is switched off *)
  assert (H0 : 0 <= 0 <= 15) by lia.
  destruct (updateReservoirState_nibble r 0 g H0) as (Hbyte0 & Hnib0 & _).
  pose proof (keptBy_update r 0 g H0) as Hkept0.
  pose proof (updateReservoirState_frame r 0 g) as Hf0. cbv zeta in Hf0.
  destruct Hf0 as (_ & Hel0 & _).
  set (g0 := updateReservoirState r 0 g) in *.
  assert (Hrows0 : length (electrodes g0) = 8%nat) by (rewrite Hel0; exact Hrows).
  destruct (transmit_shows r g0 Hrows0 Hbyte0)
    as (first & Hfirst & _ & Hfn0 & Hfc0).
  fold loc in Hfc0.
  (* the seven steps *)
  destruct (waveform_spec r dispenseSequence 0 g0 Hrows0
              dispenseSequence_nibbles)
    as (g1 & frames & Hloop & Hnibs & Hcells & Hel1 & Hrows1 & Hkept1).
  fold loc in Hloop, Hcells, Hel1.
  change (dropped 0 (length dispenseSequence - 1)
          && negb (Nat.eqb (length dispenseSequence) 0)) with true in Hel1.
  cbv iota in Hel1.
  (* the default nibble *)
  assert (H8 : 0 <= 8 <= 15) by lia.
  pose proof (oriented_nibble r 8 H8) as Hd.
  destruct (updateReservoirState_nibble r (oriented r 8) g1 Hd)
    as (Hbyte2 & Hnib2 & _).
  pose proof (keptBy_update r (oriented r 8) g1 Hd) as Hkept2.
  pose proof (updateReservoirState_frame r (oriented r 8) g1) as Hf2.
  cbv zeta in Hf2. destruct Hf2 as (_ & Hel2 & _).
  set (g2 := updateReservoirState r (oriented r 8) g1) in *.
  assert (Hrows2 : length (electrodes g2) = 8%nat)
    by (rewrite Hel2; exact Hrows1).
  destruct (transmit_shows r g2 Hrows2 Hbyte2)
    as (last & Hlast & _ & Hfn2 & Hfc2).
  fold loc in Hfc2.
  destruct (dispenseLocation_inside r) as [Hx Hy]. fold loc in Hx, Hy.
  assert (Hact : electrodeActive (activate loc (electrodes g))
                                 (vy loc) (vx loc) = true).
  { apply activate_inside; [rewrite Hrows; lia | lia]. }
  assert (Hk01 : keptBy r g g1) by (apply (keptBy_trans r g g0 g1); assumption).
  assert (Hk02 : keptBy r g g2) by (apply (keptBy_trans r g g1 g2); assumption).
  assert (Hcd0 : cleanupDelay g0 = cleanupDelay g)
    by (destruct Hkept0 as (_ & _ & _ & _ & _ & _ & _ & H); exact H).
  assert (Hmd0 : movementDelay g0 = movementDelay g)
    by (destruct Hkept0 as (_ & _ & _ & _ & _ & _ & H & _); exact H).
  assert (Hcd2 : cleanupDelay g2 = cleanupDelay g)
    by (destruct Hk02 as (_ & _ & _ & _ & _ & _ & _ & H); exact H).
  exists g2, first, frames, last.
  split.
  { unfold dispense. fold loc. fold (oriented r 8).
    eapply (bind_Some _ _ g g0 g2 tt loc [] _); [reflexivity |].
    eapply (bind_Some _ _ g0 g0 g2 tt loc [Transmit first] _);
      [exact Hfirst |].
    eapply (bind_Some _ _ g0 g0 g2 g0 loc [] _); [reflexivity |].
    eapply (bind_Some _ _ g0 g0 g2 tt loc [Delay (cleanupDelay g)] _);
      [unfold delay, emit; rewrite Hcd0; reflexivity |].
    eapply (bind_Some _ _ g0 g1 g2 tt loc
              (stepEvents (movementDelay g) frames) _);
      [rewrite <- Hmd0; exact Hloop |].
    eapply (bind_Some _ _ g1 g2 g2 tt loc [] _); [reflexivity |].
    eapply (bind_Some _ _ g2 g2 g2 tt loc [Transmit last] _);
      [exact Hlast |].
    eapply (bind_Some _ _ g2 g2 g2 g2 loc [] _); [reflexivity |].
    eapply (bind_Some _ _ g2 g2 g2 tt loc [Delay (cleanupDelay g)] []);
      [unfold delay, emit; rewrite Hcd2; reflexivity | reflexivity]. }
  split.
  { simpl map. rewrite map_app. simpl map.
    rewrite Hfn0, Hnib0, Hnibs, Hfn2, Hnib2. reflexivity. }
  split.
  { intros Hb. unfold oriented. rewrite Hb. split; reflexivity. }
  split.
  { intros Hb. unfold oriented. rewrite Hb.
    split; [vm_compute; reflexivity |].
    split; [vm_compute; reflexivity |].
    intros n i Hn Hi. apply reverseNibble_bits; assumption. }
  split; [rewrite Hfc0, Hel0; reflexivity |].
  split.
  { intros k Hk. rewrite (Hcells k) by (simpl; lia). rewrite Hel0.
    unfold dropped, dispenseDropFrame. reflexivity. }
  split; [rewrite Hfc2, Hel2, Hel1, Hel0; exact Hact |].
  split; [rewrite Hel2, Hel1, Hel0; reflexivity |].
  split; [exact Hnib2 |]. split; [exact Hbyte2 | exact Hk02].
Qed.

(** C2: [dispense(reservoir)] transmits nine frames: one with the
    reservoir's nibble forced to 0000, seven with the step values 1000, 1100,
    0111, 0001, 1100, 1010, 1010 in this order, one with the default 1000;
    on the bottom side (BL, BR) each of these eight values is written
    bit-reversed (bit 0 with bit 3, bit 1 with bit 2), on the top side as it
    is.  The drop cell of the reservoir is activated at step index 3: the
    frames before show it as it was, the frames from step 3 on show it
    active.  The call returns the drop cell, and leaves the other half-byte,
    the other special byte and the fill queue alone. *)
Theorem C2_dispense_waveform (r : Reservoir) (g : Game) :
  length (electrodes g) = Z.to_nat (vy gameSize) ->
  let loc := getDispenseLocation r in
  exists g' first frames last,
    dispense r g
    = Some (loc, g',
            [Transmit first; Delay (cleanupDelay g)]
            ++ stepEvents (movementDelay g) frames
            ++ [Transmit last; Delay (cleanupDelay g)])
    /\ map (frameNibble r) (first :: frames ++ [last])
       = 0 :: map (oriented r) dispenseSequence ++ [oriented r 8]
    /\ (isBottom r = false ->
          map (oriented r) dispenseSequence = [8; 12; 7; 1; 12; 10; 10]
          /\ oriented r 8 = 8)
    /\ (isBottom r = true ->
          map (oriented r) dispenseSequence = [1; 3; 14; 8; 3; 5; 5]
          /\ oriented r 8 = 1
          /\ forall n i, 0 <= n <= 15 -> 0 <= i <= 3 ->
               Z.testbit (oriented r n) i = Z.testbit n (3 - i))
    /\ frameCell loc first
       = electrodeActive (electrodes g) (vy loc) (vx loc)
    /\ (forall k, (k < 7)%nat ->
          frameCell loc (nth k frames [])
          = (3 <=? k)%nat
            || electrodeActive (electrodes g) (vy loc) (vx loc))
    /\ frameCell loc last = true
    /\ electrodes g' = activate loc (electrodes g)
    /\ reservoirNibble r g' = oriented r 8
    /\ isByte (ownByte r g')
    /\ keptBy r g g'.
Proof. exact (dispense_spec r g). Qed.

Lemma C2_witness :
  length (electrodes newGame) = Z.to_nat (vy gameSize)
  /\ exists g' first frames last,
       dispense BL newGame
       = Some (mkVec 0 6, g',
               [Transmit first; Delay 75]
               ++ stepEvents 400 frames
               ++ [Transmit last; Delay 75])
       /\ map (frameNibble BL) (first :: frames ++ [last])
          = [0; 1; 3; 14; 8; 3; 5; 5; 1].
Proof.
  assert (Hrows : length (electrodes newGame) = Z.to_nat (vy gameSize))
    by reflexivity.
  split; [exact Hrows |].
  destruct (C2_dispense_waveform BL newGame Hrows)
    as (g' & first & frames & last & Hrun & Hnib & _ & Hbot & _).
  exists g', first, frames, last. split; [exact Hrun |].
  rewrite Hnib. destruct (Hbot eq_refl) as (-> & -> & _). reflexivity.
Defined.

(** ** fillTick: the choice of the reservoir *)

Lemma distance_sqrt (a b : Vec) : distance a b = Sqrt (sqDistance a b).
Proof. reflexivity. Qed.

(** The state of the selection loop after a list of reservoirs: nothing yet,
    or the first of the nearest. *)
Lemma findClosest_spec (target : Vec) (available : list Reservoir) :
  (available = [] /\ findClosest target available = (None, Infinity))
  \/ exists before r after,
       available = before ++ r :: after
       /\ findClosest target available = (Some r, Sqrt (reach target r))
       /\ (forall r', In r' before -> reach target r < reach target r')
       /\ (forall r', In r' after -> reach target r <= reach target r').
Proof.
  unfold findClosest.
  induction available as [| x l IH] using rev_ind.
  - left. split; reflexivity.
  - right. rewrite fold_left_app. simpl fold_left.
    destruct IH as [[-> Hres] | (before & r & after & -> & Hres & Hb & Ha)].
    + simpl. exists [], x, []. unfold closestStep. simpl.
      repeat split; try reflexivity; intros r' [].
    + rewrite Hres. unfold closestStep. cbn [snd].
      rewrite distance_sqrt. fold (reach target x). cbn [Dist_ltb].
      destruct (Z.ltb_spec (reach target x) (reach target r)) as [Hlt | Hge].
      * exists (before ++ r :: after), x, [].
        split; [reflexivity |]. split; [reflexivity |]. split.
        -- intros r' Hin. apply in_app_or in Hin.
           destruct Hin as [Hin | [<- | Hin]].
           ++ specialize (Hb r' Hin). lia.
           ++ exact Hlt.
           ++ specialize (Ha r' Hin). lia.
        -- intros r' [].
      * exists before, r, (after ++ [x]).
        split; [rewrite <- app_assoc; reflexivity |].
        split; [reflexivity |]. split; [exact Hb |].
        intros r' Hin. apply in_app_or in Hin.
        destruct Hin as [Hin | [<- | []]]; [apply Ha; exact Hin | exact Hge].
Qed.

(** C7: with a small cell (coordinates of magnitude at most 2^20, where the
    square roots the code compares order as their radicands) waiting at the
    head of the fill queue and no droplet in transit,
    [fillTick] changes nothing when the availability list is empty;
    otherwise it dispenses from the reservoir of that list whose drop cell is
    nearest to the head of the queue in straight-line distance (compared
    through its square), the first such reservoir in list order, and records
    the cell [dispense] returns as the droplet in transit. *)
Theorem C7_fillTick_nearest_reservoir
    (g : Game) (target : Vec) (rest : list Vec) :
  smallCell target ->
  needFilling g = target :: rest ->
  currentlyMoving g = None ->
  (availableReservoirs g = [] -> fillTick g = Some (tt, g, []))
  /\ (availableReservoirs g <> [] ->
      exists before r after,
        availableReservoirs g = before ++ r :: after
        /\ (forall r', In r' before -> reach target r < reach target r')
        /\ (forall r', In r' after -> reach target r <= reach target r')
        /\ fillTick g
           = match dispense r g with
             | Some (loc, g', ev) =>
                 Some (tt, set_currentlyMoving (Some loc) g', ev)
             | None => None
             end).
Proof.
  intros _ Hq Hnone. split.
  - intros Hnil. unfold fillTick, bind, getState.
    rewrite Hq, Hnone, Hnil. reflexivity.
  - intros Hne.
    destruct (findClosest_spec target (availableReservoirs g))
      as [[Hnil _] | (before & r & after & Hl & Hres & Hb & Ha)];
      [contradiction |].
    exists before, r, after.
    split; [exact Hl |]. split; [exact Hb |]. split; [exact Ha |].
    unfold fillTick, bind, getState.
    rewrite Hq, Hnone, Hres. cbn [fst].
    destruct (dispense r g) as [[[loc g'] ev] |]; [| reflexivity].
    unfold modify. rewrite app_nil_r. reflexivity.
Qed.

Lemma C7_witness :
  let g := set_needFilling [mkVec 2 5]
             (set_availableReservoirs [TL; BL] newGame) in
  smallCell (mkVec 2 5)
  /\ needFilling g = [mkVec 2 5]
  /\ currentlyMoving g = None
  /\ exists before r after,
       availableReservoirs g = before ++ r :: after
       /\ (forall r', In r' before -> reach (mkVec 2 5) r < reach (mkVec 2 5) r')
       /\ (forall r', In r' after -> reach (mkVec 2 5) r <= reach (mkVec 2 5) r').
Proof.
  cbv zeta.
  assert (Hs : smallCell (mkVec 2 5))
    by (split; vm_compute; discriminate).
  split; [exact Hs |].
  split; [reflexivity |]. split; [reflexivity |].
  destruct (C7_fillTick_nearest_reservoir
              (set_needFilling [mkVec 2 5]
                 (set_availableReservoirs [TL; BL] newGame))
              (mkVec 2 5) [] Hs eq_refl eq_refl) as [_ H].
  destruct H as (before & r & after & Hl & Hb & Ha & _);
    [discriminate |].
  exists before, r, after. repeat split; assumption.
Defined.

(** ** Reading and writing grids *)

Lemma nth_setNth_same {A : Type} (d v : A) (n : nat) (l : list A) :
  nth n (setNth d n v l) d = v.
Proof.
  revert l. induction n as [| n IH]; intros [| h t]; simpl; auto.
Qed.

Lemma nth_setNth_other {A : Type} (d v : A) (n m : nat) (l : list A) :
  n <> m -> nth m (setNth d n v l) d = nth m l d.
Proof.
  revert m l. induction n as [| n IH]; intros [| m] [| h t] H; simpl;
    try reflexivity; try contradiction.
  - destruct m; reflexivity.
  - rewrite IH by congruence. destruct m; reflexivity.
  - apply IH. congruence.
Qed.

Lemma setNth_length_inside {A : Type} (d v : A) (n : nat) (l : list A) :
  (n < length l)%nat -> length (setNth d n v l) = length l.
Proof.
  revert l. induction n as [| n IH]; intros [| h t] H; simpl in *;
    try lia. rewrite IH by lia. reflexivity.
Qed.

Lemma rowGet_rowSet (row : Row) (c c' : Z) (v : bool) :
  0 <= c -> 0 <= c' ->
  rowGet (rowSet row c v) c' = if c' =? c then v else rowGet row c'.
Proof.
  intros Hc Hc'. unfold rowGet, rowSet.
  destruct (Z.ltb_spec c 0); [lia |]. destruct (Z.ltb_spec c' 0); [lia |].
  destruct (Z.eqb_spec c' c) as [-> | Hne].
  - apply nth_setNth_same.
  - apply nth_setNth_other. lia.
Qed.

Lemma rowSet_length_inside (row : Row) (c : Z) (v : bool) :
  c < Z.of_nat (length row) -> length (rowSet row c v) = length row.
Proof.
  intros Hc. unfold rowSet. destruct (Z.ltb_spec c 0); [reflexivity |].
  apply setNth_length_inside. lia.
Qed.

Lemma getRow_inv (m : Matrix) (r : Z) (row : Row) :
  getRow m r = Some row ->
  0 <= r < Z.of_nat (length m) /\ nth_error m (Z.to_nat r) = Some row.
Proof.
  unfold getRow. destruct (Z.ltb_spec r 0) as [Hneg | Hpos]; [discriminate |].
  intros H. split; [| exact H].
  assert (Hsome : nth_error m (Z.to_nat r) <> None) by congruence.
  apply nth_error_Some in Hsome. lia.
Qed.

Lemma getRow_None (m : Matrix) (r : Z) :
  getRow m r = None -> r < 0 \/ Z.of_nat (length m) <= r.
Proof.
  unfold getRow. destruct (Z.ltb_spec r 0) as [Hneg | Hpos];
    [left; assumption |].
  intros H. apply nth_error_None in H. right. lia.
Qed.

Lemma electrodeActive_outside (m : Matrix) (r c : Z) :
  r < 0 \/ Z.of_nat (length m) <= r -> electrodeActive m r c = false.
Proof.
  intros H. unfold electrodeActive, getCell.
  destruct (getRow m r) as [row |] eqn:E; [| reflexivity].
  apply getRow_inv in E. lia.
Qed.

Lemma setCell_Some_inv (m m' : Matrix) (r c : Z) (v : bool) :
  setCell m r c v = Some m' ->
  0 <= r < Z.of_nat (length m) /\ length m' = length m.
Proof.
  unfold setCell. destruct (getRow m r) as [row |] eqn:E; [| discriminate].
  intros H. injection H as <-. apply getRow_inv in E.
  split; [apply E | apply replaceNth_length].
Qed.

Lemma setCell_reads (m m' : Matrix) (r c : Z) (v : bool) :
  setCell m r c v = Some m' -> 0 <= c ->
  forall r' c', 0 <= c' ->
    electrodeActive m' r' c'
    = if (r' =? r) && (c' =? c) then v else electrodeActive m r' c'.
Proof.
  unfold setCell. destruct (getRow m r) as [row |] eqn:E; [| discriminate].
  intros H Hc r' c' Hc'. injection H as <-.
  destruct (getRow_inv m r row E) as [Hr Hrow].
  unfold electrodeActive, getCell, getRow.
  destruct (Z.ltb_spec r' 0) as [Hneg | Hpos].
  - destruct (Z.eqb_spec r' r); [lia | reflexivity].
  - destruct (Z.eqb_spec r' r) as [-> | Hne].
    + rewrite nth_error_replaceNth_same by lia.
      rewrite Hrow. rewrite rowGet_rowSet by assumption.
      destruct (c' =? c); reflexivity.
    + rewrite nth_error_replaceNth_other by lia. reflexivity.
Qed.

Lemma Forall_replaceNth {A : Type} (P : A -> Prop) (n : nat) (v : A)
    (l : list A) :
  Forall P l -> P v -> Forall P (replaceNth n v l).
Proof.
  intros Hl Hv. revert n. induction Hl as [| h t Hh Ht IH]; intros [| n];
    simpl; constructor; auto.
Qed.

Lemma setCell_dims (m m' : Matrix) (rows cols r c : Z) (v : bool) :
  hasDims m rows cols -> c < cols ->
  setCell m r c v = Some m' -> hasDims m' rows cols.
Proof.
  intros [Hrows Hcols] Hc.
  unfold setCell. destruct (getRow m r) as [row |] eqn:E; [| discriminate].
  intros H. injection H as <-.
  destruct (getRow_inv m r row E) as [Hr Hrow].
  split; [rewrite replaceNth_length; exact Hrows |].
  apply Forall_replaceNth; [exact Hcols |].
  assert (Hlen : Z.of_nat (length row) = cols).
  { rewrite Forall_forall in Hcols. apply Hcols.
    eapply nth_error_In. exact Hrow. }
  rewrite rowSet_length_inside by lia. exact Hlen.
Qed.

Lemma newMatrix_dims (rows cols : Z) :
  0 <= rows -> 0 <= cols -> hasDims (newMatrix rows cols) rows cols.
Proof.
  intros Hr Hc. unfold hasDims, newMatrix. split.
  - rewrite repeat_length. lia.
  - apply Forall_forall. intros row Hin. apply repeat_spec in Hin.
    subst row. rewrite repeat_length. lia.
Qed.

Lemma hasDims_active_inside (m : Matrix) (rows cols r c : Z) :
  hasDims m rows cols -> electrodeActive m r c = true ->
  0 <= r < rows /\ 0 <= c < cols.
Proof.
  intros [Hrows Hcols] H. unfold electrodeActive, getCell in H.
  destruct (getRow m r) as [row |] eqn:E; [| discriminate].
  destruct (getRow_inv m r row E) as [Hr Hrow].
  split; [lia |].
  assert (Hlen : Z.of_nat (length row) = cols).
  { rewrite Forall_forall in Hcols. apply Hcols.
    eapply nth_error_In. exact Hrow. }
  unfold rowGet in H. destruct (Z.ltb_spec c 0); [discriminate |].
  split; [lia |].
  destruct (Z.ltb_spec c cols); [assumption |].
  rewrite nth_overflow in H by lia. discriminate.
Qed.

(** ** The occupied cells of a shape *)

Lemma In_indexed_from {A : Type} (l : list A) (k i : nat) (a : A) :
  In (i, a) (indexed_from k l)
  <-> (k <= i)%nat /\ nth_error l (i - k) = Some a.
Proof.
  revert k. induction l as [| h t IH]; intros k; simpl.
  - split; [intros [] |]. intros [_ H]. destruct (i - k)%nat; discriminate.
  - rewrite IH. split.
    + intros [H | [Hle H]].
      * injection H as <- <-. rewrite Nat.sub_diag. split; [lia | reflexivity].
      * split; [lia |]. replace (i - k)%nat with (S (i - S k)) by lia.
        exact H.
    + intros [Hle H]. destruct (Nat.eq_dec i k) as [-> | Hne].
      * rewrite Nat.sub_diag in H. simpl in H. injection H as <-. now left.
      * right. split; [lia |].
        replace (i - k)%nat with (S (i - S k)) in H by lia. exact H.
Qed.

Lemma shapeCell_true (s : Shape) (y x : nat) :
  shapeCell s y x = true
  <-> exists row, nth_error s y = Some row /\ nth_error row x = Some true.
Proof.
  unfold shapeCell. split.
  - intros H.
    destruct (nth_error s y) as [row |] eqn:Ey.
    + rewrite (nth_error_nth s y [] Ey) in H.
      destruct (nth_error row x) as [b |] eqn:Ex.
      * rewrite (nth_error_nth row x false Ex) in H. subst b. eauto.
      * apply nth_error_None in Ex. rewrite nth_overflow in H by exact Ex.
        discriminate.
    + apply nth_error_None in Ey. rewrite (nth_overflow s []) in H by exact Ey.
      destruct x; discriminate.
  - intros (row & Ey & Ex).
    rewrite (nth_error_nth s y [] Ey). apply (nth_error_nth row x false Ex).
Qed.

Lemma In_occupiedCells (s : Shape) (c : Vec) :
  In c (occupiedCells s)
  <-> exists x y : nat,
        c = mkVec (Z.of_nat x) (Z.of_nat y) /\ shapeCell s y x = true.
Proof.
  unfold occupiedCells. rewrite in_flat_map. split.
  - intros ([y row] & Hrow & Hin). cbn [fst snd] in Hin.
    apply in_flat_map in Hin. destruct Hin as ([x b] & Hb & Hc).
    cbn [fst snd] in Hc. destruct b; [| destruct Hc].
    destruct Hc as [<- | []].
    apply In_indexed_from in Hrow, Hb. rewrite Nat.sub_0_r in Hrow, Hb.
    exists x, y. split; [reflexivity |].
    apply shapeCell_true. exists row. split; [apply Hrow | apply Hb].
  - intros (x & y & -> & H). apply shapeCell_true in H.
    destruct H as (row & Ey & Ex).
    exists (y, row). split.
    + apply In_indexed_from. rewrite Nat.sub_0_r. split; [lia | exact Ey].
    + cbn [fst snd]. apply in_flat_map. exists (x, true). split.
      * apply In_indexed_from. rewrite Nat.sub_0_r. split; [lia | exact Ex].
      * cbn [fst snd]. now left.
Qed.

Lemma inBounds_cells (pos : Vec) (s : Shape) :
  inBounds pos s
  <-> Forall (fun c => inPlayfield (vx pos + vx c) (vy pos + vy c))
             (occupiedCells s).
Proof.
  unfold inBounds. rewrite Forall_forall. split.
  - intros H c Hin. apply In_occupiedCells in Hin.
    destruct Hin as (x & y & -> & Hc). apply H. exact Hc.
  - intros H x y Hc.
    apply (H (mkVec (Z.of_nat x) (Z.of_nat y))).
    apply In_occupiedCells. eauto.
Qed.

Lemma covers_cells (pos : Vec) (s : Shape) (row col : Z) :
  covers pos s row col
  <-> exists c, In c (occupiedCells s)
                /\ row = vy pos + vy c /\ col = vx pos + vx c.
Proof.
  unfold covers. split.
  - intros (x & y & Hc & -> & ->).
    exists (mkVec (Z.of_nat x) (Z.of_nat y)).
    split; [apply In_occupiedCells; eauto | split; reflexivity].
  - intros (c & Hin & -> & ->). apply In_occupiedCells in Hin.
    destruct Hin as (x & y & -> & Hc). exists x, y. repeat split. exact Hc.
Qed.

(** ** Tetris: the scans and the merge *)

Lemma playHeight_eq : playHeight = 14.
Proof. reflexivity. Qed.

Lemma playWidth_eq : playWidth = 8.
Proof. reflexivity. Qed.

Lemma hasLanded_scan_spec (blocks : Matrix) (pos : Vec) (cells : list Vec) :
  Z.of_nat (length blocks) = playHeight ->
  Forall (fun c => -1 <= vy pos + vy c) cells ->
  exists b,
    hasLanded_scan blocks pos cells = Some b
    /\ (b = true <->
        exists c, In c cells
                  /\ (playHeight <= vy pos + vy c + 1
                      \/ electrodeActive blocks (vy pos + vy c + 1)
                                         (vx pos + vx c) = true)).
Proof.
  rewrite playHeight_eq. intros Hrows Hcells.
  induction Hcells as [| c rest Hc Hrest IH].
  - exists false. split; [reflexivity |]. split; [discriminate |].
    intros (c & [] & _).
  - simpl hasLanded_scan.
    destruct (Z.geb_spec (vy pos + vy c + 1) 14) as [Hge | Hlt].
    + exists true. split; [reflexivity |]. split; [| reflexivity].
      intros _. exists c. split; [now left | left; lia].
    + rewrite getCell_Some by lia.
      destruct (electrodeActive blocks (vy pos + vy c + 1) (vx pos + vx c))
        eqn:Hact.
      * exists true. split; [reflexivity |]. split; [| reflexivity].
        intros _. exists c. split; [now left | right; exact Hact].
      * destruct IH as (b & Hb & Hiff). exists b. split; [exact Hb |].
        rewrite Hiff. split.
        -- intros (c' & Hin & H). exists c'. split; [now right | exact H].
        -- intros (c' & [<- | Hin] & H).
           ++ destruct H as [H | H]; [lia | congruence].
           ++ exists c'. split; assumption.
Qed.

Lemma isValidMove_scan_spec (blocks : Matrix) (pos : Vec) (cells : list Vec) :
  Z.of_nat (length blocks) = playHeight ->
  exists b,
    isValidMove_scan blocks pos cells = Some b
    /\ (b = true <->
        Forall (fun c =>
                  inPlayfield (vx pos + vx c) (vy pos + vy c)
                  /\ electrodeActive blocks (vy pos + vy c) (vx pos + vx c)
                     = false)
               cells).
Proof.
  unfold inPlayfield. rewrite playHeight_eq, playWidth_eq.
  intros Hrows. induction cells as [| c rest IH].
  - exists true. split; [reflexivity |]. split; [constructor | reflexivity].
  - simpl isValidMove_scan.
    destruct (Z.ltb_spec (vx pos + vx c) 0) as [Hx0 | Hx0];
      [exists false; split; [reflexivity |]; split; [discriminate |];
       intros H; inversion H as [| ? ? [[Hin _] _] _]; subst; lia |].
    destruct (Z.geb_spec (vx pos + vx c) 8) as [Hx1 | Hx1];
      [exists false; split; [reflexivity |]; split; [discriminate |];
       intros H; inversion H as [| ? ? [[Hin _] _] _]; subst; lia |].
    destruct (Z.ltb_spec (vy pos + vy c) 0) as [Hy0 | Hy0];
      [exists false; split; [reflexivity |]; split; [discriminate |];
       intros H; inversion H as [| ? ? [[_ Hin] _] _]; subst; lia |].
    destruct (Z.geb_spec (vy pos + vy c) 14) as [Hy1 | Hy1];
      [exists false; split; [reflexivity |]; split; [discriminate |];
       intros H; inversion H as [| ? ? [[_ Hin] _] _]; subst; lia |].
    cbn [orb]. rewrite getCell_Some by lia.
    destruct (electrodeActive blocks (vy pos + vy c) (vx pos + vx c)) eqn:Hact.
    + exists false. split; [reflexivity |]. split; [discriminate |].
      intros H. inversion H as [| ? ? [_ Hfree] _]; subst. congruence.
    + destruct IH as (b & Hb & Hiff). exists b. split; [exact Hb |].
      rewrite Hiff. split.
      * intros H. constructor; [| exact H].
        split; [split; lia | exact Hact].
      * intros H. inversion H; subst. assumption.
Qed.

Lemma isValidMove_inBounds (t : Tetris) (p : Vec) (s : Shape) :
  Z.of_nat (length (currentBlocks t)) = playHeight ->
  isValidMove t p s = Some true -> inBounds p s.
Proof.
  intros Hrows H. unfold isValidMove in H.
  destruct (isValidMove_scan_spec (currentBlocks t) p (occupiedCells s) Hrows)
    as (b & Hb & Hiff).
  rewrite Hb in H. injection H as ->.
  apply inBounds_cells. apply proj1 in Hiff. specialize (Hiff eq_refl).
  eapply Forall_impl; [| exact Hiff]. intros c [Hin _]. exact Hin.
Qed.

Lemma isValidMove_total (t : Tetris) (p : Vec) (s : Shape) :
  Z.of_nat (length (currentBlocks t)) = playHeight ->
  exists b, isValidMove t p s = Some b.
Proof.
  intros Hrows.
  destruct (isValidMove_scan_spec (currentBlocks t) p (occupiedCells s) Hrows)
    as (b & Hb & _). exists b. exact Hb.
Qed.

(** The merge of [finalizeTetromino]: the writes of the cells, one by one. *)
Lemma merge_spec (pos : Vec) (cells : list Vec) :
  forall blocks : Matrix,
  Forall (fun c => 0 <= vy pos + vy c < Z.of_nat (length blocks)
                   /\ 0 <= vx pos + vx c) cells ->
  exists blocks',
    foldM (fun blocks c =>
             setCell blocks (vy pos + vy c) (vx pos + vx c) true)
          cells blocks = Some blocks'
    /\ length blocks' = length blocks
    /\ (forall r col, 0 <= col ->
          electrodeActive blocks' r col = true <->
          electrodeActive blocks r col = true
          \/ exists c, In c cells
                       /\ r = vy pos + vy c /\ col = vx pos + vx c)
    /\ (forall rows cols,
          hasDims blocks rows cols ->
          Forall (fun c => vx pos + vx c < cols) cells ->
          hasDims blocks' rows cols).
Proof.
  induction cells as [| c rest IH]; intros blocks Hcells.
  - exists blocks. split; [reflexivity |]. split; [reflexivity |]. split.
    + intros r col Hcol. split; [intros Hact; now left |].
      intros [Hact | (c & [] & _)]. exact Hact.
    + intros rows cols Hd _. exact Hd.
  - inversion Hcells as [| ? ? [Hy Hx] Hrest]; subst.
    simpl foldM.
    destruct (setCell_inside blocks (vy pos + vy c) (vx pos + vx c) true Hy Hx)
      as (b1 & Hset & Hlen1 & _).
    rewrite Hset.
    destruct (IH b1) as (b2 & Hfold & Hlen2 & Hreads & Hdims).
    { rewrite Hlen1. exact Hrest. }
    exists b2. split; [exact Hfold |].
    split; [rewrite Hlen2; exact Hlen1 |]. split.
    + intros r col Hcol. rewrite (Hreads r col Hcol).
      rewrite (setCell_reads _ _ _ _ _ Hset Hx r col Hcol).
      destruct (Z.eqb_spec r (vy pos + vy c)) as [Hr | Hr];
        destruct (Z.eqb_spec col (vx pos + vx c)) as [Hc | Hc]; cbn [andb];
        split.
      * intros _. right. exists c. split; [now left | split; assumption].
      * intros _. now left.
      * intros [H | (c' & Hin & H)]; [now left |].
        right. exists c'. split; [now right | exact H].
      * intros [H | (c' & [<- | Hin] & H1 & H2)];
          [now left | contradiction | ].
        right. exists c'. repeat split; assumption.
      * intros [H | (c' & Hin & H)]; [now left |].
        right. exists c'. split; [now right | exact H].
      * intros [H | (c' & [<- | Hin] & H1 & H2)];
          [now left | contradiction | ].
        right. exists c'. repeat split; assumption.
      * intros [H | (c' & Hin & H)]; [now left |].
        right. exists c'. split; [now right | exact H].
      * intros [H | (c' & [<- | Hin] & H1 & H2)];
          [now left | contradiction | ].
        right. exists c'. repeat split; assumption.
    + intros rows cols Hd Hin. inversion Hin as [| ? ? Hc Hrest']; subst.
      apply Hdims; [| exact Hrest'].
      eapply setCell_dims; [exact Hd | exact Hc | exact Hset].
Qed.

Lemma existsb_row (row : Row) :
  existsb (fun cell => cell) row = true <-> exists c, rowGet row c = true.
Proof.
  rewrite existsb_exists. split.
  - intros (b & Hin & ->). apply In_nth with (d := false) in Hin.
    destruct Hin as (n & Hn & Hnth). exists (Z.of_nat n).
    unfold rowGet. destruct (Z.ltb_spec (Z.of_nat n) 0); [lia |].
    rewrite Nat2Z.id. exact Hnth.
  - intros (c & Hc). unfold rowGet in Hc.
    destruct (Z.ltb_spec c 0); [discriminate |].
    exists true. split; [| reflexivity].
    rewrite <- Hc. apply nth_In.
    destruct (Nat.lt_ge_cases (Z.to_nat c) (length row)); [assumption |].
    rewrite nth_overflow in Hc by assumption. discriminate.
Qed.

(** The first half of [tick] leaves the board and the engine alone. *)
Lemma move_frame (d : Dir) (t : Tetris) :
  currentBlocks (move d t) = currentBlocks t
  /\ finished (move d t) = finished t
  /\ base (move d t) = base t
  /\ rotationState (move d t) = rotationState t
  /\ shape (droppingTetro (move d t)) = shape (droppingTetro t).
Proof.
  unfold move.
  destruct (isValidMove t _ _) as [[|] |]; simpl; repeat split; reflexivity.
Qed.

Lemma applyRotation_frame (t : Tetris) :
  currentBlocks (applyRotation t) = currentBlocks t
  /\ finished (applyRotation t) = finished t
  /\ base (applyRotation t) = base t
  /\ pos (droppingTetro (applyRotation t)) = pos (droppingTetro t).
Proof.
  unfold applyRotation. destruct (rotationState t); simpl;
    repeat split; reflexivity.
Qed.

Lemma testRotations_frame (dir : Z) (t t1 : Tetris) (b : bool) :
  testRotations dir t = Some (b, t1) ->
  currentBlocks t1 = currentBlocks t
  /\ finished t1 = finished t
  /\ base t1 = base t
  /\ droppingTetro t1 = droppingTetro t.
Proof.
  unfold testRotations.
  destruct (isValidMove t _ _) as [[|] |]; intros H; inversion H; subst;
    simpl; repeat split; reflexivity.
Qed.

Lemma tickMotion_frame (t t1 : Tetris) :
  tickMotion t = Some t1 ->
  currentBlocks t1 = currentBlocks t
  /\ finished t1 = finished t
  /\ base t1 = base t.
Proof.
  unfold tickMotion. intros H.
  destruct (aboutRotate t).
  - destruct (testRotations 1 t) as [[b t0] |] eqn:E; [| discriminate].
    destruct (testRotations_frame 1 t t0 b E) as (H1 & H2 & H3 & _).
    injection H as <-.
    destruct (RotationState_eqb _ _).
    + destruct (move_frame (moving t0) (set_aboutRotate false t0))
        as (M1 & M2 & M3 & _).
      rewrite M1, M2, M3. simpl. repeat split; assumption.
    + destruct (applyRotation_frame (set_aboutRotate false t0))
        as (M1 & M2 & M3 & _).
      rewrite M1, M2, M3. simpl. repeat split; assumption.
  - injection H as <-.
    destruct (RotationState_eqb _ _).
    + destruct (move_frame (moving t) t) as (M1 & M2 & M3 & _).
      repeat split; assumption.
    + destruct (applyRotation_frame t) as (M1 & M2 & M3 & _).
      repeat split; assumption.
Qed.

(** ** Landing and game over *)

Lemma hasLanded_spec (t : Tetris) (p : Vec) (s : Shape) :
  Z.of_nat (length (currentBlocks t)) = playHeight ->
  -1 <= vy p ->
  exists b,
    hasLanded t p s = Some b
    /\ (b = true <->
        exists x y : nat,
          shapeCell s y x = true
          /\ (playHeight <= vy p + Z.of_nat y + 1
              \/ electrodeActive (currentBlocks t) (vy p + Z.of_nat y + 1)
                                 (vx p + Z.of_nat x) = true)).
Proof.
  intros Hrows Hp. unfold hasLanded.
  destruct (hasLanded_scan_spec (currentBlocks t) p (occupiedCells s) Hrows)
    as (b & Hb & Hiff).
  { apply Forall_forall. intros c Hin. apply In_occupiedCells in Hin.
    destruct Hin as (x & y & -> & _). simpl. lia. }
  exists b. split; [exact Hb |]. rewrite Hiff. split.
  - intros (c & Hin & H). apply In_occupiedCells in Hin.
    destruct Hin as (x & y & -> & Hc). exists x, y. split; assumption.
  - intros (x & y & Hc & H). exists (mkVec (Z.of_nat x) (Z.of_nat y)).
    split; [apply In_occupiedCells; eauto | exact H].
Qed.

Lemma finalizeTetromino_spec (t : Tetris) :
  Z.of_nat (length (currentBlocks t)) = playHeight ->
  inBounds (pos (droppingTetro t)) (shape (droppingTetro t)) ->
  exists blocks',
    finalizeTetromino t = Some (set_currentBlocks blocks' t)
    /\ length blocks' = length (currentBlocks t)
    /\ (forall r c,
          electrodeActive blocks' r c = true <->
          electrodeActive (currentBlocks t) r c = true
          \/ covers (pos (droppingTetro t)) (shape (droppingTetro t)) r c)
    /\ (hasDims (currentBlocks t) playHeight playWidth ->
        hasDims blocks' playHeight playWidth).
Proof.
  intros Hrows Hin. apply inBounds_cells in Hin.
  unfold inPlayfield in Hin. rewrite playHeight_eq, playWidth_eq in *.
  destruct (merge_spec (pos (droppingTetro t))
                       (occupiedCells (shape (droppingTetro t)))
                       (currentBlocks t))
    as (blocks' & Hfold & Hlen & Hreads & Hdims).
  { eapply Forall_impl; [| exact Hin]. intros c [Hx Hy]. lia. }
  exists blocks'. unfold finalizeTetromino. cbv zeta. rewrite Hfold.
  split; [reflexivity |]. split; [exact Hlen |]. split.
  - intros r c. rewrite covers_cells.
    destruct (Z.ltb_spec c 0) as [Hneg | Hpos];
      [| apply Hreads; exact Hpos].
    assert (Hoff : forall m, electrodeActive m r c = false).
    { intros m. unfold electrodeActive, getCell.
      destruct (getRow m r); [| reflexivity].
      unfold rowGet. destruct (Z.ltb_spec c 0); [reflexivity | lia]. }
    rewrite !Hoff. split; [discriminate |].
    intros [H | (c' & Hc' & _ & Hcol)]; [discriminate |].
    rewrite Forall_forall in Hin. specialize (Hin c' Hc'). lia.
  - intros Hd. apply (Hdims 14 8 Hd).
    eapply Forall_impl; [| exact Hin]. intros c [Hx Hy]. lia.
Qed.

(** C6: [hasLanded] answers true exactly when some occupied cell of the shape
    has the cell below it past the last row of the playable grid or occupied
    in the static block grid.  When the piece has landed after the move of a
    tick, the tick merges it into the static block grid (a cell is occupied
    afterwards exactly when it was before or the piece covers it), cancels
    the rotation, and sets the finished flag exactly when the top-level row
    then holds an occupied cell.  Once the flag is set, [tick] returns the
    game as it is. *)
Theorem C6_landing_and_game_over (next : TetrominoType) (t : Tetris) :
  Z.of_nat (length (currentBlocks t)) = playHeight ->
  (forall p s,
     -1 <= vy p ->
     exists b,
       hasLanded t p s = Some b
       /\ (b = true <->
           exists x y : nat,
             shapeCell s y x = true
             /\ (playHeight <= vy p + Z.of_nat y + 1
                 \/ electrodeActive (currentBlocks t) (vy p + Z.of_nat y + 1)
                                    (vx p + Z.of_nat x) = true)))
  /\ (forall t1,
        finished t = false ->
        tickMotion t = Some t1 ->
        hasLanded t1 (pos (droppingTetro t1)) (shape (droppingTetro t1))
        = Some true ->
        inBounds (pos (droppingTetro t1)) (shape (droppingTetro t1)) ->
        exists t',
          tick next t = Some t'
          /\ (forall r c,
                electrodeActive (currentBlocks t') r c = true <->
                electrodeActive (currentBlocks t) r c = true
                \/ covers (pos (droppingTetro t1)) (shape (droppingTetro t1))
                          r c)
          /\ (finished t' = true <->
              exists c, electrodeActive (currentBlocks t') topLevel c = true)
          /\ rotationState t' = NotRotating)
  /\ (finished t = true -> tick next t = Some t).
Proof.
  intros Hrows. split; [| split].
  - intros p s Hp. apply hasLanded_spec; assumption.
  - intros t1 Hfin Hmotion Hland Hin.
    destruct (tickMotion_frame t t1 Hmotion) as (Hcb & Hf1 & _).
    set (t2 := resetRotationState t1).
    destruct (finalizeTetromino_spec t2) as (blocks' & Hfz & Hlen & Hreads & _);
      [simpl; rewrite Hcb; exact Hrows | exact Hin |].
    simpl in Hlen, Hreads. rewrite Hcb in Hlen, Hreads.
    assert (Hrow : exists row, getRow blocks' topLevel = Some row).
    { apply getRow_Some. rewrite Hlen. rewrite playHeight_eq in Hrows.
      unfold topLevel. lia. }
    destruct Hrow as [row Hrow].
    assert (Htop : existsb (fun cell => cell) row = true <->
                   exists c, electrodeActive blocks' topLevel c = true).
    { rewrite existsb_row. unfold electrodeActive, getCell. rewrite Hrow.
      reflexivity. }
    unfold tick. rewrite Hfin, Hmotion. unfold tickLanding. rewrite Hland.
    fold t2. rewrite Hfz. cbn [currentBlocks set_currentBlocks].
    rewrite Hrow.
    destruct (existsb (fun cell => cell) row) eqn:Hex.
    + eexists. split; [reflexivity |]. cbn.
      split; [exact Hreads |]. split; [| reflexivity].
      split; [intros _; apply Htop; reflexivity | reflexivity].
    + cbn [finished set_currentBlocks resetRotationState set_rotationState].
      unfold t2. cbn [finished resetRotationState set_rotationState].
      rewrite Hf1, Hfin. cbn [negb].
      eexists. split; [reflexivity |]. cbn.
      split; [exact Hreads |]. split; [| reflexivity].
      rewrite Hf1, Hfin. split; [discriminate |].
      intros H. apply Htop in H. discriminate.
  - intros Hfin. unfold tick. rewrite Hfin. reflexivity.
Qed.

Lemma C6_witness :
  Z.of_nat (length (currentBlocks (newTetris PYRAMID))) = playHeight
  /\ exists b,
       hasLanded (newTetris PYRAMID) (mkVec 2 12) (tetrominoShapes PYRAMID)
       = Some b
       /\ (b = true <->
           exists x y : nat,
             shapeCell (tetrominoShapes PYRAMID) y x = true
             /\ (playHeight <= 12 + Z.of_nat y + 1
                 \/ electrodeActive (currentBlocks (newTetris PYRAMID))
                                    (12 + Z.of_nat y + 1)
                                    (2 + Z.of_nat x) = true)).
Proof.
  assert (Hrows : Z.of_nat (length (currentBlocks (newTetris PYRAMID)))
                  = playHeight) by reflexivity.
  split; [exact Hrows |].
  destruct (C6_landing_and_game_over PYRAMID (newTetris PYRAMID) Hrows)
    as (Hland & _).
  apply (Hland (mkVec 2 12) (tetrominoShapes PYRAMID)). simpl. lia.
Defined.

(** ** The rotation protocol *)

(** A request that passes the test is taken through [starting] to [coalesce]
    within the tick that reads it; the piece neither moves nor changes. *)
Lemma rotation_request_same_tick (t : Tetris) :
  aboutRotate t = true ->
  isValidMove t (pos (droppingTetro t)) (rotate (shape (droppingTetro t)) 1)
  = Some true ->
  exists t1,
    tickMotion t = Some t1
    /\ rotationState t1 = Coalesce
    /\ newShape t1 = rotate (shape (droppingTetro t)) 1
    /\ droppingTetro t1 = droppingTetro t
    /\ aboutRotate t1 = false.
Proof.
  intros Hreq Hvalid. unfold tickMotion, testRotations.
  rewrite Hreq, Hvalid. eexists. split; [reflexivity |].
  simpl. repeat split; reflexivity.
Qed.

(** A request that fails the test changes nothing but the request flag. *)
Lemma rotation_request_dropped (t : Tetris) :
  isValidMove t (pos (droppingTetro t)) (rotate (shape (droppingTetro t)) 1)
  = Some false ->
  testRotations 1 t = Some (false, t).
Proof. intros H. unfold testRotations. rewrite H. reflexivity. Qed.

(** Without a new request, [coalesce] swaps the shape in and [ending]
    finishes; the piece does not move meanwhile. *)
Lemma rotation_coalesce_tick (t : Tetris) :
  aboutRotate t = false -> rotationState t = Coalesce ->
  exists t1,
    tickMotion t = Some t1
    /\ rotationState t1 = Ending
    /\ shape (droppingTetro t1) = newShape t
    /\ pos (droppingTetro t1) = pos (droppingTetro t).
Proof.
  intros Hreq Hst. unfold tickMotion, applyRotation. rewrite Hreq, Hst.
  eexists. split; [reflexivity |]. simpl. repeat split; reflexivity.
Qed.

Lemma rotation_ending_tick (t : Tetris) :
  aboutRotate t = false -> rotationState t = Ending ->
  exists t1,
    tickMotion t = Some t1
    /\ rotationState t1 = NotRotating
    /\ droppingTetro t1 = droppingTetro t.
Proof.
  intros Hreq Hst. unfold tickMotion, applyRotation. rewrite Hreq, Hst.
  eexists. split; [reflexivity |]. simpl. repeat split; reflexivity.
Qed.

(** C5: the game is started with a T-piece and run for twenty frames, by
    which time its four droplets are delivered and the piece falls on an empty
    board.  A rotation is requested.  The next frame already leaves the
    rotation state at [coalesce] (it never rests at [starting]); the frame
    after shows the rotated shape, in state [ending]; the third returns to
    [not-rotating].  The shape change is visible two ticks after the request,
    not three. *)
Theorem C5_rotation_visible_after_two_ticks :
  exists t t0 t1 t2 t3,
    started PYRAMID = Some t
    /\ frames 20 1000 PYRAMID t = Some t0
    /\ needFilling (base t0) = []
    /\ finished t0 = false
    /\ rotationState t0 = NotRotating
    /\ shape (droppingTetro t0) = tetrominoShapes PYRAMID
    /\ frames 1 21000 PYRAMID (requestRotate t0) = Some t1
    /\ rotationState t1 = Coalesce
    /\ shape (droppingTetro t1) = tetrominoShapes PYRAMID
    /\ frames 1 22000 PYRAMID t1 = Some t2
    /\ rotationState t2 = Ending
    /\ shape (droppingTetro t2) = rotate (tetrominoShapes PYRAMID) 1
    /\ shape (droppingTetro t2) <> tetrominoShapes PYRAMID
    /\ frames 1 23000 PYRAMID t2 = Some t3
    /\ rotationState t3 = NotRotating
    /\ shape (droppingTetro t3) = rotate (tetrominoShapes PYRAMID) 1.
Proof.
  let v := eval vm_compute in (started PYRAMID) in
  match v with
  | Some ?t => exists t
  end.
  let v := eval vm_compute in
    (match started PYRAMID with
     | Some t => frames 20 1000 PYRAMID t
     | None => None
     end) in
  match v with
  | Some ?t0 =>
      exists t0;
      let v1 := eval vm_compute in (frames 1 21000 PYRAMID (requestRotate t0)) in
      match v1 with
      | Some ?t1 =>
          exists t1;
          let v2 := eval vm_compute in (frames 1 22000 PYRAMID t1) in
          match v2 with
          | Some ?t2 =>
              exists t2;
              let v3 := eval vm_compute in (frames 1 23000 PYRAMID t2) in
              match v3 with
              | Some ?t3 => exists t3
              end
          end
      end
  end.
  repeat (split; [vm_compute; first [reflexivity | discriminate] |]).
  vm_compute. reflexivity.
Qed.

(** The state in which the rotation is requested is one the game reaches. *)
Lemma frames_reachable (n : nat) :
  forall clock next t t',
    reachable t -> frames n clock next t = Some t' -> reachable t'.
Proof.
  induction n as [| n IH]; intros clock next t t' Hr Hf; simpl in Hf.
  - injection Hf as <-. exact Hr.
  - destruct (update clock next t) as [[t1 ev] |] eqn:E; [| discriminate].
    apply (IH (clock + 1000) next t1 t'); [| exact Hf].
    exact (reach_update clock next t t1 ev Hr E).
Qed.

Lemma started_reachable (first : TetrominoType) (t : Tetris) :
  started first = Some t -> reachable t.
Proof.
  unfold started.
  destruct (init _) as [[t0 ev] |] eqn:E; [| discriminate].
  intros H. injection H as <-. exact (reach_init _ _ _ _ E).
Qed.

(** ** The shapes in play *)

Lemma allShapes_closed (s : Shape) :
  In s allShapes -> In (rotate s 1) allShapes.
Proof.
  intros Hin. vm_compute in Hin.
  repeat (destruct Hin as [<- | Hin];
          [vm_compute; repeat (first [left; reflexivity | right]) |]).
  contradiction.
Qed.

Lemma catalog_in_allShapes (ty : TetrominoType) :
  In (tetrominoShapes ty) allShapes.
Proof.
  destruct ty; vm_compute; repeat (first [left; reflexivity | right]).
Qed.

Lemma spawn_inBounds (ty : TetrominoType) :
  inBounds tetroSpawnPosition (tetrominoShapes ty).
Proof.
  apply inBounds_cells. unfold inPlayfield.
  rewrite playHeight_eq, playWidth_eq.
  destruct ty;
    match goal with
    | |- Forall _ (occupiedCells ?s) =>
        let l := eval vm_compute in (occupiedCells s) in
        change (occupiedCells s) with l
    end;
    repeat constructor; cbn [vx vy tetroSpawnPosition]; vm_compute;
    discriminate.
Qed.

(** The cell drawn during [coalesce]: when a shape in play and its clockwise
    turn both fit at a position, the centre of the bounding box is in the
    playable grid. *)
Lemma centre_inPlayfield (s : Shape) (p : Vec) :
  In s allShapes ->
  inBounds p s -> inBounds p (rotate s 1) ->
  inPlayfield (vx p + 1) (vy p + 1).
Proof.
  intros Hin Hb Hb'. apply inBounds_cells in Hb, Hb'.
  unfold inPlayfield in *. rewrite playHeight_eq, playWidth_eq in *.
  vm_compute in Hin.
  repeat (destruct Hin as [<- | Hin];
          [cells_of Hb; cells_of Hb'; split_cells Hb; split_cells Hb'; lia |]).
  contradiction.
Qed.

(** ** What a tick keeps *)

Lemma hasDims_rows (m : Matrix) (rows cols : Z) :
  hasDims m rows cols -> Z.of_nat (length m) = rows.
Proof. intros [H _]. exact H. Qed.

Lemma pieceInv_set_aboutRotate (b : bool) (t : Tetris) :
  pieceInv t -> pieceInv (set_aboutRotate b t).
Proof. intros H. exact H. Qed.

Lemma move_inv (d : Dir) (t : Tetris) :
  pieceInv t -> rotationState t = NotRotating -> pieceInv (move d t).
Proof.
  intros (Hd & Hs & Hb & Hst & Hco) Hnr. unfold move.
  pose proof (hasDims_rows _ _ _ Hd) as Hrows.
  destruct (isValidMove t (vecAdd (pos (droppingTetro t)) (Directions d))
                        (shape (droppingTetro t))) as [[|] |] eqn:E.
  - apply (isValidMove_inBounds t _ _ Hrows) in E.
    split_pieceInv; simpl; rewrite ?Hnr;
      try assumption; try discriminate.
  - split_pieceInv; simpl; rewrite ?Hnr;
      try assumption; try discriminate.
  - split_pieceInv; assumption.
Qed.

Lemma applyRotation_inv (t : Tetris) :
  pieceInv t -> pieceInv (applyRotation t).
Proof.
  intros (Hd & Hs & Hb & Hst & Hco). unfold applyRotation.
  destruct (rotationState t) eqn:E.
  - split_pieceInv; rewrite ?E; try assumption; discriminate.
  - contradiction.
  - destruct (Hco eq_refl) as [Hns Hnb].
    unfold pieceInv. simpl.
    split; [exact Hd |].
    split; [rewrite Hns; apply allShapes_closed; exact Hs |].
    split; [exact Hnb |]. split; discriminate.
  - split_pieceInv; simpl; try assumption; discriminate.
Qed.

Lemma motion_inv (t : Tetris) :
  pieceInv t ->
  pieceInv (if RotationState_eqb (rotationState t) NotRotating
            then move (moving t) t else applyRotation t).
Proof.
  intros H. destruct (rotationState t) eqn:E; cbn [RotationState_eqb].
  - apply move_inv; assumption.
  - apply applyRotation_inv; assumption.
  - apply applyRotation_inv; assumption.
  - apply applyRotation_inv; assumption.
Qed.

Lemma motion_frame (t : Tetris) :
  let t1 := if RotationState_eqb (rotationState t) NotRotating
            then move (moving t) t else applyRotation t in
  base t1 = base t /\ gameElectrodes t1 = gameElectrodes t
  /\ finished t1 = finished t.
Proof.
  cbv zeta. destruct (RotationState_eqb (rotationState t) NotRotating).
  - unfold move. destruct (isValidMove t _ _) as [[|] |];
      repeat split; reflexivity.
  - unfold applyRotation. destruct (rotationState t);
      repeat split; reflexivity.
Qed.

(** The first half of a tick never throws and keeps the invariant. *)
Lemma tickMotion_inv (t : Tetris) :
  pieceInv t ->
  exists t1,
    tickMotion t = Some t1
    /\ pieceInv t1
    /\ base t1 = base t
    /\ gameElectrodes t1 = gameElectrodes t
    /\ finished t1 = finished t.
Proof.
  intros Hinv. pose proof Hinv as (Hd & Hs & Hb & Hst & Hco).
  pose proof (hasDims_rows _ _ _ Hd) as Hrows.
  unfold tickMotion. destruct (aboutRotate t).
  - unfold testRotations.
    destruct (isValidMove_total t (pos (droppingTetro t))
                (rotate (shape (droppingTetro t)) 1) Hrows) as [b Hvalid].
    rewrite Hvalid. destruct b.
    + eexists. split; [reflexivity |]. cbn.
      split; [| repeat split; reflexivity].
      apply (isValidMove_inBounds t _ _ Hrows) in Hvalid.
      split_pieceInv; cbn; try assumption; try discriminate.
      intros _. split; [reflexivity | exact Hvalid].
    + eexists. split; [reflexivity |].
      split; [apply (motion_inv (set_aboutRotate false t)); exact Hinv |].
      apply (motion_frame (set_aboutRotate false t)).
  - eexists. split; [reflexivity |].
    split; [apply motion_inv; exact Hinv | apply motion_frame].
Qed.

Lemma hasLanded_total (t : Tetris) :
  pieceInv t ->
  exists b,
    hasLanded t (pos (droppingTetro t)) (shape (droppingTetro t)) = Some b.
Proof.
  intros (Hd & _ & Hb & _).
  pose proof (hasDims_rows _ _ _ Hd) as Hrows.
  apply inBounds_cells in Hb. unfold inPlayfield in Hb.
  destruct (hasLanded_scan_spec (currentBlocks t) (pos (droppingTetro t))
              (occupiedCells (shape (droppingTetro t))) Hrows)
    as (b & Hscan & _).
  { eapply Forall_impl; [| exact Hb]. intros c [_ Hy]. lia. }
  exists b. exact Hscan.
Qed.

(** The cells [primeDroppingTetro] queues are engine cells. *)
Lemma In_catSomes {A : Type} (l : list (option A)) (a : A) :
  In a (catSomes l) <-> In (Some a) l.
Proof.
  induction l as [| [b |] l IH]; simpl.
  - reflexivity.
  - rewrite IH. split; intros [H | H]; auto; left; congruence.
  - rewrite IH. split; [auto | intros [H | H]; [discriminate | exact H]].
Qed.

Lemma gameCoord_inGame (x y : Z) :
  inPlayfield x y -> inGame (tetrisCoordToGameCoord (mkVec x y)).
Proof.
  unfold inPlayfield, inGame, tetrisCoordToGameCoord.
  rewrite playHeight_eq, playWidth_eq.
  change (vx gameSize) with 14. change (vy gameSize) with 8.
  cbn [vx vy]. lia.
Qed.

Lemma primeDroppingTetro_inv (t : Tetris) :
  pieceInv t -> engineInv (base t) ->
  pieceInv (primeDroppingTetro t)
  /\ engineInv (base (primeDroppingTetro t))
  /\ gameElectrodes (primeDroppingTetro t) = gameElectrodes t
  /\ finished (primeDroppingTetro t) = finished t.
Proof.
  intros Hp (He & Hq & Hm). split; [exact Hp |].
  split; [| split; reflexivity].
  unfold primeDroppingTetro. cbn [base set_base].
  split; [exact He |]. split; [| exact Hm].
  cbn [needFilling set_needFilling].
  apply Forall_app. split; [exact Hq |].
  destruct Hp as (_ & _ & Hb & _).
  apply Forall_forall. intros v Hin.
  apply In_catSomes in Hin. apply in_concat in Hin.
  destruct Hin as (row & Hrow & Hv).
  apply filter_In in Hrow. destruct Hrow as [Hrow _].
  apply in_map_iff in Hrow. destruct Hrow as ([y cells] & <- & Hy).
  cbn [fst snd] in Hv.
  apply in_map_iff in Hv. destruct Hv as ([x b] & Hsome & Hx).
  cbn [fst snd] in Hsome. destruct b; [| discriminate].
  injection Hsome as <-.
  apply In_indexed_from in Hy, Hx. rewrite Nat.sub_0_r in Hy, Hx.
  apply gameCoord_inGame. apply Hb.
  apply shapeCell_true. exists cells. split; [apply Hy | apply Hx].
Qed.

(** The second half of a tick never throws and keeps the invariant. *)
Lemma tickLanding_inv (next : TetrominoType) (t : Tetris) :
  pieceInv t -> engineInv (base t) ->
  exists t',
    tickLanding next t = Some t'
    /\ pieceInv t'
    /\ engineInv (base t')
    /\ gameElectrodes t' = gameElectrodes t.
Proof.
  intros Hinv Heng. pose proof Hinv as (Hd & Hs & Hb & Hst & Hco).
  pose proof (hasDims_rows _ _ _ Hd) as Hrows.
  unfold tickLanding.
  destruct (hasLanded_total t Hinv) as [landed ->].
  destruct landed;
    [| exists t; split; [reflexivity |]; split; [exact Hinv |];
       split; [exact Heng | reflexivity]].
  set (t2 := resetRotationState t).
  destruct (finalizeTetromino_spec t2) as (blocks' & Hfz & Hlen & _ & Hdims);
    [exact Hrows | exact Hb |].
  specialize (Hdims Hd). rewrite Hfz.
  cbn [currentBlocks set_currentBlocks].
  destruct (getRow_Some blocks' topLevel) as [row ->].
  { rewrite Hlen. cbn [currentBlocks t2 resetRotationState set_rotationState].
    rewrite playHeight_eq in Hrows. unfold topLevel. lia. }
  assert (Hmerged : pieceInv (set_currentBlocks blocks' t2)).
  { split_pieceInv; cbn; try assumption; try discriminate. }
  destruct (existsb (fun cell => cell) row).
  - cbn [finished set_finished negb].
    eexists. split; [reflexivity |].
    split; [exact Hmerged |]. split; [exact Heng | reflexivity].
  - destruct (finished (set_currentBlocks blocks' t2)) eqn:Hfin; cbn [negb].
    + eexists. split; [reflexivity |].
      split; [exact Hmerged |]. split; [exact Heng | reflexivity].
    + set (t3 := set_droppingTetro (randomTetromino next tetroSpawnPosition)
                                   (set_currentBlocks blocks' t2)).
      assert (Hspawn : pieceInv t3).
      { unfold pieceInv. cbn.
        split; [exact Hdims |].
        split; [apply catalog_in_allShapes |].
        split; [apply spawn_inBounds |]. split; discriminate. }
      destruct (primeDroppingTetro_inv t3 Hspawn Heng) as (P1 & P2 & P3 & _).
      eexists. split; [reflexivity |].
      split; [exact P1 |]. split; [exact P2 | exact P3].
Qed.

Lemma tick_inv (next : TetrominoType) (t : Tetris) :
  pieceInv t -> engineInv (base t) ->
  exists t',
    tick next t = Some t'
    /\ pieceInv t'
    /\ engineInv (base t')
    /\ gameElectrodes t' = gameElectrodes t.
Proof.
  intros Hinv Heng. unfold tick. destruct (finished t).
  - exists t. split; [reflexivity |]. split; [exact Hinv |].
    split; [exact Heng | reflexivity].
  - destruct (tickMotion_inv t Hinv) as (t1 & -> & Hinv1 & Hbase & Hge & _).
    destruct (tickLanding_inv next t1 Hinv1) as (t' & Hl & H1 & H2 & H3);
      [rewrite Hbase; exact Heng |].
    exists t'. split; [exact Hl |]. split; [exact H1 |].
    split; [exact H2 | rewrite H3; exact Hge].
Qed.

(** ** What the engine keeps *)

Lemma foldM_inv {A S : Type} (P : S -> Prop) (Q : A -> Prop)
    (f : S -> A -> option S) (l : list A) :
  (forall s a, P s -> Q a -> exists s', f s a = Some s' /\ P s') ->
  Forall Q l ->
  forall s, P s -> exists s', foldM f l s = Some s' /\ P s'.
Proof.
  intros Hstep Hl. induction Hl as [| a l Ha Hl IH]; intros s Hs.
  - exists s. split; [reflexivity | exact Hs].
  - simpl. destruct (Hstep s a Hs Ha) as (s1 & -> & Hs1). apply IH. exact Hs1.
Qed.

Lemma fold_left_inv {A S : Type} (P : S -> Prop) (f : S -> A -> S)
    (l : list A) :
  (forall s a, P s -> P (f s a)) ->
  forall s, P s -> P (fold_left f l s).
Proof.
  intros Hstep. induction l as [| a l IH]; intros s Hs; simpl;
    [exact Hs | apply IH; apply Hstep; exact Hs].
Qed.

Lemma range_bounds (n : Z) : Forall (fun x => 0 <= x < n) (range n).
Proof.
  unfold range. apply Forall_forall. intros x Hin.
  apply in_map_iff in Hin. destruct Hin as (k & <- & Hk).
  apply in_seq in Hk. lia.
Qed.

Lemma setCell_ok (m : Matrix) (rows cols r c : Z) (v : bool) :
  hasDims m rows cols -> 0 <= r < rows -> 0 <= c < cols ->
  exists m', setCell m r c v = Some m' /\ hasDims m' rows cols.
Proof.
  intros Hd Hr Hc.
  destruct (setCell_inside m r c v) as (m' & Hset & _);
    [rewrite (hasDims_rows _ _ _ Hd); exact Hr | lia |].
  exists m'. split; [exact Hset |].
  eapply setCell_dims; [exact Hd | | exact Hset]. lia.
Qed.

Lemma writeElectrode_ok (r c : Z) (v : bool) (g : Game) :
  length (electrodes g) = 8%nat -> 0 <= r < 8 -> 0 <= c ->
  exists m',
    writeElectrode r c v g = Some (tt, set_electrodes m' g, [])
    /\ length m' = 8%nat.
Proof.
  intros Hrows Hr Hc. unfold writeElectrode.
  destruct (setCell_inside (electrodes g) r c v) as (m' & -> & Hlen & _);
    [rewrite Hrows; lia | exact Hc |].
  exists m'. split; [reflexivity | rewrite Hlen; exact Hrows].
Qed.

Lemma advance_inGame (a b : Vec) :
  inGame a -> inGame b -> inGame (advance a b).
Proof.
  unfold inGame, advance. intros Ha Hb.
  destruct (Z.eqb_spec (vx a) (vx b)) as [Hx | Hx]; cbn [negb].
  - destruct (Z.eqb_spec (vy a) (vy b)) as [Hy | Hy]; cbn [negb];
      [exact Ha |].
    destruct (Z.ltb_spec (vy a) (vy b)); cbn [vx vy]; lia.
  - destruct (Z.ltb_spec (vx a) (vx b)); cbn [vx vy]; lia.
Qed.

Lemma findPath_head (a b c : Vec) (rest : list Vec) :
  findPath a b = c :: rest -> c = advance a b.
Proof.
  unfold findPath. destruct a as [ax ay]. cbn [vx vy]. intros H.
  destruct (notArrived (mkVec ax ay) b) eqn:E.
  - rewrite findPath_loop_step in H by exact E. congruence.
  - rewrite findPath_loop_done in H by exact E. discriminate.
Qed.

(** A fill tick never throws and keeps the engine invariant. *)
Lemma fillTick_inv (g : Game) :
  engineInv g ->
  exists g' ev, fillTick g = Some (tt, g', ev) /\ engineInv g'.
Proof.
  intros (Hrows & Hq & Hm). unfold fillTick, bind, getState.
  destruct (needFilling g) as [| target rest] eqn:Eq.
  { exists g, []. split; [reflexivity |].
    split; [exact Hrows |]. split; [rewrite Eq; constructor | exact Hm]. }
  assert (Htarget : inGame target) by (inversion Hq; assumption).
  assert (Hrest : Forall inGame rest) by (inversion Hq; assumption).
  destruct (currentlyMoving g) as [moving |] eqn:Em.
  - (* a droplet is on its way *)
    specialize (Hm moving eq_refl).
    destruct (findPath moving target) as [| nextStep path] eqn:Ep.
    { exists g, []. split; [reflexivity |].
      split; [exact Hrows |]. split; [rewrite Eq; exact Hq |].
      intros c Hc. rewrite Em in Hc. injection Hc as <-. exact Hm. }
    apply findPath_head in Ep.
    pose proof (advance_inGame moving target Hm Htarget) as Hnext.
    rewrite <- Ep in Hnext.
    assert (Hn : 0 <= vy nextStep < 8 /\ 0 <= vx nextStep)
      by (destruct Hnext as [Hx Hy]; change (vy gameSize) with 8 in Hy; lia).
    assert (Hmv : 0 <= vy moving < 8 /\ 0 <= vx moving)
      by (destruct Hm as [Hx Hy]; change (vy gameSize) with 8 in Hy; lia).
    destruct (writeElectrode_ok (vy nextStep) (vx nextStep) true g Hrows)
      as (m1 & -> & Hlen1); [apply Hn | apply Hn |].
    destruct (writeElectrode_ok (vy moving) (vx moving) false
                (set_electrodes m1 g))
      as (m2 & -> & Hlen2); [exact Hlen1 | apply Hmv | apply Hmv |].
    unfold modify.
    destruct ((vx nextStep =? vx target) && (vy nextStep =? vy target)).
    + eexists. eexists. split; [reflexivity |].
      split; [exact Hlen2 |]. cbn. rewrite Eq.
      split; [exact Hrest | discriminate].
    + eexists. eexists. split; [reflexivity |].
      split; [exact Hlen2 |]. cbn. rewrite Eq.
      split; [exact Hq |]. intros c Hc. injection Hc as <-. exact Hnext.
  - (* a droplet is needed *)
    destruct (fst (findClosest target (availableReservoirs g)))
      as [closest |].
    + destruct (dispense_spec closest g)
        as (g' & first & frames & last & -> & _ & _ & _ & _ & _ & _
            & Hel & _ & _ & Hkept); [exact Hrows |].
      unfold modify. eexists. eexists. split; [reflexivity |].
      destruct (dispenseLocation_inside closest) as [Hx Hy].
      destruct Hkept as (_ & _ & Hnf & _).
      split.
      { cbn. rewrite Hel.
        destruct (activate_inside (getDispenseLocation closest)
                                  (electrodes g)) as (_ & -> & _);
          [rewrite Hrows; lia | lia | exact Hrows]. }
      split; [cbn; rewrite Hnf, Eq; exact Hq |].
      intros c Hc. cbn in Hc. injection Hc as <-.
      unfold inGame. change (vx gameSize) with 14.
      change (vy gameSize) with 8. lia.
    + exists g, []. split; [reflexivity |].
      split; [exact Hrows |]. split; [rewrite Eq; exact Hq |].
      intros c Hc. rewrite Em in Hc. discriminate.
Qed.

(** ** What a render keeps *)

Lemma renderBlocks_ok (t : Tetris) :
  hasDims (currentBlocks t) playHeight playWidth ->
  hasDims (gameElectrodes t) playHeight playWidth ->
  exists ge,
    renderBlocks t = Some ge /\ hasDims ge playHeight playWidth.
Proof.
  intros Hb Hg. unfold renderBlocks.
  apply (foldM_inv (fun ge => hasDims ge playHeight playWidth)
                   (fun x => 0 <= x < playHeight));
    [| apply range_bounds | exact Hg].
  intros ge x Hge Hx.
  apply (foldM_inv (fun ge => hasDims ge playHeight playWidth)
                   (fun y => 0 <= y < playWidth));
    [| apply range_bounds | exact Hge].
  intros ge' y Hge' Hy.
  rewrite getCell_Some by (rewrite (hasDims_rows _ _ _ Hb); exact Hx).
  destruct (electrodeActive (currentBlocks t) x y).
  - apply (setCell_ok ge' playHeight playWidth); assumption.
  - exists ge'. split; [reflexivity | exact Hge'].
Qed.

Lemma renderCell_dims (p : Tetromino) (m : Matrix) (rows cols x y : Z) :
  hasDims m rows cols -> hasDims (renderCell p m x y) rows cols.
Proof.
  intros Hd. unfold renderCell.
  destruct (shapeCell (shape p) (Z.to_nat y) (Z.to_nat x)); [| exact Hd].
  destruct ((vy (pos p) + y >=? 0)
            && (vy (pos p) + y <? Z.of_nat (length m))); [| exact Hd].
  destruct (getRow m (vy (pos p) + y)) as [row |] eqn:Erow; [| exact Hd].
  destruct (Z.geb_spec (vx (pos p) + x) 0) as [Hx0 | Hx0]; [| exact Hd].
  destruct (Z.ltb_spec (vx (pos p) + x) (Z.of_nat (length row)))
    as [Hx1 | Hx1]; [| exact Hd].
  cbn [andb].
  destruct (setCell m (vy (pos p) + y) (vx (pos p) + x) true) as [m' |] eqn:Es;
    [| exact Hd].
  eapply setCell_dims; [exact Hd | | exact Es].
  destruct (getRow_inv m _ row Erow) as [_ Hnth].
  destruct Hd as [_ Hcols]. rewrite Forall_forall in Hcols.
  rewrite <- (Hcols row) by (eapply nth_error_In; exact Hnth). exact Hx1.
Qed.

Lemma Tetromino_render_dims (p : Tetromino) (m : Matrix) (rows cols : Z) :
  hasDims m rows cols -> hasDims (Tetromino_render p m) rows cols.
Proof.
  intros Hd. unfold Tetromino_render.
  apply (fold_left_inv (fun m => hasDims m rows cols)); [| exact Hd].
  intros m1 x Hm1.
  apply (fold_left_inv (fun m => hasDims m rows cols)); [| exact Hm1].
  intros m2 y Hm2. apply renderCell_dims. exact Hm2.
Qed.

Lemma renderPiece_ok (t : Tetris) :
  pieceInv t ->
  hasDims (gameElectrodes t) playHeight playWidth ->
  exists ge,
    renderPiece t = Some ge /\ hasDims ge playHeight playWidth.
Proof.
  intros (Hd & Hs & Hb & Hst & Hco) Hg. unfold renderPiece.
  destruct (0 <? Z.of_nat (length (needFilling (base t)))).
  - apply (foldM_inv
             (fun ge => hasDims ge playHeight playWidth)
             (fun c => inPlayfield (vx (pos (droppingTetro t)) + vx c)
                                   (vy (pos (droppingTetro t)) + vy c)));
      [| apply inBounds_cells; exact Hb | exact Hg].
    intros ge c Hge [Hx Hy]. cbn [vx vy].
    destruct (negb (inNeedFilling t _)).
    + apply (setCell_ok ge playHeight playWidth); assumption.
    + exists ge. split; [reflexivity | exact Hge].
  - destruct (rotationState t) eqn:E; cbn [RotationState_eqb negb].
    + eexists. split; [reflexivity |].
      apply Tetromino_render_dims. exact Hg.
    + contradiction.
    + destruct (Hco eq_refl) as [Hns Hnb]. rewrite Hns in Hnb.
      destruct (centre_inPlayfield _ _ Hs Hb Hnb) as [Hx Hy].
      unfold vecAdd, centerPos. cbn [vx vy].
      apply (setCell_ok _ playHeight playWidth); assumption.
    + eexists. split; [reflexivity |].
      apply Tetromino_render_dims. exact Hg.
Qed.

Lemma transposeElectrodes_ok (t : Tetris) :
  hasDims (gameElectrodes t) playHeight playWidth ->
  exists m,
    transposeElectrodes t = Some m /\ hasDims m playWidth playHeight.
Proof.
  intros Hg. unfold transposeElectrodes.
  apply (foldM_inv (fun m => hasDims m playWidth playHeight)
                   (fun x => 0 <= x < playHeight));
    [| apply range_bounds
     | apply newMatrix_dims; rewrite ?playHeight_eq, ?playWidth_eq;
       vm_compute; discriminate].
  intros m x Hm Hx.
  apply (foldM_inv (fun m => hasDims m playWidth playHeight)
                   (fun y => 0 <= y < playWidth));
    [| apply range_bounds | exact Hm].
  intros m' y Hm' Hy.
  rewrite getCell_Some by (rewrite (hasDims_rows _ _ _ Hg); exact Hx).
  apply (setCell_ok m' playWidth playHeight); [exact Hm' | | exact Hx].
  fold playWidth. lia.
Qed.

(** A render never throws and keeps the invariant. *)
Lemma render_inv (t : Tetris) :
  gameInv t -> exists t', render t = Some t' /\ gameInv t'.
Proof.
  intros (Hp & (Hrows & Hq & Hm) & Hg). unfold render.
  set (t1 := clearGameElectrodes t).
  assert (Hp1 : pieceInv t1) by exact Hp.
  assert (Hg1 : hasDims (gameElectrodes t1) playHeight playWidth).
  { apply newMatrix_dims; vm_compute; discriminate. }
  destruct (renderBlocks_ok t1) as (ge1 & -> & Hge1);
    [apply Hp1 | exact Hg1 |].
  set (t2 := set_gameElectrodes ge1 t1).
  destruct (renderPiece_ok t2) as (ge2 & -> & Hge2); [exact Hp | exact Hge1 |].
  set (t3 := set_gameElectrodes ge2 t2).
  destruct (transposeElectrodes_ok t3) as (m & -> & Hdm); [exact Hge2 |].
  assert (Hm8 : length m = 8%nat).
  { apply hasDims_rows in Hdm. rewrite playWidth_eq in Hdm. lia. }
  unfold onBase, Game_render, bind, getState.
  cbn [base set_base currentlyMoving set_electrodes].
  change (currentlyMoving (base t3)) with (currentlyMoving (base t)).
  destruct (currentlyMoving (base t)) as [c |] eqn:Ec.
  - destruct (Hm c eq_refl) as [Hx Hy].
    change (vy gameSize) with 8 in Hy.
    destruct (writeElectrode_ok (vy c) (vx c) true
                (set_electrodes m (base t3)))
      as (m' & -> & Hm'); [exact Hm8 | exact Hy | lia |].
    eexists. split; [reflexivity |].
    split; [exact Hp |]. split; [| exact Hge2].
    split; [exact Hm' |]. split; [exact Hq |].
    cbn. rewrite Ec. exact Hm.
  - eexists. split; [reflexivity |].
    split; [exact Hp |]. split; [| exact Hge2].
    split; [exact Hm8 |]. split; [exact Hq |].
    cbn. rewrite Ec. discriminate.
Qed.

(** ** The invariant over the run of the game *)

Lemma transmit_ok (g : Game) :
  length (electrodes g) = 8%nat ->
  exists p, transmit g = Some (tt, g, [Transmit p]).
Proof.
  intros Hrows. destruct (buildPacket_spec g) as (p & Hp & _); [lia |].
  exists p. unfold transmit. rewrite Hp. reflexivity.
Qed.

(** One frame: [update] never throws from a state that satisfies the
    invariant, and ends in such a state. *)
Lemma update_inv (current : Z) (next : TetrominoType) (t : Tetris) :
  gameInv t ->
  exists t' ev, update current next t = Some (t', ev) /\ gameInv t'.
Proof.
  intros Hinv. unfold update.
  set (newTick := movementDelay (base t) <? current - lastFrame (base t)).
  set (t0 := if newTick
             then set_base (set_lastFrame current (base t)) t else t).
  assert (H0 : gameInv t0).
  { unfold t0. destruct newTick; [| exact Hinv].
    destruct Hinv as (Hp & He & Hg).
    split; [exact Hp |]. split; [exact He | exact Hg]. }
  assert (Hstep : exists t1 ev1,
             (if newTick then
                if 0 <? Z.of_nat (length (needFilling (base t0)))
                then match onBase fillTick t0 with
                     | Some (_, t, ev) => Some (t, ev)
                     | None => None
                     end
                else match tick next t0 with
                     | Some t => Some (t, [])
                     | None => None
                     end
              else Some (t0, [])) = Some (t1, ev1) /\ gameInv t1).
  { destruct newTick; [| exists t0, []; split; [reflexivity | exact H0]].
    destruct H0 as (Hp & He & Hg).
    destruct (0 <? Z.of_nat (length (needFilling (base t0)))).
    - destruct (fillTick_inv (base t0) He) as (g' & ev & Hf & He').
      unfold onBase. rewrite Hf. exists (set_base g' t0), ev.
      split; [reflexivity |]. split; [exact Hp |]. split; [exact He' | exact Hg].
    - destruct (tick_inv next t0 Hp He) as (t1 & -> & Hp1 & He1 & Hg1).
      exists t1, []. split; [reflexivity |].
      split; [exact Hp1 |]. split; [exact He1 | rewrite Hg1; exact Hg]. }
  destruct Hstep as (t1 & ev1 & -> & H1).
  destruct (render_inv t1 H1) as (t2 & -> & H2).
  destruct H2 as (Hp2 & He2 & Hg2).
  destruct (transmit_ok (base t2)) as (p & Hp); [apply He2 |].
  unfold onBase. rewrite Hp.
  eexists. eexists. split; [reflexivity |].
  split; [exact Hp2 |]. split; [| exact Hg2].
  destruct t2; exact He2.
Qed.

Lemma init_inv (first : TetrominoType) (speed : Z) :
  exists t ev,
    init (set_base (set_movementDelay speed newGame) (newTetris first))
    = Some (t, ev)
    /\ gameInv t.
Proof.
  unfold init, onBase, clear, bind, modify.
  cbn [base set_base].
  match goal with
  | |- context [transmit ?g] =>
      destruct (transmit_ok g) as (p & ->); [reflexivity |]
  end.
  eexists. eexists. split; [reflexivity |].
  match goal with
  | |- gameInv (primeDroppingTetro ?t) =>
      assert (Hp : pieceInv t);
      [| assert (He : engineInv (base t));
         [| destruct (primeDroppingTetro_inv t Hp He) as (P1 & P2 & P3 & _);
            split; [exact P1 |]; split; [exact P2 |]; rewrite P3 ]]
  end.
  - split_pieceInv.
    + exact (newMatrix_dims 14 8 ltac:(lia) ltac:(lia)).
    + apply catalog_in_allShapes.
    + apply spawn_inBounds.
    + discriminate.
    + discriminate.
  - split; [reflexivity |]. split; [constructor | discriminate].
  - exact (newMatrix_dims 14 8 ltac:(lia) ltac:(lia)).
Qed.

Lemma reachable_inv (t : Tetris) : reachable t -> gameInv t.
Proof.
  intros H. induction H as [first speed t ev Hinit
                           | current next t t' ev Hreach IH Hupd
                           | d t Hreach IH
                           | t Hreach IH].
  - destruct (init_inv first speed) as (t0 & ev0 & H0 & Hinv).
    rewrite H0 in Hinit. injection Hinit as <- _. exact Hinv.
  - destruct (update_inv current next t IH) as (t0 & ev0 & H0 & Hinv).
    rewrite H0 in Hupd. injection Hupd as <- _. exact Hinv.
  - unfold setMovement. destruct (finished t); exact IH.
  - exact IH.
Qed.

(** The game loop never stops on an exception: from every state the page can
    reach, the next frame runs to its end. *)
Lemma update_never_throws (current : Z) (next : TetrominoType) (t : Tetris) :
  reachable t -> exists t' ev, update current next t = Some (t', ev).
Proof.
  intros H. destruct (update_inv current next t (reachable_inv t H))
    as (t' & ev & Hu & _). eauto.
Qed.

(** C8: in every state the game reaches, by [init], by frames of [update]
    and by the key handlers, every occupied cell of the active piece lies in
    the playable grid ([0 <= x < 8], [0 <= y < 14]); the static block grid
    and the rendered grid keep their 14 rows of 8 cells, so every occupied
    cell of either lies in the playable grid; and the one cell drawn while
    the piece coalesces, the centre of its bounding box, lies in the playable
    grid as well. *)
Theorem C8_blocks_stay_in_playfield (t : Tetris) :
  reachable t ->
  (forall x y : nat,
     shapeCell (shape (droppingTetro t)) y x = true ->
     0 <= vx (pos (droppingTetro t)) + Z.of_nat x < playWidth
     /\ 0 <= vy (pos (droppingTetro t)) + Z.of_nat y < playHeight)
  /\ hasDims (currentBlocks t) playHeight playWidth
  /\ (forall row col,
        electrodeActive (currentBlocks t) row col = true ->
        0 <= col < playWidth /\ 0 <= row < playHeight)
  /\ hasDims (gameElectrodes t) playHeight playWidth
  /\ (forall row col,
        electrodeActive (gameElectrodes t) row col = true ->
        0 <= col < playWidth /\ 0 <= row < playHeight)
  /\ (rotationState t = Coalesce ->
      0 <= vx (pos (droppingTetro t)) + 1 < playWidth
      /\ 0 <= vy (pos (droppingTetro t)) + 1 < playHeight).
Proof.
  intros Hreach.
  destruct (reachable_inv t Hreach) as ((Hd & Hs & Hb & Hst & Hco) & _ & Hg).
  split; [exact Hb |]. split; [exact Hd |]. split.
  { intros row col H.
    destruct (hasDims_active_inside _ _ _ _ _ Hd H). split; assumption. }
  split; [exact Hg |]. split.
  { intros row col H.
    destruct (hasDims_active_inside _ _ _ _ _ Hg H). split; assumption. }
  intros Hc. destruct (Hco Hc) as [Hns Hnb]. rewrite Hns in Hnb.
  exact (centre_inPlayfield _ _ Hs Hb Hnb).
Qed.

Lemma C8_witness :
  match init (set_base (set_movementDelay 300 newGame) (newTetris PYRAMID))
  with
  | Some (t, _) =>
      reachable t
      /\ hasDims (currentBlocks t) playHeight playWidth
      /\ hasDims (gameElectrodes t) playHeight playWidth
  | None => False
  end.
Proof.
  destruct (init (set_base (set_movementDelay 300 newGame)
                           (newTetris PYRAMID)))
    as [[t ev] |] eqn:E.
  - assert (Hr : reachable t) by exact (reach_init _ _ _ _ E).
    split; [exact Hr |].
    destruct (C8_blocks_stay_in_playfield t Hr) as (_ & Hd & _ & Hg & _).
    split; [exact Hd | exact Hg].
  - vm_compute in E. discriminate.
Defined.

(** ** The special-electrode bytes stay bytes *)

Lemma sameBytes_refl (g : Game) : sameBytes g g.
Proof. split; reflexivity. Qed.

Lemma sameBytes_trans (g1 g2 g3 : Game) :
  sameBytes g1 g2 -> sameBytes g2 g3 -> sameBytes g1 g3.
Proof. intros [A1 A2] [B1 B2]. split; congruence. Qed.

Lemma sameBytes_bytesInv (g g' : Game) :
  sameBytes g g' -> bytesInv g -> bytesInv g'.
Proof. intros [A1 A2] [B1 B2]. split; congruence. Qed.

Lemma writeElectrode_sameBytes (r c : Z) (v : bool) (g g' : Game)
    (ev : list Event) :
  writeElectrode r c v g = Some (tt, g', ev) -> sameBytes g g'.
Proof.
  unfold writeElectrode. destruct (setCell (electrodes g) r c v);
    [| discriminate].
  intros H. injection H as <- _. split; reflexivity.
Qed.

Lemma fillTick_bytes (g g' : Game) (ev : list Event) :
  length (electrodes g) = 8%nat ->
  fillTick g = Some (tt, g', ev) -> bytesInv g -> bytesInv g'.
Proof.
  intros Hrows Hf Hb. unfold fillTick, bind, getState in Hf.
  destruct (needFilling g) as [| target rest];
    [injection Hf as <- _; exact Hb |].
  destruct (currentlyMoving g) as [moving |].
  - destruct (findPath moving target) as [| nextStep path];
      [injection Hf as <- _; exact Hb |].
    destruct (writeElectrode (vy nextStep) (vx nextStep) true g)
      as [[[[] g1] ev1] |] eqn:E1; [| discriminate].
    destruct (writeElectrode (vy moving) (vx moving) false g1)
      as [[[[] g2] ev2] |] eqn:E2; [| discriminate].
    apply writeElectrode_sameBytes in E1, E2.
    pose proof (sameBytes_bytesInv _ _ (sameBytes_trans _ _ _ E1 E2) Hb)
      as Hb2.
    unfold modify in Hf.
    destruct ((vx nextStep =? vx target) && (vy nextStep =? vy target));
      injection Hf as <- _; exact Hb2.
  - destruct (fst (findClosest target (availableReservoirs g)))
      as [closest |]; [| injection Hf as <- _; exact Hb].
    destruct (dispense_spec closest g)
      as (g1 & first & frames & last & Hd & _ & _ & _ & _ & _ & _
          & _ & _ & Hown & Hkept); [exact Hrows |].
    rewrite Hd in Hf. unfold modify in Hf. injection Hf as <- _.
    destruct Hkept as (_ & Hopp & _). destruct Hb as [Hl Hr].
    unfold bytesInv. cbn [specialElectrodesLeft specialElectrodesRight
                          set_currentlyMoving].
    destruct closest; cbn [ownByte oppositeByte] in Hown, Hopp;
      rewrite ?Hopp; split; assumption.
Qed.

Lemma tick_sameBytes (next : TetrominoType) (t t' : Tetris) :
  tick next t = Some t' -> sameBytes (base t) (base t').
Proof.
  unfold tick. destruct (finished t);
    [intros H; injection H as <-; apply sameBytes_refl |].
  destruct (tickMotion t) as [t1 |] eqn:Em; [| discriminate].
  destruct (tickMotion_frame t t1 Em) as (_ & _ & Hbase).
  rewrite <- Hbase. clear Em Hbase.
  unfold tickLanding, finalizeTetromino.
  destruct (hasLanded t1 _ _) as [[|] |]; try discriminate;
    [| intros H; injection H as <-; apply sameBytes_refl].
  destruct (foldM _ _ _) as [blocks |]; [| discriminate].
  cbn [currentBlocks set_currentBlocks].
  destruct (getRow blocks topLevel) as [row |]; [| discriminate].
  destruct (existsb (fun cell => cell) row); cbn [finished set_finished negb].
  - intros H. injection H as <-. apply sameBytes_refl.
  - destruct (negb _); intros H; injection H as <-; split; reflexivity.
Qed.

Lemma render_sameBytes (t t' : Tetris) :
  render t = Some t' -> sameBytes (base t) (base t').
Proof.
  unfold render.
  destruct (renderBlocks _) as [ge1 |]; [| discriminate].
  destruct (renderPiece _) as [ge2 |]; [| discriminate].
  destruct (transposeElectrodes _) as [m |]; [| discriminate].
  unfold onBase, Game_render, bind, getState.
  cbn [base set_base currentlyMoving set_electrodes].
  change (base (set_gameElectrodes ge2
                  (set_gameElectrodes ge1 (clearGameElectrodes t))))
    with (base t).
  destruct (currentlyMoving (base t)) as [c |].
  - destruct (writeElectrode (vy c) (vx c) true (set_electrodes m (base t)))
      as [[[[] g1] ev1] |] eqn:E; [| discriminate].
    apply writeElectrode_sameBytes in E.
    intros H. injection H as <-. exact E.
  - intros H. injection H as <-. split; reflexivity.
Qed.

Lemma update_bytes (current : Z) (next : TetrominoType) (t t' : Tetris)
    (ev : list Event) :
  gameInv t -> bytesInv (base t) ->
  update current next t = Some (t', ev) -> bytesInv (base t').
Proof.
  intros (Hp & He & Hg) Hb. unfold update.
  set (newTick := movementDelay (base t) <? current - lastFrame (base t)).
  set (t0 := if newTick
             then set_base (set_lastFrame current (base t)) t else t).
  assert (Hb0 : bytesInv (base t0))
    by (unfold t0; destruct newTick; exact Hb).
  assert (Hrows0 : length (electrodes (base t0)) = 8%nat)
    by (unfold t0; destruct newTick; apply He).
  intros H.
  match type of H with
  | match ?e with _ => _ end = _ =>
      destruct e as [[t1 ev1] |] eqn:Estep; [| discriminate]
  end.
  assert (Hb1 : bytesInv (base t1)).
  { fold t0 in Estep. destruct newTick;
      [| injection Estep as <- _; exact Hb0].
    destruct (0 <? Z.of_nat (length (needFilling (base t0)))).
    - unfold onBase in Estep.
      destruct (fillTick (base t0)) as [[[[] g1] ev2] |] eqn:Ef;
        [| discriminate].
      injection Estep as <- _.
      exact (fillTick_bytes _ _ _ Hrows0 Ef Hb0).
    - destruct (tick next t0) as [t2 |] eqn:Et; [| discriminate].
      injection Estep as <- _.
      exact (sameBytes_bytesInv _ _ (tick_sameBytes _ _ _ Et) Hb0). }
  destruct (render t1) as [t2 |] eqn:Er; [| discriminate].
  apply render_sameBytes in Er.
  unfold onBase, transmit in H.
  destruct (buildPacket (base t2)); [| discriminate].
  injection H as <- _.
  destruct t2. exact (sameBytes_bytesInv _ _ Er Hb1).
Qed.

(** Every state the game reaches is an engine state in the sense of the
    frame encoder. *)
Lemma reachable_engineState (t : Tetris) :
  reachable t -> engineState (base t).
Proof.
  intros H.
  assert (Hb : bytesInv (base t)).
  { induction H as [first speed t ev Hinit
                   | current next t t' ev Hreach IH Hupd
                   | d t Hreach IH
                   | t Hreach IH].
    - unfold init, onBase, clear, bind, modify, transmit in Hinit.
      cbn [base set_base] in Hinit.
      destruct (buildPacket _); [| discriminate].
      injection Hinit as <- _. unfold bytesInv, isByte. cbn. lia.
    - exact (update_bytes current next t t' ev
               (reachable_inv t Hreach) IH Hupd).
    - unfold setMovement. destruct (finished t); exact IH.
    - exact IH. }
  destruct (reachable_inv t H) as (_ & (Hrows & _) & _).
  destruct Hb as [Hl Hr]. split; [exact Hl |]. split; [exact Hr |].
  exact Hrows.
Qed.

(** * Further properties of the code *)

(** ** reverseNibble on every integer *)

Lemma land_low_mask (y k : Z) :
  0 <= k < 16 -> Z.land y k = Z.land (y mod 16) k.
Proof.
  intros Hk.
  change 16 with (2 ^ 4). rewrite <- Z.land_ones by lia.
  rewrite <- Z.land_assoc. f_equal.
  apply Z.bits_inj'. intros n Hn. rewrite Z.land_spec.
  destruct (Z.ltb_spec n 4) as [Hlt | Hge].
  - rewrite Z.ones_spec_low by lia. reflexivity.
  - rewrite (small_bits_off k 4 n) by (simpl; lia).
    symmetry. apply andb_false_r.
Qed.

Lemma js_and_low_mask (n k : Z) :
  0 <= k < 16 -> js_and n k = js_and (n mod 16) k.
Proof.
  intros Hk. unfold js_and.
  assert (Hm : 0 <= n mod 16 < 16) by (apply Z.mod_pos_bound; lia).
  rewrite (toInt32_small k) by lia.
  rewrite (toInt32_small (n mod 16)) by lia.
  rewrite land_low_mask by exact Hk. f_equal.
  pose proof (toInt32_mod256 n). Z.div_mod_to_equations. lia.
Qed.

Lemma reverseNibble_mod (n : Z) : reverseNibble n = reverseNibble (n mod 16).
Proof.
  unfold reverseNibble.
  rewrite (js_and_low_mask n 1), (js_and_low_mask n 2),
    (js_and_low_mask n 4), (js_and_low_mask n 8) by lia.
  reflexivity.
Qed.

(** X1: [reverseNibble] looks at the four low bits of its argument only:
    for every integer it returns a nibble (0..15) whose bit [i] is bit
    [3 - i] of the argument, and applying it twice gives the four low bits of
    the argument back (the argument itself when it is a nibble). *)
Theorem X1_reverseNibble_every_integer (n : Z) :
  0 <= reverseNibble n <= 15
  /\ reverseNibble n = reverseNibble (n mod 16)
  /\ (forall i, 0 <= i <= 3 ->
        Z.testbit (reverseNibble n) i = Z.testbit n (3 - i))
  /\ reverseNibble (reverseNibble n) = n mod 16.
Proof.
  assert (Hm : 0 <= n mod 16 <= 15)
    by (pose proof (Z.mod_pos_bound n 16); lia).
  destruct (reverseNibble_bits (n mod 16) Hm) as [Hrange Hbits].
  rewrite (reverseNibble_mod n).
  split; [exact Hrange |]. split; [reflexivity |]. split.
  - intros i Hi. rewrite (Hbits i Hi).
    change 16 with (2 ^ 4). apply Z.mod_pow2_bits_low. lia.
  - apply reverseNibble_involutive. exact Hm.
Qed.

(** ** findPath arrives *)

Lemma last_cons {A : Type} (a d : A) (l : list A) :
  last (a :: l) d = last l a.
Proof.
  revert a d. induction l as [| b l IH]; intros a d; [reflexivity |].
  change (last (a :: b :: l) d) with (last (b :: l) d).
  rewrite (IH b d), (IH b a). reflexivity.
Qed.

Lemma advance_between (c e : Vec) : between c e (advance c e).
Proof.
  unfold between, advance.
  destruct (Z.eqb_spec (vx c) (vx e)) as [Hx | Hx]; cbn [negb].
  - destruct (Z.eqb_spec (vy c) (vy e)) as [Hy | Hy]; cbn [negb];
      [lia |].
    destruct (Z.ltb_spec (vy c) (vy e)); cbn [vx vy]; lia.
  - destruct (Z.ltb_spec (vx c) (vx e)); cbn [vx vy]; lia.
Qed.

Lemma between_small (a b q : Vec) :
  smallCell a -> smallCell b -> between a b q -> smallCell q.
Proof.
  unfold smallCell, smallInt, between. intros [Ax Ay] [Bx By] [Qx Qy].
  split; lia.
Qed.

(** X2: for small cells [a] and [b] (coordinates of magnitude at most 2^20,
    where the code's arithmetic on doubles is exact), the path of
    [findPath(a, b)] ends on [b] (an empty path means [a] already is [b]),
    and every cell of it lies in the rectangle spanned by [a] and [b], so
    that it is a small cell too: the droplet never leaves the rectangle. *)
Theorem X2_findPath_arrives_inside (a b : Vec) :
  smallCell a -> smallCell b ->
  last (findPath a b) a = b
  /\ forall q, In q (findPath a b) -> between a b q /\ smallCell q.
Proof.
  intros Hsa Hsb.
  cut (last (findPath a b) a = b
       /\ forall q, In q (findPath a b) -> between a b q).
  { intros [Hlast Hin]. split; [exact Hlast |]. intros q Hq.
    split; [apply Hin; exact Hq |].
    exact (between_small a b q Hsa Hsb (Hin q Hq)). }
  clear Hsa Hsb.
  unfold findPath. destruct a as [ax ay]. cbn [vx vy].
  apply (findPath_loop_ind b
           (fun c path => last path c = b
                          /\ forall q, In q path -> between c b q)).
  - intros c H. apply notArrived_false in H. subst c.
    split; [reflexivity | intros q []].
  - intros c H (IHlast & IHin).
    split; [rewrite last_cons; exact IHlast |].
    pose proof (advance_between c b) as Hadv.
    intros q [<- | Hin]; [exact Hadv |].
    specialize (IHin q Hin). unfold between in *. lia.
Qed.

Lemma X2_witness :
  smallCell (mkVec 0 6) /\ smallCell (mkVec 3 2)
  /\ last (findPath (mkVec 0 6) (mkVec 3 2)) (mkVec 0 6) = mkVec 3 2.
Proof.
  assert (Ha : smallCell (mkVec 0 6))
    by (split; vm_compute; discriminate).
  assert (Hb : smallCell (mkVec 3 2))
    by (split; vm_compute; discriminate).
  split; [exact Ha |]. split; [exact Hb |].
  exact (proj1 (X2_findPath_arrives_inside (mkVec 0 6) (mkVec 3 2) Ha Hb)).
Defined.


(** ** rotate, turn after turn *)

Lemma rotate_other_direction (s : Shape) (d : Z) :
  d <> 1 -> rotate s d = rotate s (-1).
Proof.
  intros Hd. unfold rotate.
  destruct (Z.eqb_spec d 1) as [-> | _]; [contradiction | reflexivity].
Qed.

Lemma rotate_counter_then_clockwise (s : Shape) :
  isSquare s -> rotate (rotate s (-1)) 1 = s.
Proof.
  intros Hsq. apply shape_ext.
  - rewrite !rotate_length. reflexivity.
  - intros y Hy. rewrite !rotate_length in Hy.
    rewrite rotate_row_length by (rewrite rotate_length; exact Hy).
    rewrite rotate_length. symmetry. apply isSquare_row; assumption.
  - intros y x Hy Hx. rewrite !rotate_length in Hy.
    rewrite rotate_row_length in Hx by (rewrite rotate_length; exact Hy).
    rewrite rotate_length in Hx.
    rewrite rotate_cell by (rewrite rotate_length; assumption).
    change (1 =? 1) with true. cbv iota. rewrite rotate_length.
    rewrite rotate_cell by lia.
    change (-1 =? 1) with false. cbv iota.
    replace (length s - 1 - (length s - 1 - x))%nat with x by lia.
    reflexivity.
Qed.

Lemma rotate_twice_cell (s : Shape) (y x : nat) :
  (y < length s)%nat -> (x < length s)%nat ->
  shapeCell (rotate (rotate s 1) 1) y x
  = shapeCell s (length s - 1 - y) (length s - 1 - x).
Proof.
  intros Hy Hx.
  rewrite rotate_cell by (rewrite rotate_length; assumption).
  change (1 =? 1) with true. cbv iota. rewrite rotate_length.
  rewrite rotate_cell by lia. reflexivity.
Qed.

(** X3: on a square shape, four clockwise turns give the shape back, and so
    does a counter-clockwise turn followed by a clockwise one; a turn always
    returns a square matrix with as many rows as its argument; and every
    direction other than 1 turns counter-clockwise. *)
Theorem X3_rotate_four_turns (s : Shape) :
  isSquare s ->
  rotateTimes 4 s = s
  /\ rotate (rotate s (-1)) 1 = s
  /\ (forall d, isSquare (rotate s d) /\ length (rotate s d) = length s)
  /\ (forall d, d <> 1 -> rotate s d = rotate s (-1)).
Proof.
  intros Hsq. split; [| split; [| split]].
  - cbn [rotateTimes]. apply shape_ext.
    + rewrite !rotate_length. reflexivity.
    + intros y Hy. rewrite !rotate_length in Hy.
      rewrite rotate_row_length by (rewrite !rotate_length; exact Hy).
      rewrite !rotate_length. symmetry. apply isSquare_row; assumption.
    + intros y x Hy Hx. rewrite !rotate_length in Hy.
      rewrite rotate_row_length in Hx by (rewrite !rotate_length; exact Hy).
      rewrite !rotate_length in Hx.
      rewrite rotate_twice_cell by (rewrite !rotate_length; assumption).
      rewrite !rotate_length.
      rewrite rotate_twice_cell by lia.
      replace (length s - 1 - (length s - 1 - y))%nat with y by lia.
      replace (length s - 1 - (length s - 1 - x))%nat with x by lia.
      reflexivity.
  - apply rotate_counter_then_clockwise. exact Hsq.
  - intros d. split; [apply rotate_isSquare | apply rotate_length].
  - intros d Hd. apply rotate_other_direction. exact Hd.
Qed.

Lemma X3_witness :
  isSquare (tetrominoShapes HORIZONTAL)
  /\ rotateTimes 4 (tetrominoShapes HORIZONTAL) = tetrominoShapes HORIZONTAL.
Proof.
  assert (Hsq : isSquare (tetrominoShapes HORIZONTAL))
    by (repeat constructor).
  split; [exact Hsq |].
  exact (proj1 (X3_rotate_four_turns _ Hsq)).
Defined.

(** ** The validity tests *)

Lemma fits_cells (blocks : Matrix) (p : Vec) (s : Shape) :
  fits blocks p s
  <-> Forall (fun c =>
                inPlayfield (vx p + vx c) (vy p + vy c)
                /\ electrodeActive blocks (vy p + vy c) (vx p + vx c) = false)
             (occupiedCells s).
Proof.
  unfold fits. rewrite Forall_forall. split.
  - intros H c Hin. apply In_occupiedCells in Hin.
    destruct Hin as (x & y & -> & Hc). apply H. exact Hc.
  - intros H x y Hc.
    apply (H (mkVec (Z.of_nat x) (Z.of_nat y))).
    apply In_occupiedCells. eauto.
Qed.

(** X4: on a static grid with its 14 rows, [isValidMove] never throws and
    answers true exactly when every occupied cell of the shape, placed at the
    position, lies in the playable grid and on no occupied cell of the static
    grid. *)
Theorem X4_isValidMove_exact (t : Tetris) (p : Vec) (s : Shape) :
  Z.of_nat (length (currentBlocks t)) = playHeight ->
  exists b,
    isValidMove t p s = Some b
    /\ (b = true <-> fits (currentBlocks t) p s).
Proof.
  intros Hrows. unfold isValidMove.
  destruct (isValidMove_scan_spec (currentBlocks t) p (occupiedCells s) Hrows)
    as (b & Hb & Hiff).
  exists b. split; [exact Hb |]. rewrite Hiff. symmetry. apply fits_cells.
Qed.

Lemma X4_witness :
  Z.of_nat (length (currentBlocks (newTetris SQUARE))) = playHeight
  /\ exists b,
       isValidMove (newTetris SQUARE) (mkVec 6 0) (tetrominoShapes SQUARE)
       = Some b
       /\ (b = true <->
           fits (currentBlocks (newTetris SQUARE)) (mkVec 6 0)
                (tetrominoShapes SQUARE)).
Proof.
  assert (Hrows : Z.of_nat (length (currentBlocks (newTetris SQUARE)))
                  = playHeight) by reflexivity.
  split; [exact Hrows |].
  exact (X4_isValidMove_exact (newTetris SQUARE) (mkVec 6 0)
           (tetrominoShapes SQUARE) Hrows).
Defined.

Lemma isValidPosition_scan_spec (board : Matrix) (rows cols : Z) (p : Vec)
    (cells : list Vec) :
  hasDims board rows cols -> 0 < rows ->
  exists b,
    isValidPosition_scan board p cells = Some b
    /\ (b = true <->
        Forall (fun c =>
                  (0 <= vx p + vx c < cols /\ 0 <= vy p + vy c < rows)
                  /\ electrodeActive board (vy p + vy c) (vx p + vx c) = false)
               cells).
Proof.
  intros Hd Hpos. pose proof (hasDims_rows _ _ _ Hd) as Hrows.
  destruct (getRow_Some board 0) as [row0 Hrow0]; [lia |].
  assert (Hlen0 : Z.of_nat (length row0) = cols).
  { destruct Hd as [_ Hcols]. rewrite Forall_forall in Hcols.
    apply Hcols. destruct (getRow_inv board 0 row0 Hrow0) as [_ Hnth].
    eapply nth_error_In. exact Hnth. }
  induction cells as [| c rest IH].
  - exists true. split; [reflexivity |]. split; [constructor | reflexivity].
  - simpl isValidPosition_scan. rewrite Hrow0, Hlen0, Hrows.
    destruct (Z.ltb_spec (vx p + vx c) 0) as [Hx0 | Hx0];
      [exists false; split; [reflexivity |]; split; [discriminate |];
       intros H; inversion H as [| ? ? [[Hin _] _] _]; subst; lia |].
    destruct (Z.geb_spec (vx p + vx c) cols) as [Hx1 | Hx1];
      [exists false; split; [reflexivity |]; split; [discriminate |];
       intros H; inversion H as [| ? ? [[Hin _] _] _]; subst; lia |].
    destruct (Z.ltb_spec (vy p + vy c) 0) as [Hy0 | Hy0];
      [exists false; split; [reflexivity |]; split; [discriminate |];
       intros H; inversion H as [| ? ? [[_ Hin] _] _]; subst; lia |].
    destruct (Z.geb_spec (vy p + vy c) rows) as [Hy1 | Hy1];
      [exists false; split; [reflexivity |]; split; [discriminate |];
       intros H; inversion H as [| ? ? [[_ Hin] _] _]; subst; lia |].
    cbn [orb]. rewrite getCell_Some by lia.
    destruct (electrodeActive board (vy p + vy c) (vx p + vx c)) eqn:Hact.
    + exists false. split; [reflexivity |]. split; [discriminate |].
      intros H. inversion H as [| ? ? [_ Hfree] _]; subst. congruence.
    + destruct IH as (b & Hb & Hiff). exists b. split; [exact Hb |].
      rewrite Hiff. split.
      * intros H. constructor; [| exact H].
        split; [split; lia | exact Hact].
      * intros H. inversion H; subst. assumption.
Qed.

(** X5: on a board of [rows] rows of [cols] cells, with at least one row,
    [Tetromino.isValidPosition] never throws and answers true exactly when
    every occupied cell of the shape lies on the board and on no active cell;
    on the static grid of the game (14 rows of 8 cells) it gives the answer
    of [Tetris.isValidMove]. *)
Theorem X5_isValidPosition_exact (t : Tetris) (p : Vec) (s : Shape)
    (board : Matrix) (rows cols : Z) :
  hasDims board rows cols -> 0 < rows ->
  (exists b,
     isValidPosition s p board = Some b
     /\ (b = true <->
         forall x y : nat,
           shapeCell s y x = true ->
           (0 <= vx p + Z.of_nat x < cols /\ 0 <= vy p + Z.of_nat y < rows)
           /\ electrodeActive board (vy p + Z.of_nat y) (vx p + Z.of_nat x)
              = false))
  /\ (hasDims (currentBlocks t) playHeight playWidth ->
      isValidPosition s p (currentBlocks t) = isValidMove t p s).
Proof.
  intros Hd Hpos. split.
  - unfold isValidPosition.
    destruct (isValidPosition_scan_spec board rows cols p (occupiedCells s)
                Hd Hpos) as (b & Hb & Hiff).
    exists b. split; [exact Hb |]. rewrite Hiff. rewrite Forall_forall. split.
    + intros H x y Hc. apply (H (mkVec (Z.of_nat x) (Z.of_nat y))).
      apply In_occupiedCells. eauto.
    + intros H c Hin. apply In_occupiedCells in Hin.
      destruct Hin as (x & y & -> & Hc). apply H. exact Hc.
  - intros Hg. unfold isValidPosition, isValidMove.
    destruct (isValidPosition_scan_spec (currentBlocks t) playHeight playWidth
                p (occupiedCells s) Hg) as (b1 & Hb1 & Hiff1);
      [rewrite playHeight_eq; lia |].
    destruct (isValidMove_scan_spec (currentBlocks t) p (occupiedCells s)
                (hasDims_rows _ _ _ Hg)) as (b2 & Hb2 & Hiff2).
    rewrite Hb1, Hb2. f_equal.
    unfold inPlayfield in Hiff2.
    destruct b1, b2; try reflexivity.
    + apply proj1 in Hiff1. apply proj2 in Hiff2.
      symmetry. apply Hiff2. apply Hiff1. reflexivity.
    + apply proj2 in Hiff1. apply proj1 in Hiff2.
      apply Hiff1. apply Hiff2. reflexivity.
Qed.

Lemma X5_witness :
  hasDims (newMatrix 14 8) 14 8 /\ 0 < 14
  /\ isValidPosition (tetrominoShapes PYRAMID) (mkVec 2 1)
       (currentBlocks (newTetris PYRAMID))
     = isValidMove (newTetris PYRAMID) (mkVec 2 1) (tetrominoShapes PYRAMID).
Proof.
  assert (Hd : hasDims (newMatrix 14 8) 14 8)
    by (apply newMatrix_dims; lia).
  split; [exact Hd |]. split; [lia |].
  destruct (X5_isValidPosition_exact (newTetris PYRAMID) (mkVec 2 1)
              (tetrominoShapes PYRAMID) (newMatrix 14 8) 14 8 Hd)
    as [_ H]; [lia |].
  apply H. exact Hd.
Defined.

(** X6: for a piece whose occupied cells lie in the playable grid,
    [hasLanded] is the negation of the validity of the move one cell down:
    a piece is landed exactly when it can fall no further. *)
Theorem X6_landed_iff_cannot_fall (t : Tetris) (p : Vec) (s : Shape) :
  Z.of_nat (length (currentBlocks t)) = playHeight ->
  inBounds p s ->
  exists landed,
    hasLanded t p s = Some landed
    /\ isValidMove t (vecAdd p (Directions DOWN)) s = Some (negb landed).
Proof.
  intros Hrows Hb. apply inBounds_cells in Hb. unfold hasLanded, isValidMove.
  destruct (hasLanded_scan_spec (currentBlocks t) p (occupiedCells s) Hrows)
    as (b1 & Hb1 & Hiff1).
  { eapply Forall_impl; [| exact Hb]. intros c [_ Hy]. lia. }
  destruct (isValidMove_scan_spec (currentBlocks t)
              (vecAdd p (Directions DOWN)) (occupiedCells s) Hrows)
    as (b2 & Hb2 & Hiff2).
  exists b1. split; [exact Hb1 |]. rewrite Hb2. f_equal.
  cbn [vecAdd Directions vx vy] in Hiff2.
  unfold inPlayfield in *. rewrite playHeight_eq, playWidth_eq in *.
  rewrite Forall_forall in Hb.
  destruct b1, b2; try reflexivity; exfalso.
  - apply proj1 in Hiff1, Hiff2. specialize (Hiff1 eq_refl).
    specialize (Hiff2 eq_refl). destruct Hiff1 as (c & Hin & Hc).
    rewrite Forall_forall in Hiff2. destruct (Hiff2 c Hin) as [Hpf Hfree].
    replace (vy p + 1 + vy c) with (vy p + vy c + 1) in Hfree by lia.
    replace (vx p + 0 + vx c) with (vx p + vx c) in Hfree by lia.
    destruct Hc as [Hc | Hc]; [lia | congruence].
  - assert (Hall : Forall
                     (fun c =>
                        (0 <= vx p + 0 + vx c < 8
                         /\ 0 <= vy p + 1 + vy c < 14)
                        /\ electrodeActive (currentBlocks t)
                             (vy p + 1 + vy c) (vx p + 0 + vx c) = false)
                     (occupiedCells s)).
    { apply Forall_forall. intros c Hin.
      destruct (Hb c Hin) as [Hx Hy].
      replace (vy p + 1 + vy c) with (vy p + vy c + 1) by lia.
      replace (vx p + 0 + vx c) with (vx p + vx c) by lia.
      destruct (Z.le_gt_cases 14 (vy p + vy c + 1)) as [Hout | Hin14].
      - assert (false = true); [| discriminate].
        apply Hiff1. exists c. split; [exact Hin | left; exact Hout].
      - destruct (electrodeActive (currentBlocks t) (vy p + vy c + 1)
                                  (vx p + vx c)) eqn:Hact.
        + assert (false = true); [| discriminate].
          apply Hiff1. exists c. split; [exact Hin | right; exact Hact].
        + split; [split; lia | reflexivity]. }
    apply Hiff2 in Hall. discriminate.
Qed.

Lemma X6_witness :
  Z.of_nat (length (currentBlocks (newTetris PYRAMID))) = playHeight
  /\ inBounds (mkVec 2 12) (tetrominoShapes PYRAMID)
  /\ exists landed,
       hasLanded (newTetris PYRAMID) (mkVec 2 12) (tetrominoShapes PYRAMID)
       = Some landed
       /\ isValidMove (newTetris PYRAMID) (vecAdd (mkVec 2 12) (Directions DOWN))
            (tetrominoShapes PYRAMID)
          = Some (negb landed).
Proof.
  assert (Hrows : Z.of_nat (length (currentBlocks (newTetris PYRAMID)))
                  = playHeight) by reflexivity.
  assert (Hb : inBounds (mkVec 2 12) (tetrominoShapes PYRAMID)).
  { apply inBounds_cells. unfold inPlayfield.
    rewrite playHeight_eq, playWidth_eq.
    repeat constructor; vm_compute; discriminate. }
  split; [exact Hrows |]. split; [exact Hb |].
  exact (X6_landed_iff_cannot_fall (newTetris PYRAMID) (mkVec 2 12)
           (tetrominoShapes PYRAMID) Hrows Hb).
Defined.

(** ** Frames *)

(** X7: [clear()] works from every state, also one whose electrode matrix
    has lost rows: it installs a fresh 8 by 14 matrix and zeroes both special
    bytes before it transmits, so the one frame it sends is 32 zero bytes;
    the fill queue, the droplet in transit, the reservoir list and the timing
    fields are left alone. *)
Theorem X7_clear_blank_frame (g : Game) :
  exists g',
    clear g = Some (tt, g', [Transmit (repeat 0 32)])
    /\ electrodes g' = newMatrix (vy gameSize) (vx gameSize)
    /\ specialElectrodesLeft g' = 0
    /\ specialElectrodesRight g' = 0
    /\ needFilling g' = needFilling g
    /\ currentlyMoving g' = currentlyMoving g
    /\ availableReservoirs g' = availableReservoirs g
    /\ lastFrame g' = lastFrame g
    /\ movementDelay g' = movementDelay g
    /\ cleanupDelay g' = cleanupDelay g.
Proof.
  eexists. split.
  - unfold clear, bind, modify, transmit, buildPacket.
    cbn [electrodes specialElectrodesLeft specialElectrodesRight
         set_electrodes set_specialElectrodesLeft set_specialElectrodesRight].
    vm_compute. reflexivity.
  - cbn. repeat split; reflexivity.
Qed.

Lemma packet_ext (p q : list Z) :
  length p = 32%nat -> length q = 32%nat ->
  (forall i, 0 <= i < 32 -> packetByte p i = packetByte q i) ->
  p = q.
Proof.
  intros Hp Hq H. apply (nth_ext p q 0 0); [congruence |].
  intros n Hn. specialize (H (Z.of_nat n)).
  unfold packetByte in H. rewrite Nat2Z.id in H. apply H. lia.
Qed.

(** X8: two engine states are encoded into the same frame exactly when they
    have the same two special bytes and agree on every cell of the 8 rows and
    14 columns of the electrode matrix: the frame shows the whole board and
    nothing else of the state. *)
Theorem X8_frame_shows_the_board (g1 g2 : Game) :
  engineState g1 -> engineState g2 ->
  (buildPacket g1 = buildPacket g2
   <-> specialElectrodesLeft g1 = specialElectrodesLeft g2
       /\ specialElectrodesRight g1 = specialElectrodesRight g2
       /\ forall x y, 0 <= x < 14 -> 0 <= y < 8 ->
            electrodeActive (electrodes g1) y x
            = electrodeActive (electrodes g2) y x).
Proof.
  intros (Hl1 & Hr1 & Hrows1) (Hl2 & Hr2 & Hrows2).
  destruct (buildPacket_spec g1)
    as (p1 & Hp1 & Hlen1 & H0 & H15 & Hcol1 & Hz1);
    [rewrite Hrows1; simpl; lia |].
  destruct (buildPacket_spec g2)
    as (p2 & Hp2 & Hlen2 & K0 & K15 & Hcol2 & Hz2);
    [rewrite Hrows2; simpl; lia |].
  unfold isByte, toUint8 in *.
  rewrite Z.mod_small in H0, H15, K0, K15 by lia.
  rewrite Hp1, Hp2. split.
  - intros H. injection H as ->.
    split; [congruence |]. split; [congruence |].
    intros x y Hx Hy.
    pose proof (Hcol1 x Hx y ltac:(lia)) as B1.
    pose proof (Hcol2 x Hx y ltac:(lia)) as B2.
    rewrite B1 in B2.
    destruct (Z.ltb_spec y 8); [| lia]. exact B2.
  - intros (Hl & Hr & Hcells). f_equal.
    apply packet_ext; [exact Hlen1 | exact Hlen2 |].
    intros i Hi.
    destruct (Z.eq_dec i 0) as [-> | Hi0]; [congruence |].
    destruct (Z.eq_dec i 15) as [-> | Hi15]; [congruence |].
    destruct (Z.le_gt_cases 16 i) as [Hhigh | Hlow].
    + rewrite Hz1, Hz2 by lia. reflexivity.
    + replace i with ((i - 1) + 1) by lia.
      apply Z.bits_inj'. intros n Hn.
      rewrite Hcol1, Hcol2 by lia.
      destruct (Z.ltb_spec n 8); [| reflexivity].
      cbn [andb]. apply Hcells; lia.
Qed.

Lemma X8_witness :
  engineState newGame
  /\ engineState (set_needFilling [mkVec 1 1] newGame)
  /\ buildPacket newGame = buildPacket (set_needFilling [mkVec 1 1] newGame).
Proof.
  assert (H1 : engineState newGame).
  { unfold engineState, isByte. simpl. repeat split; lia. }
  assert (H2 : engineState (set_needFilling [mkVec 1 1] newGame)).
  { unfold engineState, isByte. simpl. repeat split; lia. }
  split; [exact H1 |]. split; [exact H2 |].
  apply (X8_frame_shows_the_board _ _ H1 H2).
  repeat split; reflexivity.
Defined.

(** ** The frame loop, branch by branch *)

Lemma sameCore_refl (t : Tetris) : sameCore t t.
Proof. unfold sameCore. repeat split; reflexivity. Qed.

Lemma sameCore_trans (t1 t2 t3 : Tetris) :
  sameCore t1 t2 -> sameCore t2 t3 -> sameCore t1 t3.
Proof.
  unfold sameCore.
  intros (A1 & A2 & A3 & A4 & A5 & A6 & A7) (B1 & B2 & B3 & B4 & B5 & B6 & B7).
  repeat split; congruence.
Qed.

Lemma sameEngine_refl (g : Game) : sameEngine g g.
Proof. unfold sameEngine. repeat split; reflexivity. Qed.

Lemma sameEngine_trans (g1 g2 g3 : Game) :
  sameEngine g1 g2 -> sameEngine g2 g3 -> sameEngine g1 g3.
Proof.
  unfold sameEngine.
  intros (A1 & A2 & A3 & A4 & A5 & A6 & A7) (B1 & B2 & B3 & B4 & B5 & B6 & B7).
  repeat split; congruence.
Qed.

Lemma writeElectrode_sameEngine (r c : Z) (v : bool) (g g' : Game)
    (ev : list Event) :
  writeElectrode r c v g = Some (tt, g', ev) ->
  sameEngine g g' /\ ev = [] /\ lastFrame g' = lastFrame g.
Proof.
  unfold writeElectrode. destruct (setCell (electrodes g) r c v);
    [| discriminate].
  intros H. injection H as <- <-.
  split; [unfold sameEngine; repeat split; reflexivity |].
  split; reflexivity.
Qed.

(** [render] redraws the two matrices and nothing else. *)
Lemma render_keeps (t t' : Tetris) :
  render t = Some t' ->
  sameCore t t' /\ sameEngine (base t) (base t')
  /\ lastFrame (base t') = lastFrame (base t).
Proof.
  unfold render.
  destruct (renderBlocks _) as [ge1 |]; [| discriminate].
  destruct (renderPiece _) as [ge2 |]; [| discriminate].
  destruct (transposeElectrodes _) as [m |]; [| discriminate].
  unfold onBase, Game_render, bind, getState.
  cbn [base set_base currentlyMoving set_electrodes].
  change (base (set_gameElectrodes ge2
                  (set_gameElectrodes ge1 (clearGameElectrodes t))))
    with (base t).
  destruct (currentlyMoving (base t)) as [c |].
  - destruct (writeElectrode (vy c) (vx c) true (set_electrodes m (base t)))
      as [[[[] g1] ev1] |] eqn:E; [| discriminate].
    apply writeElectrode_sameEngine in E. destruct E as (E & _ & El).
    intros H. injection H as <-.
    split; [unfold sameCore; repeat split; reflexivity |].
    split; [exact E | exact El].
  - intros H. injection H as <-.
    split; [unfold sameCore; repeat split; reflexivity |].
    split; [unfold sameEngine; repeat split; reflexivity | reflexivity].
Qed.

Lemma queue_nonempty (q : list Vec) :
  (0 <? Z.of_nat (length q)) = negb (match q with [] => true | _ => false end).
Proof. destruct q; reflexivity. Qed.

(** The three ways a call of [update] can go; in each the call ends by
    transmitting the frame of the state it leaves. *)
Lemma update_cases (current : Z) (next : TetrominoType) (t t' : Tetris)
    (ev : list Event) :
  update current next t = Some (t', ev) ->
  exists p,
    buildPacket (base t') = Some p
    /\ ((elapsed current t = false
         /\ sameCore t t' /\ sameEngine (base t) (base t')
         /\ ev = [Transmit p])
        \/ (elapsed current t = true
            /\ needFilling (base t) <> []
            /\ sameCore t t'
            /\ exists g1 ev1,
                 fillTick (set_lastFrame current (base t)) = Some (tt, g1, ev1)
                 /\ sameEngine g1 (base t')
                 /\ ev = ev1 ++ [Transmit p])
        \/ (elapsed current t = true
            /\ needFilling (base t) = []
            /\ exists t1,
                 tick next (set_base (set_lastFrame current (base t)) t)
                 = Some t1
                 /\ sameCore t1 t' /\ sameEngine (base t1) (base t')
                 /\ ev = [Transmit p])).
Proof.
  unfold update. fold (elapsed current t).
  destruct (elapsed current t) eqn:Hel.
  - rewrite queue_nonempty. cbn [base set_base needFilling set_lastFrame].
    destruct (needFilling (base t)) as [| target rest] eqn:Eq; cbn [negb].
    + (* the game ticks *)
      destruct (tick next (set_base (set_lastFrame current (base t)) t))
        as [t1 |] eqn:Et; [| discriminate].
      destruct (render t1) as [t2 |] eqn:Er; [| discriminate].
      destruct (render_keeps t1 t2 Er) as (Hc & He & Hl).
      unfold onBase, transmit.
      destruct (buildPacket (base t2)) as [p |] eqn:Ep; [| discriminate].
      intros H. injection H as <- <-.
      change (base (set_base (base t2) t2)) with (base t2).
      exists p. split; [exact Ep |].
      right. right. split; [reflexivity |]. split; [reflexivity |].
      exists t1. split; [reflexivity |].
      split; [| split; [exact He | reflexivity]].
      apply (sameCore_trans _ t2); [exact Hc |].
      unfold sameCore; repeat split; reflexivity.
    + (* the queue is served *)
      unfold onBase at 1. cbn [base set_base].
      destruct (fillTick (set_lastFrame current (base t)))
        as [[[[] g1] ev1] |] eqn:Ef; [| discriminate].
      destruct (render (set_base g1 _)) as [t2 |] eqn:Er; [| discriminate].
      destruct (render_keeps _ t2 Er) as (Hc & He & Hl).
      cbn [base set_base] in He, Hl.
      unfold onBase, transmit.
      destruct (buildPacket (base t2)) as [p |] eqn:Ep; [| discriminate].
      intros H. injection H as <- <-.
      change (base (set_base (base t2) t2)) with (base t2).
      exists p. split; [exact Ep |].
      right. left. split; [reflexivity |]. split; [discriminate |].
      split.
      { apply (sameCore_trans _ (set_base g1
                 (set_base (set_lastFrame current (base t)) t)));
          [unfold sameCore; repeat split; reflexivity |].
        apply (sameCore_trans _ t2); [exact Hc |].
        unfold sameCore; repeat split; reflexivity. }
      exists g1, ev1. split; [reflexivity |].
      split; [exact He | reflexivity].
  - destruct (render t) as [t2 |] eqn:Er; [| discriminate].
    destruct (render_keeps t t2 Er) as (Hc & He & Hl).
    unfold onBase, transmit.
    destruct (buildPacket (base t2)) as [p |] eqn:Ep; [| discriminate].
    intros H. injection H as <- <-.
    change (base (set_base (base t2) t2)) with (base t2).
    exists p. split; [exact Ep |].
    left. split; [reflexivity |].
    split; [| split; [exact He | reflexivity]].
    apply (sameCore_trans _ t2); [exact Hc |].
    unfold sameCore; repeat split; reflexivity.
Qed.

(** ** What the frame loop does and does not do *)

(** X9: while cells wait in the fill queue, or when no more than the movement
    interval has passed since the last accepted tick, a call of [update]
    leaves the piece, the static grid, the flags, the pending intents and the
    rotation fields as they are: the game logic waits for the droplets. *)
Theorem X9_update_waits (current : Z) (next : TetrominoType)
    (t t' : Tetris) (ev : list Event) :
  update current next t = Some (t', ev) ->
  needFilling (base t) <> [] \/ elapsed current t = false ->
  sameCore t t'.
Proof.
  intros Hu Hwait.
  destruct (update_cases current next t t' ev Hu) as (p & _ & Hcases).
  destruct Hcases as [(_ & Hc & _) | [(_ & _ & Hc & _) | (Hel & Hq & _)]];
    [exact Hc | exact Hc |].
  destruct Hwait as [Hne | Hno]; [contradiction | congruence].
Qed.

Lemma X9_witness :
  match started PYRAMID with
  | Some t =>
      match update 1000 PYRAMID t with
      | Some (t', _) => needFilling (base t) <> [] /\ sameCore t t'
      | None => False
      end
  | None => False
  end.
Proof.
  destruct (started PYRAMID) as [t |] eqn:E;
    [| vm_compute in E; discriminate].
  assert (Hq : needFilling (base t) <> []).
  { vm_compute in E. injection E as <-. discriminate. }
  destruct (update 1000 PYRAMID t) as [[t' ev] |] eqn:U.
  - split; [exact Hq |].
    exact (X9_update_waits 1000 PYRAMID t t' ev U (or_introl Hq)).
  - vm_compute in E. injection E as <-. vm_compute in U. discriminate.
Defined.

Lemma tick_blocks (next : TetrominoType) (t t' : Tetris) :
  pieceInv t -> tick next t = Some t' ->
  forall r c,
    electrodeActive (currentBlocks t) r c = true ->
    electrodeActive (currentBlocks t') r c = true.
Proof.
  intros Hinv Ht r c Hact. unfold tick in Ht.
  destruct (finished t); [injection Ht as <-; exact Hact |].
  destruct (tickMotion_inv t Hinv) as (t1 & Hm & Hinv1 & _).
  rewrite Hm in Ht.
  destruct (tickMotion_frame t t1 Hm) as (Hcb & _).
  rewrite <- Hcb in Hact. clear Hm Hcb.
  destruct Hinv1 as (Hd & _ & Hb & _).
  unfold tickLanding in Ht.
  destruct (hasLanded t1 _ _) as [[|] |]; try discriminate;
    [| injection Ht as <-; exact Hact].
  destruct (finalizeTetromino_spec (resetRotationState t1))
    as (blocks' & Hfz & _ & Hreads & _);
    [exact (hasDims_rows _ _ _ Hd) | exact Hb |].
  rewrite Hfz in Ht. cbn [currentBlocks set_currentBlocks] in Ht.
  assert (Hnew : electrodeActive blocks' r c = true)
    by (apply Hreads; left; exact Hact).
  destruct (getRow blocks' topLevel) as [row |]; [| discriminate].
  destruct (existsb (fun cell => cell) row);
    cbn [finished set_finished negb] in Ht.
  - injection Ht as <-. exact Hnew.
  - destruct (negb _); injection Ht as <-; exact Hnew.
Qed.

(** X10: the game never removes a landed block: in every state it reaches,
    a cell of the static grid that is occupied before a call of [update] is
    occupied after it (there is no line clearing), and the key handlers do
    not touch the grid. *)
Theorem X10_blocks_are_never_removed (current : Z) (next : TetrominoType)
    (t t' : Tetris) (ev : list Event) :
  reachable t ->
  update current next t = Some (t', ev) ->
  (forall r c,
     electrodeActive (currentBlocks t) r c = true ->
     electrodeActive (currentBlocks t') r c = true)
  /\ (forall d, currentBlocks (setMovement d t) = currentBlocks t)
  /\ currentBlocks (requestRotate t) = currentBlocks t.
Proof.
  intros Hr Hu. split; [| split].
  - destruct (reachable_inv t Hr) as (Hp & _).
    destruct (update_cases current next t t' ev Hu) as (p & _ & Hcases).
    destruct Hcases
      as [(_ & Hc & _) | [(_ & _ & Hc & _) | (_ & _ & t1 & Ht & Hc & _)]].
    + destruct Hc as (_ & -> & _). auto.
    + destruct Hc as (_ & -> & _). auto.
    + destruct Hc as (_ & -> & _). intros r c Hact.
      exact (tick_blocks next
               (set_base (set_lastFrame current (base t)) t) t1 Hp Ht r c Hact).
  - intros d. unfold setMovement. destruct (finished t); reflexivity.
  - reflexivity.
Qed.

Lemma X10_witness :
  match started PYRAMID with
  | Some t =>
      match update 1000 PYRAMID t with
      | Some (t', _) =>
          reachable t
          /\ forall r c,
               electrodeActive (currentBlocks t) r c = true ->
               electrodeActive (currentBlocks t') r c = true
      | None => False
      end
  | None => False
  end.
Proof.
  destruct (started PYRAMID) as [t |] eqn:E;
    [| vm_compute in E; discriminate].
  pose proof (started_reachable PYRAMID t E) as Hr.
  destruct (update 1000 PYRAMID t) as [[t' ev] |] eqn:U.
  - split; [exact Hr |].
    exact (proj1 (X10_blocks_are_never_removed 1000 PYRAMID t t' ev Hr U)).
  - destruct (update_never_throws 1000 PYRAMID t Hr) as (t' & ev & U').
    rewrite U' in U. discriminate.
Defined.

(** X11: game over is final: once the finished flag is set, [setMovement]
    returns the game as it is, and [update] changes neither the piece, the
    static grid, the flags nor the rotation fields, whatever the clock and
    the queue; it still ends by transmitting a frame. *)
Theorem X11_game_over_is_final (current : Z) (next : TetrominoType)
    (t t' : Tetris) (ev : list Event) :
  finished t = true ->
  update current next t = Some (t', ev) ->
  sameCore t t'
  /\ finished t' = true
  /\ (exists p ev1, ev = ev1 ++ [Transmit p])
  /\ forall d, setMovement d t = t.
Proof.
  intros Hfin Hu.
  destruct (update_cases current next t t' ev Hu) as (p & _ & Hcases).
  assert (Hc : sameCore t t' /\ exists ev1, ev = ev1 ++ [Transmit p]).
  { destruct Hcases
      as [(_ & Hc & _ & ->)
         | [(_ & _ & Hc & g1 & ev1 & _ & _ & ->)
           | (_ & _ & t1 & Ht & Hc & _ & ->)]].
    - split; [exact Hc | exists []; reflexivity].
    - split; [exact Hc | exists ev1; reflexivity].
    - split; [| exists []; reflexivity].
      unfold tick in Ht. cbn [finished set_base] in Ht. rewrite Hfin in Ht.
      injection Ht as <-.
      apply (sameCore_trans _ (set_base (set_lastFrame current (base t)) t));
        [unfold sameCore; repeat split; reflexivity | exact Hc]. }
  destruct Hc as (Hc & ev1 & Hev).
  split; [exact Hc |].
  split; [destruct Hc as (_ & _ & -> & _); exact Hfin |].
  split; [exists p, ev1; exact Hev |].
  intros d. unfold setMovement. rewrite Hfin. reflexivity.
Qed.

Lemma X11_witness :
  let t := set_finished true (newTetris PYRAMID) in
  finished t = true
  /\ match update 1000 PYRAMID t with
     | Some (t', _) => sameCore t t' /\ finished t' = true
     | None => False
     end.
Proof.
  cbv zeta. split; [reflexivity |].
  destruct (update 1000 PYRAMID (set_finished true (newTetris PYRAMID)))
    as [[t' ev] |] eqn:U.
  - destruct (X11_game_over_is_final 1000 PYRAMID
                (set_finished true (newTetris PYRAMID)) t' ev eq_refl U)
      as (Hc & Hf & _).
    split; [exact Hc | exact Hf].
  - vm_compute in U. discriminate.
Defined.

(** X12: the frame loop never stops on an exception: from every state the
    game reaches, [update] runs to its end whatever the clock reading and the
    random draw, the last thing it does is to transmit the frame that encodes
    the state it leaves, and that state is again one the game reaches. *)
Theorem X12_update_runs_and_transmits (current : Z) (next : TetrominoType)
    (t : Tetris) :
  reachable t ->
  exists t' ev1 p,
    update current next t = Some (t', ev1 ++ [Transmit p])
    /\ buildPacket (base t') = Some p
    /\ length p = 32%nat
    /\ reachable t'.
Proof.
  intros Hr.
  destruct (update_inv current next t (reachable_inv t Hr))
    as (t' & ev & Hu & Hinv).
  destruct (update_cases current next t t' ev Hu) as (p & Hp & Hcases).
  assert (Hev : exists ev1, ev = ev1 ++ [Transmit p]).
  { destruct Hcases
      as [(_ & _ & _ & ->)
         | [(_ & _ & _ & g1 & ev1 & _ & _ & ->)
           | (_ & _ & t1 & _ & _ & _ & ->)]].
    - exists []. reflexivity.
    - exists ev1. reflexivity.
    - exists []. reflexivity. }
  destruct Hev as (ev1 & ->).
  exists t', ev1, p. split; [exact Hu |]. split; [exact Hp |].
  split; [| exact (reach_update current next t t' _ Hr Hu)].
  destruct Hinv as (_ & (Hrows & _) & _).
  destruct (buildPacket_spec (base t')) as (q & Hq & Hlen & _);
    [rewrite Hrows; lia |].
  rewrite Hq in Hp. injection Hp as <-. exact Hlen.
Qed.

Lemma X12_witness :
  match started PYRAMID with
  | Some t =>
      reachable t
      /\ exists t' ev1 p,
           update 1000 PYRAMID t = Some (t', ev1 ++ [Transmit p])
           /\ length p = 32%nat
  | None => False
  end.
Proof.
  destruct (started PYRAMID) as [t |] eqn:E;
    [| vm_compute in E; discriminate].
  pose proof (started_reachable PYRAMID t E) as Hr.
  split; [exact Hr |].
  destruct (X12_update_runs_and_transmits 1000 PYRAMID t Hr)
    as (t' & ev1 & p & Hu & _ & Hlen & _).
  exists t', ev1, p. split; [exact Hu | exact Hlen].
Defined.

(** ** A fill tick, case by case *)

Lemma byte_of_nibbles (b : Z) :
  isByte b -> b = 16 * highNibble b + lowNibble b.
Proof.
  unfold isByte, highNibble, lowNibble. intros Hb.
  rewrite (Z.mod_small (b / 16) 16)
    by (split; [apply Z.div_pos; lia | apply Z.div_lt_upper_bound; lia]).
  apply Z.div_mod. lia.
Qed.

Lemma findPath_same (c : Vec) : findPath c c = [].
Proof.
  unfold findPath. destruct c as [x y]. cbn [vx vy].
  apply findPath_loop_done. apply notArrived_false. reflexivity.
Qed.

Lemma findPath_first (c e : Vec) :
  c <> e ->
  findPath c e = advance c e :: findPath (advance c e) e.
Proof.
  intros Hne. unfold findPath.
  assert (Hc : mkVec (vx c) (vy c) = c) by (destruct c; reflexivity).
  assert (Ha : mkVec (vx (advance c e)) (vy (advance c e)) = advance c e)
    by (destruct (advance c e); reflexivity).
  rewrite Hc, Ha. apply findPath_loop_step.
  destruct (notArrived c e) eqn:E; [reflexivity |].
  apply notArrived_false in E. contradiction.
Qed.

Lemma arrived_test (n e : Vec) :
  (vx n =? vx e) && (vy n =? vy e) = negb (notArrived n e).
Proof.
  unfold notArrived.
  destruct (vx n =? vx e), (vy n =? vy e); reflexivity.
Qed.

(** The droplet in transit sits on the cell to fill: nothing happens. *)
Lemma fillTick_stall (g : Game) (target : Vec) (rest : list Vec) :
  needFilling g = target :: rest ->
  currentlyMoving g = Some target ->
  fillTick g = Some (tt, g, []).
Proof.
  intros Hq Hm. unfold fillTick, bind, getState.
  rewrite Hq, Hm, findPath_same. reflexivity.
Qed.

(** The droplet in transit moves one cell. *)
Lemma fillTick_move (g : Game) (target c : Vec) (rest : list Vec) :
  engineInv g ->
  needFilling g = target :: rest ->
  currentlyMoving g = Some c ->
  c <> target ->
  exists m,
    length m = 8%nat
    /\ fillTick g
       = Some (tt,
               mkGame m
                 (if notArrived (advance c target) target
                  then target :: rest else rest)
                 (if notArrived (advance c target) target
                  then Some (advance c target) else None)
                 (availableReservoirs g) (specialElectrodesLeft g)
                 (specialElectrodesRight g) (lastFrame g) (movementDelay g)
                 (cleanupDelay g),
               []).
Proof.
  intros (Hrows & Hq & Hm) Eq Em Hne.
  assert (Htarget : inGame target)
    by (rewrite Eq in Hq; inversion Hq; assumption).
  specialize (Hm c Em).
  pose proof (advance_inGame c target Hm Htarget) as Hnext.
  unfold fillTick, bind, getState. rewrite Eq, Em.
  rewrite (findPath_first c target Hne).
  set (n := advance c target) in *.
  assert (Hn : 0 <= vy n < 8 /\ 0 <= vx n)
    by (destruct Hnext as [Hx Hy]; change (vy gameSize) with 8 in Hy; lia).
  assert (Hmv : 0 <= vy c < 8 /\ 0 <= vx c)
    by (destruct Hm as [Hx Hy]; change (vy gameSize) with 8 in Hy; lia).
  destruct (writeElectrode_ok (vy n) (vx n) true g Hrows)
    as (m1 & -> & Hlen1); [apply Hn | apply Hn |].
  destruct (writeElectrode_ok (vy c) (vx c) false (set_electrodes m1 g))
    as (m2 & -> & Hlen2); [exact Hlen1 | apply Hmv | apply Hmv |].
  exists m2. split; [exact Hlen2 |].
  unfold modify. rewrite arrived_test.
  destruct (notArrived n target);
    unfold set_currentlyMoving, set_needFilling, set_electrodes; cbn;
    rewrite ?Eq; reflexivity.
Qed.

(** No droplet is in transit: one is dispensed from the closest reservoir. *)
Lemma fillTick_dispense (g : Game) (target : Vec) (rest : list Vec)
    (r : Reservoir) :
  needFilling g = target :: rest ->
  currentlyMoving g = None ->
  fst (findClosest target (availableReservoirs g)) = Some r ->
  fillTick g
  = match dispense r g with
    | Some (loc, g1, ev) => Some (tt, set_currentlyMoving (Some loc) g1, ev)
    | None => None
    end.
Proof.
  intros Eq Em Hr. unfold fillTick, bind, getState, modify.
  rewrite Eq, Em, Hr.
  destruct (dispense r g) as [[[loc g1] ev] |]; [| reflexivity].
  rewrite app_nil_r. reflexivity.
Qed.

Lemma fillTick_idle (g g' : Game) (ev : list Event) :
  length (electrodes g) = 8%nat ->
  fillTick g = Some (tt, g', ev) ->
  specialElectrodesLeft g = 24 -> specialElectrodesRight g = 24 ->
  specialElectrodesLeft g' = 24 /\ specialElectrodesRight g' = 24.
Proof.
  intros Hrows Hf Hl Hr. unfold fillTick, bind, getState in Hf.
  destruct (needFilling g) as [| target rest];
    [injection Hf as <- _; split; assumption |].
  destruct (currentlyMoving g) as [moving |].
  - destruct (findPath moving target) as [| nextStep path];
      [injection Hf as <- _; split; assumption |].
    destruct (writeElectrode (vy nextStep) (vx nextStep) true g)
      as [[[[] g1] ev1] |] eqn:E1; [| discriminate].
    destruct (writeElectrode (vy moving) (vx moving) false g1)
      as [[[[] g2] ev2] |] eqn:E2; [| discriminate].
    apply writeElectrode_sameBytes in E1, E2.
    destruct (sameBytes_trans _ _ _ E1 E2) as [Bl Br].
    unfold modify in Hf.
    destruct ((vx nextStep =? vx target) && (vy nextStep =? vy target));
      injection Hf as <- _;
      cbn [specialElectrodesLeft specialElectrodesRight set_currentlyMoving
           set_needFilling];
      split; congruence.
  - destruct (fst (findClosest target (availableReservoirs g)))
      as [closest |]; [| injection Hf as <- _; split; assumption].
    destruct (dispense_spec closest g)
      as (g1 & first & frames & last & Hd & _ & _ & _ & _ & _ & _
          & _ & Hnib & Hown & Hkept); [exact Hrows |].
    rewrite Hd in Hf. unfold modify in Hf. injection Hf as <- _.
    destruct Hkept as (Hoth & Hopp & _).
    cbn [specialElectrodesLeft specialElectrodesRight set_currentlyMoving].
    pose proof (byte_of_nibbles _ Hown) as Hbyte.
    destruct closest;
      cbn [ownByte oppositeByte otherNibble reservoirNibble] in *;
      rewrite Hopp, Hbyte, Hnib, Hoth, ?Hl, ?Hr; split; reflexivity.
Qed.

(** X13: in every state the game reaches both special-electrode bytes hold
    the idle pattern 0b00011000 (24): outside a dispense sequence electrode 0
    of each of the four reservoirs is on and nothing else, so bytes 0 and 15
    of every frame encoded from such a state are 24. *)
Theorem X13_reservoirs_idle_between_frames (t : Tetris) :
  reachable t ->
  specialElectrodesLeft (base t) = 24
  /\ specialElectrodesRight (base t) = 24
  /\ exists p,
       buildPacket (base t) = Some p
       /\ packetByte p 0 = 24 /\ packetByte p 15 = 24.
Proof.
  intros H.
  assert (Hb : specialElectrodesLeft (base t) = 24
               /\ specialElectrodesRight (base t) = 24).
  { induction H as [first speed t ev Hinit
                   | current next t t' ev Hreach IH Hupd
                   | d t Hreach IH
                   | t Hreach IH].
    - unfold init, onBase, clear, bind, modify, transmit in Hinit.
      cbn [base set_base] in Hinit.
      destruct (buildPacket _); [| discriminate].
      injection Hinit as <- _. split; reflexivity.
    - destruct IH as [Hl Hr].
      destruct (reachable_inv t Hreach) as (_ & (Hrows & _) & _).
      destruct (update_cases current next t t' ev Hupd) as (p & _ & Hcases).
      destruct Hcases
        as [(_ & _ & He & _)
           | [(_ & _ & _ & g1 & ev1 & Hf & He & _)
             | (_ & _ & t1 & Ht & _ & He & _)]].
      + destruct He as (_ & _ & _ & El & Er & _). split; congruence.
      + destruct (fillTick_idle (set_lastFrame current (base t)) g1 ev1
                    Hrows Hf Hl Hr) as [Hl1 Hr1].
        destruct He as (_ & _ & _ & El & Er & _). split; congruence.
      + apply tick_sameBytes in Ht. destruct Ht as [Tl Tr].
        cbn [base set_base specialElectrodesLeft specialElectrodesRight
             set_lastFrame] in Tl, Tr.
        destruct He as (_ & _ & _ & El & Er & _). split; congruence.
    - unfold setMovement. destruct (finished t); exact IH.
    - exact IH. }
  destruct Hb as [Hl Hr]. split; [exact Hl |]. split; [exact Hr |].
  destruct (reachable_inv t H) as (_ & (Hrows & _) & _).
  destruct (buildPacket_spec (base t)) as (p & Hp & _ & H0 & H15 & _);
    [rewrite Hrows; lia |].
  exists p. split; [exact Hp |].
  rewrite H0, H15, Hl, Hr. split; reflexivity.
Qed.

Lemma X13_witness :
  match started PYRAMID with
  | Some t =>
      reachable t
      /\ specialElectrodesLeft (base t) = 24
      /\ specialElectrodesRight (base t) = 24
  | None => False
  end.
Proof.
  destruct (started PYRAMID) as [t |] eqn:E;
    [| vm_compute in E; discriminate].
  pose proof (started_reachable PYRAMID t E) as Hr.
  split; [exact Hr |].
  destruct (X13_reservoirs_idle_between_frames t Hr) as (Hl & Hrt & _).
  split; [exact Hl | exact Hrt].
Defined.

(** ** The way of a droplet *)

Lemma manhattan_zero (c e : Vec) : manhattan c e = 0 <-> c = e.
Proof.
  unfold manhattan. destruct c as [cx cy], e as [ex ey]. cbn [vx vy]. split.
  - intros H. f_equal; lia.
  - intros H. injection H as -> ->. lia.
Qed.

Lemma notArrived_far (c e : Vec) :
  0 < manhattan c e -> notArrived c e = true.
Proof.
  intros H. destruct (notArrived c e) eqn:E; [reflexivity |].
  apply notArrived_false in E. apply manhattan_zero in E. lia.
Qed.

Lemma fillTick_engineInv (g g' : Game) (ev : list Event) :
  engineInv g -> fillTick g = Some (tt, g', ev) -> engineInv g'.
Proof.
  intros Hinv Hf.
  destruct (fillTick_inv g Hinv) as (g1 & ev1 & Hf1 & Hinv1).
  rewrite Hf in Hf1. injection Hf1 as <- _. exact Hinv1.
Qed.

Lemma fillTicks_next (k : nat) (g g1 : Game) (ev1 : list Event) :
  fillTick g = Some (tt, g1, ev1) ->
  fillTicks (S k) g
  = match fillTicks k g1 with
    | Some (g2, ev2) => Some (g2, ev1 ++ ev2)
    | None => None
    end.
Proof. intros H. cbn [fillTicks]. rewrite H. reflexivity. Qed.

(** The walk of a droplet that is [S d] steps from the cell to fill. *)
Lemma fill_walk (target : Vec) (rest : list Vec) (d : nat) :
  forall (g : Game) (c : Vec),
    engineInv g ->
    needFilling g = target :: rest ->
    currentlyMoving g = Some c ->
    manhattan c target = Z.of_nat (S d) ->
    (forall k, (k <= d)%nat ->
       exists gk ck,
         fillTicks k g = Some (gk, [])
         /\ nth_error (c :: findPath c target) k = Some ck
         /\ currentlyMoving gk = Some ck
         /\ needFilling gk = target :: rest)
    /\ exists g',
         fillTicks (S d) g = Some (g', [])
         /\ needFilling g' = rest
         /\ currentlyMoving g' = None
         /\ sameBytes g g'
         /\ engineInv g'.
Proof.
  induction d as [| d IH]; intros g c Hinv Hq Hm Hd.
  - assert (Hne : c <> target)
      by (intros ->; rewrite (proj2 (manhattan_zero target target) eq_refl)
            in Hd; lia).
    destruct (fillTick_move g target c rest Hinv Hq Hm Hne) as (m & Hlen & Hf).
    pose proof (fillTick_engineInv _ _ _ Hinv Hf) as Hinv1.
    assert (Harr : notArrived (advance c target) target = false).
    { apply notArrived_false. apply manhattan_zero.
      destruct (advance_closer c target) as [Hcl _];
        [apply notArrived_far; lia | lia]. }
    rewrite Harr in Hf, Hinv1. split.
    + intros k Hk. assert (k = 0%nat) by lia. subst k.
      exists g, c. repeat split; [exact Hm | exact Hq].
    + eexists. split; [rewrite (fillTicks_next _ _ _ _ Hf); reflexivity |].
      split; [reflexivity |]. split; [reflexivity |].
      split; [split; reflexivity | exact Hinv1].
  - assert (Hne : c <> target)
      by (intros ->; rewrite (proj2 (manhattan_zero target target) eq_refl)
            in Hd; lia).
    destruct (fillTick_move g target c rest Hinv Hq Hm Hne) as (m & Hlen & Hf).
    pose proof (fillTick_engineInv _ _ _ Hinv Hf) as Hinv1.
    destruct (advance_closer c target) as [Hcl _];
      [apply notArrived_far; lia |].
    assert (Hfar : notArrived (advance c target) target = true)
      by (apply notArrived_far; lia).
    rewrite Hfar in Hf, Hinv1.
    match type of Hf with
    | fillTick g = Some (tt, ?e, []) => set (g1 := e) in *
    end.
    destruct (IH g1 (advance c target) Hinv1 eq_refl eq_refl)
      as (Hbefore & g' & Hrun & Hq' & Hm' & Hb' & Hinv');
      [lia |].
    split.
    + intros [| k] Hk.
      * exists g, c. repeat split; [exact Hm | exact Hq].
      * destruct (Hbefore k) as (gk & ck & Hrunk & Hnth & Hmk & Hqk); [lia |].
        exists gk, ck.
        split; [rewrite (fillTicks_next _ _ _ _ Hf), Hrunk; reflexivity |].
        split; [| split; assumption].
        rewrite (findPath_first c target Hne). exact Hnth.
    + exists g'.
      split; [rewrite (fillTicks_next _ _ _ _ Hf), Hrun; reflexivity |].
      split; [exact Hq' |]. split; [exact Hm' |]. split; [| exact Hinv'].
      destruct Hb' as [Bl Br]. split; [exact Bl | exact Br].
Qed.

(** X14: a droplet in transit reaches the cell at the head of the fill
    queue: with the droplet on a cell [c] other than that cell, each fill
    tick moves it to the next cell of [findPath(c, target)], the queue
    unchanged and nothing transmitted, and the tick that brings it onto the
    target - the one whose number is the Manhattan distance - removes the
    cell from the queue and clears the droplet; the special bytes are those
    of the start. *)
Theorem X14_droplet_reaches_its_cell (g : Game) (target c : Vec)
    (rest : list Vec) :
  engineInv g ->
  needFilling g = target :: rest ->
  currentlyMoving g = Some c ->
  c <> target ->
  (forall k, (k < Z.to_nat (manhattan c target))%nat ->
     exists gk ck,
       fillTicks k g = Some (gk, [])
       /\ nth_error (c :: findPath c target) k = Some ck
       /\ currentlyMoving gk = Some ck
       /\ needFilling gk = target :: rest)
  /\ exists g',
       fillTicks (Z.to_nat (manhattan c target)) g = Some (g', [])
       /\ needFilling g' = rest
       /\ currentlyMoving g' = None
       /\ sameBytes g g'.
Proof.
  intros Hinv Hq Hm Hne.
  assert (Hpos : 0 < manhattan c target).
  { assert (manhattan c target <> 0)
      by (intros H0; apply manhattan_zero in H0; contradiction).
    unfold manhattan in *. lia. }
  destruct (Z.to_nat (manhattan c target)) as [| d] eqn:Ed; [lia |].
  destruct (fill_walk target rest d g c Hinv Hq Hm) as (Hbefore & Hlast);
    [lia |].
  split.
  - intros k Hk. apply Hbefore. lia.
  - destruct Hlast as (g' & Hrun & Hq' & Hm' & Hb' & _).
    exists g'. repeat split; try assumption; apply Hb'.
Qed.

Lemma X14_witness :
  let g := set_currentlyMoving (Some (mkVec 0 1))
             (set_needFilling [mkVec 2 3] newGame) in
  engineInv g
  /\ exists g',
       fillTicks 4 g = Some (g', [])
       /\ needFilling g' = []
       /\ currentlyMoving g' = None.
Proof.
  cbv zeta.
  assert (Hinv : engineInv
                   (set_currentlyMoving (Some (mkVec 0 1))
                      (set_needFilling [mkVec 2 3] newGame))).
  { split; [reflexivity |]. split.
    - constructor; [| constructor]. unfold inGame. cbn. lia.
    - intros c Hc. injection Hc as <-. unfold inGame. cbn. lia. }
  split; [exact Hinv |].
  destruct (X14_droplet_reaches_its_cell _ (mkVec 2 3) (mkVec 0 1) []
              Hinv eq_refl eq_refl ltac:(discriminate))
    as (_ & g' & Hrun & Hq & Hm & _).
  exists g'. split; [exact Hrun |]. split; [exact Hq | exact Hm].
Defined.

(** X15: a droplet that sits on the cell at the head of the fill queue is
    never delivered: [findPath] returns the empty path, [fillTick] returns
    at its "no path" branch, and any number of fill ticks leaves the engine
    state as it is and transmits nothing; the cell stays in the queue. *)
Theorem X15_droplet_on_target_stalls (g : Game) (target : Vec)
    (rest : list Vec) (n : nat) :
  needFilling g = target :: rest ->
  currentlyMoving g = Some target ->
  fillTick g = Some (tt, g, []) /\ fillTicks n g = Some (g, []).
Proof.
  intros Hq Hm.
  pose proof (fillTick_stall g target rest Hq Hm) as Hf.
  split; [exact Hf |].
  induction n as [| n IH]; [reflexivity |].
  rewrite (fillTicks_next _ _ _ _ Hf), IH. reflexivity.
Qed.

Lemma X15_witness :
  let g := set_currentlyMoving (Some (mkVec 0 1))
             (set_needFilling [mkVec 0 1; mkVec 2 3] newGame) in
  needFilling g = [mkVec 0 1; mkVec 2 3]
  /\ currentlyMoving g = Some (mkVec 0 1)
  /\ fillTicks 5 g = Some (g, []).
Proof.
  cbv zeta. split; [reflexivity |]. split; [reflexivity |].
  exact (proj2 (X15_droplet_on_target_stalls
                  (set_currentlyMoving (Some (mkVec 0 1))
                     (set_needFilling [mkVec 0 1; mkVec 2 3] newGame))
                  (mkVec 0 1) [mkVec 2 3] 5 eq_refl eq_refl)).
Defined.

(** ** What is put in the fill queue *)

Lemma catSomes_app {A : Type} (l1 l2 : list (option A)) :
  catSomes (l1 ++ l2) = catSomes l1 ++ catSomes l2.
Proof.
  induction l1 as [| [a |] l1 IH]; simpl; [reflexivity | | exact IH].
  rewrite IH. reflexivity.
Qed.

Lemma catSomes_none {A : Type} (l : list (option A)) :
  existsb isSome l = false -> catSomes l = [].
Proof.
  induction l as [| [a |] l IH]; simpl; [reflexivity | discriminate | exact IH].
Qed.

Lemma catSomes_cells {A : Type} (f : nat * bool -> A) (l : list (nat * bool)) :
  catSomes (map (fun xc => if (snd xc : bool) then Some (f xc) else None) l)
  = flat_map (fun xc => if (snd xc : bool) then [f xc] else []) l.
Proof.
  induction l as [| [x [|]] l IH]; simpl; [reflexivity | | exact IH].
  rewrite IH. reflexivity.
Qed.

Lemma map_flat_cells {A B C : Type} (G : B -> C) (h : A -> list B)
    (l : list A) :
  map G (flat_map h l) = flat_map (fun a => map G (h a)) l.
Proof.
  induction l as [| a l IH]; simpl; [reflexivity |].
  rewrite map_app, IH. reflexivity.
Qed.

Lemma catSomes_rows {A : Type} (rows : list (list (option A))) :
  catSomes (concat (filter (existsb isSome) rows))
  = flat_map (fun row => catSomes row) rows.
Proof.
  induction rows as [| row rows IH]; simpl; [reflexivity |].
  destruct (existsb isSome row) eqn:E; simpl.
  - rewrite catSomes_app, IH. reflexivity.
  - rewrite (catSomes_none row E), IH. reflexivity.
Qed.

(** The cells [primeDroppingTetro] appends: those of the piece, row by row,
    in the coordinates of the electrode matrix. *)
Lemma primeDroppingTetro_queue (t : Tetris) :
  needFilling (base (primeDroppingTetro t))
  = needFilling (base t)
    ++ map (queuedCell (pos (droppingTetro t)))
           (occupiedCells (shape (droppingTetro t))).
Proof.
  unfold primeDroppingTetro. cbn [base set_base needFilling set_needFilling].
  f_equal. rewrite catSomes_rows. unfold occupiedCells.
  rewrite map_flat_cells, flat_map_concat_map, map_map.
  rewrite <- flat_map_concat_map.
  apply flat_map_ext. intros [y row]. cbn [fst snd].
  rewrite catSomes_cells, map_flat_cells.
  apply flat_map_ext. intros [x [|]]; reflexivity.
Qed.

Lemma primeDroppingTetro_keeps (t : Tetris) :
  sameCore t (primeDroppingTetro t)
  /\ gameElectrodes (primeDroppingTetro t) = gameElectrodes t
  /\ electrodes (base (primeDroppingTetro t)) = electrodes (base t)
  /\ currentlyMoving (base (primeDroppingTetro t)) = currentlyMoving (base t)
  /\ availableReservoirs (base (primeDroppingTetro t))
     = availableReservoirs (base t)
  /\ sameBytes (base t) (base (primeDroppingTetro t))
  /\ lastFrame (base (primeDroppingTetro t)) = lastFrame (base t).
Proof.
  unfold primeDroppingTetro, sameCore, sameBytes. cbn. repeat split.
Qed.

Lemma queuedCell_inGame (p c : Vec) :
  inPlayfield (vx p + vx c) (vy p + vy c) -> inGame (queuedCell p c).
Proof. apply gameCoord_inGame. Qed.

(** X16: [primeDroppingTetro] appends to the fill queue, after what already
    waits there, the occupied cells of the dropping piece in reading order
    (row by row, left to right), each turned into the coordinates of the
    electrode matrix by [tetrisCoordToGameCoord]; it changes nothing else of
    the game (the engine is the old one with the new queue, the game matrix
    and every field of the game logic are kept); a piece inside the playable
    grid queues cells of the electrode matrix only, and a catalog shape
    queues four cells. *)
Theorem X16_primeDroppingTetro_queues_the_piece (t : Tetris) :
  let p := droppingTetro t in
  needFilling (base (primeDroppingTetro t))
  = needFilling (base t) ++ map (queuedCell (pos p)) (occupiedCells (shape p))
  /\ sameCore t (primeDroppingTetro t)
  /\ currentlyMoving (base (primeDroppingTetro t)) = currentlyMoving (base t)
  /\ electrodes (base (primeDroppingTetro t)) = electrodes (base t)
  /\ (inBounds (pos p) (shape p) ->
      Forall inGame (map (queuedCell (pos p)) (occupiedCells (shape p))))
  /\ (forall ty, shape p = tetrominoShapes ty ->
      length (occupiedCells (shape p)) = 4%nat)
  /\ gameElectrodes (primeDroppingTetro t) = gameElectrodes t
  /\ base (primeDroppingTetro t)
     = set_needFilling
         (needFilling (base t)
          ++ map (queuedCell (pos p)) (occupiedCells (shape p)))
         (base t).
Proof.
  cbv zeta. split; [apply primeDroppingTetro_queue |].
  destruct (primeDroppingTetro_keeps t) as (Hc & _ & He & Hm & _).
  split; [exact Hc |]. split; [exact Hm |]. split; [exact He |]. split.
  { intros Hb. apply inBounds_cells in Hb. rewrite Forall_map.
    eapply Forall_impl; [| exact Hb].
    intros c Hc'. apply queuedCell_inGame. exact Hc'. }
  split; [intros ty ->; destruct ty; reflexivity |].
  split; [reflexivity |].
  rewrite <- (primeDroppingTetro_queue t). reflexivity.
Qed.

(** ** The fill makes progress *)

Lemma queued_off_column0 (p : Vec) (s : Shape) :
  1 <= vy p ->
  Forall (fun q => 1 <= vx q) (map (queuedCell p) (occupiedCells s)).
Proof.
  intros Hp. rewrite Forall_map, Forall_forall. intros c Hin.
  apply In_occupiedCells in Hin. destruct Hin as (x & y & -> & _).
  unfold queuedCell, tetrisCoordToGameCoord. cbn [vx vy]. lia.
Qed.

(** What a tick does to the engine: it appends the cells of a new piece to
    the queue, or nothing. *)
Lemma tick_queue (next : TetrominoType) (t t' : Tetris) :
  tick next t = Some t' ->
  currentlyMoving (base t') = currentlyMoving (base t)
  /\ availableReservoirs (base t') = availableReservoirs (base t)
  /\ exists extra,
       needFilling (base t') = needFilling (base t) ++ extra
       /\ Forall (fun q => 1 <= vx q) extra.
Proof.
  unfold tick. destruct (finished t).
  { intros H. injection H as <-. split; [reflexivity |].
    split; [reflexivity |]. exists []. rewrite app_nil_r.
    split; [reflexivity | constructor]. }
  destruct (tickMotion t) as [t1 |] eqn:Em; [| discriminate].
  destruct (tickMotion_frame t t1 Em) as (_ & _ & Hbase).
  rewrite <- Hbase. clear Em Hbase.
  unfold tickLanding, finalizeTetromino.
  destruct (hasLanded t1 _ _) as [[|] |]; try discriminate.
  2:{ intros H. injection H as <-. split; [reflexivity |].
      split; [reflexivity |]. exists []. rewrite app_nil_r.
      split; [reflexivity | constructor]. }
  destruct (foldM _ _ _) as [blocks |]; [| discriminate].
  cbn [currentBlocks set_currentBlocks].
  destruct (getRow blocks topLevel) as [row |]; [| discriminate].
  destruct (existsb (fun cell => cell) row); cbn [finished set_finished negb].
  - intros H. injection H as <-. split; [reflexivity |].
    split; [reflexivity |]. exists []. rewrite app_nil_r.
    split; [reflexivity | constructor].
  - destruct (negb (finished (set_currentBlocks blocks
                                (resetRotationState t1)))).
    + intros H. injection H as <-.
      rewrite primeDroppingTetro_queue.
      destruct (primeDroppingTetro_keeps
                  (set_droppingTetro (randomTetromino next tetroSpawnPosition)
                     (set_currentBlocks blocks (resetRotationState t1))))
        as (_ & _ & _ & Hm & Ha & _).
      rewrite Hm, Ha. split; [reflexivity |]. split; [reflexivity |].
      eexists. split; [reflexivity |].
      apply queued_off_column0. cbn. lia.
    + intros H. injection H as <-. split; [reflexivity |].
      split; [reflexivity |]. exists []. rewrite app_nil_r.
      split; [reflexivity | constructor].
Qed.

Lemma closest_of_left (target : Vec) :
  exists r,
    fst (findClosest target [TL; BL]) = Some r
    /\ vx (getDispenseLocation r) = 0
    /\ 0 <= vy (getDispenseLocation r) <= 7.
Proof.
  destruct (findClosest_spec target [TL; BL])
    as [[Hnil _] | (before & r & after & Hl & Hres & _)]; [discriminate |].
  exists r. rewrite Hres. split; [reflexivity |].
  assert (Hin : In r [TL; BL]) by (rewrite Hl; apply in_elt).
  destruct Hin as [<- | [<- | []]]; cbn; lia.
Qed.

(** Every fill tick with a cell waiting lowers the work that is left, and
    keeps the invariant of the queue. *)
Lemma fillTick_progress (g g1 : Game) (ev : list Event) :
  engineInv g -> fillInv g -> needFilling g <> [] ->
  fillTick g = Some (tt, g1, ev) ->
  fillInv g1 /\ 0 <= fillWork g1 < fillWork g.
Proof.
  intros Hinv (Hoff & Hav & Hgo) Hne Hf.
  destruct (needFilling g) as [| target rest] eqn:Eq; [contradiction |].
  assert (Htarget : inGame target)
    by (destruct Hinv as (_ & Hq & _); rewrite Eq in Hq; inversion Hq;
        assumption).
  assert (Hoff1 : 1 <= vx target) by (inversion Hoff; assumption).
  assert (Hrest : Forall (fun q => 1 <= vx q) rest)
    by (inversion Hoff; assumption).
  assert (Hw : fillWork g
               = 22 * Z.of_nat (length rest)
                 + match currentlyMoving g with
                   | Some c => manhattan c target
                   | None => 21
                   end)
    by (unfold fillWork; rewrite Eq; reflexivity).
  rewrite Hw. clear Hw.
  destruct (currentlyMoving g) as [c |] eqn:Em.
  - destruct (Hgo c eq_refl) as (target' & rest' & Heq & Hc).
    injection Heq as <- <-.
    destruct (fillTick_move g target c rest Hinv Eq Em Hc) as (m & _ & Hf').
    rewrite Hf in Hf'. injection Hf' as -> _.
    assert (Hfar : notArrived c target = true).
    { destruct (notArrived c target) eqn:E; [reflexivity |].
      apply notArrived_false in E. contradiction. }
    destruct (advance_closer c target Hfar) as [Hcl _].
    assert (Hnn : 0 <= manhattan (advance c target) target)
      by (unfold manhattan; lia).
    destruct (notArrived (advance c target) target) eqn:Earr.
    + split.
      * split; [exact Hoff |]. split; [exact Hav |].
        intros c' Hc'. cbn in Hc'. injection Hc' as <-.
        exists target, rest. split; [reflexivity |].
        intros E. apply notArrived_false in E. congruence.
      * unfold fillWork. cbn [needFilling currentlyMoving]. lia.
    + split.
      * split; [exact Hrest |]. split; [exact Hav |].
        intros c' Hc'. discriminate.
      * unfold fillWork. cbn [needFilling currentlyMoving].
        destruct rest as [| t2 r2]; cbn [length]; lia.
  - destruct (closest_of_left target) as (r & Hr & Hx & Hy).
    rewrite <- Hav in Hr.
    rewrite (fillTick_dispense g target rest r Eq Em Hr) in Hf.
    destruct (dispense_spec r g)
      as (g' & first & frames & last & Hd & _ & _ & _ & _ & _ & _
          & _ & _ & _ & Hkept); [apply Hinv |].
    rewrite Hd in Hf. injection Hf as <- _.
    destruct Hkept as (_ & _ & Hq' & _ & Hav' & _).
    split.
    + split; [cbn; rewrite Hq', Eq; exact Hoff |].
      split; [cbn; rewrite Hav'; exact Hav |].
      intros c' Hc'. cbn in Hc'. injection Hc' as <-.
      exists target, rest. split; [cbn; rewrite Hq'; exact Eq |].
      intros E. rewrite <- E in Hoff1. lia.
    + unfold fillWork. cbn [needFilling currentlyMoving set_currentlyMoving].
      rewrite Hq', Eq. unfold manhattan.
      destruct Htarget as [Tx Ty]. change (vx gameSize) with 14 in Tx.
      change (vy gameSize) with 8 in Ty. lia.
Qed.

Lemma fillInv_same (g g' : Game) :
  sameEngine g g' -> fillInv g -> fillInv g'.
Proof.
  intros (Hq & Hm & Ha & _) (H1 & H2 & H3).
  unfold fillInv. rewrite Hq, Hm, Ha. repeat split; assumption.
Qed.

Lemma fillWork_same (g g' : Game) :
  sameEngine g g' -> fillWork g' = fillWork g.
Proof.
  intros (Hq & Hm & _). unfold fillWork. rewrite Hq, Hm. reflexivity.
Qed.

Lemma reachable_fillInv (t : Tetris) : reachable t -> fillInv (base t).
Proof.
  intros H. induction H as [first speed t ev Hinit
                           | current next t t' ev Hreach IH Hupd
                           | d t Hreach IH
                           | t Hreach IH].
  - unfold init, onBase, clear, bind, modify, transmit in Hinit.
    cbn [base set_base] in Hinit.
    destruct (buildPacket _); [| discriminate].
    injection Hinit as <- _.
    unfold fillInv. rewrite primeDroppingTetro_queue.
    match goal with
    | |- context [primeDroppingTetro ?u] =>
        destruct (primeDroppingTetro_keeps u) as (_ & _ & _ & Hm & Ha & _)
    end.
    rewrite Hm, Ha. split; [| split; [reflexivity | intros c Hc; discriminate]].
    apply queued_off_column0. cbn. lia.
  - destruct (reachable_inv t Hreach) as (_ & He & _).
    destruct (update_cases current next t t' ev Hupd) as (p & _ & Hcases).
    destruct Hcases
      as [(_ & _ & Hs & _)
         | [(_ & Hne & _ & g1 & ev1 & Hf & Hs & _)
           | (_ & Hnil & t1 & Ht & _ & Hs & _)]].
    + exact (fillInv_same _ _ Hs IH).
    + apply (fillInv_same _ _ Hs).
      exact (proj1 (fillTick_progress (set_lastFrame current (base t)) g1 ev1
                      He IH Hne Hf)).
    + apply (fillInv_same _ _ Hs).
      destruct (tick_queue next _ t1 Ht) as (Hm & Ha & extra & Hq & Hoff).
      cbn [base set_base needFilling currentlyMoving availableReservoirs
           set_lastFrame] in Hm, Ha, Hq.
      destruct IH as (_ & Hav & Hgo).
      unfold fillInv. rewrite Hm, Ha, Hq, Hnil. cbn [app].
      split; [exact Hoff |]. split; [exact Hav |].
      intros c Hc. destruct (Hgo c Hc) as (target & rest & Hq' & _).
      congruence.
  - unfold setMovement. destruct (finished t); exact IH.
  - exact IH.
Qed.

(** X17: the filling phase cannot hang.  In every state the game reaches, a
    droplet in transit is not on the cell it goes to, and an accepted tick
    with cells waiting in the queue lowers the work left ([fillWork]: the
    distance the droplet still has to go, 21 for a droplet yet to dispense,
    22 for each cell further back): it dispenses a droplet, moves it one
    cell nearer or delivers it.  So the queue is empty after at most 22
    accepted ticks per waiting cell. *)
Theorem X17_fill_makes_progress (t : Tetris) :
  reachable t ->
  fillInv (base t)
  /\ 0 <= fillWork (base t) <= 22 * Z.of_nat (length (needFilling (base t)))
  /\ forall current next t' ev,
       needFilling (base t) <> [] ->
       elapsed current t = true ->
       update current next t = Some (t', ev) ->
       0 <= fillWork (base t') < fillWork (base t).
Proof.
  intros Hr.
  pose proof (reachable_fillInv t Hr) as Hfi.
  destruct (reachable_inv t Hr) as (_ & He & _).
  split; [exact Hfi |]. split.
  - unfold fillWork. destruct (needFilling (base t)) as [| target rest] eqn:Eq;
      [cbn; lia |].
    destruct (currentlyMoving (base t)) as [c |] eqn:Em;
      [| cbn [length]; lia].
    destruct He as (_ & Hq & Hm). specialize (Hm c Em).
    rewrite Eq in Hq. inversion Hq as [| ? ? Htarget _]. subst.
    destruct Hm as [Cx Cy]. destruct Htarget as [Tx Ty].
    change (vx gameSize) with 14 in *. change (vy gameSize) with 8 in *.
    unfold manhattan. cbn [length]. lia.
  - intros current next t' ev Hne Hel Hu.
    destruct (update_cases current next t t' ev Hu) as (p & _ & Hcases).
    destruct Hcases
      as [(Hno & _) | [(_ & _ & _ & g1 & ev1 & Hf & Hs & _) | (_ & Hnil & _)]];
      [congruence | | contradiction].
    rewrite (fillWork_same _ _ Hs).
    exact (proj2 (fillTick_progress (set_lastFrame current (base t)) g1 ev1
                    He Hfi Hne Hf)).
Qed.

Lemma X17_witness :
  match started PYRAMID with
  | Some t =>
      match update 1000 PYRAMID t with
      | Some (t', _) =>
          reachable t
          /\ needFilling (base t) <> []
          /\ elapsed 1000 t = true
          /\ 0 <= fillWork (base t') < fillWork (base t)
      | None => False
      end
  | None => False
  end.
Proof.
  destruct (started PYRAMID) as [t |] eqn:E;
    [| vm_compute in E; discriminate].
  pose proof (started_reachable PYRAMID t E) as Hr.
  assert (Hq : needFilling (base t) <> [])
    by (vm_compute in E; injection E as <-; discriminate).
  assert (Hel : elapsed 1000 t = true)
    by (vm_compute in E; injection E as <-; reflexivity).
  destruct (update 1000 PYRAMID t) as [[t' ev] |] eqn:U.
  - split; [exact Hr |]. split; [exact Hq |]. split; [exact Hel |].
    destruct (X17_fill_makes_progress t Hr) as (_ & _ & H).
    exact (H 1000 PYRAMID t' ev Hq Hel U).
  - destruct (update_never_throws 1000 PYRAMID t Hr) as (t' & ev & U').
    rewrite U' in U. discriminate.
Defined.

(** ** One tick of motion *)

Lemma isValidMove_fits (t : Tetris) (p : Vec) (s : Shape) :
  Z.of_nat (length (currentBlocks t)) = playHeight ->
  exists b,
    isValidMove t p s = Some b /\ (b = true <-> fits (currentBlocks t) p s).
Proof.
  intros Hrows. unfold isValidMove.
  destruct (isValidMove_scan_spec (currentBlocks t) p (occupiedCells s) Hrows)
    as (b & Hb & Hiff).
  exists b. split; [exact Hb |]. rewrite Hiff. symmetry. apply fits_cells.
Qed.

(** [move], by the answer of [isValidMove]. *)
Lemma move_step (d : Dir) (t : Tetris) :
  Z.of_nat (length (currentBlocks t)) = playHeight ->
  let q := vecAdd (pos (droppingTetro t)) (Directions d) in
  moving (move d t) = DOWN
  /\ shape (droppingTetro (move d t)) = shape (droppingTetro t)
  /\ rotationState (move d t) = rotationState t
  /\ (fits (currentBlocks t) q (shape (droppingTetro t)) ->
      pos (droppingTetro (move d t)) = q)
  /\ (~ fits (currentBlocks t) q (shape (droppingTetro t)) ->
      pos (droppingTetro (move d t)) = pos (droppingTetro t)).
Proof.
  intros Hrows q. unfold move. fold q.
  destruct (isValidMove_fits t q (shape (droppingTetro t)) Hrows)
    as (b & -> & Hiff).
  destruct b; cbn.
  - repeat split; try reflexivity. intros Hno. exfalso. apply Hno.
    apply Hiff. reflexivity.
  - repeat split; try reflexivity. intros Hfit. apply Hiff in Hfit.
    discriminate.
Qed.

Lemma applyRotation_step (t : Tetris) :
  pos (droppingTetro (applyRotation t)) = pos (droppingTetro t)
  /\ moving (applyRotation t) = moving t.
Proof.
  unfold applyRotation. destruct (rotationState t); split; reflexivity.
Qed.

Lemma step_bounds (p : Vec) (d : Dir) :
  let q := vecAdd p (Directions d) in
  vy p <= vy q <= vy p + 1
  /\ vx p - 1 <= vx q <= vx p + 1
  /\ (vx q <> vx p -> vy q = vy p).
Proof. destruct d; cbn; lia. Qed.

(** X18: in one tick the dropping piece moves by at most one cell and never
    up.  With no rotation in progress and none requested, the piece goes one
    cell in the direction [moving] (left, right or down) exactly when it fits
    there, and [moving] is DOWN afterwards, so a sideways step takes the
    place of the fall of that tick; while a rotation is in progress the
    piece stays where it is and the pending direction is kept. *)
Theorem X18_piece_moves_one_cell (t t1 : Tetris) :
  Z.of_nat (length (currentBlocks t)) = playHeight ->
  tickMotion t = Some t1 ->
  let p := pos (droppingTetro t) in
  let p' := pos (droppingTetro t1) in
  let q := vecAdd p (Directions (moving t)) in
  (p' = p \/ (p' = q /\ fits (currentBlocks t) q (shape (droppingTetro t))))
  /\ (vy p <= vy p' <= vy p + 1
      /\ vx p - 1 <= vx p' <= vx p + 1
      /\ (vx p' <> vx p -> vy p' = vy p))
  /\ (aboutRotate t = false -> rotationState t = NotRotating ->
      moving t1 = DOWN
      /\ (fits (currentBlocks t) q (shape (droppingTetro t)) -> p' = q)
      /\ (~ fits (currentBlocks t) q (shape (droppingTetro t)) -> p' = p))
  /\ (rotationState t <> NotRotating -> p' = p /\ moving t1 = moving t).
Proof.
  intros Hrows Hm. cbv zeta.
  set (p := pos (droppingTetro t)).
  set (q := vecAdd p (Directions (moving t))).
  assert (Hcases :
    (pos (droppingTetro t1) = p
     \/ (pos (droppingTetro t1) = q
         /\ fits (currentBlocks t) q (shape (droppingTetro t))))
    /\ (aboutRotate t = false -> rotationState t = NotRotating ->
        moving t1 = DOWN
        /\ (fits (currentBlocks t) q (shape (droppingTetro t)) ->
            pos (droppingTetro t1) = q)
        /\ (~ fits (currentBlocks t) q (shape (droppingTetro t)) ->
            pos (droppingTetro t1) = p))
    /\ (rotationState t <> NotRotating ->
        pos (droppingTetro t1) = p /\ moving t1 = moving t)).
  { unfold tickMotion in Hm.
    destruct (aboutRotate t) eqn:Ea.
    - unfold testRotations in Hm.
      destruct (isValidMove t _ _) as [[|] |]; try discriminate;
        injection Hm as <-.
      + (* the rotation is taken up: the piece stays *)
        cbn. split; [left; reflexivity |].
        split; [discriminate |]. intros _. split; reflexivity.
      + (* the request is dropped *)
        change (rotationState (set_aboutRotate false t))
          with (rotationState t).
        change (moving (set_aboutRotate false t)) with (moving t).
        destruct (rotationState t) eqn:Er; cbn [RotationState_eqb].
        * destruct (move_step (moving t) (set_aboutRotate false t) Hrows)
            as (_ & _ & _ & Hfit & Hno).
          cbn [currentBlocks droppingTetro set_aboutRotate] in Hfit, Hno.
          fold p in Hfit, Hno. fold q in Hfit, Hno.
          split; [| split; [discriminate | intros H; contradiction]].
          destruct (isValidMove_fits t q (shape (droppingTetro t)) Hrows)
            as ([|] & _ & Hiff).
          -- right. split; [apply Hfit | ]; apply Hiff; reflexivity.
          -- left. apply Hno. intros Hf. apply Hiff in Hf. discriminate.
        * destruct (applyRotation_step (set_aboutRotate false t)) as [Hp Hk].
          split; [left; exact Hp |].
          split; [discriminate | intros _; split; [exact Hp | exact Hk]].
        * destruct (applyRotation_step (set_aboutRotate false t)) as [Hp Hk].
          split; [left; exact Hp |].
          split; [discriminate | intros _; split; [exact Hp | exact Hk]].
        * destruct (applyRotation_step (set_aboutRotate false t)) as [Hp Hk].
          split; [left; exact Hp |].
          split; [discriminate | intros _; split; [exact Hp | exact Hk]].
    - injection Hm as <-.
      destruct (rotationState t) eqn:Er; cbn [RotationState_eqb].
      + destruct (move_step (moving t) t Hrows)
          as (Hmv & _ & _ & Hfit & Hno).
        fold p in Hfit, Hno. fold q in Hfit, Hno.
        split; [| split; [| intros H; contradiction]].
        * destruct (isValidMove_fits t q (shape (droppingTetro t)) Hrows)
            as ([|] & _ & Hiff).
          -- right. split; [apply Hfit | ]; apply Hiff; reflexivity.
          -- left. apply Hno. intros Hf. apply Hiff in Hf. discriminate.
        * intros _ _. split; [exact Hmv |]. split; assumption.
      + destruct (applyRotation_step t) as [Hp Hk].
        split; [left; exact Hp |].
        split; [discriminate | intros _; split; [exact Hp | exact Hk]].
      + destruct (applyRotation_step t) as [Hp Hk].
        split; [left; exact Hp |].
        split; [discriminate | intros _; split; [exact Hp | exact Hk]].
      + destruct (applyRotation_step t) as [Hp Hk].
        split; [left; exact Hp |].
        split; [discriminate | intros _; split; [exact Hp | exact Hk]]. }
  destruct Hcases as (Hor & Hplain & Hrot).
  split; [exact Hor |]. split; [| split; assumption].
  destruct Hor as [-> | [-> _]]; [lia |].
  apply step_bounds.
Qed.

Lemma X18_witness :
  let t := setMovement LEFT (newTetris PYRAMID) in
  Z.of_nat (length (currentBlocks t)) = playHeight
  /\ exists t1,
       tickMotion t = Some t1
       /\ pos (droppingTetro t1) = mkVec 1 1
       /\ moving t1 = DOWN.
Proof.
  cbv zeta.
  assert (Hrows : Z.of_nat (length (currentBlocks
                                      (setMovement LEFT (newTetris PYRAMID))))
                  = playHeight) by reflexivity.
  split; [exact Hrows |].
  destruct (tickMotion (setMovement LEFT (newTetris PYRAMID)))
    as [t1 |] eqn:Em; [| vm_compute in Em; discriminate].
  exists t1. split; [reflexivity |].
  destruct (X18_piece_moves_one_cell _ t1 Hrows Em) as (_ & _ & Hplain & _).
  destruct (Hplain eq_refl eq_refl) as (Hmv & Hfit & _).
  split; [| exact Hmv].
  rewrite Hfit; [reflexivity |].
  apply fits_cells. vm_compute.
  repeat constructor; try discriminate.
Defined.

(** ** The piece and the blocks never overlap *)

Lemma usedRow_spec (s : Shape) (y : nat) :
  usedRow s y = true <-> exists x, shapeCell s y x = true.
Proof.
  unfold usedRow, shapeCell. rewrite existsb_exists. split.
  - intros (b & Hin & ->). apply In_nth with (d := false) in Hin.
    destruct Hin as (x & _ & Hx). exists x. exact Hx.
  - intros (x & Hx). exists true. split; [| reflexivity].
    rewrite <- Hx. apply nth_In.
    destruct (Nat.lt_ge_cases x (length (nth y s []))) as [H | H];
      [exact H |].
    rewrite nth_overflow in Hx by exact H. discriminate.
Qed.

Lemma shapeCell_row (s : Shape) (y x : nat) :
  shapeCell s y x = true -> (y < length s)%nat.
Proof.
  unfold shapeCell. intros H.
  destruct (Nat.lt_ge_cases y (length s)) as [Hlt | Hge]; [exact Hlt |].
  rewrite (nth_overflow s [] Hge) in H. destruct x; discriminate.
Qed.

Lemma allShapes_rowsContiguous : forallb rowsContiguous allShapes = true.
Proof. vm_compute. reflexivity. Qed.

(** Between two rows of a shape in play that hold a cell, every row holds
    one. *)
Lemma rows_between (s : Shape) (y1 x1 y2 x2 y : nat) :
  In s allShapes ->
  shapeCell s y1 x1 = true -> shapeCell s y2 x2 = true ->
  (y1 <= y <= y2)%nat ->
  exists x, shapeCell s y x = true.
Proof.
  intros Hin H1 H2 Hy.
  pose proof allShapes_rowsContiguous as Hall.
  rewrite forallb_forall in Hall. specialize (Hall s Hin).
  unfold rowsContiguous in Hall. cbv zeta in Hall.
  pose proof (shapeCell_row s y1 x1 H1) as L1.
  pose proof (shapeCell_row s y2 x2 H2) as L2.
  rewrite forallb_forall in Hall.
  specialize (Hall y1 ltac:(apply in_seq; lia)).
  rewrite forallb_forall in Hall.
  specialize (Hall y2 ltac:(apply in_seq; lia)).
  rewrite forallb_forall in Hall.
  specialize (Hall y ltac:(apply in_seq; lia)).
  apply usedRow_spec.
  assert (U1 : usedRow s y1 = true) by (apply usedRow_spec; eauto).
  assert (U2 : usedRow s y2 = true) by (apply usedRow_spec; eauto).
  rewrite U1, U2 in Hall.
  destruct (Nat.leb_spec y1 y); [| lia].
  destruct (Nat.leb_spec y y2); [| lia].
  exact Hall.
Qed.

Lemma fits_apart (blocks : Matrix) (p : Vec) (s : Shape) :
  fits blocks p s -> apart blocks p s.
Proof.
  intros Hfit r c (x & y & Hc & -> & ->). apply (Hfit x y Hc).
Qed.

Lemma apart_fits (blocks : Matrix) (p : Vec) (s : Shape) :
  inBounds p s -> apart blocks p s -> fits blocks p s.
Proof.
  intros Hb Ha x y Hc. split; [apply Hb; exact Hc |].
  apply Ha. exists x, y. repeat split. exact Hc.
Qed.

Lemma catalog_rows (ty : TetrominoType) (x y : nat) :
  shapeCell (tetrominoShapes ty) y x = true -> (y <= 1)%nat.
Proof.
  intros H.
  assert (Hin : In (mkVec (Z.of_nat x) (Z.of_nat y))
                   (occupiedCells (tetrominoShapes ty)))
    by (apply In_occupiedCells; eauto).
  assert (Hall : Forall (fun c => vy c <= 1)
                        (occupiedCells (tetrominoShapes ty))).
  { destruct ty;
      match goal with
      | |- Forall _ (occupiedCells ?s) =>
          let l := eval vm_compute in (occupiedCells s) in
          change (occupiedCells s) with l
      end;
      repeat constructor; cbn [vy]; lia. }
  rewrite Forall_forall in Hall. specialize (Hall _ Hin). cbn [vy] in Hall.
  lia.
Qed.

Lemma playInv_core (t t' : Tetris) :
  sameCore t t' -> playInv t -> playInv t'.
Proof.
  intros (Hp & Hb & Hf & _ & _ & Hr & Hn). unfold playInv.
  rewrite Hp, Hb, Hf, Hr, Hn. exact (fun H => H).
Qed.

Lemma move_apart (d : Dir) (u : Tetris) :
  Z.of_nat (length (currentBlocks u)) = playHeight ->
  apart (currentBlocks u) (pos (droppingTetro u)) (shape (droppingTetro u)) ->
  apart (currentBlocks u) (pos (droppingTetro (move d u)))
        (shape (droppingTetro (move d u))).
Proof.
  intros Hrows Hap.
  destruct (move_step d u Hrows) as (_ & Hsh & _ & Hfit & Hno).
  rewrite Hsh.
  destruct (isValidMove_fits u (vecAdd (pos (droppingTetro u)) (Directions d))
              (shape (droppingTetro u)) Hrows) as ([|] & _ & Hiff).
  - assert (Hf : fits (currentBlocks u)
                   (vecAdd (pos (droppingTetro u)) (Directions d))
                   (shape (droppingTetro u)))
      by (apply Hiff; reflexivity).
    rewrite (Hfit Hf). apply fits_apart. exact Hf.
  - rewrite Hno; [exact Hap |].
    intros Hf. apply Hiff in Hf. discriminate.
Qed.

Lemma applyRotation_apart (u : Tetris) :
  apart (currentBlocks u) (pos (droppingTetro u)) (shape (droppingTetro u)) ->
  (rotationState u = Coalesce ->
   apart (currentBlocks u) (pos (droppingTetro u)) (newShape u)) ->
  rotationState u <> Starting ->
  apart (currentBlocks u) (pos (droppingTetro (applyRotation u)))
        (shape (droppingTetro (applyRotation u)))
  /\ rotationState (applyRotation u) <> Coalesce.
Proof.
  intros Hap Hco Hst. unfold applyRotation.
  destruct (rotationState u) eqn:Er.
  - rewrite Er. split; [exact Hap | discriminate].
  - contradiction.
  - cbn. split; [apply Hco; reflexivity | discriminate].
  - cbn. split; [exact Hap | discriminate].
Qed.

(** The motion half of a tick keeps the piece off the blocks. *)
Lemma tickMotion_playInv (t t1 : Tetris) :
  pieceInv t -> playInv t -> finished t = false ->
  tickMotion t = Some t1 ->
  playInv t1.
Proof.
  intros (Hd & _ & _ & Hst & _) [_ Hplay] Hfin Hm.
  destruct (Hplay Hfin) as (Htop & Hap & Hco).
  pose proof (hasDims_rows _ _ _ Hd) as Hrows.
  destruct (tickMotion_frame t t1 Hm) as (Hcb & Hf1 & _).
  split; [rewrite Hf1, Hfin; discriminate |]. intros _. rewrite Hcb.
  split; [exact Htop |].
  assert (Hplain : forall u,
            currentBlocks u = currentBlocks t ->
            droppingTetro u = droppingTetro t ->
            rotationState u = rotationState t ->
            newShape u = newShape t ->
            let u1 := if RotationState_eqb (rotationState u) NotRotating
                      then move (moving u) u else applyRotation u in
            apart (currentBlocks t) (pos (droppingTetro u1))
                  (shape (droppingTetro u1))
            /\ (rotationState u1 = Coalesce ->
                apart (currentBlocks t) (pos (droppingTetro u1))
                      (newShape u1))).
  { intros u Hub Hup Hur Hun. cbv zeta.
    assert (Hau : apart (currentBlocks u) (pos (droppingTetro u))
                        (shape (droppingTetro u)))
      by (rewrite Hub, Hup; exact Hap).
    destruct (RotationState_eqb (rotationState u) NotRotating) eqn:Eb.
    - assert (Enr : rotationState u = NotRotating)
        by (destruct (rotationState u); try discriminate; reflexivity).
      pose proof (move_apart (moving u) u
                    ltac:(rewrite Hub; exact Hrows) Hau) as Ha.
      rewrite Hub in Ha. split; [exact Ha |].
      destruct (move_frame (moving u) u) as (_ & _ & _ & Hrs & _).
      rewrite Hrs, Enr. discriminate.
    - destruct (applyRotation_apart u Hau) as [Ha Hn].
      + rewrite Hub, Hup, Hun, Hur. exact Hco.
      + rewrite Hur. exact Hst.
      + rewrite Hub in Ha. split; [exact Ha |].
        intros H. contradiction. }
  unfold tickMotion in Hm. destruct (aboutRotate t).
  - unfold testRotations in Hm.
    destruct (isValidMove_fits t (pos (droppingTetro t))
                (rotate (shape (droppingTetro t)) 1) Hrows)
      as (b & Hv & Hiff).
    rewrite Hv in Hm. destruct b; injection Hm as <-.
    + cbn. split; [exact Hap |]. intros _.
      apply fits_apart. apply Hiff. reflexivity.
    + exact (Hplain (set_aboutRotate false t) eq_refl eq_refl eq_refl
               eq_refl).
  - injection Hm as <-.
    exact (Hplain t eq_refl eq_refl eq_refl eq_refl).
Qed.

(** The landing half of a tick: a block reaching the top level ends the game,
    and a new piece appears on free cells. *)
Lemma tickLanding_playInv (next : TetrominoType) (t t' : Tetris) :
  pieceInv t -> playInv t -> finished t = false ->
  tickLanding next t = Some t' ->
  playInv t'.
Proof.
  intros Hinv [_ Hplay] Hfin Hl. pose proof Hinv as (Hd & Hs & Hb & _).
  pose proof (hasDims_rows _ _ _ Hd) as Hrows.
  destruct (Hplay Hfin) as (Htop & Hap & _).
  unfold tickLanding, hasLanded in Hl.
  destruct (hasLanded_scan_spec (currentBlocks t) (pos (droppingTetro t))
              (occupiedCells (shape (droppingTetro t))) Hrows)
    as (b & Hscan & Hiff).
  { pose proof Hb as Hb'. apply inBounds_cells in Hb'.
    unfold inPlayfield in Hb'.
    eapply Forall_impl; [| exact Hb']. intros c [_ Hy]. lia. }
  rewrite Hscan in Hl. destruct b.
  2:{ injection Hl as <-. split; [rewrite Hfin; discriminate |].
      intros _. exact (Hplay Hfin). }
  set (t2 := resetRotationState t) in *.
  destruct (finalizeTetromino_spec t2) as (blocks' & Hfz & Hlen & Hreads & _);
    [exact Hrows | exact Hb |].
  rewrite Hfz in Hl. cbn [currentBlocks set_currentBlocks] in Hl.
  change (currentBlocks t2) with (currentBlocks t) in Hlen, Hreads.
  change (droppingTetro t2) with (droppingTetro t) in Hreads.
  destruct (getRow_Some blocks' topLevel) as [row Hrow].
  { rewrite Hlen. rewrite playHeight_eq in Hrows. unfold topLevel. lia. }
  rewrite Hrow in Hl.
  assert (Hrow3 : existsb (fun cell => cell) row = true <->
                  exists c, electrodeActive blocks' topLevel c = true).
  { rewrite existsb_row. unfold electrodeActive, getCell. rewrite Hrow.
    reflexivity. }
  destruct (existsb (fun cell => cell) row) eqn:Hex.
  - cbn [finished set_finished negb] in Hl. injection Hl as <-.
    split; [| cbn; discriminate].
    intros _. cbn. apply Hrow3. reflexivity.
  - change (finished (set_currentBlocks blocks' t2)) with (finished t) in Hl.
    rewrite Hfin in Hl. cbn [negb] in Hl. injection Hl as <-.
    apply (playInv_core _ _ (proj1 (primeDroppingTetro_keeps _))).
    assert (Htop' : clearTop blocks').
    { intros r c Hr.
      destruct (electrodeActive blocks' r c) eqn:Hact; [exfalso | reflexivity].
      apply Hreads in Hact. destruct Hact as [Hold | Hcov].
      - rewrite (Htop r c Hr) in Hold. discriminate.
      - destruct Hcov as (x0 & y0 & Hc0 & -> & ->).
        destruct (proj1 Hiff eq_refl) as (c1 & Hin1 & Hland).
        apply In_occupiedCells in Hin1.
        destruct Hin1 as (x1 & y1 & -> & Hc1). cbn [vx vy] in Hland.
        unfold topLevel in Hr.
        assert (H3 : 3 <= vy (pos (droppingTetro t)) + Z.of_nat y1).
        { destruct Hland as [Hg | Hblk];
            [rewrite playHeight_eq in Hg; lia |].
          destruct (Z.le_gt_cases
                      (vy (pos (droppingTetro t)) + Z.of_nat y1 + 1) 3)
            as [Hle | Hgt]; [| lia].
          rewrite (Htop _ _ Hle) in Hblk. discriminate. }
        destruct (rows_between (shape (droppingTetro t)) y0 x0 y1 x1
                    (Z.to_nat (3 - vy (pos (droppingTetro t)))) Hs Hc0 Hc1)
          as (x & Hx); [lia |].
        assert (Hact3 : electrodeActive blocks' topLevel
                          (vx (pos (droppingTetro t)) + Z.of_nat x) = true).
        { apply Hreads. right.
          exists x, (Z.to_nat (3 - vy (pos (droppingTetro t)))).
          split; [exact Hx |]. split; [unfold topLevel; lia | reflexivity]. }
        assert (Hsome : false = true) by (apply Hrow3; eauto).
        discriminate. }
    split; [cbn; rewrite Hfin; discriminate |]. intros _. cbn.
    split; [exact Htop' |]. split; [| discriminate].
    intros r c (x & y & Hc & -> & ->). apply Htop'.
    pose proof (catalog_rows next x y Hc) as Hy.
    change (vy tetroSpawnPosition) with 1. unfold topLevel. lia.
Qed.

Lemma tick_playInv (next : TetrominoType) (t t' : Tetris) :
  pieceInv t -> playInv t -> tick next t = Some t' -> playInv t'.
Proof.
  intros Hinv Hplay Ht. unfold tick in Ht.
  destruct (finished t) eqn:Hfin; [injection Ht as <-; exact Hplay |].
  destruct (tickMotion_inv t Hinv) as (t1 & Hm & Hinv1 & _ & _ & Hf1).
  rewrite Hm in Ht.
  apply (tickLanding_playInv next t1 t' Hinv1); [| congruence | exact Ht].
  exact (tickMotion_playInv t t1 Hinv Hplay Hfin Hm).
Qed.

Lemma newMatrix_off (rows cols r c : Z) :
  electrodeActive (newMatrix rows cols) r c = false.
Proof.
  unfold electrodeActive, getCell.
  destruct (getRow (newMatrix rows cols) r) as [row |] eqn:E;
    [| reflexivity].
  destruct (getRow_inv _ _ _ E) as [_ Hrow].
  apply nth_error_In in Hrow. apply repeat_spec in Hrow. subst row.
  unfold rowGet. destruct (c <? 0); [reflexivity | apply nth_repeat].
Qed.

Lemma reachable_playInv (t : Tetris) : reachable t -> playInv t.
Proof.
  intros H. induction H as [first speed t ev Hinit
                           | current next t t' ev Hreach IH Hupd
                           | d t Hreach IH
                           | t Hreach IH].
  - unfold init, onBase, clear, bind, modify, transmit in Hinit.
    cbn [base set_base] in Hinit.
    destruct (buildPacket _); [| discriminate].
    injection Hinit as <- _.
    apply (playInv_core _ _ (proj1 (primeDroppingTetro_keeps _))).
    split; [cbn; discriminate |]. intros _. cbn.
    split; [intros r c _; exact (newMatrix_off 14 8 r c) |].
    split; [intros r c _; exact (newMatrix_off 14 8 r c) | discriminate].
  - destruct (reachable_inv t Hreach) as (Hp & _).
    destruct (update_cases current next t t' ev Hupd) as (p & _ & Hcases).
    destruct Hcases
      as [(_ & Hc & _) | [(_ & _ & Hc & _) | (_ & _ & t1 & Ht & Hc & _)]].
    + exact (playInv_core _ _ Hc IH).
    + exact (playInv_core _ _ Hc IH).
    + apply (playInv_core _ _ Hc).
      exact (tick_playInv next
               (set_base (set_lastFrame current (base t)) t) t1 Hp IH Ht).
  - unfold setMovement. destruct (finished t); exact IH.
  - exact IH.
Qed.

(** X19: in every state the game reaches, the game is over exactly when a
    block lies in row 3 of the static grid (the top level); while it is not
    over, rows 0 to 3 of the static grid are empty and the dropping piece is
    at a valid position: every cell of it lies in the playable grid and on no
    landed block, which is what [isValidMove] answers for it. *)
Theorem X19_piece_never_overlaps_blocks (t : Tetris) :
  reachable t ->
  (finished t = true <->
   exists c, electrodeActive (currentBlocks t) topLevel c = true)
  /\ (finished t = false ->
      (forall r c, r <= topLevel ->
         electrodeActive (currentBlocks t) r c = false)
      /\ fits (currentBlocks t) (pos (droppingTetro t))
              (shape (droppingTetro t))
      /\ isValidMove t (pos (droppingTetro t)) (shape (droppingTetro t))
         = Some true).
Proof.
  intros Hr.
  destruct (reachable_playInv t Hr) as [Hover Hon].
  destruct (reachable_inv t Hr) as ((Hd & _ & Hb & _) & _).
  pose proof (hasDims_rows _ _ _ Hd) as Hrows.
  split.
  - split; [exact Hover |]. intros (c & Hc).
    destruct (finished t) eqn:Hfin; [reflexivity |].
    destruct (Hon eq_refl) as (Htop & _).
    rewrite (Htop topLevel c ltac:(lia)) in Hc. discriminate.
  - intros Hfin. destruct (Hon Hfin) as (Htop & Hap & _).
    pose proof (apart_fits _ _ _ Hb Hap) as Hfit.
    split; [exact Htop |]. split; [exact Hfit |].
    destruct (isValidMove_fits t (pos (droppingTetro t))
                (shape (droppingTetro t)) Hrows) as (b & Hv & Hiff).
    rewrite Hv. f_equal. apply Hiff. exact Hfit.
Qed.

Lemma X19_witness :
  match started PYRAMID with
  | Some t =>
      reachable t
      /\ finished t = false
      /\ isValidMove t (pos (droppingTetro t)) (shape (droppingTetro t))
         = Some true
  | None => False
  end.
Proof.
  destruct (started PYRAMID) as [t |] eqn:E;
    [| vm_compute in E; discriminate].
  pose proof (started_reachable PYRAMID t E) as Hr.
  assert (Hfin : finished t = false)
    by (vm_compute in E; injection E as <-; reflexivity).
  split; [exact Hr |]. split; [exact Hfin |].
  destruct (X19_piece_never_overlaps_blocks t Hr) as (_ & H).
  exact (proj2 (proj2 (H Hfin))).
Defined.

(** ** What the loops over a matrix leave in it *)

Lemma write_cell (m m' : Matrix) (r0 c0 : Z) (v : bool) :
  setCell m r0 c0 v = Some m' -> 0 <= c0 ->
  forall r c, 0 <= c ->
    ((r = r0 /\ c = c0) -> electrodeActive m' r c = v)
    /\ (~ (r = r0 /\ c = c0) ->
        electrodeActive m' r c = electrodeActive m r c).
Proof.
  intros Hset Hc0 r c Hc.
  rewrite (setCell_reads m m' r0 c0 v Hset Hc0 r c Hc).
  destruct (Z.eqb_spec r r0) as [Hr | Hr];
    destruct (Z.eqb_spec c c0) as [Hcc | Hcc]; cbn [andb];
    split; intros H; try reflexivity; try (destruct H; contradiction);
    exfalso; apply H; split; assumption.
Qed.

(** A loop whose every turn [a] writes the value [val r c] to the cells it
    owns and leaves the others, on matrices that keep [Inv]: afterwards a
    cell some turn owns holds that value, and the others are as before. *)
Lemma foldM_cells {A : Type} (Inv : Matrix -> Prop)
    (f : Matrix -> A -> option Matrix)
    (own : A -> Z -> Z -> Prop) (val : Z -> Z -> bool) (l : list A) :
  (forall a r c, own a r c \/ ~ own a r c) ->
  (forall m m' a, In a l -> Inv m -> f m a = Some m' ->
     Inv m'
     /\ forall r c, 0 <= c ->
          (own a r c -> electrodeActive m' r c = val r c)
          /\ (~ own a r c ->
              electrodeActive m' r c = electrodeActive m r c)) ->
  forall m m', Inv m -> foldM f l m = Some m' ->
  Inv m'
  /\ forall r c, 0 <= c ->
       ((exists a, In a l /\ own a r c) -> electrodeActive m' r c = val r c)
       /\ ((forall a, In a l -> ~ own a r c) ->
           electrodeActive m' r c = electrodeActive m r c).
Proof.
  intros Hdec. induction l as [| a l IH]; intros Hstep m m' Hinv Hf.
  - injection Hf as <-. split; [exact Hinv |]. intros r c Hc.
    split; [intros (a & [] & _) | reflexivity].
  - simpl in Hf. destruct (f m a) as [m1 |] eqn:E1; [| discriminate].
    assert (Hstep' : forall m m' b, In b l -> Inv m -> f m b = Some m' ->
              Inv m'
              /\ forall r c, 0 <= c ->
                   (own b r c -> electrodeActive m' r c = val r c)
                   /\ (~ own b r c ->
                       electrodeActive m' r c = electrodeActive m r c))
      by (intros m0 m0' b Hb; apply Hstep; right; exact Hb).
    destruct (Hstep m m1 a (or_introl eq_refl) Hinv E1) as [Hinv1 Hs].
    destruct (IH Hstep' m1 m' Hinv1 Hf) as [Hinv' IHr].
    split; [exact Hinv' |]. intros r c Hc.
    destruct (IHr r c Hc) as [IHown IHfree].
    destruct (Hs r c Hc) as [Sown Sfree].
    assert (Hl : (exists b, In b l /\ own b r c)
                 \/ (forall b, In b l -> ~ own b r c)).
    { clear -Hdec. induction l as [| b l IHl].
      - right. intros b [].
      - destruct (Hdec b r c) as [Hb | Hb];
          [left; exists b; split; [left; reflexivity | exact Hb] |].
        destruct IHl as [(b' & Hin & Hb') | Hnone].
        + left. exists b'. split; [right; exact Hin | exact Hb'].
        + right. intros b' [<- | Hin]; [exact Hb | apply Hnone; exact Hin]. }
    split.
    + intros (b & [<- | Hin] & Hb).
      * destruct Hl as [Hsome | Hnone]; [apply IHown; exact Hsome |].
        rewrite (IHfree Hnone). apply Sown. exact Hb.
      * apply IHown. exists b. split; assumption.
    + intros Hnone.
      rewrite IHfree by (intros b Hb; apply Hnone; right; exact Hb).
      apply Sfree. apply Hnone. left. reflexivity.
Qed.

Lemma foldM_total {A S : Type} (g : S -> A -> S) (l : list A) (s : S) :
  foldM (fun s a => Some (g s a)) l s = Some (fold_left g l s).
Proof.
  revert s. induction l as [| a l IH]; intros s; [reflexivity |].
  simpl. apply IH.
Qed.

Lemma foldM_throws {A S : Type} (f : S -> A -> option S) (l : list A)
    (a : A) :
  In a l -> (forall s, f s a = None) -> forall s, foldM f l s = None.
Proof.
  intros Hin Hnone. induction l as [| b l IH]; intros s; [destruct Hin |].
  simpl. destruct Hin as [-> | Hin]; [rewrite Hnone; reflexivity |].
  destruct (f s b); [apply IH; exact Hin | reflexivity].
Qed.

Lemma In_range (n x : Z) : In x (range n) <-> 0 <= x < n.
Proof.
  unfold range. rewrite in_map_iff. split.
  - intros (k & <- & Hk). apply in_seq in Hk. lia.
  - intros H. exists (Z.to_nat x). split; [lia |]. apply in_seq. lia.
Qed.

(** ** transposeElectrodes *)

(** The inner loop of [transposeElectrodes], for the row [x] of the game
    matrix. *)
Lemma transpose_row (ge : Matrix) (x : Z) (m m' : Matrix) :
  0 <= x < Z.of_nat (length ge) ->
  foldM (fun transposed y =>
           match getCell ge x y with
           | None => None
           | Some v => setCell transposed (vy gameSize - 1 - y) x v
           end) (range (vy gameSize)) m = Some m' ->
  forall r c, 0 <= c ->
    ((c = x /\ 0 <= r < 8) ->
     electrodeActive m' r c = electrodeActive ge c (7 - r))
    /\ (~ (c = x /\ 0 <= r < 8) ->
        electrodeActive m' r c = electrodeActive m r c).
Proof.
  intros Hx Hf r c Hc.
  change (vy gameSize) with 8 in Hf.
  destruct (foldM_cells (fun _ => True)
              (fun transposed y =>
                 match getCell ge x y with
                 | None => None
                 | Some v => setCell transposed (8 - 1 - y) x v
                 end)
              (fun y r c => r = 7 - y /\ c = x)
              (fun r c => electrodeActive ge c (7 - r))
              (range 8)) with (m := m) (m' := m')
    as [_ Hreads]; try assumption; try lia; try exact I.
  2:{ destruct (Hreads r c Hc) as [Hown Hfree]. split.
      - intros [-> Hr]. apply Hown. exists (7 - r).
        split; [apply In_range; lia | split; [lia | reflexivity]].
      - intros Hn. apply Hfree. intros y Hy [H1 H2].
        apply In_range in Hy. apply Hn. split; [exact H2 | lia]. }
  intros m0 m0' y _ _ Hy. split; [exact I |]. intros r0 c0 Hc0.
  rewrite (getCell_Some ge x y Hx) in Hy.
  destruct (write_cell m0 m0' (8 - 1 - y) x _ Hy ltac:(lia) r0 c0 Hc0)
    as [W1 W2].
  split.
  - intros [-> ->]. rewrite W1 by (split; lia). f_equal. lia.
  - intros Hn. apply W2. intros [H1 H2]. apply Hn. split; lia.
Qed.

Lemma transposeElectrodes_reads (t : Tetris) (m : Matrix) :
  Z.of_nat (length (gameElectrodes t)) = playHeight ->
  transposeElectrodes t = Some m ->
  forall row col, 0 <= row < 14 -> 0 <= col < 8 ->
    electrodeActive m (7 - col) row
    = electrodeActive (gameElectrodes t) row col.
Proof.
  intros Hrows Ht row col Hrow Hcol. unfold transposeElectrodes in Ht.
  rewrite playHeight_eq in Hrows.
  destruct (foldM_cells (fun _ => True)
              (fun transposed x =>
                 foldM (fun transposed y =>
                          match getCell (gameElectrodes t) x y with
                          | None => None
                          | Some v =>
                              setCell transposed (vy gameSize - 1 - y) x v
                          end) (range (vy gameSize)) transposed)
              (fun x r c => c = x /\ 0 <= r < 8)
              (fun r c => electrodeActive (gameElectrodes t) c (7 - r))
              (range (vx gameSize)))
    with (m := newMatrix (vy gameSize) (vx gameSize)) (m' := m)
    as [_ Hreads]; try assumption; try lia; try exact I.
  - intros m0 m0' x Hx _ Hf. split; [exact I |]. intros r c Hc.
    apply In_range in Hx. change (vx gameSize) with 14 in Hx.
    apply (transpose_row (gameElectrodes t) x m0 m0');
      [lia | exact Hf | exact Hc].
  - destruct (Hreads (7 - col) row ltac:(lia)) as [Hown _].
    rewrite Hown.
    + f_equal. lia.
    + exists row. split; [apply In_range; exact Hrow | lia].
Qed.

(** X20: on a game matrix of 14 rows of 8 cells, [transposeElectrodes]
    returns an electrode matrix of 8 rows of 14 cells in which the cell at
    [tetrisCoordToGameCoord] of a playfield cell is what the game matrix
    holds at that cell ([transposed[7 - col][row] = gameElectrodes[row][col]]):
    the transposition for the display and the coordinate map used for the
    fill queue agree.  On a game matrix with fewer than 14 rows it throws. *)
Theorem X20_transposeElectrodes_agrees (t : Tetris) :
  (hasDims (gameElectrodes t) playHeight playWidth ->
   exists m,
     transposeElectrodes t = Some m
     /\ hasDims m playWidth playHeight
     /\ (forall row col, 0 <= row < 14 -> 0 <= col < 8 ->
           electrodeActive m (7 - col) row
           = electrodeActive (gameElectrodes t) row col)
     /\ (forall x y, inPlayfield x y ->
           electrodeActive m (vy (tetrisCoordToGameCoord (mkVec x y)))
                             (vx (tetrisCoordToGameCoord (mkVec x y)))
           = electrodeActive (gameElectrodes t) y x))
  /\ (Z.of_nat (length (gameElectrodes t)) < playHeight ->
      transposeElectrodes t = None).
Proof.
  split.
  - intros Hd. destruct (transposeElectrodes_ok t Hd) as (m & Hm & Hdm).
    exists m. split; [exact Hm |]. split; [exact Hdm |].
    pose proof (transposeElectrodes_reads t m (hasDims_rows _ _ _ Hd) Hm)
      as Hreads.
    split; [exact Hreads |].
    intros x y [Hx Hy]. rewrite playWidth_eq in Hx. rewrite playHeight_eq in Hy.
    unfold tetrisCoordToGameCoord. change (vy gameSize) with 8.
    cbn [vx vy]. replace (8 - 1 - x) with (7 - x) by lia.
    apply Hreads; assumption.
  - rewrite playHeight_eq. intros Hshort. unfold transposeElectrodes.
    apply (foldM_throws _ _ (Z.of_nat (length (gameElectrodes t)))).
    + apply In_range. change (vx gameSize) with 14. lia.
    + intros m. change (range (vy gameSize)) with (0 :: map Z.of_nat (seq 1 7)).
      cbn [foldM]. unfold getCell, getRow.
      destruct (Z.ltb_spec (Z.of_nat (length (gameElectrodes t))) 0); [lia |].
      rewrite Nat2Z.id.
      rewrite (proj2 (nth_error_None _ _) (Nat.le_refl _)). reflexivity.
Qed.

Lemma X20_witness :
  let t := set_gameElectrodes
             [[false; true; false; false; false; false; false; false]]
             (newTetris PYRAMID) in
  (Z.of_nat (length (gameElectrodes t)) < playHeight
   /\ transposeElectrodes t = None)
  /\ hasDims (gameElectrodes (newTetris PYRAMID)) playHeight playWidth
  /\ exists m,
       transposeElectrodes (newTetris PYRAMID) = Some m
       /\ hasDims m playWidth playHeight.
Proof.
  cbv zeta.
  assert (Hd : hasDims (gameElectrodes (newTetris PYRAMID))
                       playHeight playWidth)
    by exact (newMatrix_dims 14 8 ltac:(lia) ltac:(lia)).
  split;
    [| split; [exact Hd |];
       destruct (proj1 (X20_transposeElectrodes_agrees (newTetris PYRAMID))
                   Hd) as (m & Hm & Hdm & _);
       exists m; split; assumption].
  assert (H : Z.of_nat
                (length (gameElectrodes
                           (set_gameElectrodes
                              [[false; true; false; false; false; false;
                                false; false]] (newTetris PYRAMID))))
              < playHeight) by (vm_compute; reflexivity).
  split; [exact H |].
  exact (proj2 (X20_transposeElectrodes_agrees _) H).
Defined.

(** ** Tetromino.render *)

Lemma owner_dec {A : Type} (own : A -> Z -> Z -> Prop) :
  (forall a r c, own a r c \/ ~ own a r c) ->
  forall (l : list A) r c,
    (exists a, In a l /\ own a r c) \/ (forall a, In a l -> ~ own a r c).
Proof.
  intros Hdec l r c. induction l as [| b l IHl].
  - right. intros b [].
  - destruct (Hdec b r c) as [Hb | Hb];
      [left; exists b; split; [left; reflexivity | exact Hb] |].
    destruct IHl as [(b' & Hin & Hb') | Hnone].
    + left. exists b'. split; [right; exact Hin | exact Hb'].
    + right. intros b' [<- | Hin]; [exact Hb | apply Hnone; exact Hin].
Qed.

(** A loop that only switches cells on. *)
Lemma foldM_marks {A : Type} (Inv : Matrix -> Prop)
    (f : Matrix -> A -> option Matrix)
    (own : A -> Z -> Z -> Prop) (l : list A) :
  (forall a r c, own a r c \/ ~ own a r c) ->
  (forall m m' a, In a l -> Inv m -> f m a = Some m' ->
     Inv m'
     /\ forall r c, 0 <= c ->
          (electrodeActive m' r c = true
           <-> electrodeActive m r c = true \/ own a r c)) ->
  forall m m', Inv m -> foldM f l m = Some m' ->
  Inv m'
  /\ forall r c, 0 <= c ->
       (electrodeActive m' r c = true
        <-> electrodeActive m r c = true \/ exists a, In a l /\ own a r c).
Proof.
  intros Hdec. induction l as [| a l IH]; intros Hstep m m' Hinv Hf.
  - injection Hf as <-. split; [exact Hinv |]. intros r c Hc.
    split; [intros H; left; exact H | intros [H | (a & [] & _)]; exact H].
  - simpl in Hf. destruct (f m a) as [m1 |] eqn:E1; [| discriminate].
    destruct (Hstep m m1 a (or_introl eq_refl) Hinv E1) as [Hinv1 Hs].
    destruct (IH (fun m0 m0' b Hb => Hstep m0 m0' b (or_intror Hb))
                 m1 m' Hinv1 Hf) as [Hinv' IHr].
    split; [exact Hinv' |]. intros r c Hc.
    rewrite (IHr r c Hc), (Hs r c Hc). split.
    + intros [[H | H] | (b & Hin & Hb)].
      * left. exact H.
      * right. exists a. split; [left; reflexivity | exact H].
      * right. exists b. split; [right; exact Hin | exact Hb].
    + intros [H | (b & [<- | Hin] & Hb)].
      * left. left. exact H.
      * left. right. exact Hb.
      * right. exists b. split; assumption.
Qed.

Lemma active_left_of_board (m : Matrix) (r c : Z) :
  c < 0 -> electrodeActive m r c = false.
Proof.
  intros Hc. unfold electrodeActive, getCell.
  destruct (getRow m r); [| reflexivity].
  unfold rowGet. destruct (Z.ltb_spec c 0); [reflexivity | lia].
Qed.

Lemma hasDims_row (m : Matrix) (rows cols r : Z) (row : Row) :
  hasDims m rows cols -> getRow m r = Some row ->
  Z.of_nat (length row) = cols.
Proof.
  intros [_ Hcols] Hrow. destruct (getRow_inv m r row Hrow) as [_ Hnth].
  rewrite Forall_forall in Hcols. apply Hcols.
  eapply nth_error_In. exact Hnth.
Qed.

(** One guarded write of [Tetromino.render]. *)
Lemma renderCell_reads (p : Tetromino) (m : Matrix) (rows cols x y : Z) :
  hasDims m rows cols -> 0 <= x -> 0 <= y ->
  forall r c, 0 <= c ->
    (electrodeActive (renderCell p m x y) r c = true
     <-> electrodeActive m r c = true
         \/ (shapeCell (shape p) (Z.to_nat y) (Z.to_nat x) = true
             /\ r = vy (pos p) + y /\ c = vx (pos p) + x
             /\ 0 <= r < rows /\ 0 <= c < cols)).
Proof.
  intros Hd Hx Hy r c Hc. unfold renderCell.
  pose proof (hasDims_rows _ _ _ Hd) as Hrows.
  destruct (shapeCell (shape p) (Z.to_nat y) (Z.to_nat x)) eqn:Ecell.
  2:{ split; [intros H; left; exact H |].
      intros [H | (H & _)]; [exact H | discriminate]. }
  cbv zeta.
  destruct (Z.geb_spec (vy (pos p) + y) 0) as [Hy0 | Hy0]; cbn [andb].
  2:{ split; [intros H; left; exact H |].
      intros [H | (_ & -> & _ & Hr & _)]; [exact H | lia]. }
  destruct (Z.ltb_spec (vy (pos p) + y) (Z.of_nat (length m))) as [Hy1 | Hy1].
  2:{ split; [intros H; left; exact H |].
      intros [H | (_ & -> & _ & Hr & _)]; [exact H | lia]. }
  destruct (getRow_Some m (vy (pos p) + y) ltac:(lia)) as [row Hrow].
  rewrite Hrow. rewrite (hasDims_row m rows cols _ row Hd Hrow).
  destruct (Z.geb_spec (vx (pos p) + x) 0) as [Hx0 | Hx0]; cbn [andb].
  2:{ split; [intros H; left; exact H |].
      intros [H | (_ & _ & -> & _ & Hcc)]; [exact H | lia]. }
  destruct (Z.ltb_spec (vx (pos p) + x) cols) as [Hx1 | Hx1].
  2:{ split; [intros H; left; exact H |].
      intros [H | (_ & _ & -> & _ & Hcc)]; [exact H | lia]. }
  destruct (setCell_inside m (vy (pos p) + y) (vx (pos p) + x) true)
    as (m' & Hset & _); [lia | lia |].
  rewrite Hset.
  rewrite (setCell_reads m m' _ _ true Hset ltac:(lia) r c Hc).
  destruct (Z.eqb_spec r (vy (pos p) + y)) as [Hr | Hr];
    destruct (Z.eqb_spec c (vx (pos p) + x)) as [Hcc | Hcc]; cbn [andb].
  - split; [| reflexivity]. intros _. right. repeat split; lia.
  - split; [intros H; left; exact H |].
    intros [H | (_ & _ & Hcc' & _)]; [exact H | contradiction].
  - split; [intros H; left; exact H |].
    intros [H | (_ & Hr' & _)]; [exact H | contradiction].
  - split; [intros H; left; exact H |].
    intros [H | (_ & Hr' & _)]; [exact H | contradiction].
Qed.

Lemma Tetromino_render_reads (p : Tetromino) (m : Matrix) (rows cols : Z) :
  hasDims m rows cols ->
  forall r c, 0 <= c ->
    (electrodeActive (Tetromino_render p m) r c = true
     <-> electrodeActive m r c = true
         \/ exists x y,
              (0 <= x < vx (tsize p) /\ 0 <= y < vy (tsize p))
              /\ shapeCell (shape p) (Z.to_nat y) (Z.to_nat x) = true
              /\ r = vy (pos p) + y /\ c = vx (pos p) + x
              /\ 0 <= r < rows /\ 0 <= c < cols).
Proof.
  intros Hd r c Hc.
  pose proof (foldM_total
                (fun m x => fold_left (fun m y => renderCell p m x y)
                                      (range (vy (tsize p))) m)
                (range (vx (tsize p))) m) as Hfold.
  fold (Tetromino_render p m) in Hfold.
  destruct (foldM_marks (fun m => hasDims m rows cols)
              (fun m x => Some (fold_left (fun m y => renderCell p m x y)
                                          (range (vy (tsize p))) m))
              (fun x r c =>
                 0 <= r - vy (pos p) < vy (tsize p)
                 /\ shapeCell (shape p) (Z.to_nat (r - vy (pos p)))
                              (Z.to_nat x) = true
                 /\ c = vx (pos p) + x
                 /\ 0 <= r < rows /\ 0 <= c < cols)
              (range (vx (tsize p))))
    with (m := m) (m' := Tetromino_render p m) as [_ Hreads];
    try assumption.
  - intros x r0 c0.
    destruct (shapeCell (shape p) (Z.to_nat (r0 - vy (pos p))) (Z.to_nat x));
      [| right; intros (_ & H & _); discriminate].
    destruct (Z_le_dec 0 (r0 - vy (pos p))); [| right; lia].
    destruct (Z_lt_dec (r0 - vy (pos p)) (vy (tsize p))); [| right; lia].
    destruct (Z.eq_dec c0 (vx (pos p) + x)); [| right; lia].
    destruct (Z_le_dec 0 r0); [| right; lia].
    destruct (Z_lt_dec r0 rows); [| right; lia].
    destruct (Z_le_dec 0 c0); [| right; lia].
    destruct (Z_lt_dec c0 cols); [| right; lia].
    left. repeat split; assumption.
  - intros m0 m0' x Hx Hd0 Hstep. injection Hstep as <-.
    apply In_range in Hx.
    pose proof (foldM_total (fun m y => renderCell p m x y)
                  (range (vy (tsize p))) m0) as Hin.
    destruct (foldM_marks (fun m => hasDims m rows cols)
                (fun m y => Some (renderCell p m x y))
                (fun y r c =>
                   shapeCell (shape p) (Z.to_nat y) (Z.to_nat x) = true
                   /\ r = vy (pos p) + y /\ c = vx (pos p) + x
                   /\ 0 <= r < rows /\ 0 <= c < cols)
                (range (vy (tsize p))))
      with (m := m0)
           (m' := fold_left (fun m y => renderCell p m x y)
                            (range (vy (tsize p))) m0)
      as [Hd' Hreads']; try assumption.
    + intros y r0 c0.
      destruct (shapeCell (shape p) (Z.to_nat y) (Z.to_nat x));
        [| right; intros (H & _); discriminate].
      destruct (Z.eq_dec r0 (vy (pos p) + y)); [| right; lia].
      destruct (Z.eq_dec c0 (vx (pos p) + x)); [| right; lia].
      destruct (Z_le_dec 0 r0); [| right; lia].
      destruct (Z_lt_dec r0 rows); [| right; lia].
      destruct (Z_le_dec 0 c0); [| right; lia].
      destruct (Z_lt_dec c0 cols); [| right; lia].
      left. repeat split; assumption.
    + intros m1 m1' y Hy Hd1 Hs. injection Hs as <-. apply In_range in Hy.
      split; [apply renderCell_dims; exact Hd1 |].
      intros r0 c0 Hc0.
      apply (renderCell_reads p m1 rows cols x y Hd1); lia.
    + split; [exact Hd' |]. intros r0 c0 Hc0.
      rewrite (Hreads' r0 c0 Hc0). split.
      * intros [H | (y & Hy & Hcell & -> & Hrest)]; [left; exact H |].
        right. apply In_range in Hy.
        replace (vy (pos p) + y - vy (pos p)) with y by lia.
        split; [exact Hy |]. split; [exact Hcell | exact Hrest].
      * intros [H | (Hy & Hcell & Hrest)]; [left; exact H |].
        right. exists (r0 - vy (pos p)).
        split; [apply In_range; exact Hy |].
        split; [exact Hcell |]. split; [lia | exact Hrest].
  - rewrite (Hreads r c Hc). split.
    + intros [H | (x & Hx & Hy & Hcell & Hrest)]; [left; exact H |].
      right. apply In_range in Hx. exists x, (r - vy (pos p)).
      split; [split; assumption |]. split; [exact Hcell |].
      split; [lia | exact Hrest].
    + intros [H | (x & y & [Hx Hy] & Hcell & -> & Hrest)]; [left; exact H |].
      right. exists x. split; [apply In_range; exact Hx |].
      replace (vy (pos p) + y - vy (pos p)) with y by lia.
      split; [exact Hy |]. split; [exact Hcell | exact Hrest].
Qed.

Lemma Tetromino_render_covers (p : Tetromino) (m : Matrix) (rows cols : Z) :
  hasDims m rows cols ->
  sizeFits p ->
  hasDims (Tetromino_render p m) rows cols
  /\ forall r c,
       electrodeActive (Tetromino_render p m) r c = true
       <-> electrodeActive m r c = true
           \/ (covers (pos p) (shape p) r c
               /\ 0 <= r < rows /\ 0 <= c < cols).
Proof.
  intros Hd (Hsy & _ & Hsx).
  split; [apply Tetromino_render_dims; exact Hd |].
  intros r c. destruct (Z.ltb_spec c 0) as [Hneg | Hc].
  { rewrite !active_left_of_board by exact Hneg. split; [discriminate |].
    intros [H | (_ & _ & Hcc)]; [discriminate | lia]. }
  rewrite (Tetromino_render_reads p m rows cols Hd r c Hc). split.
  - intros [H | (x & y & [Hx Hy] & Hcell & -> & -> & Hrest)]; [left; exact H |].
    right. split; [| exact Hrest].
    exists (Z.to_nat x), (Z.to_nat y). split; [exact Hcell |]. split; lia.
  - intros [H | ((x & y & Hcell & -> & ->) & Hrest)]; [left; exact H |].
    right. exists (Z.of_nat x), (Z.of_nat y).
    pose proof (Hsx x y Hcell) as Hx.
    pose proof (shapeCell_row _ _ _ Hcell) as Hy.
    split; [lia |]. rewrite !Nat2Z.id.
    split; [exact Hcell |]. split; [reflexivity |]. split; [reflexivity |].
    exact Hrest.
Qed.

(** X21: on a board of [rows] rows of [cols] cells, [Tetromino.render]
    of a piece whose size fits its shape switches on the cells the piece
    covers that lie on the board and changes nothing else: a cell is active
    afterwards exactly when it was active before or it is a cell of the board
    the piece covers.  The part of the piece off the board is clipped, no
    cell is switched off, and the board keeps its dimensions. *)
Theorem X21_Tetromino_render_marks_the_piece (p : Tetromino) (m : Matrix)
    (rows cols : Z) :
  hasDims m rows cols ->
  sizeFits p ->
  hasDims (Tetromino_render p m) rows cols
  /\ forall r c,
       electrodeActive (Tetromino_render p m) r c = true
       <-> electrodeActive m r c = true
           \/ (covers (pos p) (shape p) r c
               /\ 0 <= r < rows /\ 0 <= c < cols).
Proof. exact (Tetromino_render_covers p m rows cols). Qed.

Lemma newTetromino_sizeFits (ty : TetrominoType) (p : Vec) :
  sizeFits (newTetromino ty p).
Proof.
  unfold sizeFits, newTetromino. cbn [tsize shape vx vy].
  split; [reflexivity |]. split; [destruct ty; cbn; lia |].
  intros x y Hc.
  assert (Hin : In (mkVec (Z.of_nat x) (Z.of_nat y))
                   (occupiedCells (tetrominoShapes ty)))
    by (apply In_occupiedCells; eauto).
  assert (Hall : Forall (fun c => vx c < Z.of_nat
                                          (length (nth 0 (tetrominoShapes ty)
                                                       [])))
                        (occupiedCells (tetrominoShapes ty))).
  { destruct ty;
      match goal with
      | |- Forall _ (occupiedCells ?s) =>
          let l := eval vm_compute in (occupiedCells s) in
          change (occupiedCells s) with l
      end;
      repeat constructor; cbn; lia. }
  rewrite Forall_forall in Hall. exact (Hall _ Hin).
Qed.

Lemma X21_witness :
  let p := newTetromino SQUARE (mkVec 6 12) in
  let m := newMatrix 14 8 in
  hasDims m 14 8 /\ sizeFits p
  /\ electrodeActive (Tetromino_render p m) 12 7 = true
  /\ electrodeActive (Tetromino_render p m) 12 6 = false.
Proof.
  cbv zeta.
  assert (Hd : hasDims (newMatrix 14 8) 14 8)
    by exact (newMatrix_dims 14 8 ltac:(lia) ltac:(lia)).
  pose proof (newTetromino_sizeFits SQUARE (mkVec 6 12)) as Hs.
  split; [exact Hd |]. split; [exact Hs |].
  destruct (X21_Tetromino_render_marks_the_piece
              (newTetromino SQUARE (mkVec 6 12)) (newMatrix 14 8) 14 8 Hd Hs)
    as [_ Hreads].
  split.
  - apply Hreads. right. split; [| lia].
    exists 1%nat, 0%nat. repeat split.
  - vm_compute. reflexivity.
Defined.

(** ** What a render displays *)

Lemma rotate_cell_inside (s : Shape) (d : Z) (y x : nat) :
  shapeCell (rotate s d) y x = true -> (x < length s)%nat.
Proof.
  intros H. pose proof (shapeCell_row _ _ _ H) as Hy.
  rewrite rotate_length in Hy.
  destruct (Nat.lt_ge_cases x (length s)) as [Hlt | Hge]; [exact Hlt |].
  unfold shapeCell in H. rewrite nth_overflow in H; [discriminate |].
  rewrite rotate_row_length by exact Hy. exact Hge.
Qed.

Lemma sizeFits_step (p p' : Tetromino) :
  tsize p' = tsize p ->
  shape p' = shape p \/ shape p' = rotate (shape p) 1 ->
  sizeFits p -> sizeFits p'.
Proof.
  intros Hsize Hshape (Hy & Hx & Hcells). unfold sizeFits.
  rewrite Hsize. destruct Hshape as [-> | ->].
  - split; [exact Hy |]. split; [exact Hx | exact Hcells].
  - rewrite rotate_length. split; [exact Hy |]. split; [exact Hx |].
    intros x y Hc. apply rotate_cell_inside in Hc. lia.
Qed.

Lemma tickMotion_piece (t t1 : Tetris) :
  pieceInv t -> tickMotion t = Some t1 ->
  tsize (droppingTetro t1) = tsize (droppingTetro t)
  /\ (shape (droppingTetro t1) = shape (droppingTetro t)
      \/ shape (droppingTetro t1) = rotate (shape (droppingTetro t)) 1).
Proof.
  intros (_ & _ & _ & _ & Hco) Hm.
  assert (Hplain : forall u,
            droppingTetro u = droppingTetro t ->
            rotationState u = rotationState t ->
            newShape u = newShape t ->
            let u1 := if RotationState_eqb (rotationState u) NotRotating
                      then move (moving u) u else applyRotation u in
            tsize (droppingTetro u1) = tsize (droppingTetro t)
            /\ (shape (droppingTetro u1) = shape (droppingTetro t)
                \/ shape (droppingTetro u1)
                   = rotate (shape (droppingTetro t)) 1)).
  { intros u Hup Hur Hun. cbv zeta.
    destruct (RotationState_eqb (rotationState u) NotRotating).
    - unfold move. destruct (isValidMove u _ _) as [[|] |]; cbn;
        rewrite Hup; split; try reflexivity; left; reflexivity.
    - unfold applyRotation. destruct (rotationState u) eqn:Er; cbn;
        rewrite ?Hup; split; try reflexivity; try (left; reflexivity).
      right. rewrite Hun. apply Hco. rewrite <- Hur. reflexivity. }
  unfold tickMotion in Hm. destruct (aboutRotate t).
  - unfold testRotations in Hm.
    destruct (isValidMove t _ _) as [[|] |]; try discriminate;
      injection Hm as <-.
    + cbn. split; [reflexivity | left; reflexivity].
    + exact (Hplain (set_aboutRotate false t) eq_refl eq_refl eq_refl).
  - injection Hm as <-. exact (Hplain t eq_refl eq_refl eq_refl).
Qed.

Lemma tick_sizeFits (next : TetrominoType) (t t' : Tetris) :
  pieceInv t -> sizeFits (droppingTetro t) -> tick next t = Some t' ->
  sizeFits (droppingTetro t').
Proof.
  intros Hinv Hs Ht. unfold tick in Ht.
  destruct (finished t); [injection Ht as <-; exact Hs |].
  destruct (tickMotion t) as [t1 |] eqn:Em; [| discriminate].
  destruct (tickMotion_piece t t1 Hinv Em) as [Hsize Hshape].
  pose proof (sizeFits_step _ _ Hsize Hshape Hs) as Hs1.
  unfold tickLanding, finalizeTetromino in Ht.
  destruct (hasLanded t1 _ _) as [[|] |]; try discriminate;
    [| injection Ht as <-; exact Hs1].
  destruct (foldM _ _ _) as [blocks |]; [| discriminate].
  cbn [currentBlocks set_currentBlocks] in Ht.
  destruct (getRow blocks topLevel) as [row |]; [| discriminate].
  destruct (existsb (fun cell => cell) row);
    cbn [finished set_finished negb] in Ht.
  - injection Ht as <-. exact Hs1.
  - destruct (negb _); injection Ht as <-; [| exact Hs1].
    apply newTetromino_sizeFits.
Qed.

Lemma reachable_sizeFits (t : Tetris) :
  reachable t -> sizeFits (droppingTetro t).
Proof.
  intros H. induction H as [first speed t ev Hinit
                           | current next t t' ev Hreach IH Hupd
                           | d t Hreach IH
                           | t Hreach IH].
  - unfold init, onBase, clear, bind, modify, transmit in Hinit.
    cbn [base set_base] in Hinit.
    destruct (buildPacket _); [| discriminate].
    injection Hinit as <- _. apply newTetromino_sizeFits.
  - destruct (reachable_inv t Hreach) as (Hp & _).
    destruct (update_cases current next t t' ev Hupd) as (p & _ & Hcases).
    destruct Hcases
      as [(_ & Hc & _) | [(_ & _ & Hc & _) | (_ & _ & t1 & Ht & Hc & _)]];
      destruct Hc as (-> & _); try exact IH.
    exact (tick_sizeFits next
             (set_base (set_lastFrame current (base t)) t) t1 Hp IH Ht).
  - unfold setMovement. destruct (finished t); exact IH.
  - exact IH.
Qed.

(** The first loop of [render]: the landed blocks. *)
Lemma renderBlocks_reads (t : Tetris) (ge : Matrix) :
  Z.of_nat (length (currentBlocks t)) = playHeight ->
  renderBlocks t = Some ge ->
  forall r c, 0 <= c ->
    (electrodeActive ge r c = true
     <-> electrodeActive (gameElectrodes t) r c = true
         \/ ((0 <= r < 14 /\ c < 8)
             /\ electrodeActive (currentBlocks t) r c = true)).
Proof.
  intros Hrows Hf r c Hc. unfold renderBlocks in Hf.
  rewrite playHeight_eq in Hrows.
  destruct (foldM_marks (fun _ => True)
              (fun ge x =>
                 foldM (fun ge y =>
                          match getCell (currentBlocks t) x y with
                          | None => None
                          | Some true => setCell ge x y true
                          | Some false => Some ge
                          end) (range (vy gameSize)) ge)
              (fun x r c =>
                 (r = x /\ 0 <= c < 8)
                 /\ electrodeActive (currentBlocks t) r c = true)
              (range (vx gameSize)))
    with (m := gameElectrodes t) (m' := ge) as [_ Hreads];
    try assumption; try exact I.
  - intros x r0 c0.
    destruct (electrodeActive (currentBlocks t) r0 c0);
      [| right; intros [_ H]; discriminate].
    destruct (Z.eq_dec r0 x); [| right; lia].
    destruct (Z_le_dec 0 c0); [| right; lia].
    destruct (Z_lt_dec c0 8); [left | right]; lia.
  - intros m0 m0' x Hx _ Hstep. split; [exact I |].
    apply In_range in Hx. change (vx gameSize) with 14 in Hx.
    destruct (foldM_marks (fun _ => True)
                (fun ge y =>
                   match getCell (currentBlocks t) x y with
                   | None => None
                   | Some true => setCell ge x y true
                   | Some false => Some ge
                   end)
                (fun y r c =>
                   (r = x /\ c = y)
                   /\ electrodeActive (currentBlocks t) x y = true)
                (range (vy gameSize)))
      with (m := m0) (m' := m0') as [_ Hin];
      try assumption; try exact I.
    + intros y r0 c0.
      destruct (electrodeActive (currentBlocks t) x y);
        [| right; intros [_ H]; discriminate].
      destruct (Z.eq_dec r0 x); [| right; lia].
      destruct (Z.eq_dec c0 y); [left | right]; lia.
    + intros m1 m1' y Hy _ Hs. split; [exact I |].
      apply In_range in Hy. change (vy gameSize) with 8 in Hy.
      rewrite (getCell_Some (currentBlocks t) x y ltac:(lia)) in Hs.
      intros r0 c0 Hc0.
      destruct (electrodeActive (currentBlocks t) x y) eqn:Eb.
      * destruct (write_cell m1 m1' x y true Hs ltac:(lia) r0 c0 Hc0)
          as [W1 W2].
        split.
        -- intros H.
           destruct (Z.eq_dec r0 x) as [Hr | Hr];
             [destruct (Z.eq_dec c0 y) as [Hcc | Hcc] |].
           ++ right. split; [split; assumption | reflexivity].
           ++ left. rewrite <- W2; [exact H | lia].
           ++ left. rewrite <- W2; [exact H | lia].
        -- intros [H | [Hrc _]]; [| apply W1; exact Hrc].
           destruct (Z.eq_dec r0 x) as [Hr | Hr];
             [destruct (Z.eq_dec c0 y) as [Hcc | Hcc] |].
           ++ apply W1. split; assumption.
           ++ rewrite W2; [exact H | lia].
           ++ rewrite W2; [exact H | lia].
      * injection Hs as <-. split; [intros H; left; exact H |].
        intros [H | [_ H]]; [exact H | discriminate].
    + intros r0 c0 Hc0. rewrite (Hin r0 c0 Hc0). split.
      * intros [H | (y & Hy & [-> ->] & Hb)]; [left; exact H |].
        right. apply In_range in Hy. change (vy gameSize) with 8 in Hy.
        split; [split; [reflexivity | exact Hy] | exact Hb].
      * intros [H | [[-> Hcc] Hb]]; [left; exact H |].
        right. exists c0. split; [apply In_range; exact Hcc |].
        split; [split; reflexivity | exact Hb].
  - rewrite (Hreads r c Hc). split.
    + intros [H | (x & Hx & [-> Hcc] & Hb)]; [left; exact H |].
      right. apply In_range in Hx. change (vx gameSize) with 14 in Hx.
      split; [lia | exact Hb].
    + intros [H | [[Hr Hcc] Hb]]; [left; exact H |].
      right. exists r. split; [apply In_range; exact Hr |].
      split; [split; [reflexivity | lia] | exact Hb].
Qed.

(** The second step of [render]: the dropping piece. *)
Lemma renderPiece_reads (t : Tetris) (ge : Matrix) :
  pieceInv t -> sizeFits (droppingTetro t) ->
  hasDims (gameElectrodes t) playHeight playWidth ->
  renderPiece t = Some ge ->
  forall r c, 0 <= c ->
    (electrodeActive ge r c = true
     <-> electrodeActive (gameElectrodes t) r c = true \/ pieceShown t r c).
Proof.
  intros (_ & Hs & Hb & Hst & Hco) Hsize Hg Hf r c Hc.
  unfold renderPiece in Hf. unfold pieceShown. cbv zeta.
  destruct (needFilling (base t)) as [| q0 qs] eqn:Eq; cbn [length] in Hf.
  - (* nothing waits: the piece, or its centre *)
    change (0 <? Z.of_nat 0) with false in Hf. cbv iota in Hf.
    assert (Hwhole : forall ge',
              Some (Tetromino_render (droppingTetro t) (gameElectrodes t))
              = Some ge' ->
              (electrodeActive ge' r c = true
               <-> electrodeActive (gameElectrodes t) r c = true
                   \/ covers (pos (droppingTetro t))
                             (shape (droppingTetro t)) r c)).
    { intros ge' H. injection H as <-.
      destruct (Tetromino_render_covers (droppingTetro t) (gameElectrodes t)
                  playHeight playWidth Hg Hsize) as [_ Hreads].
      rewrite (Hreads r c). split.
      - intros [H | [H _]]; [left | right]; exact H.
      - intros [H | H]; [left; exact H |]. right. split; [exact H |].
        destruct H as (x & y & Hcell & -> & ->).
        destruct (Hb x y Hcell) as [Hx Hy]. split; assumption. }
    destruct (rotationState t) eqn:Er; cbn [RotationState_eqb negb] in Hf.
    + exact (Hwhole ge Hf).
    + contradiction.
    + destruct (Hco eq_refl) as [Hns Hnb]. rewrite Hns in Hnb.
      destruct (centre_inPlayfield _ _ Hs Hb Hnb) as [Hx Hy].
      unfold vecAdd in Hf. cbn [vx vy] in Hf.
      destruct (write_cell _ _ _ _ true Hf ltac:(cbn; lia) r c Hc)
        as [W1 W2].
      split.
      * intros H.
        destruct (Z.eq_dec r (vy (pos (droppingTetro t)) + vy centerPos))
          as [Hr | Hr];
          [destruct (Z.eq_dec c (vx (pos (droppingTetro t)) + vx centerPos))
            as [Hcc | Hcc] |].
        -- right. split; assumption.
        -- left. rewrite <- W2; [exact H | intros [_ E]; contradiction].
        -- left. rewrite <- W2; [exact H | intros [E _]; contradiction].
      * intros [H | Hrc]; [| apply W1; exact Hrc].
        destruct (Z.eq_dec r (vy (pos (droppingTetro t)) + vy centerPos))
          as [Hr | Hr];
          [destruct (Z.eq_dec c (vx (pos (droppingTetro t)) + vx centerPos))
            as [Hcc | Hcc] |].
        -- apply W1. split; assumption.
        -- rewrite W2; [exact H | intros [_ E]; contradiction].
        -- rewrite W2; [exact H | intros [E _]; contradiction].
    + exact (Hwhole ge Hf).
  - (* cells wait: the cells of the piece that have been filled *)
    replace (0 <? Z.of_nat (S (length qs))) with true in Hf
      by (symmetry; apply Z.ltb_lt; lia).
    cbv iota in Hf.
    destruct (foldM_marks (fun _ => True)
                (fun ge0 cell =>
                   if negb (inNeedFilling t
                              (tetrisCoordToGameCoord
                                 (mkVec (vx (pos (droppingTetro t)) + vx cell)
                                        (vy (pos (droppingTetro t)) + vy cell))))
                   then setCell ge0
                          (vy (mkVec (vx (pos (droppingTetro t)) + vx cell)
                                     (vy (pos (droppingTetro t)) + vy cell)))
                          (vx (mkVec (vx (pos (droppingTetro t)) + vx cell)
                                     (vy (pos (droppingTetro t)) + vy cell)))
                          true
                   else Some ge0)
                (fun cell r c =>
                   (r = vy (pos (droppingTetro t)) + vy cell
                    /\ c = vx (pos (droppingTetro t)) + vx cell)
                   /\ inNeedFilling t
                        (tetrisCoordToGameCoord
                           (mkVec (vx (pos (droppingTetro t)) + vx cell)
                                  (vy (pos (droppingTetro t)) + vy cell)))
                      = false)
                (occupiedCells (shape (droppingTetro t))))
      with (m := gameElectrodes t) (m' := ge) as [_ Hreads];
      try assumption; try exact I.
    + intros cell r0 c0.
      destruct (inNeedFilling t _); [right; intros [_ H]; discriminate |].
      destruct (Z.eq_dec r0 (vy (pos (droppingTetro t)) + vy cell));
        [| right; lia].
      destruct (Z.eq_dec c0 (vx (pos (droppingTetro t)) + vx cell));
        [left | right]; lia.
    + intros m0 m0' cell Hcell _ Hstep. split; [exact I |].
      intros r0 c0 Hc0. cbn [vx vy] in Hstep.
      assert (Hcol : 0 <= vx (pos (droppingTetro t)) + vx cell).
      { pose proof Hb as Hb'. apply inBounds_cells in Hb'.
        rewrite Forall_forall in Hb'. destruct (Hb' cell Hcell) as [Hx _].
        lia. }
      destruct (inNeedFilling t _) eqn:Ein; cbn [negb] in Hstep.
      * injection Hstep as <-. split; [intros H; left; exact H |].
        intros [H | [_ H]]; [exact H | discriminate].
      * destruct (write_cell m0 m0' _ _ true Hstep Hcol r0 c0 Hc0)
          as [W1 W2].
        split.
        -- intros H.
           destruct (Z.eq_dec r0 (vy (pos (droppingTetro t)) + vy cell))
             as [Hr | Hr];
             [destruct (Z.eq_dec c0 (vx (pos (droppingTetro t)) + vx cell))
               as [Hcc | Hcc] |].
           ++ right. split; [split; assumption | reflexivity].
           ++ left. rewrite <- W2; [exact H | intros [_ E]; contradiction].
           ++ left. rewrite <- W2; [exact H | intros [E _]; contradiction].
        -- intros [H | [Hrc _]]; [| apply W1; exact Hrc].
           destruct (Z.eq_dec r0 (vy (pos (droppingTetro t)) + vy cell))
             as [Hr | Hr];
             [destruct (Z.eq_dec c0 (vx (pos (droppingTetro t)) + vx cell))
               as [Hcc | Hcc] |].
           ++ apply W1. split; assumption.
           ++ rewrite W2; [exact H | intros [_ E]; contradiction].
           ++ rewrite W2; [exact H | intros [E _]; contradiction].
    + rewrite (Hreads r c Hc). rewrite covers_cells. split.
      * intros [H | (cell & Hcell & [-> ->] & Hq)]; [left; exact H |].
        right. split; [| exact Hq].
        exists cell. split; [exact Hcell | split; reflexivity].
      * intros [H | [(cell & Hcell & -> & ->) Hq]]; [left; exact H |].
        right. exists cell. split; [exact Hcell |].
        split; [split; reflexivity | exact Hq].
Qed.

(** [render], composed: the game matrix and the electrode matrix it leaves. *)
Lemma render_reads (t : Tetris) :
  gameInv t -> sizeFits (droppingTetro t) ->
  exists t',
    render t = Some t'
    /\ forall x y, inPlayfield x y ->
         (electrodeActive (gameElectrodes t') y x = true
          <-> electrodeActive (currentBlocks t) y x = true
              \/ pieceShown t y x)
         /\ (electrodeActive (electrodes (base t')) (7 - x) y = true
             <-> electrodeActive (currentBlocks t) y x = true
                 \/ pieceShown t y x
                 \/ currentlyMoving (base t) = Some (mkVec y (7 - x))).
Proof.
  intros (Hp & (Hrows & Hq & Hm) & Hg) Hsize. unfold render.
  set (t1 := clearGameElectrodes t).
  assert (Hg1 : hasDims (gameElectrodes t1) playHeight playWidth)
    by (apply newMatrix_dims; vm_compute; discriminate).
  destruct (renderBlocks_ok t1) as (ge1 & Hrb & Hge1);
    [apply Hp | exact Hg1 |].
  rewrite Hrb.
  set (t2 := set_gameElectrodes ge1 t1).
  destruct (renderPiece_ok t2) as (ge2 & Hrp & Hge2); [exact Hp | exact Hge1 |].
  rewrite Hrp.
  set (t3 := set_gameElectrodes ge2 t2).
  destruct (transposeElectrodes_ok t3) as (m & Htr & Hdm); [exact Hge2 |].
  rewrite Htr.
  assert (Hm8 : length m = 8%nat).
  { apply hasDims_rows in Hdm. rewrite playWidth_eq in Hdm. lia. }
  assert (Hgame : forall x y, inPlayfield x y ->
            (electrodeActive ge2 y x = true
             <-> electrodeActive (currentBlocks t) y x = true
                 \/ pieceShown t y x)).
  { intros x y [Hx Hy]. rewrite playWidth_eq in Hx.
    rewrite playHeight_eq in Hy.
    rewrite (renderPiece_reads t2 ge2 Hp Hsize Hge1 Hrp y x ltac:(lia)).
    change (gameElectrodes t2) with ge1.
    rewrite (renderBlocks_reads t1 ge1
               (hasDims_rows _ _ _ (proj1 Hp)) Hrb y x ltac:(lia)).
    change (gameElectrodes t1) with (newMatrix (vx gameSize) (vy gameSize)).
    rewrite newMatrix_off.
    change (currentBlocks t1) with (currentBlocks t).
    change (pieceShown t2 y x) with (pieceShown t y x).
    split.
    - intros [[H | [_ H]] | H]; [discriminate | left; exact H | right; exact H].
    - intros [H | H]; [| right; exact H].
      left. right. split; [lia | exact H]. }
  assert (Hboard : forall x y, inPlayfield x y ->
            electrodeActive m (7 - x) y = electrodeActive ge2 y x).
  { intros x y [Hx Hy]. rewrite playWidth_eq in Hx.
    rewrite playHeight_eq in Hy.
    apply (transposeElectrodes_reads t3 m (hasDims_rows _ _ _ Hge2) Htr);
      assumption. }
  unfold onBase, Game_render, bind, getState.
  cbn [base set_base currentlyMoving set_electrodes].
  change (currentlyMoving (base t3)) with (currentlyMoving (base t)).
  destruct (currentlyMoving (base t)) as [d |] eqn:Ed.
  - destruct (Hm d eq_refl) as [Dx Dy].
    change (vy gameSize) with 8 in Dy. change (vx gameSize) with 14 in Dx.
    unfold writeElectrode. cbn [electrodes set_electrodes].
    destruct (setCell_inside m (vy d) (vx d) true) as (m' & Hset & _);
      [rewrite Hm8; lia | lia |].
    rewrite Hset. eexists. split; [reflexivity |].
    intros x y Hxy. cbn [gameElectrodes set_base base electrodes
                         set_electrodes set_gameElectrodes].
    split; [apply Hgame; exact Hxy |].
    pose proof Hxy as [Hx Hy]. rewrite playWidth_eq in Hx.
    rewrite playHeight_eq in Hy.
    rewrite (setCell_reads m m' _ _ true Hset ltac:(lia) (7 - x) y
               ltac:(lia)).
    destruct (Z.eqb_spec (7 - x) (vy d)) as [Hr | Hr];
      destruct (Z.eqb_spec y (vx d)) as [Hcc | Hcc]; cbn [andb].
    + split; [| reflexivity]. intros _. right. right.
      destruct d as [dx dy]. cbn [vx vy] in *. subst. reflexivity.
    + rewrite (Hboard x y Hxy), (Hgame x y Hxy). split.
      * intros [H | H]; [left; exact H | right; left; exact H].
      * intros [H | [H | H]]; [left; exact H | right; exact H |].
        injection H as ->. exfalso. apply Hcc. reflexivity.
    + rewrite (Hboard x y Hxy), (Hgame x y Hxy). split.
      * intros [H | H]; [left; exact H | right; left; exact H].
      * intros [H | [H | H]]; [left; exact H | right; exact H |].
        injection H as ->. exfalso. apply Hr. reflexivity.
    + rewrite (Hboard x y Hxy), (Hgame x y Hxy). split.
      * intros [H | H]; [left; exact H | right; left; exact H].
      * intros [H | [H | H]]; [left; exact H | right; exact H |].
        injection H as ->. exfalso. apply Hr. reflexivity.
  - eexists. split; [reflexivity |].
    intros x y Hxy. cbn [gameElectrodes set_base base electrodes
                         set_electrodes set_gameElectrodes].
    split; [apply Hgame; exact Hxy |].
    rewrite (Hboard x y Hxy), (Hgame x y Hxy). split.
    + intros [H | H]; [left; exact H | right; left; exact H].
    + intros [H | [H | H]]; [left; exact H | right; exact H | discriminate].
Qed.

(** X22: in every state the game reaches, [render] does not throw and
    redraws both matrices from the state: a cell of the playable grid is on
    in the game matrix exactly when a landed block lies there or the piece is
    shown there - while cells wait in the fill queue only the cells of the
    piece that have left the queue, during the coalesce step of a rotation
    the single centre cell, otherwise the whole piece - and the electrode
    matrix holds the same picture transposed ([electrodes[7 - col][row]]),
    with the cell of the droplet in transit switched on as well. *)
Theorem X22_render_shows_the_state (t : Tetris) :
  reachable t ->
  exists t',
    render t = Some t'
    /\ forall x y, inPlayfield x y ->
         (electrodeActive (gameElectrodes t') y x = true
          <-> electrodeActive (currentBlocks t) y x = true
              \/ pieceShown t y x)
         /\ (electrodeActive (electrodes (base t')) (7 - x) y = true
             <-> electrodeActive (currentBlocks t) y x = true
                 \/ pieceShown t y x
                 \/ currentlyMoving (base t) = Some (mkVec y (7 - x))).
Proof.
  intros Hr.
  exact (render_reads t (reachable_inv t Hr) (reachable_sizeFits t Hr)).
Qed.

Lemma X22_witness :
  match started PYRAMID with
  | Some t =>
      reachable t
      /\ exists t',
           render t = Some t'
           /\ electrodeActive (electrodes (base t')) (7 - 3) 1 = false
  | None => False
  end.
Proof.
  destruct (started PYRAMID) as [t |] eqn:E;
    [| vm_compute in E; discriminate].
  pose proof (started_reachable PYRAMID t E) as Hr.
  split; [exact Hr |].
  destruct (X22_render_shows_the_state t Hr) as (t' & Hrender & Hshow).
  exists t'. split; [exact Hrender |].
  destruct (Hshow 3 1 ltac:(split; vm_compute; split; congruence))
    as [_ Hboard].
  destruct (electrodeActive (electrodes (base t')) (7 - 3) 1) eqn:Eact;
    [exfalso | reflexivity].
  pose proof (proj1 Hboard eq_refl) as Hwhy.
  vm_compute in E. injection E as <-.
  destruct Hwhy as [H | [H | H]].
  - vm_compute in H. discriminate.
  - unfold pieceShown in H. cbn in H. destruct H as [_ H].
    vm_compute in H. discriminate.
  - discriminate.
Defined.

(** ** Starting the game *)

(** X23: [init] works on every game object: it blanks the electrode matrix,
    transmits one frame of 32 zero bytes (the idle pattern of the
    reservoirs is stored after that frame is sent), sets both special bytes
    to 0b00011000, restricts the reservoirs to TL and BL, and appends the
    cells of the dropping piece to the fill queue.  It resets nothing else:
    the piece, the static grid, the finished flag, the pending intents, the
    cells already in the queue, the droplet in transit and the clock of the
    last tick are kept. *)
Theorem X23_init_prepares_the_board (t : Tetris) :
  exists t',
    init t = Some (t', [Transmit (repeat 0 32)])
    /\ sameCore t t'
    /\ specialElectrodesLeft (base t') = 24
    /\ specialElectrodesRight (base t') = 24
    /\ availableReservoirs (base t') = [TL; BL]
    /\ electrodes (base t') = newMatrix (vy gameSize) (vx gameSize)
    /\ needFilling (base t')
       = needFilling (base t)
         ++ map (queuedCell (pos (droppingTetro t)))
                (occupiedCells (shape (droppingTetro t)))
    /\ currentlyMoving (base t') = currentlyMoving (base t)
    /\ lastFrame (base t') = lastFrame (base t)
    /\ movementDelay (base t') = movementDelay (base t).
Proof.
  unfold init, onBase, clear, bind, modify, transmit.
  set (g0 := set_specialElectrodesRight 0
               (set_specialElectrodesLeft 0
                  (set_electrodes (newMatrix (vy gameSize) (vx gameSize))
                     (base t)))).
  assert (Hp : buildPacket g0 = Some (repeat 0 32))
    by (unfold buildPacket; vm_compute; reflexivity).
  rewrite Hp. cbn [app].
  eexists. split; [reflexivity |].
  match goal with
  | |- context [primeDroppingTetro ?u] =>
      pose proof (primeDroppingTetro_queue u) as Hq;
      destruct (primeDroppingTetro_keeps u)
        as (Hc & _ & He & Hm & Ha & [Hl Hr] & Hlf)
  end.
  split; [exact Hc |].
  split; [rewrite Hl; reflexivity |].
  split; [rewrite Hr; reflexivity |].
  split; [rewrite Ha; reflexivity |].
  split; [rewrite He; reflexivity |].
  split; [rewrite Hq; reflexivity |].
  split; [rewrite Hm; reflexivity |].
  split; [rewrite Hlf; reflexivity |].
  reflexivity.
Qed.

(** ** The clock of the frame loop *)

Lemma set_needFilling_same (g : Game) : set_needFilling (needFilling g) g = g.
Proof. destruct g. reflexivity. Qed.

(** A tick touches the engine through the fill queue only. *)
Lemma tick_base (next : TetrominoType) (t t' : Tetris) :
  tick next t = Some t' ->
  exists q, base t' = set_needFilling q (base t).
Proof.
  unfold tick. destruct (finished t).
  { intros H. injection H as <-. exists (needFilling (base t)).
    symmetry. apply set_needFilling_same. }
  destruct (tickMotion t) as [t1 |] eqn:Em; [| discriminate].
  destruct (tickMotion_frame t t1 Em) as (_ & _ & Hbase).
  rewrite <- Hbase. clear Em Hbase.
  unfold tickLanding, finalizeTetromino.
  destruct (hasLanded t1 _ _) as [[|] |]; try discriminate.
  2:{ intros H. injection H as <-. exists (needFilling (base t1)).
      symmetry. apply set_needFilling_same. }
  destruct (foldM _ _ _) as [blocks |]; [| discriminate].
  cbn [currentBlocks set_currentBlocks].
  destruct (getRow blocks topLevel) as [row |]; [| discriminate].
  destruct (existsb (fun cell => cell) row); cbn [finished set_finished negb].
  - intros H. injection H as <-. exists (needFilling (base t1)).
    symmetry. apply set_needFilling_same.
  - destruct (negb _); intros H; injection H as <-.
    + unfold primeDroppingTetro. cbn [base set_base]. eexists. reflexivity.
    + exists (needFilling (base t1)). symmetry. apply set_needFilling_same.
Qed.

(** A fill tick keeps the clock of the last tick and the two delays. *)
Lemma fillTick_timing (g g' : Game) (ev : list Event) :
  engineInv g -> fillTick g = Some (tt, g', ev) ->
  lastFrame g' = lastFrame g
  /\ movementDelay g' = movementDelay g
  /\ cleanupDelay g' = cleanupDelay g.
Proof.
  intros Hinv Hf.
  destruct (needFilling g) as [| target rest] eqn:Eq.
  { unfold fillTick, bind, getState in Hf. rewrite Eq in Hf.
    injection Hf as <- _. repeat split. }
  destruct (currentlyMoving g) as [c |] eqn:Em.
  - destruct (notArrived c target) eqn:Ena.
    + assert (Hne : c <> target)
        by (intros ->; rewrite (proj2 (notArrived_false target target)
                                  eq_refl) in Ena; discriminate).
      destruct (fillTick_move g target c rest Hinv Eq Em Hne)
        as (m & _ & Hf').
      rewrite Hf in Hf'. injection Hf' as -> _. repeat split.
    + apply notArrived_false in Ena. subst c.
      rewrite (fillTick_stall g target rest Eq Em) in Hf.
      injection Hf as <- _. repeat split.
  - destruct (fst (findClosest target (availableReservoirs g)))
      as [r |] eqn:Er.
    + rewrite (fillTick_dispense g target rest r Eq Em Er) in Hf.
      destruct (dispense_spec r g)
        as (g1 & first & frames & last & Hd & _ & _ & _ & _ & _ & _
            & _ & _ & _ & Hkept); [apply Hinv |].
      rewrite Hd in Hf. injection Hf as <- _.
      destruct Hkept as (_ & _ & _ & _ & _ & Hlf & Hmd & Hcd).
      cbn [lastFrame movementDelay cleanupDelay set_currentlyMoving].
      repeat split; assumption.
    + unfold fillTick, bind, getState in Hf. rewrite Eq, Em, Er in Hf.
      injection Hf as <- _. repeat split.
Qed.

Lemma update_timing (current : Z) (next : TetrominoType) (t t' : Tetris)
    (ev : list Event) :
  gameInv t ->
  update current next t = Some (t', ev) ->
  lastFrame (base t')
  = (if elapsed current t then current else lastFrame (base t))
  /\ movementDelay (base t') = movementDelay (base t).
Proof.
  intros (_ & He & _) Hu. unfold update in Hu. unfold elapsed.
  set (newTick := movementDelay (base t) <? current - lastFrame (base t))
    in *.
  cbv zeta in Hu.
  match type of Hu with
  | match ?e with _ => _ end = _ =>
      destruct e as [[t1 ev1] |] eqn:Estep; [| discriminate]
  end.
  destruct (render t1) as [t2 |] eqn:Er; [| discriminate].
  destruct (render_keeps t1 t2 Er) as (_ & Hs & Hlf).
  destruct Hs as (_ & _ & _ & _ & _ & Hmd & _).
  unfold onBase, transmit in Hu.
  destruct (buildPacket (base t2)); [| discriminate].
  injection Hu as <- _.
  assert (Hb : base (set_base (base t2) t2) = base t2) by reflexivity.
  rewrite Hb, Hlf, Hmd. clear Hb Hlf Hmd Er.
  destruct newTick.
  - destruct (0 <? Z.of_nat (length (needFilling
                 (base (set_base (set_lastFrame current (base t)) t))))).
    + unfold onBase in Estep.
      destruct (fillTick (base (set_base (set_lastFrame current (base t)) t)))
        as [[[[] g1] ev2] |] eqn:Ef; [| discriminate].
      injection Estep as <- _.
      destruct (fillTick_timing (set_lastFrame current (base t)) g1 ev2
                  He Ef) as (Hlf & Hmd & _).
      cbn [base set_base]. rewrite Hlf, Hmd. split; reflexivity.
    + destruct (tick next (set_base (set_lastFrame current (base t)) t))
        as [t3 |] eqn:Et; [| discriminate].
      injection Estep as <- _.
      destruct (tick_base next _ t3 Et) as (q & ->).
      split; reflexivity.
  - injection Estep as <- _. split; reflexivity.
Qed.

(** X24: the clock of the frame loop.  For a call of [update] from a state
    the game reaches, with clock reading [current]: when more than
    [movementDelay] ms have passed since [lastFrame], the call records
    [current] as the new [lastFrame]; otherwise [lastFrame] stays, and so do
    the piece, the static grid, the flags, the fill queue, the droplet in
    transit and the special bytes: a call that comes too early only redraws
    and retransmits.  [movementDelay] never changes. *)
Theorem X24_update_keeps_time (current : Z) (next : TetrominoType)
    (t t' : Tetris) (ev : list Event) :
  reachable t ->
  update current next t = Some (t', ev) ->
  movementDelay (base t') = movementDelay (base t)
  /\ (movementDelay (base t) < current - lastFrame (base t) ->
      lastFrame (base t') = current)
  /\ (current - lastFrame (base t) <= movementDelay (base t) ->
      lastFrame (base t') = lastFrame (base t)
      /\ sameCore t t'
      /\ sameEngine (base t) (base t')
      /\ exists p, ev = [Transmit p]).
Proof.
  intros Hr Hu.
  destruct (update_timing current next t t' ev (reachable_inv t Hr) Hu)
    as [Hlf Hmd].
  split; [exact Hmd |]. unfold elapsed in Hlf. split.
  - intros Hlate.
    destruct (Z.ltb_spec (movementDelay (base t))
                (current - lastFrame (base t))); [exact Hlf | lia].
  - intros Hearly.
    assert (Hno : elapsed current t = false)
      by (unfold elapsed; apply Z.ltb_ge; exact Hearly).
    unfold elapsed in Hno. rewrite Hno in Hlf. split; [exact Hlf |].
    destruct (update_cases current next t t' ev Hu) as (p & _ & Hcases).
    destruct Hcases as [(_ & Hc & He & Hev) | [(Hel & _) | (Hel & _)]];
      unfold elapsed in *; try congruence.
    split; [exact Hc |]. split; [exact He |]. exists p. exact Hev.
Qed.

Lemma X24_witness :
  match started PYRAMID with
  | Some t =>
      match update 200 PYRAMID t with
      | Some (t', _) =>
          reachable t
          /\ 200 - lastFrame (base t) <= movementDelay (base t)
          /\ lastFrame (base t') = lastFrame (base t)
          /\ sameCore t t'
      | None => False
      end
  | None => False
  end.
Proof.
  destruct (started PYRAMID) as [t |] eqn:E;
    [| vm_compute in E; discriminate].
  pose proof (started_reachable PYRAMID t E) as Hr.
  assert (Hearly : 200 - lastFrame (base t) <= movementDelay (base t))
    by (vm_compute in E; injection E as <-; vm_compute; discriminate).
  destruct (update 200 PYRAMID t) as [[t' ev] |] eqn:U.
  - split; [exact Hr |]. split; [exact Hearly |].
    destruct (X24_update_keeps_time 200 PYRAMID t t' ev Hr U)
      as (_ & _ & H).
    destruct (H Hearly) as (Hlf & Hc & _). split; assumption.
  - destruct (update_never_throws 200 PYRAMID t Hr) as (t' & ev & U').
    rewrite U' in U. discriminate.
Defined.

(** ** The keys *)

(** X25: a key press only states an intent.  Whatever the key,
    [handleKeyPress] leaves the piece, the static grid, both matrices, the
    finished flag, the rotation fields and the engine as they are; it can
    set [moving] to LEFT or RIGHT, and only while the game is on (no key
    makes the piece fall); it can set [aboutRotate] and never clears it,
    and the key [r] sets it whatever the finished flag says (unlike
    [setMovement], that key is not guarded); and it leads from a state the
    game reaches to a state the game reaches. *)
Theorem X25_keys_only_state_intents (key : String.string) (t : Tetris) :
  let t' := Keys.handleKeyPress key t in
  (droppingTetro t' = droppingTetro t
   /\ currentBlocks t' = currentBlocks t
   /\ gameElectrodes t' = gameElectrodes t
   /\ finished t' = finished t
   /\ rotationState t' = rotationState t
   /\ newShape t' = newShape t
   /\ base t' = base t)
  /\ (moving t' = moving t
      \/ (finished t = false /\ (moving t' = LEFT \/ moving t' = RIGHT)))
  /\ (aboutRotate t' = aboutRotate t \/ aboutRotate t' = true)
  /\ (reachable t -> reachable t')
  /\ aboutRotate (Keys.handleKeyPress Keys.rotateKey t) = true.
Proof.
  cut ((let t' := Keys.handleKeyPress key t in
        (droppingTetro t' = droppingTetro t
         /\ currentBlocks t' = currentBlocks t
         /\ gameElectrodes t' = gameElectrodes t
         /\ finished t' = finished t
         /\ rotationState t' = rotationState t
         /\ newShape t' = newShape t
         /\ base t' = base t)
        /\ (moving t' = moving t
            \/ (finished t = false
                /\ (moving t' = LEFT \/ moving t' = RIGHT)))
        /\ (aboutRotate t' = aboutRotate t \/ aboutRotate t' = true)
        /\ (reachable t -> reachable t'))).
  { cbv zeta. intros (H1 & H2 & H3 & H4).
    split; [exact H1 |]. split; [exact H2 |]. split; [exact H3 |].
    split; [exact H4 | reflexivity]. }
  assert (Hset : forall d, d = LEFT \/ d = RIGHT ->
            (droppingTetro (setMovement d t) = droppingTetro t
             /\ currentBlocks (setMovement d t) = currentBlocks t
             /\ gameElectrodes (setMovement d t) = gameElectrodes t
             /\ finished (setMovement d t) = finished t
             /\ rotationState (setMovement d t) = rotationState t
             /\ newShape (setMovement d t) = newShape t
             /\ base (setMovement d t) = base t)
            /\ (moving (setMovement d t) = moving t
                \/ (finished t = false
                    /\ (moving (setMovement d t) = LEFT
                        \/ moving (setMovement d t) = RIGHT)))
            /\ (aboutRotate (setMovement d t) = aboutRotate t
                \/ aboutRotate (setMovement d t) = true)
            /\ (reachable t -> reachable (setMovement d t))).
  { intros d Hd.
    split; [unfold setMovement; destruct (finished t) eqn:Hfin; cbn;
            rewrite ?Hfin; repeat split |].
    split; [| split; [left; unfold setMovement; destruct (finished t);
                      reflexivity
                     | apply reach_setMovement]].
    unfold setMovement. destruct (finished t); [left; reflexivity |].
    right. split; [reflexivity |]. cbn. exact Hd. }
  cbv zeta. unfold Keys.handleKeyPress.
  repeat match goal with
         | |- context [if ?b then _ else _] => destruct b
         end.
  - apply Hset. left. reflexivity.
  - apply Hset. right. reflexivity.
  - split; [repeat split |]. split; [left; reflexivity |].
    split; [right; reflexivity |]. apply reach_requestRotate.
  - split; [repeat split |]. split; [left; reflexivity |].
    split; [left; reflexivity |]. exact (fun H => H).
Qed.

(** ** A piece that touches down is merged at once *)

Lemma afloat_core (t t' : Tetris) : sameCore t t' -> afloat t -> afloat t'.
Proof.
  intros (Hp & Hb & Hf & _) H. unfold afloat, hasLanded in *.
  rewrite Hp, Hb, Hf. exact H.
Qed.

(** A new piece at the spawn position on a grid whose top rows are empty has
    room below it. *)
Lemma spawn_afloat (next : TetrominoType) (t : Tetris) :
  Z.of_nat (length (currentBlocks t)) = playHeight ->
  clearTop (currentBlocks t) ->
  hasLanded t tetroSpawnPosition (tetrominoShapes next) = Some false.
Proof.
  intros Hrows Htop.
  destruct (hasLanded_spec t tetroSpawnPosition (tetrominoShapes next) Hrows)
    as (b & Hb & Hiff); [cbn; lia |].
  rewrite Hb. f_equal. destruct b; [exfalso | reflexivity].
  destruct (proj1 Hiff eq_refl) as (x & y & Hc & Hland).
  pose proof (catalog_rows next x y Hc) as Hy.
  change (vy tetroSpawnPosition) with 1 in Hland.
  rewrite playHeight_eq in Hland.
  destruct Hland as [Hg | Hblk]; [lia |].
  rewrite Htop in Hblk; [discriminate | unfold topLevel; lia].
Qed.

Lemma tick_afloat (next : TetrominoType) (t t' : Tetris) :
  pieceInv t -> engineInv (base t) -> playInv t -> afloat t ->
  tick next t = Some t' -> afloat t'.
Proof.
  intros Hinv Heng Hplay Haf Ht.
  pose proof (tick_playInv next t t' Hinv Hplay Ht) as Hplay'.
  assert (Hrows' : Z.of_nat (length (currentBlocks t')) = playHeight).
  { destruct (tick_inv next t Hinv Heng) as (t0 & Ht0 & (Hd & _) & _).
    rewrite Ht in Ht0. injection Ht0 as <-.
    exact (hasDims_rows _ _ _ Hd). }
  unfold tick in Ht. destruct (finished t) eqn:Hfin;
    [injection Ht as <-; exact Haf |].
  destruct (tickMotion t) as [t1 |] eqn:Em; [| discriminate].
  destruct (tickMotion_frame t t1 Em) as (_ & Hf1 & _).
  unfold tickLanding in Ht.
  destruct (hasLanded t1 _ _) as [[|] |] eqn:Hl; try discriminate;
    [| injection Ht as <-; intros _; exact Hl].
  unfold finalizeTetromino in Ht.
  destruct (foldM _ _ _) as [blocks |]; [| discriminate].
  cbn [currentBlocks set_currentBlocks] in Ht.
  destruct (getRow blocks topLevel) as [row |]; [| discriminate].
  destruct (existsb (fun cell => cell) row);
    cbn [finished set_finished negb] in Ht.
  - injection Ht as <-. intros H. discriminate.
  - change (finished (set_currentBlocks blocks (resetRotationState t1)))
      with (finished t1) in Ht.
    rewrite Hf1, Hfin in Ht. cbn [negb] in Ht.
    intros Hon. destruct Hplay' as [_ Hon'].
    destruct (Hon' Hon) as (Htop & _).
    injection Ht as <-.
    exact (spawn_afloat next _ Hrows' Htop).
Qed.

Lemma reachable_afloat (t : Tetris) : reachable t -> afloat t.
Proof.
  intros H. induction H as [first speed t ev Hinit
                           | current next t t' ev Hreach IH Hupd
                           | d t Hreach IH
                           | t Hreach IH].
  - pose proof (reachable_inv t (reach_init first speed t ev Hinit))
      as ((Hd & _) & _).
    pose proof (reachable_playInv t (reach_init first speed t ev Hinit))
      as [_ Hon].
    unfold init, onBase, clear, bind, modify, transmit in Hinit.
    cbn [base set_base] in Hinit.
    destruct (buildPacket _); [| discriminate].
    injection Hinit as <- _. intros Hfin.
    destruct (Hon Hfin) as (Htop & _).
    exact (spawn_afloat first _ (hasDims_rows _ _ _ Hd) Htop).
  - destruct (reachable_inv t Hreach) as (Hp & He & _).
    pose proof (reachable_playInv t Hreach) as Hplay.
    destruct (update_cases current next t t' ev Hupd) as (p & _ & Hcases).
    destruct Hcases
      as [(_ & Hc & _) | [(_ & _ & Hc & _) | (_ & _ & t1 & Ht & Hc & _)]].
    + exact (afloat_core _ _ Hc IH).
    + exact (afloat_core _ _ Hc IH).
    + apply (afloat_core _ _ Hc).
      exact (tick_afloat next
               (set_base (set_lastFrame current (base t)) t) t1
               Hp He Hplay IH Ht).
  - unfold setMovement. destruct (finished t); exact IH.
  - exact IH.
Qed.

(** X26: while the game is on, the dropping piece has room to fall: in every
    state the game reaches with the finished flag off, [hasLanded] answers
    false for the piece and the move one cell down is valid.  A piece that
    touches down is merged into the static grid by the very tick that
    brought it there, and the piece that follows it appears above free
    cells. *)
Theorem X26_piece_is_never_left_landed (t : Tetris) :
  reachable t ->
  finished t = false ->
  hasLanded t (pos (droppingTetro t)) (shape (droppingTetro t)) = Some false
  /\ isValidMove t (vecAdd (pos (droppingTetro t)) (Directions DOWN))
                 (shape (droppingTetro t)) = Some true.
Proof.
  intros Hr Hfin.
  pose proof (reachable_afloat t Hr Hfin) as Hl.
  split; [exact Hl |].
  destruct (reachable_inv t Hr) as ((Hd & _ & Hb & _) & _).
  pose proof (hasDims_rows _ _ _ Hd) as Hrows.
  apply inBounds_cells in Hb. unfold hasLanded in Hl. unfold isValidMove.
  destruct (hasLanded_scan_spec (currentBlocks t) (pos (droppingTetro t))
              (occupiedCells (shape (droppingTetro t))) Hrows)
    as (b1 & Hb1 & Hiff1).
  { eapply Forall_impl; [| exact Hb]. intros c [_ Hy]. lia. }
  destruct (isValidMove_scan_spec (currentBlocks t)
              (vecAdd (pos (droppingTetro t)) (Directions DOWN))
              (occupiedCells (shape (droppingTetro t))) Hrows)
    as (b2 & Hb2 & Hiff2).
  rewrite Hb2. f_equal. rewrite Hb1 in Hl. injection Hl as ->.
  apply Hiff2. cbn [vecAdd Directions vx vy].
  rewrite Forall_forall in Hb. apply Forall_forall. intros c Hin.
  destruct (Hb c Hin) as [Hx Hy].
  unfold inPlayfield in *. rewrite playHeight_eq, playWidth_eq in *.
  assert (Hnot : ~ (14 <= vy (pos (droppingTetro t)) + vy c + 1
                    \/ electrodeActive (currentBlocks t)
                         (vy (pos (droppingTetro t)) + vy c + 1)
                         (vx (pos (droppingTetro t)) + vx c) = true)).
  { intros H. assert (Hf : false = true)
      by (apply Hiff1; exists c; split; [exact Hin | exact H]).
    discriminate. }
  split; [split; [lia |] |].
  - destruct (Z_lt_dec (vy (pos (droppingTetro t)) + 1 + vy c) 14); lia.
  - replace (vy (pos (droppingTetro t)) + 1 + vy c)
      with (vy (pos (droppingTetro t)) + vy c + 1) by lia.
    replace (vx (pos (droppingTetro t)) + 0 + vx c)
      with (vx (pos (droppingTetro t)) + vx c) by lia.
    destruct (electrodeActive (currentBlocks t)
                (vy (pos (droppingTetro t)) + vy c + 1)
                (vx (pos (droppingTetro t)) + vx c)) eqn:E;
      [exfalso; apply Hnot; right; reflexivity | reflexivity].
Qed.

Lemma X26_witness :
  match started PYRAMID with
  | Some t =>
      reachable t
      /\ finished t = false
      /\ hasLanded t (pos (droppingTetro t)) (shape (droppingTetro t))
         = Some false
  | None => False
  end.
Proof.
  destruct (started PYRAMID) as [t |] eqn:E;
    [| vm_compute in E; discriminate].
  pose proof (started_reachable PYRAMID t E) as Hr.
  assert (Hfin : finished t = false)
    by (vm_compute in E; injection E as <-; reflexivity).
  split; [exact Hr |]. split; [exact Hfin |].
  exact (proj1 (X26_piece_is_never_left_landed t Hr Hfin)).
Defined.

(** ** One tick of play *)

Lemma fits_inBounds (blocks : Matrix) (p : Vec) (s : Shape) :
  fits blocks p s -> inBounds p s.
Proof. intros H x y Hc. exact (proj1 (H x y Hc)). Qed.

(** A tick with no rotation in progress or requested: the step in the
    direction [moving], then the landing test at the new place. *)
Lemma tick_plain (next : TetrominoType) (t t1 : Tetris) :
  Z.of_nat (length (currentBlocks t)) = playHeight ->
  finished t = false -> aboutRotate t = false ->
  rotationState t = NotRotating ->
  hasLanded t (pos (droppingTetro t)) (shape (droppingTetro t)) = Some false ->
  tick next t = Some t1 ->
  let s := shape (droppingTetro t) in
  let q := vecAdd (pos (droppingTetro t)) (Directions (moving t)) in
  moving t1 = DOWN
  /\ (~ fits (currentBlocks t) q s ->
      droppingTetro t1 = droppingTetro t
      /\ currentBlocks t1 = currentBlocks t)
  /\ (fits (currentBlocks t) q s -> hasLanded t q s = Some false ->
      droppingTetro t1 = set_pos q (droppingTetro t)
      /\ currentBlocks t1 = currentBlocks t)
  /\ (fits (currentBlocks t) q s -> hasLanded t q s = Some true ->
      (forall r c,
         electrodeActive (currentBlocks t1) r c = true
         <-> electrodeActive (currentBlocks t) r c = true \/ covers q s r c)
      /\ (finished t1 = true
          <-> exists c, electrodeActive (currentBlocks t1) topLevel c = true)
      /\ (finished t1 = false ->
          droppingTetro t1 = randomTetromino next tetroSpawnPosition
          /\ needFilling (base t1)
             = needFilling (base t)
               ++ map (queuedCell tetroSpawnPosition)
                      (occupiedCells (tetrominoShapes next)))).
Proof.
  intros Hrows Hfin Har Hnr Haf Ht. cbv zeta.
  set (s := shape (droppingTetro t)).
  set (q := vecAdd (pos (droppingTetro t)) (Directions (moving t))).
  unfold tick in Ht. rewrite Hfin in Ht.
  unfold tickMotion in Ht. rewrite Har, Hnr in Ht.
  cbn [RotationState_eqb] in Ht. unfold move in Ht. cbv zeta in Ht.
  fold q s in Ht.
  destruct (isValidMove_fits t q s Hrows) as (b & Hv & Hiff).
  rewrite Hv in Ht. unfold tickLanding in Ht. destruct b.
  - (* the piece goes to [q] *)
    assert (Hfit : fits (currentBlocks t) q s) by (apply Hiff; reflexivity).
    set (tm := set_moving DOWN
                 (set_droppingTetro (set_pos q (droppingTetro t)) t)) in *.
    change (hasLanded tm (pos (droppingTetro tm)) (shape (droppingTetro tm)))
      with (hasLanded t q s) in Ht.
    destruct (hasLanded t q s) as [[|] |] eqn:Hl; [| | discriminate].
    + (* and lands there *)
      destruct (finalizeTetromino_spec (resetRotationState tm))
        as (blocks' & Hfz & Hlen & Hreads & _);
        [exact Hrows | exact (fits_inBounds _ _ _ Hfit) |].
      rewrite Hfz in Ht. cbn [currentBlocks set_currentBlocks] in Ht.
      change (currentBlocks (resetRotationState tm))
        with (currentBlocks t) in Hlen, Hreads.
      change (pos (droppingTetro (resetRotationState tm))) with q in Hreads.
      change (shape (droppingTetro (resetRotationState tm))) with s in Hreads.
      destruct (getRow_Some blocks' topLevel) as [row Hrow].
      { rewrite Hlen. rewrite playHeight_eq in Hrows. unfold topLevel. lia. }
      rewrite Hrow in Ht.
      assert (Hrow3 : existsb (fun cell => cell) row = true <->
                      exists c, electrodeActive blocks' topLevel c = true).
      { rewrite existsb_row. unfold electrodeActive, getCell. rewrite Hrow.
        reflexivity. }
      destruct (existsb (fun cell => cell) row) eqn:Hex.
      * cbn [finished set_finished negb] in Ht. injection Ht as <-.
        split; [reflexivity |].
        split; [intros Hno; contradiction |].
        split; [intros _ H; discriminate |]. intros _ _.
        split; [exact Hreads |].
        split; [| cbn; discriminate].
        cbn. split; [intros _; apply Hrow3; reflexivity | reflexivity].
      * change (finished (set_currentBlocks blocks' (resetRotationState tm)))
          with (finished t) in Ht.
        rewrite Hfin in Ht. cbn [negb] in Ht. injection Ht as <-.
        match goal with
        | |- context [primeDroppingTetro ?u] =>
            pose proof (primeDroppingTetro_queue u) as Hq;
            destruct (primeDroppingTetro_keeps u)
              as ((Kp & Kb & Kf & Km & _) & _)
        end.
        split; [rewrite Km; reflexivity |].
        split; [intros Hno; contradiction |].
        split; [intros _ H; discriminate |]. intros _ _.
        rewrite Kb, Kf, Kp.
        split; [exact Hreads |].
        split; [| intros _; split; [reflexivity | exact Hq]].
        cbn. rewrite Hfin. split; [discriminate |].
        intros H. apply Hrow3 in H. discriminate.
    + (* and stays afloat *)
      injection Ht as <-.
      split; [reflexivity |].
      split; [intros Hno; contradiction |].
      split; [intros _ _; split; reflexivity |].
      intros _ H. discriminate.
  - (* the piece cannot go there *)
    assert (Hno : ~ fits (currentBlocks t) q s)
      by (intros H; apply Hiff in H; discriminate).
    change (hasLanded (set_moving DOWN t)
              (pos (droppingTetro (set_moving DOWN t)))
              (shape (droppingTetro (set_moving DOWN t))))
      with (hasLanded t (pos (droppingTetro t)) (shape (droppingTetro t)))
      in Ht.
    rewrite Haf in Ht. injection Ht as <-.
    split; [reflexivity |].
    split; [intros _; split; reflexivity |].
    split; intros Hfit; contradiction.
Qed.

(** X27: one tick of play, from the key to the board.  From a state the
    game reaches with the game on, the fill queue empty and no rotation in
    progress or requested, take [setMovement(d)] followed by an accepted
    [update].  If the piece does not fit one cell further in direction [d],
    it stays where it is and nothing lands; if it fits there and has not
    landed there, it is there afterwards; if it fits there and has landed
    there, its cells are added to the static grid, the game is over exactly
    when a block then lies in the top-level row, and otherwise the piece
    drawn next stands at the spawn position with its cells in the fill
    queue.  In every case [moving] is DOWN again. *)
Theorem X27_one_tick_of_play (d : Dir) (current : Z) (next : TetrominoType)
    (t t' : Tetris) (ev : list Event) :
  reachable t ->
  finished t = false ->
  needFilling (base t) = [] ->
  aboutRotate t = false ->
  rotationState t = NotRotating ->
  movementDelay (base t) < current - lastFrame (base t) ->
  update current next (setMovement d t) = Some (t', ev) ->
  let s := shape (droppingTetro t) in
  let q := vecAdd (pos (droppingTetro t)) (Directions d) in
  moving t' = DOWN
  /\ (~ fits (currentBlocks t) q s ->
      droppingTetro t' = droppingTetro t
      /\ currentBlocks t' = currentBlocks t)
  /\ (fits (currentBlocks t) q s -> hasLanded t q s = Some false ->
      droppingTetro t' = set_pos q (droppingTetro t)
      /\ currentBlocks t' = currentBlocks t)
  /\ (fits (currentBlocks t) q s -> hasLanded t q s = Some true ->
      (forall r c,
         electrodeActive (currentBlocks t') r c = true
         <-> electrodeActive (currentBlocks t) r c = true \/ covers q s r c)
      /\ (finished t' = true
          <-> exists c, electrodeActive (currentBlocks t') topLevel c = true)
      /\ (finished t' = false ->
          droppingTetro t' = randomTetromino next tetroSpawnPosition
          /\ needFilling (base t')
             = map (queuedCell tetroSpawnPosition)
                   (occupiedCells (tetrominoShapes next)))).
Proof.
  intros Hr Hfin Hq Har Hnr Hlate Hu. cbv zeta.
  destruct (reachable_inv t Hr) as ((Hd & _) & _).
  pose proof (hasDims_rows _ _ _ Hd) as Hrows.
  pose proof (reachable_afloat t Hr Hfin) as Haf.
  unfold setMovement in Hu. rewrite Hfin in Hu.
  destruct (update_cases current next _ t' ev Hu) as (p & _ & Hcases).
  destruct Hcases
    as [(Hel & _) | [(_ & Hne & _) | (_ & _ & t1 & Ht & Hc & He & _)]].
  { unfold elapsed in Hel. cbn [base set_moving] in Hel.
    apply Z.ltb_ge in Hel. lia. }
  { exfalso. apply Hne. exact Hq. }
  destruct Hc as (Cp & Cb & Cf & Cm & _).
  destruct He as (Eq & _).
  destruct (tick_plain next
              (set_base (set_lastFrame current (base (set_moving d t)))
                 (set_moving d t)) t1 Hrows Hfin Har Hnr Haf Ht)
    as (Tm & Tno & Tgo & Tland).
  cbn [currentBlocks droppingTetro moving set_base set_moving base
       needFilling set_lastFrame] in Tno, Tgo, Tland.
  rewrite Cm, Cp, Cb, Cf, Eq.
  split; [exact Tm |]. split; [exact Tno |]. split; [exact Tgo |].
  intros Hfit Hl. destruct (Tland Hfit Hl) as (T1 & T2 & T3).
  split; [exact T1 |]. split; [exact T2 |].
  intros Hon. destruct (T3 Hon) as [T4 T5].
  split; [exact T4 |]. rewrite T5, Hq. reflexivity.
Qed.

Lemma X27_witness :
  match started PYRAMID with
  | Some t0 =>
      match frames 21 1000 PYRAMID t0 with
      | Some t =>
          match update 30000 PYRAMID (setMovement LEFT t) with
          | Some (t', _) =>
              reachable t
              /\ needFilling (base t) = []
              /\ droppingTetro t' = set_pos (mkVec 1 4) (droppingTetro t)
          | None => False
          end
      | None => False
      end
  | None => False
  end.
Proof.
  destruct (started PYRAMID) as [t0 |] eqn:E0;
    [| vm_compute in E0; discriminate].
  pose proof (started_reachable PYRAMID t0 E0) as Hr0.
  destruct (frames 21 1000 PYRAMID t0) as [t |] eqn:E;
    [| vm_compute in E0; injection E0 as <-; vm_compute in E; discriminate].
  pose proof (frames_reachable 21 1000 PYRAMID t0 t Hr0 E) as Hr.
  vm_compute in E0. injection E0 as <-. vm_compute in E. injection E as <-.
  match type of Hr with reachable ?u => set (t := u) in * end.
  destruct (update 30000 PYRAMID (setMovement LEFT t)) as [[t' ev] |] eqn:U;
    [| vm_compute in U; discriminate].
  split; [exact Hr |]. split; [reflexivity |].
  destruct (X27_one_tick_of_play LEFT 30000 PYRAMID t t' ev Hr
              eq_refl eq_refl eq_refl eq_refl ltac:(vm_compute; reflexivity) U)
    as (_ & _ & Hgo & _).
  refine (proj1 (Hgo _ _)).
  - apply fits_cells. vm_compute. repeat constructor; try discriminate.
  - vm_compute. reflexivity.
Defined.
